(** * DS-AL: a shallow embedding of the course's data-structure programs

    Each C++ translation unit of the repository is a stand-alone program;
    the parts that the specification talks about are embedded here as Rocq
    functions, in one [Module] or more per source file.

    Conventions of the embedding
    - a C++ [int] is a [Z]; where the source can overflow, the wrap-around
      is written out with [wrap32];
    - an array ([T a[]], [std::vector<T>], [new T[n]]) is a [list T] read
      with [get a i] (the source's [a[i]]) and updated with [set a i v]
      (the source's [a[i] = v]);
    - a counted [for] loop is [for_up] / [for_down], running its body once
      per index; a [while] loop is [while], which takes fuel and answers
      [None] when the fuel does not suffice, so that every statement of the
      form "the routine returns r" is proved as [= Some r];
    - nodes reached through pointers that the program overwrites in place
      (the binary search tree) live in a store, a [list] of nodes, and a
      pointer is the address of a node in it or [None] for [nullptr]. *)

From stdpp Require Import list gmap strings.
From Stdlib Require Import ZArith Lia Sorting.Sorted Permutation Ascii.

Local Open Scope Z_scope.


(* ================================================================== *)
(** * Arrays indexed by machine integers                                *)
(* ================================================================== *)

Section Arrays.
Context {A : Type} `{Inhabited A}.

(** [a[i]] *)
Definition get (a : list A) (i : Z) : A := a !!! Z.to_nat i.

(** [a[i] = v] *)
Definition set (a : list A) (i : Z) (v : A) : list A := <[Z.to_nat i := v]> a.

Definition len (a : list A) : Z := Z.of_nat (length a).

Lemma len_nonneg (a : list A) : 0 <= len a.
Proof. unfold len. lia. Qed.

Lemma len_set (a : list A) i v : len (set a i v) = len a.
Proof. unfold len, set. by rewrite length_insert. Qed.

Lemma length_set (a : list A) i v : length (set a i v) = length a.
Proof. unfold set. by rewrite length_insert. Qed.

Lemma get_set_eq (a : list A) i v : 0 <= i < len a -> get (set a i v) i = v.
Proof.
  unfold get, set, len. intros Hi.
  apply list_lookup_total_correct, list_lookup_insert_eq. lia.
Qed.

Lemma get_set_ne (a : list A) i j v :
  0 <= i -> 0 <= j -> i <> j -> get (set a i v) j = get a j.
Proof.
  unfold get, set. intros Hi Hj Hne.
  rewrite list_lookup_total_insert_ne; [done | lia].
Qed.

Lemma get_set (a : list A) i j v :
  0 <= i < len a -> 0 <= j ->
  get (set a i v) j = if Z.eq_dec i j then v else get a j.
Proof.
  intros Hi Hj. destruct (Z.eq_dec i j) as [->|Hne].
  - by apply get_set_eq.
  - apply get_set_ne; lia.
Qed.

Lemma lookup_get (a : list A) i :
  0 <= i < len a -> a !! Z.to_nat i = Some (get a i).
Proof.
  unfold get, len. intros Hi. apply list_lookup_lookup_total_lt. lia.
Qed.

Lemma get_ext (a b : list A) :
  len a = len b -> (forall i, 0 <= i < len a -> get a i = get b i) -> a = b.
Proof.
  unfold len. intros Hl Hg. apply list_eq_same_length with (length a); [lia | done |].
  intros i x y Hi Hx Hy.
  specialize (Hg (Z.of_nat i)). unfold get in Hg. rewrite Nat2Z.id in Hg.
  rewrite (list_lookup_total_correct _ _ _ Hx) in Hg.
  rewrite (list_lookup_total_correct _ _ _ Hy) in Hg.
  apply Hg. unfold len. lia.
Qed.

Lemma get_app_l (a b : list A) i : 0 <= i < len a -> get (a ++ b) i = get a i.
Proof.
  unfold get, len. intros Hi. apply lookup_total_app_l. lia.
Qed.

Lemma get_app_r (a b : list A) i : len a <= i -> get (a ++ b) i = get b (i - len a).
Proof.
  unfold get, len. intros Hi. rewrite lookup_total_app_r by lia.
  f_equal. lia.
Qed.

Lemma get_cons_0 (x : A) a : get (x :: a) 0 = x.
Proof. reflexivity. Qed.

Lemma get_cons_S (x : A) a i : 0 < i -> get (x :: a) i = get a (i - 1).
Proof.
  unfold get. intros Hi.
  replace (Z.to_nat i) with (S (Z.to_nat (i - 1))) by lia. reflexivity.
Qed.

Lemma len_app (a b : list A) : len (a ++ b) = len a + len b.
Proof. unfold len. rewrite length_app. lia. Qed.

Lemma len_cons (x : A) a : len (x :: a) = 1 + len a.
Proof. unfold len. simpl. lia. Qed.

Lemma get_elem_of (a : list A) i : 0 <= i < len a -> get a i ∈ a.
Proof.
  intros Hi. apply list_elem_of_lookup. exists (Z.to_nat i). by apply lookup_get.
Qed.

Lemma elem_of_get (a : list A) x : x ∈ a -> exists i, 0 <= i < len a /\ get a i = x.
Proof.
  intros [i Hi]%list_elem_of_lookup. exists (Z.of_nat i).
  pose proof (lookup_lt_Some _ _ _ Hi). unfold len, get. split; [lia|].
  rewrite Nat2Z.id. by apply list_lookup_total_correct.
Qed.

(** Exchanging two cells permutes the array. *)
Lemma swap_Permutation (a : list A) i j :
  0 <= i < len a -> 0 <= j < len a ->
  Permutation (set (set a i (get a j)) j (get a i)) a.
Proof.
  intros Hi Hj. unfold set.
  apply Permutation_insert_swap; by apply lookup_get.
Qed.
End Arrays.

(* ================================================================== *)
(** * Loops                                                             *)
(* ================================================================== *)

Section Loops.
Context {St : Type}.

Fixpoint for_iter (k : nat) (i : Z) (step : Z) (body : Z -> St -> St) (s : St) : St :=
  match k with
  | O => s
  | S k' => for_iter k' (i + step) step body (body i s)
  end.

(** [for (i = lo; i < hi; ++i) s = body i s;] *)
Definition for_up (lo hi : Z) (body : Z -> St -> St) (s : St) : St :=
  for_iter (Z.to_nat (hi - lo)) lo 1 body s.

(** [for (k = hi; k > lo; --k) s = body k s;] *)
Definition for_down (hi lo : Z) (body : Z -> St -> St) (s : St) : St :=
  for_iter (Z.to_nat (hi - lo)) hi (-1) body s.

(** [while (c s) s = b s;] with fuel *)
Fixpoint while (fuel : nat) (c : St -> bool) (b : St -> St) (s : St) : option St :=
  match fuel with
  | O => None
  | S f => if c s then while f c b (b s) else Some s
  end.

Lemma for_up_inv (I : Z -> St -> Prop) lo hi body s :
  lo <= hi -> I lo s ->
  (forall i s, lo <= i < hi -> I i s -> I (i + 1) (body i s)) ->
  I hi (for_up lo hi body s).
Proof.
  unfold for_up. intros Hle H0 Hstep.
  remember (Z.to_nat (hi - lo)) as k eqn:Hk.
  revert lo s Hle H0 Hstep Hk. induction k as [|k IH]; intros lo s Hle H0 Hstep Hk.
  - simpl. replace hi with lo by lia. done.
  - simpl. apply IH; [lia | apply Hstep; [lia | done] | | lia].
    intros i s' Hi. apply Hstep. lia.
Qed.

Lemma for_up_nop lo hi body s : hi <= lo -> for_up lo hi body s = s.
Proof. unfold for_up. intros Hle. replace (Z.to_nat (hi - lo)) with O by lia. done. Qed.

Lemma for_down_inv (I : Z -> St -> Prop) hi lo body s :
  lo <= hi -> I hi s ->
  (forall k s, lo < k <= hi -> I k s -> I (k - 1) (body k s)) ->
  I lo (for_down hi lo body s).
Proof.
  unfold for_down. intros Hle H0 Hstep.
  remember (Z.to_nat (hi - lo)) as k eqn:Hk.
  revert hi s Hle H0 Hstep Hk. induction k as [|k IH]; intros hi s Hle H0 Hstep Hk.
  - simpl. replace lo with hi by lia. done.
  - simpl. apply IH; [lia | apply (Hstep hi); [lia | done] | | lia].
    intros i s' Hi. apply Hstep. lia.
Qed.

Lemma for_down_nop hi lo body s : hi <= lo -> for_down hi lo body s = s.
Proof. unfold for_down. intros Hle. replace (Z.to_nat (hi - lo)) with O by lia. done. Qed.

(** Total correctness of a [while] loop: an invariant and a variant give
    the fuel that suffices and the state the loop stops in. *)
Lemma while_rule (I : St -> Prop) (m : St -> Z) c b :
  (forall s, I s -> c s = true -> I (b s) /\ 0 <= m (b s) < m s) ->
  forall fuel s, I s -> 0 <= m s < Z.of_nat fuel ->
  exists s', while fuel c b s = Some s' /\ I s' /\ c s' = false.
Proof.
  intros Hstep fuel. induction fuel as [|f IH]; intros s Hs Hm; [lia|].
  simpl. destruct (c s) eqn:Hc.
  - destruct (Hstep s Hs Hc) as [Hb Hlt]. apply IH; [done | lia].
  - eauto.
Qed.
End Loops.

Section LoopsM.
Context {St : Type}.
(** a [while] loop whose body runs loops of its own *)
Fixpoint whileM (fuel : nat) (c : St -> bool) (b : St -> option St) (s : St) : option St :=
  match fuel with
  | O => None
  | S f => if c s then s' ← b s; whileM f c b s' else Some s
  end.

Lemma whileM_rule (I : St -> Prop) (m : St -> Z) c b :
  (forall s, I s -> c s = true -> exists s', b s = Some s' /\ I s' /\ 0 <= m s' < m s) ->
  forall fuel s, I s -> 0 <= m s < Z.of_nat fuel ->
  exists s', whileM fuel c b s = Some s' /\ I s' /\ c s' = false.
Proof.
  intros Hstep fuel. induction fuel as [|f IH]; intros s Hs Hm; [lia|].
  simpl. destruct (c s) eqn:Hc.
  - destruct (Hstep s Hs Hc) as (s' & -> & Hb & Hlt). simpl. apply IH; [done | lia].
  - eauto.
Qed.
End LoopsM.

Section Ranges.
Context {A : Type} `{Inhabited A}.

(** [a[lo..hi]], both ends included *)
Definition slice (a : list A) (lo hi : Z) : list A :=
  take (Z.to_nat (hi + 1 - lo)) (drop (Z.to_nat lo) a).

Definition same_outside (lo hi : Z) (a b : list A) : Prop :=
  len a = len b /\ forall k, 0 <= k < len a -> k < lo \/ hi < k -> get a k = get b k.

Lemma slice_split (a : list A) lo hi :
  0 <= lo -> lo <= hi + 1 -> hi < len a ->
  a = take (Z.to_nat lo) a ++ slice a lo hi ++ drop (Z.to_nat (hi + 1)) a.
Proof.
  intros Hlo Hle Hhi. unfold slice.
  rewrite <- (take_drop (Z.to_nat lo) a) at 1. f_equal.
  rewrite <- (take_drop (Z.to_nat (hi + 1 - lo)) (drop (Z.to_nat lo) a)) at 1. f_equal.
  rewrite drop_drop. f_equal. lia.
Qed.

Lemma len_slice (a : list A) lo hi :
  0 <= lo -> lo <= hi + 1 -> hi < len a -> len (slice a lo hi) = hi + 1 - lo.
Proof.
  unfold len, slice. intros. rewrite length_take, length_drop. rewrite Nat.min_l by lia. lia.
Qed.

Lemma get_slice (a : list A) lo hi k :
  0 <= lo -> hi < len a -> 0 <= k < hi + 1 - lo -> get (slice a lo hi) k = get a (lo + k).
Proof.
  unfold len, slice, get. intros.
  rewrite lookup_total_take, decide_True by lia. rewrite lookup_total_drop. f_equal. lia.
Qed.

Lemma same_outside_take (a b : list A) lo hi :
  same_outside lo hi a b -> 0 <= lo <= len a -> take (Z.to_nat lo) a = take (Z.to_nat lo) b.
Proof.
  intros [Hl Ho] Hlo. apply get_ext.
  - unfold len in *. rewrite !length_take. lia.
  - intros i Hi. unfold len in *. rewrite length_take in Hi. unfold get in *.
    rewrite !lookup_total_take, !decide_True by lia. apply Ho; lia.
Qed.

Lemma same_outside_drop (a b : list A) lo hi :
  same_outside lo hi a b -> -1 <= hi ->
  drop (Z.to_nat (hi + 1)) a = drop (Z.to_nat (hi + 1)) b.
Proof.
  intros [Hl Ho] Hhi. apply get_ext.
  - unfold len in *. rewrite !length_drop. lia.
  - intros i Hi. unfold len in *. rewrite length_drop in Hi. unfold get in *.
    rewrite !lookup_total_drop.
    specialize (Ho (hi + 1 + i)).
    replace (Z.to_nat (hi + 1 + i)) with (Z.to_nat (hi + 1) + Z.to_nat i)%nat in Ho by lia.
    apply Ho; lia.
Qed.

Lemma Permutation_slice (a b : list A) lo hi :
  0 <= lo -> lo <= hi + 1 -> hi < len a ->
  same_outside lo hi a b -> Permutation a b ->
  Permutation (slice a lo hi) (slice b lo hi).
Proof.
  intros Hlo Hle Hhi Hso Hp.
  pose proof Hso as [Hl _].
  rewrite (slice_split a lo hi), (slice_split b lo hi) in Hp by lia.
  rewrite (same_outside_take a b lo hi), (same_outside_drop a b lo hi) in Hp by (done || lia).
  apply Permutation_app_inv_l in Hp. by apply Permutation_app_inv_r in Hp.
Qed.

Lemma range_Forall (P : A -> Prop) (a : list A) lo hi :
  0 <= lo -> lo <= hi + 1 -> hi < len a ->
  (forall k, lo <= k <= hi -> P (get a k)) <-> Forall P (slice a lo hi).
Proof.
  intros Hlo Hle Hhi. rewrite Forall_forall. split.
  - intros HP x [k [Hk <-]]%elem_of_get. rewrite len_slice in Hk by lia.
    rewrite get_slice by lia. apply HP. lia.
  - intros HP k Hk. replace k with (lo + (k - lo)) by lia.
    rewrite <- (get_slice a lo hi) by lia. apply HP, get_elem_of.
    rewrite len_slice by lia. lia.
Qed.

(** A property of every cell of a range survives a permutation that
    happens inside the range. *)
Lemma range_perm_Forall (P : A -> Prop) (a b : list A) lo hi :
  0 <= lo -> lo <= hi + 1 -> hi < len a ->
  same_outside lo hi a b -> Permutation a b ->
  (forall k, lo <= k <= hi -> P (get a k)) ->
  (forall k, lo <= k <= hi -> P (get b k)).
Proof.
  intros Hlo Hle Hhi Hso Hp HP. pose proof Hso as [Hl _].
  apply range_Forall; [lia..|].
  rewrite <- (Permutation_slice a b lo hi) by (done || lia).
  apply range_Forall; (done || lia).
Qed.

Lemma same_outside_refl lo hi (a : list A) : same_outside lo hi a a.
Proof. by split. Qed.

Lemma same_outside_trans lo hi (a b c : list A) :
  same_outside lo hi a b -> same_outside lo hi b c -> same_outside lo hi a c.
Proof.
  intros [Hl1 H1] [Hl2 H2]. split; [lia|]. intros k Hk Ho.
  rewrite H1 by done. apply H2; lia.
Qed.

Lemma same_outside_mono lo hi lo' hi' (a b : list A) :
  lo' <= lo -> hi <= hi' -> same_outside lo hi a b -> same_outside lo' hi' a b.
Proof. intros ?? [Hl H1]. split; [done|]. intros k Hk Ho. apply H1; lia. Qed.
End Ranges.

(* ================================================================== *)
(** * Sorted arrays                                                     *)
(* ================================================================== *)

Section SortedArrays.
Lemma sorted_of_get (a : list Z) :
  (forall i j, 0 <= i -> i < j -> j < len a -> get a i <= get a j) ->
  StronglySorted Z.le a.
Proof.
  induction a as [|x a IH]; intros Hs; constructor.
  - apply IH. intros i j Hi Hij Hj.
    specialize (Hs (i + 1) (j + 1)). rewrite len_cons in Hs.
    rewrite !get_cons_S in Hs by lia.
    replace (i + 1 - 1) with i in Hs by lia. replace (j + 1 - 1) with j in Hs by lia.
    apply Hs; lia.
  - apply Forall_forall. intros y [j [Hj <-]]%elem_of_get.
    specialize (Hs 0 (j + 1)). rewrite len_cons, get_cons_0, get_cons_S in Hs by lia.
    replace (j + 1 - 1) with j in Hs by lia. apply Hs; lia.
Qed.

Lemma get_of_sorted (a : list Z) :
  StronglySorted Z.le a ->
  forall i j, 0 <= i -> i < j -> j < len a -> get a i <= get a j.
Proof.
  induction 1 as [|x a Hs IH Hx]; intros i j Hi Hij Hj.
  - unfold len in Hj. simpl in Hj. lia.
  - rewrite len_cons in Hj. rewrite (get_cons_S x a j) by lia.
    destruct (Z.eq_dec i 0) as [->|Hne].
    + rewrite get_cons_0. rewrite Forall_forall in Hx. apply Hx, get_elem_of. lia.
    + rewrite get_cons_S by lia. apply IH; lia.
Qed.
End SortedArrays.

(* ================================================================== *)
(** * Machine integers and exceptions                                   *)
(* ================================================================== *)

(** The value of a 32-bit [int] computation whose exact result is [z]. *)
Definition wrap32 (z : Z) : Z := (z + 2 ^ 31) mod 2 ^ 32 - 2 ^ 31.

Definition INT_MAX : Z := 2 ^ 31 - 1.

Lemma wrap32_small z : - 2 ^ 31 <= z < 2 ^ 31 -> wrap32 z = z.
Proof. intros Hz. unfold wrap32. rewrite Z.mod_small; lia. Qed.

(** The standard exceptions the programs throw. *)
Inductive exn : Type :=
  | out_of_range | invalid_argument | logic_error | runtime_error | overflow_error.

(** How a call that may throw ends; [OutOfFuel] is the answer of a model
    whose loops were given too little fuel, never that of the program. *)
Inductive outcome (A : Type) : Type :=
  | Returns (a : A)
  | Throws (e : exn)
  | OutOfFuel.
Arguments Returns {A} a.
Arguments Throws {A} e.
Arguments OutOfFuel {A}.

Section LoopsE.
Context {St : Type}.

Fixpoint for_iterE (k : nat) (i : Z) (body : Z -> St -> outcome St) (s : St) : outcome St :=
  match k with
  | O => Returns s
  | S k' =>
      match body i s with
      | Returns s' => for_iterE k' (i + 1) body s'
      | Throws e => Throws e
      | OutOfFuel => OutOfFuel
      end
  end.

(** [for (i = lo; i < hi; ++i) { ... throw ... }] *)
Definition for_upE (lo hi : Z) (body : Z -> St -> outcome St) (s : St) : outcome St :=
  for_iterE (Z.to_nat (hi - lo)) lo body s.

Lemma for_upE_inv (I : Z -> St -> Prop) lo hi body s :
  lo <= hi -> I lo s ->
  (forall i s, lo <= i < hi -> I i s -> exists s', body i s = Returns s' /\ I (i + 1) s') ->
  exists s', for_upE lo hi body s = Returns s' /\ I hi s'.
Proof.
  unfold for_upE. intros Hle H0 Hstep.
  remember (Z.to_nat (hi - lo)) as k eqn:Hk.
  revert lo s Hle H0 Hstep Hk. induction k as [|k IH]; intros lo s Hle H0 Hstep Hk.
  - simpl. replace hi with lo by lia. eauto.
  - simpl. destruct (Hstep lo s) as (s' & -> & Hs'); [lia | done |].
    apply IH; [lia | done | | lia].
    intros i s'' Hi. apply Hstep. lia.
Qed.

(** The same loop when its body may throw: it ends normally with the
    invariant, or with an exception the body threw. *)
Lemma for_upE_cases (I : Z -> St -> Prop) (E : exn -> Prop) lo hi body s :
  lo <= hi -> I lo s ->
  (forall i s, lo <= i < hi -> I i s ->
     (exists s', body i s = Returns s' /\ I (i + 1) s') \/
     (exists e, body i s = Throws e /\ E e)) ->
  (exists s', for_upE lo hi body s = Returns s' /\ I hi s') \/
  (exists e, for_upE lo hi body s = Throws e /\ E e).
Proof.
  unfold for_upE. intros Hle H0 Hstep.
  remember (Z.to_nat (hi - lo)) as k eqn:Hk.
  revert lo s Hle H0 Hstep Hk. induction k as [|k IH]; intros lo s Hle H0 Hstep Hk.
  - simpl. replace hi with lo by lia. left. eauto.
  - simpl. destruct (Hstep lo s) as [(s' & -> & Hs')|(e & -> & He)]; [lia | done | |].
    + apply IH; [lia | done | | lia]. intros i s'' Hi. apply Hstep. lia.
    + right. eauto.
Qed.
End LoopsE.

(** A C++ [char]; the default cell of a character buffer is NUL. *)
#[global] Instance ascii_inhabited : Inhabited ascii := populate zero.

(* ================================================================== *)
(** * 排序/交换排序.cpp : BubbleSort, Partition, QuickSort               *)
(* ================================================================== *)

Module ExchangeSort.
(** [BubbleSort(ElemType elem[], int n)] *)
Definition BubbleSort (elem : list Z) (n : Z) : list Z :=
  for_up 1 n (fun i elem =>
    for_up 0 (n - i) (fun j elem =>
      if get elem j >? get elem (j + 1) then
        let temp := get elem j in
        let elem := set elem j (get elem (j + 1)) in
        set elem (j + 1) temp
      else elem) elem) elem.

Definition bubble_outer (A : list Z) (n i : Z) (a : list Z) : Prop :=
  len a = n /\ Permutation a A /\
  forall p q, 0 <= p -> p < q -> q < n -> n - i + 1 <= q -> get a p <= get a q.

Definition bubble_inner (A : list Z) (n i j : Z) (a : list Z) : Prop :=
  bubble_outer A n i a /\ forall p, 0 <= p -> p < j -> get a p <= get a j.

Lemma BubbleSort_sorts (A : list Z) :
  let r := BubbleSort A (len A) in
  Permutation r A /\ StronglySorted Z.le r.
Proof.
  set (n := len A). cbn zeta.
  destruct (Z_le_gt_dec n 1) as [Hn|Hn].
  - unfold BubbleSort. rewrite for_up_nop by lia. split; [done|].
    apply sorted_of_get. fold n. lia.
  - assert (bubble_outer A n n (BubbleSort A n)) as (Hl & Hp & Hs).
    { unfold BubbleSort. apply (for_up_inv (bubble_outer A n)); [lia | |].
      - repeat split; [done|]. lia.
      - intros i a Hi Ha.
        assert (bubble_inner A n i (n - i) (for_up 0 (n - i) (fun j elem =>
          if get elem j >? get elem (j + 1) then
            let temp := get elem j in
            let elem := set elem j (get elem (j + 1)) in
            set elem (j + 1) temp
          else elem) a)) as [(Hl & Hp & Hs) Hmax].
        { apply (for_up_inv (bubble_inner A n i)); [lia | |].
          - split; [done|]. lia.
          - intros j b Hj [(Hl & Hp & Hs) Hmax].
            destruct (Z.gtb_spec (get b j) (get b (j + 1))) as [Hgt|Hle].
            + cbn zeta. repeat split.
              * by rewrite !len_set.
              * etransitivity; [|exact Hp]. apply swap_Permutation; lia.
              * intros p q Hp0 Hpq Hq Hqi.
                rewrite (get_set_ne _ (j + 1) q), (get_set_ne _ j q) by lia.
                rewrite !get_set by (rewrite ?len_set; lia).
                repeat destruct (Z.eq_dec _ _); try apply Hs; lia.
              * intros p Hp0 Hpj.
                rewrite get_set_eq by (rewrite len_set; lia).
                rewrite !get_set by (rewrite ?len_set; lia).
                repeat destruct (Z.eq_dec _ _); try lia.
                specialize (Hmax p). lia.
            + repeat split; try done.
              intros p Hp0 Hpj. destruct (Z.eq_dec p j) as [->|Hne]; [lia|].
              specialize (Hmax p). lia. }
        repeat split; try done.
        intros p q Hp0 Hpq Hq Hqi.
        destruct (Z.eq_dec q (n - i)) as [->|Hne]; [apply Hmax; lia | apply Hs; lia]. }
    split; [done|]. apply sorted_of_get. intros i j Hi Hij Hj. apply Hs; lia.
Qed.

(** The state of [Partition]'s loops: the array and the two cursors. *)
Definition pstate : Type := list Z * Z * Z.

(** [while (low < high && elem[high] >= pivot) --high;] *)
Definition scan_high_cond (pivot : Z) : pstate -> bool :=
  fun '(elem, low, high) => (low <? high) && (get elem high >=? pivot).
Definition scan_high_body : pstate -> pstate :=
  fun '(elem, low, high) => (elem, low, high - 1).

(** [while (low < high && elem[low] <= pivot) ++low;] *)
Definition scan_low_cond (pivot : Z) : pstate -> bool :=
  fun '(elem, low, high) => (low <? high) && (get elem low <=? pivot).
Definition scan_low_body : pstate -> pstate :=
  fun '(elem, low, high) => (elem, low + 1, high).

(** [while (low < high) { ... }]: the test, then the body. *)
Definition partition_cond : pstate -> bool :=
  fun '(_, low, high) => low <? high.

Definition partition_body (fuel : nat) (pivot : Z) : pstate -> option pstate :=
  fun s =>
    '(elem, low, high) ← while fuel (scan_high_cond pivot) scan_high_body s;
    let elem := set elem low (get elem high) in
    '(elem, low, high) ← while fuel (scan_low_cond pivot) scan_low_body (elem, low, high);
    let elem := set elem high (get elem low) in
    Some (elem, low, high).

(** [int Partition(ElemType elem[], int low, int high)]: the array after
    the call and the returned pivot position. *)
Definition Partition (elem : list Z) (low high : Z) : option (list Z * Z) :=
  let fuel := S (Z.to_nat (high - low)) in
  let pivot := get elem low in
  '(elem, low, high) ←
    whileM fuel partition_cond (partition_body fuel pivot) (elem, low, high);
  let elem := set elem low pivot in
  Some (elem, low).

(** [void QuickSort(ElemType elem[], int low, int high)]; the fuel bounds
    the depth of the recursion. *)
Fixpoint QuickSort_rec (fuel : nat) (elem : list Z) (low high : Z) : option (list Z) :=
  match fuel with
  | O => None
  | S f =>
      if low >=? high then Some elem
      else
        '(elem, pivotPos) ← Partition elem low high;
        elem ← QuickSort_rec f elem low (pivotPos - 1);
        QuickSort_rec f elem (pivotPos + 1) high
  end.

(** [void QuickSort(ElemType elem[], int n)] *)
Definition QuickSort (elem : list Z) (n : Z) : option (list Z) :=
  if n <=? 1 then Some elem else QuickSort_rec (Z.to_nat n) elem 0 (n - 1).

(** Moving the hole of the "dig a hole, fill it" scheme from [i] to [j]. *)
Lemma hole_move (e : list Z) i j v :
  0 <= i < len e -> 0 <= j < len e ->
  Permutation (set (set e i (get e j)) j v) (set e i v).
Proof.
  intros Hi Hj. destruct (Z.eq_dec i j) as [->|Hne].
  - unfold set. by rewrite list_insert_insert_eq.
  - pose proof (swap_Permutation (set e i v) i j) as Hsw.
    rewrite !len_set in Hsw. specialize (Hsw Hi Hj).
    rewrite (get_set_ne e i j), get_set_eq in Hsw by lia.
    unfold set in *. by rewrite list_insert_insert_eq in Hsw.
Qed.

Lemma scan_high_spec pivot fuel e l h :
  l <= h -> h - l < Z.of_nat fuel ->
  exists h', while fuel (scan_high_cond pivot) scan_high_body (e, l, h) = Some (e, l, h') /\
    l <= h' <= h /\ (forall k, h' < k <= h -> pivot <= get e k) /\
    (l = h' \/ get e h' < pivot).
Proof.
  intros Hlh Hf.
  destruct (while_rule
    (fun '(e', l', h') => e' = e /\ l' = l /\ l <= h' <= h /\
                          forall k, h' < k <= h -> pivot <= get e k)
    (fun '(_, l', h') => h' - l')
    (scan_high_cond pivot) scan_high_body) with (fuel := fuel) (s := (e, l, h))
    as ([[e' l'] h'] & Hw & (-> & -> & Hb & Hge) & Hc).
  - intros [[e' l'] h'] (-> & -> & Hb & Hge) Hc. simpl in *.
    apply andb_prop in Hc as [Hc1%Z.ltb_lt Hc2%Z.geb_le].
    repeat split; try lia. intros k Hk.
    destruct (Z.eq_dec k h') as [->|]; [done | apply Hge; lia].
  - repeat split; intros; lia.
  - lia.
  - exists h'. repeat split; try done; try lia.
    simpl in Hc. apply andb_false_iff in Hc as [Hc%Z.ltb_ge | Hc].
    + left. lia.
    + right. destruct (Z.geb_spec (get e h') pivot); [done | lia].
Qed.

Lemma scan_low_spec pivot fuel e l h :
  l <= h -> h - l < Z.of_nat fuel ->
  exists l', while fuel (scan_low_cond pivot) scan_low_body (e, l, h) = Some (e, l', h) /\
    l <= l' <= h /\ (forall k, l <= k < l' -> get e k <= pivot) /\
    (l' = h \/ pivot < get e l').
Proof.
  intros Hlh Hf.
  destruct (while_rule
    (fun '(e', l', h') => e' = e /\ h' = h /\ l <= l' <= h /\
                          forall k, l <= k < l' -> get e k <= pivot)
    (fun '(_, l', h') => h' - l')
    (scan_low_cond pivot) scan_low_body) with (fuel := fuel) (s := (e, l, h))
    as ([[e' l'] h'] & Hw & (-> & -> & Hb & Hge) & Hc).
  - intros [[e' l'] h'] (-> & -> & Hb & Hge) Hc. simpl in *.
    apply andb_prop in Hc as [Hc1%Z.ltb_lt Hc2%Z.leb_le].
    repeat split; try lia. intros k Hk.
    destruct (Z.eq_dec k l') as [->|]; [done | apply Hge; lia].
  - repeat split; intros; lia.
  - lia.
  - exists l'. repeat split; try done; try lia.
    simpl in Hc. apply andb_false_iff in Hc as [Hc%Z.ltb_ge | Hc%Z.leb_gt].
    + left. lia.
    + right. lia.
Qed.

(** The invariant of [Partition]'s outer loop: the cell [low] is the
    hole, cells left of it are at most the pivot, cells right of [high]
    are at least the pivot. *)
Definition partition_inv (a0 : list Z) (lo0 hi0 pivot : Z) : pstate -> Prop :=
  fun '(e, l, h) =>
    len e = len a0 /\ lo0 <= l <= h /\ h <= hi0 /\
    same_outside lo0 hi0 a0 e /\
    Permutation (set e l pivot) a0 /\
    (forall k, lo0 <= k < l -> get e k <= pivot) /\
    (forall k, h < k <= hi0 -> pivot <= get e k).

Lemma partition_body_spec a0 lo0 hi0 pivot fuel e l h :
  0 <= lo0 -> hi0 < len a0 -> hi0 - lo0 < Z.of_nat fuel ->
  partition_inv a0 lo0 hi0 pivot (e, l, h) -> l < h ->
  exists e' l' h', partition_body fuel pivot (e, l, h) = Some (e', l', h') /\
    partition_inv a0 lo0 hi0 pivot (e', l', h') /\ 0 <= h' - l' < h - l.
Proof.
  intros Hlo0 Hhi0 Hf (Hlen & Hl & Hh & Hso & Hperm & Hle & Hge) Hlh.
  unfold partition_body.
  destruct (scan_high_spec pivot fuel e l h) as (h1 & -> & Hh1 & Hge1 & Hex1); [lia..|].
  cbn [mbind option_bind].
  set (e1 := set e l (get e h1)).
  assert (len e1 = len e) as Hlen1 by apply len_set.
  destruct (scan_low_spec pivot fuel e1 l h1) as (l2 & -> & Hl2 & Hle2 & Hex2); [lia..|].
  cbn [mbind option_bind].
  set (e2 := set e1 h1 (get e1 l2)).
  assert (len e2 = len e) as Hlen2 by (unfold e2; rewrite len_set; done).
  exists e2, l2, h1. split; [done|]. split.
  - unfold partition_inv. repeat split; try lia.
    + intros k Hk Ho. destruct Hso as [_ Hso]. rewrite Hso by lia.
      unfold e2, e1. rewrite !get_set_ne; (done || lia).
    + etransitivity; [|exact Hperm].
      etransitivity; [apply hole_move; lia|].
      apply hole_move; lia.
    + intros k Hk. unfold e2. rewrite get_set_ne by lia.
      destruct (Z_lt_ge_dec k l) as [Hkl|Hkl].
      * unfold e1. rewrite get_set_ne by lia. apply Hle. lia.
      * apply Hle2. lia.
    + intros k Hk. unfold e2, e1. rewrite !get_set_ne by lia.
      destruct (Z_le_gt_dec k h) as [Hkh|Hkh]; [apply Hge1 | apply Hge]; lia.
  - split; [lia|].
    destruct (Z.eq_dec h1 h) as [->|]; [|lia].
    destruct Hex1 as [|Hex1]; [lia|].
    destruct (Z.eq_dec l2 l) as [->|]; [|lia].
    destruct Hex2 as [|Hex2]; [lia|].
    unfold e1 in Hex2. rewrite get_set_eq in Hex2 by lia. lia.
Qed.

Lemma Partition_spec (a : list Z) lo hi :
  0 <= lo -> lo <= hi -> hi < len a ->
  exists a' p, Partition a lo hi = Some (a', p) /\
    lo <= p <= hi /\ Permutation a' a /\ same_outside lo hi a a' /\
    (forall k, lo <= k < p -> get a' k <= get a' p) /\
    (forall k, p < k <= hi -> get a' p <= get a' k).
Proof.
  intros Hlo Hle Hhi. unfold Partition.
  set (fuel := S (Z.to_nat (hi - lo))). set (pivot := get a lo).
  destruct (whileM_rule (partition_inv a lo hi pivot) (fun '(_, l, h) => h - l)
    partition_cond (partition_body fuel pivot))
    with (fuel := fuel) (s := (a, lo, hi))
    as ([[e l] h] & -> & (Hlen & Hl & Hh & Hso & Hperm & Hlep & Hgep) & Hc).
  - intros [[e l] h] Hinv Hc%Z.ltb_lt.
    destruct (partition_body_spec a lo hi pivot fuel e l h) as (e' & l' & h' & ? & ? & ?);
      try done; [unfold fuel; lia|].
    by exists (e', l', h').
  - unfold partition_inv. split; [done|]. split; [lia|]. split; [lia|].
    split; [apply same_outside_refl|]. split; [|split; intros; lia].
    unfold set, pivot. rewrite list_insert_id; [done | apply lookup_get; lia].
  - unfold fuel. lia.
  - apply Z.ltb_ge in Hc. assert (h = l) as -> by lia.
    cbn [mbind option_bind]. eexists _, _. split; [done|].
    destruct Hso as [_ Hso].
    repeat split; try done; try lia.
    + by rewrite len_set.
    + intros k Hk Ho. rewrite get_set_ne by lia. by apply Hso.
    + intros k Hk. rewrite get_set_eq, get_set_ne by lia. apply Hlep. lia.
    + intros k Hk. rewrite get_set_eq, get_set_ne by lia. apply Hgep. lia.
Qed.

Lemma QuickSort_rec_spec fuel :
  forall (a : list Z) lo hi,
    0 <= lo -> hi < len a -> hi - lo < Z.of_nat fuel -> (0 < fuel)%nat ->
    exists a', QuickSort_rec fuel a lo hi = Some a' /\
      Permutation a' a /\ same_outside lo hi a a' /\
      forall i j, lo <= i -> i < j -> j <= hi -> get a' i <= get a' j.
Proof.
  induction fuel as [|f IH]; intros a lo hi Hlo Hhi Hf Hpos; [lia|].
  simpl. destruct (Z.geb_spec lo hi) as [Hge|Hlt].
  - exists a. repeat split; try done. intros; lia.
  - destruct (Partition_spec a lo hi) as (a1 & p & -> & Hp & Hperm1 & Hso1 & Hl1 & Hr1); [lia..|].
    cbn [mbind option_bind].
    pose proof Hso1 as [Hlen1 _].
    destruct (IH a1 lo (p - 1)) as (a2 & -> & Hperm2 & Hso2 & Hs2); [lia..|].
    cbn [mbind option_bind].
    pose proof Hso2 as [Hlen2 Hout2].
    destruct (IH a2 (p + 1) hi) as (a3 & -> & Hperm3 & Hso3 & Hs3); [lia..|].
    pose proof Hso3 as [Hlen3 Hout3].
    exists a3. split; [done|]. split; [by rewrite Hperm3, Hperm2|]. split.
    { eapply same_outside_trans; [exact Hso1|].
      eapply same_outside_trans; eapply same_outside_mono; try eassumption; lia. }
    assert (forall k, lo <= k <= p - 1 -> get a2 k <= get a1 p) as Hleft.
    { apply (range_perm_Forall (fun x => x <= get a1 p) a1 a2 lo (p - 1)); try done; try lia.
      intros k Hk. apply Hl1. lia. }
    assert (forall k, p + 1 <= k <= hi -> get a1 p <= get a3 k) as Hright.
    { apply (range_perm_Forall (fun x => get a1 p <= x) a2 a3 (p + 1) hi); try done; try lia.
      intros k Hk. rewrite <- Hout2 by lia. apply Hr1. lia. }
    assert (get a3 p = get a1 p) as Hp3.
    { rewrite <- Hout3 by lia. rewrite <- Hout2 by lia. done. }
    assert (forall k, lo <= k <= p - 1 -> get a3 k = get a2 k) as Hl3.
    { intros k Hk. rewrite <- Hout3 by lia. done. }
    intros i j Hi Hij Hj.
    destruct (Z_lt_ge_dec j p) as [Hjp|Hjp].
    + rewrite !Hl3 by lia. apply Hs2; lia.
    + destruct (Z_lt_ge_dec i p) as [Hip|Hip].
      * rewrite (Hl3 i) by lia. transitivity (get a1 p); [apply Hleft; lia|].
        destruct (Z.eq_dec j p) as [->|]; [lia | apply Hright; lia].
      * destruct (Z.eq_dec i p) as [->|].
        -- rewrite Hp3. apply Hright. lia.
        -- apply Hs3; lia.
Qed.

Lemma QuickSort_sorts (A : list Z) :
  exists r, QuickSort A (len A) = Some r /\ Permutation r A /\ StronglySorted Z.le r.
Proof.
  unfold QuickSort. destruct (Z.leb_spec (len A) 1) as [Hn|Hn].
  - exists A. repeat split; try done. apply sorted_of_get. lia.
  - destruct (QuickSort_rec_spec (Z.to_nat (len A)) A 0 (len A - 1))
      as (r & -> & Hperm & [Hlen _] & Hs); [lia..|].
    exists r. repeat split; try done. apply sorted_of_get.
    intros i j Hi Hij Hj. apply Hs; lia.
Qed.
End ExchangeSort.

(* ================================================================== *)
(** * 排序/基数排序.cpp : RadixSortLSD                                   *)
(* ================================================================== *)

Module RadixSort.
(** [int DigitsInBase(int x, int radix)]; an [int] has 31 value bits, so
    32 rounds of fuel are enough for every radix of at least 2. *)
Definition DigitsInBase (x radix : Z) : option Z :=
  if x =? 0 then Some 1
  else
    '(_, d) ← while 32 (fun '(x, _) => x >? 0)
                       (fun '(x, d) => (Z.quot x radix, d + 1)) (x, 0);
    Some d.

(** The chain of [Node]s hanging from [head] is the list of its keys. *)
Abbreviation chain := (list Z) (only parsing).

(** Distribution: every node is unhooked and appended to the tail of the
    bucket of its current digit. *)
Definition distribute (radix exp : Z) (head : chain) : list chain :=
  fold_left (fun buckets key =>
               let digit := Z.rem (Z.quot key exp) radix in
               set buckets digit (get buckets digit ++ [key]))
            head (replicate (Z.to_nat radix) []).

(** Collection: the non-empty buckets are linked in the order of their
    digit. *)
Definition collect (radix : Z) (buckets : list chain) : chain :=
  for_up 0 radix (fun digit head =>
                    match get buckets digit with
                    | [] => head
                    | b => head ++ b
                    end) [].

(** One pass of [for (int pass = 0; pass < d; ++pass)]: distribute,
    collect, [exp *= radix]. *)
Definition pass_body (radix : Z) (pass : Z) : chain * Z -> chain * Z :=
  fun '(head, exp) =>
    let head := collect radix (distribute radix exp head) in
    (head, wrap32 (exp * radix)).

(** [a[i] = cur->key; cur = cur->next;] *)
Definition store_body (i : Z) : list Z * chain -> list Z * chain :=
  fun '(a, cur) =>
    match cur with
    | key :: next => (set a i key, next)
    | [] => (a, [])
    end.

(** [void RadixSortLSD(int a[], int n, int radix = 10)] *)
Definition RadixSortLSD (a : list Z) (n : Z) (radix : Z) : outcome (list Z) :=
  if n <=? 1 then Returns a
  else if radix <=? 1 then Throws invalid_argument
  else
    match for_upE 0 n (fun i maxVal =>
              if get a i <? 0 then Throws invalid_argument
              else Returns (Z.max maxVal (get a i))) 0 with
    | Returns maxVal =>
        match DigitsInBase maxVal radix with
        | Some d =>
            let head := for_up 0 n (fun i head => head ++ [get a i]) [] in
            let '(head, _) := for_up 0 d (pass_body radix) (head, 1) in
            let '(a, _) := for_up 0 n store_body (a, head) in
            Returns a
        | None => OutOfFuel
        end
    | Throws e => Throws e
    | OutOfFuel => OutOfFuel
    end.

Example RadixSortLSD_demo :
  RadixSortLSD [170; 45; 75; 90; 802; 24; 2; 66] 8 10
  = Returns [2; 24; 45; 66; 75; 90; 170; 802].
Proof. vm_compute. reflexivity. Qed.

Example RadixSortLSD_negative : RadixSortLSD [3; -1; 2] 3 10 = Throws invalid_argument.
Proof. vm_compute. reflexivity. Qed.

(** ** One distribute-and-collect pass is a stable bucket sort *)

Section StableBuckets.
Variable f : Z -> Z.

(** The buckets [0 .. n-1] of [l], one after the other, each in the
    order of [l]. *)
Definition bucket_pass (n : Z) (l : list Z) : list Z :=
  seqZ 0 n ≫= (fun d => filter (fun x => f x = d) l).

Lemma bucket_pass_S (k : nat) l :
  bucket_pass (Z.of_nat (S k)) l
  = bucket_pass (Z.of_nat k) l ++ filter (fun x => f x = Z.of_nat k) l.
Proof.
  unfold bucket_pass. rewrite seqZ_S, bind_app. simpl. by rewrite app_nil_r.
Qed.

Lemma filter_lt_S (k : Z) (l : list Z) :
  Permutation (filter (fun x => f x < k + 1) l)
              (filter (fun x => f x < k) l ++ filter (fun x => f x = k) l).
Proof.
  induction l as [|x l IH]; [done|].
  rewrite !filter_cons.
  destruct (decide (f x < k + 1)), (decide (f x < k)), (decide (f x = k)); try lia.
  - simpl. by constructor.
  - rewrite <- Permutation_middle. by constructor.
  - done.
Qed.

Lemma bucket_pass_filter (k : nat) (l : list Z) :
  (forall x, x ∈ l -> 0 <= f x) ->
  Permutation (bucket_pass (Z.of_nat k) l) (filter (fun x => f x < Z.of_nat k) l).
Proof.
  intros Hf. induction k as [|k IH].
  - unfold bucket_pass. simpl. symmetry. apply Permutation_nil_r.
    induction l as [|x l IHl]; [done|]. rewrite filter_cons.
    destruct (decide _) as [Hlt|_].
    + specialize (Hf x ltac:(left)). simpl in Hlt. lia.
    + apply IHl. intros y Hy. apply Hf. by right.
  - rewrite bucket_pass_S, IH. symmetry.
    replace (Z.of_nat (S k)) with (Z.of_nat k + 1) by lia. apply filter_lt_S.
Qed.

Lemma bucket_pass_Permutation (n : Z) (l : list Z) :
  (forall x, x ∈ l -> 0 <= f x < n) -> Permutation (bucket_pass n l) l.
Proof.
  intros Hf. assert (0 <= n \/ l = []) as [Hn| ->].
  { destruct l as [|x l]; [by right|]. specialize (Hf x ltac:(left)). lia. }
  - replace n with (Z.of_nat (Z.to_nat n)) by lia.
    rewrite bucket_pass_filter by (intros x Hx; specialize (Hf x Hx); lia).
    assert (filter (fun x => f x < Z.of_nat (Z.to_nat n)) l = l) as ->; [|done].
    clear Hn. induction l as [|x l IHl]; [done|].
    rewrite filter_cons. destruct (decide _) as [_|Hge].
    + f_equal. apply IHl. intros y Hy. apply Hf. by right.
    + specialize (Hf x ltac:(left)). lia.
  - unfold bucket_pass. induction (seqZ 0 n) as [|d ds IH]; [done|]. simpl. done.
Qed.

Lemma elem_of_bucket_pass (k : nat) l x :
  x ∈ bucket_pass (Z.of_nat k) l -> x ∈ l /\ 0 <= f x < Z.of_nat k.
Proof.
  unfold bucket_pass. intros (d & Hx & Hd)%list_elem_of_bind.
  apply list_elem_of_filter in Hx as [-> Hx]. apply elem_of_seqZ in Hd. split; [done | lia].
Qed.
End StableBuckets.

Lemma StronglySorted_app_intro {A} (R : A -> A -> Prop) (l1 l2 : list A) :
  StronglySorted R l1 -> StronglySorted R l2 ->
  (forall x y, x ∈ l1 -> y ∈ l2 -> R x y) ->
  StronglySorted R (l1 ++ l2).
Proof.
  intros H1 H2 H12. induction H1 as [|x l1 Hs IH Hx]; [done|].
  simpl. constructor.
  - apply IH. intros y z Hy Hz. apply H12; [by right | done].
  - apply Forall_app. split; [done|].
    apply Forall_forall. intros y Hy. apply H12; [by left | done].
Qed.

Lemma StronglySorted_filter {A} (R : A -> A -> Prop) (P : A -> Prop)
    `{forall x, Decision (P x)} (l : list A) :
  StronglySorted R l -> StronglySorted R (filter P l).
Proof.
  induction 1 as [|x l Hs IH Hx]; [constructor|].
  rewrite filter_cons. destruct (decide (P x)); [|done].
  constructor; [done|]. rewrite Forall_forall in *.
  intros y [_ Hy]%list_elem_of_filter. by apply Hx.
Qed.

Lemma StronglySorted_weaken {A} (R R' : A -> A -> Prop) (l : list A) :
  (forall x y, x ∈ l -> y ∈ l -> R x y -> R' x y) ->
  StronglySorted R l -> StronglySorted R' l.
Proof.
  intros HR Hs. induction Hs as [|x l Hs IH Hx]; [constructor|].
  constructor.
  - apply IH. intros y z Hy Hz. apply HR; by right.
  - rewrite Forall_forall in *. intros y Hy. apply HR; [by left | by right | by apply Hx].
Qed.

(** ** Digits *)

Section Digits.
Variable radix : Z.
Hypothesis radix_ge_2 : 2 <= radix.

(** The order of the keys when only the [p] low digits are looked at. *)
Definition le_low (p : Z) (x y : Z) : Prop := x mod radix ^ p <= y mod radix ^ p.

Definition digit (p : Z) (x : Z) : Z := (x / radix ^ p) mod radix.

Lemma pow_pos p : 0 <= p -> 0 < radix ^ p.
Proof. intros. apply Z.pow_pos_nonneg; lia. Qed.

Lemma digit_range p x : 0 <= digit p x < radix.
Proof. unfold digit. apply Z.mod_pos_bound. lia. Qed.

Lemma mod_pow_succ p x :
  0 <= p -> x mod radix ^ (p + 1) = x mod radix ^ p + radix ^ p * digit p x.
Proof.
  intros Hp. rewrite Z.pow_add_r, Z.pow_1_r by lia.
  pose proof (pow_pos p Hp). unfold digit. apply Z.rem_mul_r; lia.
Qed.

(** A stable bucket sort on digit [p] turns the order on [p] digits
    into the order on [p + 1] digits. *)
Lemma bucket_pass_sorted p (l : list Z) :
  0 <= p -> StronglySorted (le_low p) l ->
  StronglySorted (le_low (p + 1)) (bucket_pass (digit p) radix l).
Proof.
  intros Hp Hs. pose proof (pow_pos p Hp) as Hpow.
  assert (forall k : nat,
    StronglySorted (le_low (p + 1)) (bucket_pass (digit p) (Z.of_nat k) l)) as Hk;
    [|specialize (Hk (Z.to_nat radix)); by rewrite Z2Nat.id in Hk by lia].
  induction k as [|k IH]; [constructor|].
  rewrite bucket_pass_S. apply StronglySorted_app_intro; [done | |].
  - apply StronglySorted_weaken with (R := le_low p).
    + intros x y [Hx _]%list_elem_of_filter [Hy _]%list_elem_of_filter Hle.
      unfold le_low in *. rewrite !mod_pow_succ by done. rewrite Hx, Hy. lia.
    + by apply StronglySorted_filter.
  - intros x y [_ Hx]%elem_of_bucket_pass [Hy _]%list_elem_of_filter.
    unfold le_low. rewrite !mod_pow_succ by done. rewrite Hy.
    pose proof (Z.mod_pos_bound x (radix ^ p) Hpow).
    pose proof (Z.mod_pos_bound y (radix ^ p) Hpow). nia.
Qed.
End Digits.
(** ** The loops of [RadixSortLSD] *)

Lemma DigitsInBase_spec x radix :
  2 <= radix -> 0 <= x <= INT_MAX ->
  exists d, DigitsInBase x radix = Some d /\ 1 <= d /\ x < radix ^ d /\
            (radix ^ (d - 1) <= x \/ d = 1).
Proof.
  intros Hr Hx. unfold DigitsInBase, INT_MAX in *.
  destruct (Z.eqb_spec x 0) as [->|Hx0].
  { exists 1. repeat split; try lia. }
  destruct (while_rule
    (fun '(y, k) => 0 <= k /\ y = x / radix ^ k /\ (k = 0 \/ radix ^ (k - 1) <= x))
    (fun '(y, _) => if y <=? 0 then 0 else Z.log2 y + 1)
    (fun '(x, _) => x >? 0) (fun '(x, d) => (Z.quot x radix, d + 1)))
    with (fuel := 32%nat) (s := (x, 0)) as ([y k] & -> & (Hk & Hy & Hlow) & Hc).
  - intros [y k] (Hk & Hy & Hlow) Hc.
    assert (0 < y) as Hpos by (destruct (Z.gtb_spec y 0); [lia | done]).
    assert (0 < radix ^ k) as Hpow by (apply Z.pow_pos_nonneg; lia).
    rewrite Z.quot_div_nonneg by lia. split; [split; [lia|]; split|].
    + rewrite Hy, Z.div_div, Z.pow_add_r, Z.pow_1_r by lia. done.
    + right. replace (k + 1 - 1) with k by lia.
      destruct (Z_lt_ge_dec x (radix ^ k)) as [Hlt|]; [|lia].
      rewrite Z.div_small in Hy by lia. lia.
    + destruct (Z.leb_spec y 0); [lia|].
      assert (0 <= y / radix <= y / 2) as Hdiv.
      { split; [apply Z.div_pos; lia | apply Z.div_le_compat_l; lia]. }
      pose proof (Z.log2_nonneg y).
      destruct (Z.leb_spec (y / radix) 0) as [|Hq]; [lia|].
      assert (2 * (y / radix) <= y) by (pose proof (Z.mul_div_le y 2); lia).
      assert (Z.log2 (2 * (y / radix)) <= Z.log2 y) as Hlog by (apply Z.log2_le_mono; lia).
      rewrite (Z.log2_double _ Hq) in Hlog.
      pose proof (Z.log2_nonneg (y / radix)). lia.
  - repeat split; try lia. by rewrite Z.pow_0_r, Z.div_1_r.
  - destruct (Z.leb_spec x 0); [lia|].
    assert (Z.log2 x < 31) by (apply Z.log2_lt_pow2; lia).
    pose proof (Z.log2_nonneg x). lia.
  - cbn [mbind option_bind]. exists k.
    assert (0 < radix ^ k) as Hpow by (apply Z.pow_pos_nonneg; lia).
    assert (y <= 0) by (destruct (Z.gtb_spec y 0); [done | lia]).
    assert (0 <= x / radix ^ k) by (apply Z.div_pos; lia).
    assert (x < radix ^ k).
    { assert (x / radix ^ k = 0) as Hz by lia.
      apply Z.div_small_iff in Hz; lia. }
    assert (k <> 0). { intros ->. rewrite Z.pow_0_r in *. lia. }
    split; [done|]. repeat split; try lia.
Qed.

Lemma distribute_spec radix p (l : list Z) :
  2 <= radix -> 0 <= p -> (forall x, x ∈ l -> 0 <= x) ->
  forall (bs : list chain), len bs = radix ->
  let r := fold_left (fun buckets key =>
               let digit := Z.rem (Z.quot key (radix ^ p)) radix in
               set buckets digit (get buckets digit ++ [key])) l bs in
  len r = radix /\
  forall d, 0 <= d < radix -> get r d = get bs d ++ filter (fun x => digit radix p x = d) l.
Proof.
  intros Hr Hp. induction l as [|x l IH]; intros Hl bs Hbs; simpl.
  - split; [done|]. intros d Hd. by rewrite app_nil_r.
  - assert (0 <= x) as Hx by (apply Hl; left).
    assert (0 < radix ^ p) as Hpow by (apply Z.pow_pos_nonneg; lia).
    assert (Z.rem (Z.quot x (radix ^ p)) radix = digit radix p x) as ->.
    { unfold digit. rewrite Z.quot_div_nonneg by lia.
      apply Z.rem_mod_nonneg; [apply Z.div_pos; lia | lia]. }
    pose proof (digit_range radix Hr p x) as Hdx.
    destruct (IH (fun y Hy => Hl y (list_elem_of_further _ _ _ Hy))
                 (set bs (digit radix p x) (get bs (digit radix p x) ++ [x])))
      as [Hlen Hget]; [by rewrite len_set|].
    split; [done|]. intros d Hd. rewrite Hget by done.
    rewrite filter_cons, get_set by lia.
    destruct (Z.eq_dec (digit radix p x) d) as [->|Hne].
    + rewrite decide_True by done. by rewrite <- app_assoc.
    + by rewrite decide_False.
Qed.

Lemma collect_spec radix p (l : list Z) (bs : list chain) :
  0 <= radix ->
  (forall d, 0 <= d < radix -> get bs d = filter (fun x => digit radix p x = d) l) ->
  collect radix bs = bucket_pass (digit radix p) radix l.
Proof.
  intros Hr Hbs. unfold collect.
  apply (for_up_inv (fun d head => head = bucket_pass (digit radix p) d l)); [done..|].
  intros d head Hd ->.
  assert (match get bs d with [] => bucket_pass (digit radix p) d l
                         | b => bucket_pass (digit radix p) d l ++ b end
          = bucket_pass (digit radix p) d l ++ get bs d) as ->.
  { destruct (get bs d); [by rewrite app_nil_r | done]. }
  rewrite Hbs by done. unfold bucket_pass.
  rewrite seqZ_app, bind_app by lia. f_equal.
  replace (seqZ (0 + d) 1) with [d]; [simpl; by rewrite app_nil_r|].
  unfold seqZ. simpl. f_equal; lia.
Qed.

Lemma pass_spec radix p (l : list Z) :
  2 <= radix -> 0 <= p -> (forall x, x ∈ l -> 0 <= x) ->
  collect radix (distribute radix (radix ^ p) l) = bucket_pass (digit radix p) radix l.
Proof.
  intros Hr Hp Hl. unfold distribute.
  destruct (distribute_spec radix p l Hr Hp Hl (replicate (Z.to_nat radix) []))
    as [_ Hget].
  { unfold len. rewrite length_replicate. lia. }
  apply collect_spec; [lia|]. intros d Hd. rewrite Hget by done.
  unfold get. rewrite lookup_total_replicate_2 by lia. done.
Qed.

Lemma load_chain (a : list Z) :
  for_up 0 (len a) (fun i head => head ++ [get a i]) [] = a.
Proof.
  assert (for_up 0 (len a) (fun i head => head ++ [get a i]) []
          = take (Z.to_nat (len a)) a) as ->.
  { apply (for_up_inv (fun i head => head = take (Z.to_nat i) a)); [apply len_nonneg | done |].
    intros i head Hi ->. replace (Z.to_nat (i + 1)) with (S (Z.to_nat i)) by lia.
    symmetry. apply take_S_r. apply lookup_get. lia. }
  apply take_ge. unfold len. lia.
Qed.

Lemma store_chain (a head : list Z) :
  len head = len a ->
  fst (for_up 0 (len a) store_body (a, head)) = head.
Proof.
  intros Hlen.
  assert (let '(a', cur) := for_up 0 (len a) store_body (a, head) in
          len a' = len a /\ cur = drop (Z.to_nat (len a)) head /\
          take (Z.to_nat (len a)) a' = take (Z.to_nat (len a)) head) as Hinv.
  { apply (for_up_inv
      (fun i '(a', cur) => len a' = len a /\ cur = drop (Z.to_nat i) head /\
                           take (Z.to_nat i) a' = take (Z.to_nat i) head)).
    - apply len_nonneg.
    - done.
    - intros i [b cur'] Hi (Hl & -> & Ht). unfold store_body.
      replace (Z.to_nat (i + 1)) with (S (Z.to_nat i)) by lia.
      rewrite (drop_S head (get head i) (Z.to_nat i)) by (apply lookup_get; lia).
      rewrite len_set. split; [done|]. split; [done|].
      rewrite (take_S_r head (Z.to_nat i) (get head i)) by (apply lookup_get; lia).
      unfold set. rewrite (take_S_r _ (Z.to_nat i) (get head i)).
      + rewrite take_insert, decide_False by lia. by rewrite Ht.
      + apply list_lookup_insert_eq. unfold len in *. lia. }
  destruct (for_up 0 (len a) store_body (a, head)) as [a' cur]. simpl.
  destruct Hinv as (Hl & _ & Ht).
  rewrite !take_ge in Ht; [done | unfold len in *; lia..].
Qed.

(** ** Correctness of [RadixSortLSD] on non-negative keys *)

Lemma RadixSortLSD_sorts (A : list Z) (radix : Z) :
  2 <= radix -> (forall x, x ∈ A -> 0 <= x <= INT_MAX) ->
  exists r, RadixSortLSD A (len A) radix = Returns r /\
            Permutation r A /\ StronglySorted Z.le r.
Proof.
  intros Hr HA. unfold RadixSortLSD.
  destruct (Z.leb_spec (len A) 1) as [Hn|Hn].
  { exists A. repeat split; try done. apply sorted_of_get. lia. }
  destruct (Z.leb_spec radix 1) as [|_]; [lia|].
  (* 1) the largest key *)
  destruct (for_upE_inv
    (fun i m => 0 <= m <= INT_MAX /\ forall j, 0 <= j < i -> get A j <= m)
    0 (len A)
    (fun i maxVal => if get A i <? 0 then Throws invalid_argument
                     else Returns (Z.max maxVal (get A i))) 0)
    as (maxVal & -> & Hmax & Hle).
  { lia. }
  { unfold INT_MAX. split; [lia|]. intros; lia. }
  { intros i m Hi [Hm Hle].
    pose proof (HA (get A i) (get_elem_of A i Hi)) as Hai.
    destruct (Z.ltb_spec (get A i) 0); [lia|].
    eexists. split; [done|]. split; [lia|].
    intros j Hj. destruct (Z.eq_dec j i) as [->|]; [lia|].
    specialize (Hle j). lia. }
  destruct (DigitsInBase_spec maxVal radix Hr Hmax) as (d & -> & Hd & Hlt & Hlow).
  (* 2) the chain of nodes *)
  rewrite load_chain.
  (* 3) the passes *)
  assert (let '(head, exp) := for_up 0 d (pass_body radix) (A, 1) in
          Permutation head A /\ StronglySorted (le_low radix d) head) as Hpass.
  { assert (forall s : chain * Z,
              (let '(head, exp) := s in
               Permutation head A /\ StronglySorted (le_low radix d) head /\
               (d < d -> exp = radix ^ d)) ->
              let '(head, exp) := s in
              Permutation head A /\ StronglySorted (le_low radix d) head) as Hweak.
    { intros [h e] (? & ? & _). done. }
    apply Hweak.
    apply (for_up_inv
      (fun p '(head, exp) =>
         Permutation head A /\ StronglySorted (le_low radix p) head /\
         (p < d -> exp = radix ^ p))).
    - lia.
    - split; [done|]. split; [|by rewrite Z.pow_0_r].
      apply StronglySorted_weaken with (R := fun _ _ => True).
      + intros x y _ _ _. unfold le_low. by rewrite Z.pow_0_r, !Z.mod_1_r.
      + clear. induction A; constructor; [done|]. by apply Forall_forall.
    - intros p [l e] Hp (Hperm & Hsorted & He). unfold pass_body. rewrite He by lia.
      assert (forall x, x ∈ l -> 0 <= x) as Hl.
      { intros x Hx. rewrite Hperm in Hx. apply HA in Hx. lia. }
      rewrite pass_spec by (done || lia). split; [|split].
      + rewrite bucket_pass_Permutation; [done|]. intros x _. by apply digit_range.
      + apply bucket_pass_sorted; [done | lia | done].
      + intros Hp1.
        assert (radix ^ p * radix = radix ^ (p + 1)) as ->
          by (rewrite Z.pow_add_r, Z.pow_1_r; lia).
        apply wrap32_small.
        assert (0 < radix ^ (p + 1)) by (apply Z.pow_pos_nonneg; lia).
        assert (radix ^ (p + 1) <= radix ^ (d - 1)) by (apply Z.pow_le_mono_r; lia).
        unfold INT_MAX in *. lia. }
  destruct (for_up 0 d (pass_body radix) (A, 1)) as [head exp].
  destruct Hpass as (Hperm & Hsorted).
  (* 4) back into the array *)
  assert (len head = len A) as Hlen.
  { unfold len. by rewrite (Permutation_length Hperm). }
  pose proof (store_chain A head Hlen) as Hst.
  destruct (for_up 0 (len A) store_body (A, head)) as [r cur]. simpl in Hst. rewrite Hst.
  exists head. split; [done|]. split; [done|].
  apply StronglySorted_weaken with (R := le_low radix d); [|done].
  intros x y Hx Hy. unfold le_low.
  assert (forall z, z ∈ head -> z mod radix ^ d = z) as Hsmall.
  { intros z Hz. rewrite Hperm in Hz. pose proof (HA z Hz) as Hz0.
    apply elem_of_get in Hz as (j & Hj & <-). specialize (Hle j Hj).
    apply Z.mod_small. lia. }
  by rewrite !Hsmall.
Qed.

(** ** What [RadixSortLSD] refuses *)
Lemma RadixSortLSD_refuses (A : list Z) (radix : Z) :
  (len A <= 1 -> RadixSortLSD A (len A) radix = Returns A) /\
  (1 < len A -> radix <= 1 \/ (exists x, x ∈ A /\ x < 0) ->
   RadixSortLSD A (len A) radix = Throws invalid_argument).
Proof.
  unfold RadixSortLSD. split.
  - intros Hn. by destruct (Z.leb_spec (len A) 1); [|lia].
  - intros Hn Hbad. destruct (Z.leb_spec (len A) 1); [lia|].
    destruct (Z.leb_spec radix 1) as [|Hr]; [done|].
    destruct Hbad as [|(x & Hx & Hneg)]; [lia|].
    apply elem_of_get in Hx as (k & Hk & <-).
    destruct (for_upE_cases
      (fun i (_ : Z) => forall j, 0 <= j < i -> 0 <= get A j)
      (fun e => e = invalid_argument) 0 (len A)
      (fun i maxVal => if get A i <? 0 then Throws invalid_argument
                       else Returns (Z.max maxVal (get A i))) 0)
      as [(m & _ & Hall)|(e & -> & ->)]; [lia | intros; lia | | | done].
    + intros i m Hi Hall. destruct (Z.ltb_spec (get A i) 0) as [Hlt|Hge].
      * right. by eexists.
      * left. eexists. split; [done|]. intros j Hj.
        destruct (Z.eq_dec j i) as [->|]; [done|]. apply Hall. lia.
    + specialize (Hall k Hk). lia.
Qed.
End RadixSort.

(* ================================================================== *)
(** * 串/串.cpp : CharString, SimpleIndex, KMP_GetNext, Index_KMP        *)
(* ================================================================== *)

Module Str.
(** [class CharString]: the buffer [strVal] (the characters and the
    terminating NUL) and the length, which leaves the NUL out. *)
Record CharString : Type := { strVal : list ascii; Length : Z }.

(** What every constructor of [CharString] establishes. *)
Definition CharString_wf (s : CharString) : Prop :=
  0 <= Length s /\ len (strVal s) = Length s + 1.

(** A C string read from a buffer: the characters before the first NUL. *)
Fixpoint c_str (buf : list ascii) : list ascii :=
  match buf with
  | [] => []
  | c :: buf' => if Ascii.eqb c zero then [] else c :: c_str buf'
  end.

(** [CharString(const char *source)]: [strlen] characters and the NUL. *)
Definition CharString_of_chars (source : list ascii) : CharString :=
  {| strVal := c_str source ++ [zero]; Length := len (c_str source) |}.

Definition CharString_of (source : string) : CharString :=
  CharString_of_chars (String.list_ascii_of_string source).

Lemma CharString_of_chars_wf source : CharString_wf (CharString_of_chars source).
Proof.
  unfold CharString_wf, CharString_of_chars. simpl. rewrite len_app.
  pose proof (len_nonneg (c_str source)). unfold len at 3. simpl. lia.
Qed.

(** [char &operator[](int pos) const { return strVal[pos]; }]: the
    offset in [strVal] of the cell the returned reference denotes.  The
    operator makes no test on [pos] and never throws. *)
Definition subscript (s : CharString) (pos : Z) : outcome Z := Returns pos.

(** The character read through that reference. *)
Definition at_ (s : CharString) (pos : Z) : ascii := get (strVal s) pos.

Definition index_state : Type := Z * Z * Z.

Definition SimpleIndex_cond (T P : CharString) : index_state -> bool :=
  fun '(_, i, j) => (i <? Length T) && (j <? Length P).

Definition SimpleIndex_body (T P : CharString) : index_state -> index_state :=
  fun '(startPos, i, j) =>
    if Ascii.eqb (at_ T i) (at_ P j) then (startPos, i + 1, j + 1)
    else (startPos + 1, startPos + 1, 0).

(** [int SimpleIndex(const CharString &T, const CharString &P, int pos = 0)] *)
Definition SimpleIndex (T P : CharString) (pos : Z) : option Z :=
  let fuel := Z.to_nat (Z.max 0 (Length T - pos) * (Length P + 1) + Length P + 1) in
  '(startPos, _, j) ←
    while fuel (SimpleIndex_cond T P) (SimpleIndex_body T P) (pos, pos, 0);
  Some (if j >=? Length P then startPos else -1).

Definition next_state : Type := list Z * Z * Z.

Definition GetNext_cond (P : CharString) : next_state -> bool :=
  fun '(_, i, _) => i <? Length P.

Definition GetNext_body (P : CharString) : next_state -> next_state :=
  fun '(next, i, j) =>
    if (j =? -1) || Ascii.eqb (at_ P i) (at_ P j)
    then (set next (i + 1) (j + 1), i + 1, j + 1)
    else (next, i, get next j).

(** [vector<int> KMP_GetNext(const CharString &P)] *)
Definition KMP_GetNext (P : CharString) : option (list Z) :=
  let next := replicate (Z.to_nat (Length P + 1)) 0 in
  let next := set next 0 (-1) in
  let fuel := Z.to_nat (2 * Length P + 2) in
  '(next, _, _) ← while fuel (GetNext_cond P) (GetNext_body P) (next, 0, -1);
  Some next.

Definition kmp_state : Type := Z * Z.

Definition KMP_cond (T P : CharString) : kmp_state -> bool :=
  fun '(i, j) => (i <? Length T) && (j <? Length P).

Definition KMP_body (T P : CharString) (next : list Z) : kmp_state -> kmp_state :=
  fun '(i, j) =>
    if (j =? -1) || Ascii.eqb (at_ T i) (at_ P j) then (i + 1, j + 1)
    else (i, get next j).

(** [int Index_KMP(const CharString &T, const CharString &P, int pos = 0)] *)
Definition Index_KMP (T P : CharString) (pos : Z) : option Z :=
  if Length P =? 0 then Some pos
  else
    next ← KMP_GetNext P;
    let fuel := Z.to_nat (2 * Z.max 0 (Length T - pos) + 2) in
    '(i, j) ← while fuel (KMP_cond T P) (KMP_body T P next) (pos, 0);
    Some (if j >=? Length P then i - Length P else -1).

Example KMP_GetNext_demo :
  KMP_GetNext (CharString_of "ABAABCAC") = Some [-1; 0; 0; 1; 1; 2; 0; 1; 0].
Proof. vm_compute. reflexivity. Qed.

Example Index_KMP_demo :
  Index_KMP (CharString_of "A man with money is no match against a man on a mission")
            (CharString_of "match") 0 = Some 23.
Proof. vm_compute. reflexivity. Qed.

Example SimpleIndex_demo :
  SimpleIndex (CharString_of "A man with money is no match against a man on a mission")
              (CharString_of "man") 3 = Some 39.
Proof. vm_compute. reflexivity. Qed.

(** ** What the matchers compute *)

(** [P] occurs in [T] at [s]: [T[s .. s+|P|) = P]. *)
Definition occurs_at (T P : CharString) (s : Z) : Prop :=
  0 <= s /\ s + Length P <= Length T /\
  forall t, 0 <= t < Length P -> at_ T (s + t) = at_ P t.

(** [r] is the answer for a search from [pos]: the first occurrence at
    or after [pos], or -1 when there is none. *)
Definition first_occurrence (T P : CharString) (pos r : Z) : Prop :=
  (pos <= r /\ occurs_at T P r /\ forall s, pos <= s -> occurs_at T P s -> r <= s)
  \/ (r = -1 /\ forall s, pos <= s -> ~ occurs_at T P s).

Lemma first_occurrence_unique T P pos r1 r2 :
  0 <= pos -> first_occurrence T P pos r1 -> first_occurrence T P pos r2 -> r1 = r2.
Proof.
  intros Hpos [(Hp1 & Ho1 & Hm1) | [-> Hn1]] [(Hp2 & Ho2 & Hm2) | [-> Hn2]].
  - specialize (Hm1 r2 Hp2 Ho2). specialize (Hm2 r1 Hp1 Ho1). lia.
  - destruct (Hn2 r1 Hp1 Ho1).
  - destruct (Hn1 r2 Hp2 Ho2).
  - done.
Qed.

Lemma orb_eqb_true (j : Z) (a b : ascii) :
  (j =? -1) || Ascii.eqb a b = true <-> j = -1 \/ a = b.
Proof.
  rewrite orb_true_iff, Z.eqb_eq. split; (intros [?|Hab]; [by left | right]).
  - by apply Ascii.eqb_eq.
  - by apply Ascii.eqb_eq.
Qed.

Lemma orb_eqb_false (j : Z) (a b : ascii) :
  (j =? -1) || Ascii.eqb a b = false <-> j <> -1 /\ a <> b.
Proof.
  rewrite orb_false_iff, Z.eqb_neq. split; intros [? Hab]; (split; [done|]).
  - intros ->. by rewrite Ascii.eqb_refl in Hab.
  - by apply Ascii.eqb_neq.
Qed.

(** ** The failure function *)

(** [P[0..k)] is a border of [P[0..m)]: a prefix that is also a suffix. *)
Definition border (P : CharString) (k m : Z) : Prop :=
  0 <= k <= m /\ forall t, 0 <= t < k -> at_ P t = at_ P (m - k + t).

(** [next[m]] is the length of the longest proper border of [P[0..m)]. *)
Definition next_ok (P : CharString) (next : list Z) (m : Z) : Prop :=
  0 <= get next m < m /\ border P (get next m) m /\
  forall k, k < m -> border P k m -> k <= get next m.

Lemma border_trans P k j i : border P k j -> border P j i -> border P k i.
Proof.
  intros [Hk Hkj] [Hj Hji]. split; [lia|]. intros t Ht.
  rewrite Hkj by lia. rewrite Hji by lia. f_equal. lia.
Qed.

Lemma border_of_border P k j i :
  border P k i -> border P j i -> k <= j -> border P k j.
Proof.
  intros [Hk Hki] [Hj Hji] Hle. split; [lia|]. intros t Ht.
  rewrite Hki by lia. rewrite (Hji (j - k + t)) by lia. f_equal. lia.
Qed.

Definition GetNext_inv (P : CharString) : next_state -> Prop :=
  fun '(next, i, j) =>
    len next = Length P + 1 /\ 0 <= i <= Length P /\ -1 <= j < i /\
    get next 0 = -1 /\
    (forall m, 1 <= m <= i -> next_ok P next m) /\
    (0 <= j -> border P j i) /\
    (forall k, j < k < i -> border P k i -> i < Length P -> at_ P k <> at_ P i).

Lemma GetNext_step P next i j :
  GetNext_inv P (next, i, j) -> i < Length P ->
  let '(next', i', j') := GetNext_body P (next, i, j) in
  GetNext_inv P (next', i', j') /\
  0 <= 2 * (Length P - i') + (j' + 1) < 2 * (Length P - i) + (j + 1).
Proof.
  intros (Hlen & Hi & Hj & H0 & Hok & Hb & Hmax) HiP. unfold GetNext_body.
  destruct ((j =? -1) || Ascii.eqb (at_ P i) (at_ P j)) eqn:Hc.
  - apply orb_eqb_true in Hc.
    assert (border P (j + 1) (i + 1)) as Hb'.
    { split; [lia|]. intros t Ht. replace (i + 1 - (j + 1) + t) with (i - j + t) by lia.
      destruct Hc as [->|Hc]; [lia|].
      destruct (Z.eq_dec t j) as [->|Hne].
      - replace (i - j + j) with i by lia. done.
      - apply Hb; lia. }
    assert (forall k, k < i + 1 -> border P k (i + 1) -> k <= j + 1) as Hmax'.
    { intros k Hk [Hk0 Hbk]. destruct (Z_le_gt_dec k (j + 1)) as [|Hgt]; [done|].
      exfalso. apply (Hmax (k - 1)); [lia | | lia |].
      - split; [lia|]. intros t Ht. rewrite Hbk by lia. f_equal. lia.
      - rewrite Hbk by lia. f_equal. lia. }
    split; [|lia]. unfold GetNext_inv. rewrite len_set.
    split; [done|]. split; [lia|]. split; [lia|]. split; [|split; [|split]].
    + rewrite get_set_ne; (done || lia).
    + intros m Hm. destruct (Z.eq_dec m (i + 1)) as [->|Hne].
      * unfold next_ok. rewrite get_set_eq by lia. split; [lia|]. done.
      * unfold next_ok. rewrite get_set_ne by lia. apply Hok. lia.
    + done.
    + intros k Hk Hbk _. specialize (Hmax' k ltac:(lia) Hbk). lia.
  - apply orb_eqb_false in Hc as [Hj1 Hne].
    assert (0 <= j) as Hj0 by lia.
    assert (-1 <= get next j < j /\ (0 <= get next j -> border P (get next j) j) /\
            forall k, k < j -> border P k j -> k <= get next j) as (Hn & Hnb & Hnmax).
    { destruct (Z.eq_dec j 0) as [->|Hj0'].
      - rewrite H0. split; [lia|]. split; [lia|]. intros k Hk [Hk0 _]. lia.
      - destruct (Hok j) as (Hr & Hbj & Hmj); [lia|]. split; [lia|]. done. }
    split; [|lia]. unfold GetNext_inv.
    split; [done|]. split; [lia|]. split; [lia|]. split; [done|]. split; [done|].
    split.
    + intros Hn0. eapply border_trans; [by apply Hnb | by apply Hb].
    + intros k Hk Hbk HiP'. destruct (Z_lt_ge_dec j k) as [Hjk|Hjk].
      * apply Hmax; (done || lia).
      * destruct (Z.eq_dec k j) as [->|Hkj]; [by apply not_eq_sym|].
        exfalso. assert (k <= get next j); [|lia].
        apply Hnmax; [lia|]. apply (border_of_border P k j i); [done | by apply Hb | lia].
Qed.

Lemma KMP_GetNext_spec (P : CharString) :
  0 <= Length P ->
  exists next, KMP_GetNext P = Some next /\ get next 0 = -1 /\
               forall m, 1 <= m <= Length P -> next_ok P next m.
Proof.
  intros HP. unfold KMP_GetNext.
  destruct (while_rule (GetNext_inv P)
              (fun '(_, i, j) => 2 * (Length P - i) + (j + 1))
              (GetNext_cond P) (GetNext_body P))
    with (fuel := Z.to_nat (2 * Length P + 2))
         (s := (set (replicate (Z.to_nat (Length P + 1)) 0) 0 (-1), 0, -1))
    as ([[next i] j] & -> & (Hlen & Hi & Hj & H0 & Hok & _) & Hc).
  - intros [[next i] j] Hinv Hc%Z.ltb_lt.
    pose proof (GetNext_step P next i j Hinv Hc) as Hstep.
    destruct (GetNext_body P (next, i, j)) as [[next' i'] j']. done.
  - unfold GetNext_inv. rewrite len_set.
    assert (len (replicate (Z.to_nat (Length P + 1)) 0) = Length P + 1) as Hl
      by (unfold len; rewrite length_replicate; lia).
    split; [done|]. split; [lia|]. split; [lia|]. split; [|split; [|split]].
    + rewrite get_set_eq; [done | lia].
    + intros m Hm. lia.
    + lia.
    + intros k Hk. lia.
  - lia.
  - simpl in Hc. apply Z.ltb_ge in Hc. cbn [mbind option_bind].
    exists next. split; [done|]. split; [done|]. intros m Hm. apply Hok. lia.
Qed.

(** ** KMP matching *)

Definition KMP_inv (T P : CharString) (pos : Z) : kmp_state -> Prop :=
  fun '(i, j) =>
    i <= Length T /\ -1 <= j <= Length P /\ pos <= i - j /\
    (forall t, 0 <= t < j -> at_ T (i - j + t) = at_ P t) /\
    (forall s, pos <= s < i - j -> ~ occurs_at T P s).

Lemma KMP_step T P next pos i j :
  get next 0 = -1 -> (forall m, 1 <= m <= Length P -> next_ok P next m) ->
  0 <= pos -> KMP_inv T P pos (i, j) -> i < Length T -> j < Length P ->
  let '(i', j') := KMP_body T P next (i, j) in
  KMP_inv T P pos (i', j') /\
  0 <= 2 * (Length T - i') + (j' + 1) < 2 * (Length T - i) + (j + 1).
Proof.
  intros H0 Hok Hpos (Hi & Hj & Hs & Hpm & Hno) HiT HjP. unfold KMP_body.
  destruct ((j =? -1) || Ascii.eqb (at_ T i) (at_ P j)) eqn:Hc.
  - apply orb_eqb_true in Hc. split; [|lia]. unfold KMP_inv.
    split; [lia|]. split; [lia|]. split; [lia|].
    replace (i + 1 - (j + 1)) with (i - j) by lia. split; [|done].
    intros t Ht. destruct Hc as [->|Hc]; [lia|].
    destruct (Z.eq_dec t j) as [->|Hne]; [|apply Hpm; lia].
    replace (i - j + j) with i by lia. done.
  - apply orb_eqb_false in Hc as [Hj1 Hne].
    assert (0 <= j) as Hj0 by lia.
    assert (~ occurs_at T P (i - j)) as Hnow.
    { intros (_ & _ & Hocc). apply Hne. rewrite <- Hocc by lia. f_equal. lia. }
    destruct (Z.eq_dec j 0) as [->|Hj0'].
    + rewrite H0. split; [|lia]. unfold KMP_inv.
      split; [lia|]. split; [lia|]. split; [lia|]. split; [intros; lia|].
      intros s Hs'. destruct (Z.eq_dec s (i - 0)) as [->|]; [done | apply Hno; lia].
    + destruct (Hok j) as (Hn & [_ Hnb] & Hnmax); [lia|]. split; [|lia].
      unfold KMP_inv. split; [lia|]. split; [lia|]. split; [lia|]. split.
      * intros t Ht. rewrite Hnb by lia.
        rewrite <- Hpm by lia. f_equal. lia.
      * intros s Hs' Hocc.
        destruct (Z_lt_ge_dec s (i - j)) as [Hlt|Hge]; [by apply (Hno s); [lia|]|].
        destruct (Z.eq_dec s (i - j)) as [->|Hne']; [done|].
        assert (i - s <= get next j); [|lia].
        apply Hnmax; [lia|]. split; [lia|]. intros t Ht.
        destruct Hocc as (_ & _ & Hocc). rewrite <- Hocc by lia.
        rewrite <- Hpm by lia. f_equal. lia.
Qed.

Lemma Index_KMP_spec (T P : CharString) (pos : Z) :
  0 < Length P -> 0 <= pos ->
  exists r, Index_KMP T P pos = Some r /\ first_occurrence T P pos r.
Proof.
  intros HP Hpos. unfold Index_KMP.
  destruct (Z.eqb_spec (Length P) 0) as [|_]; [lia|].
  destruct (KMP_GetNext_spec P) as (next & -> & H0 & Hok); [lia|].
  cbn [mbind option_bind].
  destruct (Z_le_gt_dec pos (Length T)) as [HposT|HposT].
  - destruct (while_rule (KMP_inv T P pos)
                (fun '(i, j) => 2 * (Length T - i) + (j + 1))
                (KMP_cond T P) (KMP_body T P next))
      with (fuel := Z.to_nat (2 * Z.max 0 (Length T - pos) + 2)) (s := (pos, 0))
      as ([i j] & -> & (Hi & Hj & Hs & Hpm & Hno) & Hc).
    + intros [i j] Hinv Hc. simpl in Hc.
      apply andb_prop in Hc as [Hc1%Z.ltb_lt Hc2%Z.ltb_lt].
      pose proof (KMP_step T P next pos i j H0 Hok Hpos Hinv Hc1 Hc2) as Hstep.
      destruct (KMP_body T P next (i, j)) as [i' j']. done.
    + unfold KMP_inv. split; [lia|]. split; [lia|]. split; [lia|].
      split; intros; lia.
    + lia.
    + cbn [mbind option_bind]. eexists. split; [done|].
      simpl in Hc. destruct (Z.geb_spec j (Length P)) as [HjP|HjP].
      * left. assert (j = Length P) as -> by lia. split; [lia|]. split.
        -- split; [lia|]. split; [lia|]. done.
        -- intros s Hs' Hocc. destruct (Z_lt_ge_dec s (i - Length P)); [|lia].
           destruct (Hno s); [lia | done].
      * right. split; [done|]. intros s Hs' Hocc.
        apply andb_false_iff in Hc as [Hc%Z.ltb_ge | Hc%Z.ltb_ge]; [|lia].
        destruct (Z_lt_ge_dec s (i - j)) as [Hlt|Hge]; [by apply (Hno s); [lia|]|].
        destruct Hocc as (_ & Hocc & _). lia.
  - replace (Z.max 0 (Length T - pos)) with 0 by lia. simpl.
    destruct (Z.ltb_spec pos (Length T)); [lia|]. simpl.
    destruct (Z.geb_spec 0 (Length P)); [lia|].
    eexists. split; [done|]. right. split; [done|].
    intros s Hs (_ & Hocc & _). lia.
Qed.

(** ** Naive matching *)

Definition SimpleIndex_inv (T P : CharString) (pos : Z) : index_state -> Prop :=
  fun '(startPos, i, j) =>
    pos <= startPos /\ i = startPos + j /\ 0 <= j <= Length P /\ i <= Length T /\
    (forall t, 0 <= t < j -> at_ T (startPos + t) = at_ P t) /\
    (forall s, pos <= s < startPos -> ~ occurs_at T P s).

Lemma SimpleIndex_spec (T P : CharString) (pos : Z) :
  0 < Length P -> 0 <= pos ->
  exists r, SimpleIndex T P pos = Some r /\ first_occurrence T P pos r.
Proof.
  intros HP Hpos. unfold SimpleIndex.
  destruct (Z_le_gt_dec pos (Length T)) as [HposT|HposT].
  - destruct (while_rule (SimpleIndex_inv T P pos)
                (fun '(startPos, _, j) =>
                   (Length T - startPos) * (Length P + 1) + (Length P - j))
                (SimpleIndex_cond T P) (SimpleIndex_body T P))
      with (fuel := Z.to_nat (Z.max 0 (Length T - pos) * (Length P + 1) + Length P + 1))
           (s := (pos, pos, 0))
      as ([[startPos i] j] & -> & (Hs & -> & Hj & Hi & Hpm & Hno) & Hc).
    + intros [[startPos i] j] (Hs & -> & Hj & Hi & Hpm & Hno) Hc. simpl in Hc.
      apply andb_prop in Hc as [Hc1%Z.ltb_lt Hc2%Z.ltb_lt].
      unfold SimpleIndex_body.
      destruct (Ascii.eqb_spec (at_ T (startPos + j)) (at_ P j)) as [Heq|Hne].
      * split; [|nia]. unfold SimpleIndex_inv.
        split; [done|]. split; [lia|]. split; [lia|]. split; [lia|]. split; [|done].
        intros t Ht. destruct (Z.eq_dec t j) as [->|]; [done | apply Hpm; lia].
      * split; [|nia]. unfold SimpleIndex_inv.
        split; [lia|]. split; [lia|]. split; [lia|]. split; [lia|].
        split; [intros; lia|].
        intros s Hs'. destruct (Z.eq_dec s startPos) as [->|]; [|apply Hno; lia].
        intros (_ & _ & Hocc). apply Hne. apply Hocc. lia.
    + unfold SimpleIndex_inv. split; [lia|]. split; [lia|]. split; [lia|].
      split; [lia|]. split; intros; lia.
    + replace (Z.max 0 (Length T - pos)) with (Length T - pos) by lia. nia.
    + cbn [mbind option_bind]. eexists. split; [done|].
      simpl in Hc. destruct (Z.geb_spec j (Length P)) as [HjP|HjP].
      * left. assert (j = Length P) as -> by lia. split; [lia|]. split.
        -- split; [lia|]. split; [lia|]. done.
        -- intros s Hs' Hocc. destruct (Z_lt_ge_dec s startPos); [|lia].
           destruct (Hno s); [lia | done].
      * right. split; [done|]. intros s Hs' Hocc.
        apply andb_false_iff in Hc as [Hc%Z.ltb_ge | Hc%Z.ltb_ge]; [|lia].
        destruct (Z_lt_ge_dec s startPos) as [Hlt|Hge]; [by apply (Hno s); [lia|]|].
        destruct Hocc as (_ & Hocc & _). lia.
  - replace (Z.max 0 (Length T - pos)) with 0 by lia.
    replace (Z.to_nat (0 * (Length P + 1) + Length P + 1))
      with (S (Z.to_nat (Length P))) by lia.
    simpl. destruct (Z.ltb_spec pos (Length T)); [lia|]. simpl.
    destruct (Z.geb_spec 0 (Length P)); [lia|].
    eexists. split; [done|]. right. split; [done|].
    intros s Hs (_ & Hocc & _). lia.
Qed.

(** With an empty pattern both matchers answer [pos] without looking at
    the text. *)
Lemma Index_KMP_empty T P pos : Length P = 0 -> Index_KMP T P pos = Some pos.
Proof. intros HP. unfold Index_KMP. by rewrite HP. Qed.

Lemma SimpleIndex_empty T P pos : Length P = 0 -> SimpleIndex T P pos = Some pos.
Proof.
  intros HP. unfold SimpleIndex. rewrite HP.
  replace (Z.to_nat (Z.max 0 (Length T - pos) * (0 + 1) + 0 + 1))
    with (S (Z.to_nat (Z.max 0 (Length T - pos)))) by lia.
  simpl. rewrite HP. simpl. by rewrite andb_false_r.
Qed.

(** ** All occurrences *)

(** The loop of [FindAll]: [i] is the next start, [pos] the vector. *)
Fixpoint FindAll_loop (fuel : nat) (T P : CharString) (useKMP : bool) (i : Z)
    (pos : list Z) : option (list Z) :=
  match fuel with
  | O => None
  | S fuel =>
      if i <=? Length T - Length P then
        p ← (if useKMP then Index_KMP T P i else SimpleIndex T P i);
        if p =? -1 then Some pos
        else FindAll_loop fuel T P useKMP (p + 1) (pos ++ [p])
      else Some pos
  end.

(** [vector<int> FindAll(const CharString &T, const CharString &P, bool useKMP = true)] *)
Definition FindAll (T P : CharString) (useKMP : bool) : option (list Z) :=
  if Length P =? 0 then Some []
  else FindAll_loop (Z.to_nat (Z.max 0 (Length T) + 1)) T P useKMP 0 [].

Example FindAll_demo :
  FindAll (CharString_of "abababa") (CharString_of "aba") true = Some [0; 2; 4] /\
  FindAll (CharString_of "abababa") (CharString_of "aba") false = Some [0; 2; 4].
Proof. vm_compute. done. Qed.

Lemma Index_spec (T P : CharString) (useKMP : bool) (pos : Z) :
  0 < Length P -> 0 <= pos ->
  exists r, (if useKMP then Index_KMP T P pos else SimpleIndex T P pos) = Some r /\
            first_occurrence T P pos r.
Proof. destruct useKMP; [apply Index_KMP_spec | apply SimpleIndex_spec]. Qed.

Lemma FindAll_loop_spec fuel T P useKMP i pos :
  0 < Length P -> 0 <= i -> Z.max 0 (Length T - Length P - i + 1) < Z.of_nat fuel ->
  exists found, FindAll_loop fuel T P useKMP i pos = Some (pos ++ found) /\
    StronglySorted Z.lt found /\
    forall s, s ∈ found <-> i <= s /\ occurs_at T P s.
Proof.
  intros HP. revert i pos. induction fuel as [|fuel IH]; intros i pos Hi Hfuel; [lia|].
  simpl. destruct (Z.leb_spec i (Length T - Length P)) as [Hle|Hgt].
  - destruct (Index_spec T P useKMP i HP Hi) as (r & -> & Hr). cbn [mbind option_bind].
    destruct Hr as [(Hir & Hocc & Hmin)|[-> Hnone]].
    + destruct (Z.eqb_spec r (-1)); [lia|].
      destruct (IH (r + 1) (pos ++ [r])) as (found & -> & Hsorted & Hfound); [lia | lia |].
      exists (r :: found). split; [by rewrite <- app_assoc|]. split.
      * constructor; [done|]. apply Forall_forall. intros s Hs%Hfound. lia.
      * intros s. rewrite elem_of_cons, Hfound. split.
        -- intros [->|[Hs Hoccs]]; [done|]. split; [lia | done].
        -- intros [Hs Hoccs]. specialize (Hmin s Hs Hoccs).
           destruct (Z.eq_dec s r); [by left | right]. split; [lia | done].
    + simpl. exists []. split; [by rewrite app_nil_r|]. split; [constructor|].
      intros s. rewrite elem_of_nil. split; [done|]. intros [Hs Hoccs]. by apply (Hnone s).
  - exists []. split; [by rewrite app_nil_r|]. split; [constructor|].
    intros s. rewrite elem_of_nil. split; [done|]. intros [Hs (_ & Hoccs & _)]. lia.
Qed.

Lemma FindAll_spec T P useKMP :
  0 < Length P ->
  exists found, FindAll T P useKMP = Some found /\
    StronglySorted Z.lt found /\ forall s, s ∈ found <-> occurs_at T P s.
Proof.
  intros HP. unfold FindAll. destruct (Z.eqb_spec (Length P) 0); [lia|].
  destruct (FindAll_loop_spec (Z.to_nat (Z.max 0 (Length T) + 1)) T P useKMP 0 [] HP)
    as (found & -> & Hsorted & Hfound); [lia | lia |].
  exists found. split; [done|]. split; [done|].
  intros s. rewrite Hfound. unfold occurs_at. tauto.
Qed.

Lemma FindAll_empty T P useKMP : Length P = 0 -> FindAll T P useKMP = Some [].
Proof. intros HP. unfold FindAll. by rewrite HP. Qed.

(** ** Copy, Concat and SubString *)

(** The loop of [CStrCopy] and [CStrConcat]: every character of
    [source] up to its NUL, the NUL included, is stored through [tar],
    here an offset in [target]. *)
Fixpoint CStrCopy_loop (source target : list ascii) (tar : Z) : list ascii :=
  match source with
  | [] => target
  | ch :: source' =>
      let target := set target tar ch in
      if negb (Ascii.eqb ch zero) then CStrCopy_loop source' target (tar + 1) else target
  end.

(** [char *CStrCopy(char *target, const char *source)] *)
Definition CStrCopy (target source : list ascii) : list ascii :=
  CStrCopy_loop source target 0.

(** [std::strlen] *)
Definition strlen (s : list ascii) : Z := len (c_str s).

(** [char *CStrCopy(char *target, const char *source, int n)] *)
Definition CStrCopy_n (target source : list ascii) (n : Z) : list ascii :=
  let srcLen := strlen source in
  let l := if srcLen <? n then srcLen else n in
  let target := for_up 0 l (fun i target => set target i (get source i)) target in
  set target l zero.

(** [char *CStrConcat(char *target, const char *source)] *)
Definition CStrConcat (target source : list ascii) : list ascii :=
  CStrCopy_loop source target (strlen target).

(** [void Copy(CharString &target, const CharString &source, int n)]:
    the new value of [target]. *)
Definition Copy_n (source : CharString) (n : Z) : CharString :=
  let take := Z.min n (Length source) in
  let buf := replicate (Z.to_nat (take + 1)) zero in
  let buf := CStrCopy_n buf (strVal source) take in
  CharString_of_chars buf.

(** [void Concat(CharString &target, const CharString &source)]: the
    new value of [target]; [fresh] is what [new char[la + lb + 1]] holds
    before it is written. *)
Definition Concat (fresh : list ascii) (target source : CharString) : CharString :=
  let buf := CStrCopy fresh (strVal target) in
  let buf := CStrConcat buf (strVal source) in
  CharString_of_chars buf.

(** [CharString SubString(const CharString &s, int pos, int len)] *)
Definition SubString (s : CharString) (pos n : Z) : CharString :=
  if (pos <? 0) || (pos >=? Length s) || (n <=? 0) then CharString_of ""
  else
    let take := Z.min n (Length s - pos) in
    let buf := replicate (Z.to_nat (take + 1)) zero in
    let buf := for_up 0 take (fun i buf => set buf i (at_ s (pos + i))) buf in
    CharString_of_chars buf.

Example Concat_demo :
  Concat (replicate 12 "?"%char) (CharString_of "Hello, ") (CharString_of "Data")
  = CharString_of "Hello, Data".
Proof. vm_compute. reflexivity. Qed.

Example SubString_demo :
  (SubString (CharString_of "Hello, Data") 7 4, SubString (CharString_of "Hello, Data") 7 100,
   SubString (CharString_of "Hello, Data") 11 2)
  = (CharString_of "Data", CharString_of "Data", CharString_of "").
Proof. vm_compute. reflexivity. Qed.

(** The characters of the string. *)
Definition text (s : CharString) : list ascii := c_str (strVal s).

(** A string as the constructors make it: the characters, none of them
    NUL, then the NUL. *)
Definition proper (s : CharString) : Prop :=
  exists t, (zero ∉ t) /\ strVal s = t ++ [zero] /\ Length s = len t.

Lemma c_str_no_zero buf : zero ∉ c_str buf.
Proof.
  induction buf as [|ch buf IH]; simpl; [apply not_elem_of_nil|].
  destruct (Ascii.eqb_spec ch zero); [apply not_elem_of_nil|].
  apply not_elem_of_cons. split; [congruence | done].
Qed.

Lemma c_str_app t rest : zero ∉ t -> c_str (t ++ zero :: rest) = t.
Proof.
  induction t as [|ch t IH]; simpl; [done|].
  intros [Hch Ht]%not_elem_of_cons.
  destruct (Ascii.eqb_spec ch zero); [congruence|]. by rewrite IH.
Qed.

Lemma proper_text s t :
  zero ∉ t -> strVal s = t ++ [zero] -> text s = t.
Proof. intros Ht Hs. unfold text. rewrite Hs. by apply c_str_app. Qed.

Lemma CharString_of_chars_proper source : proper (CharString_of_chars source).
Proof. exists (c_str source). split; [apply c_str_no_zero | done]. Qed.

Lemma text_of_chars source : text (CharString_of_chars source) = c_str source.
Proof. apply proper_text; [apply c_str_no_zero | done]. Qed.

Lemma proper_eq s : proper s -> s = CharString_of_chars (text s).
Proof.
  intros (t & Ht & Hs & Hl). rewrite (proper_text s t Ht Hs).
  destruct s as [sv l]. simpl in *. subst. unfold CharString_of_chars.
  assert (c_str t = t) as ->; [|done].
  rewrite <- (app_nil_r t) at 1.
  clear -Ht. induction t as [|ch t IH]; simpl; [done|].
  apply not_elem_of_cons in Ht as [Hch Ht].
  destruct (Ascii.eqb_spec ch zero); [congruence|]. by rewrite IH.
Qed.

(** A buffer that holds [t], then a NUL, reads as [t]. *)
Lemma c_str_get (buf t : list ascii) :
  zero ∉ t -> len t < len buf ->
  (forall i, 0 <= i < len t -> get buf i = get t i) -> get buf (len t) = zero ->
  c_str buf = t.
Proof.
  intros Ht Hlen Hget Hend.
  assert (buf = t ++ zero :: drop (S (length t)) buf) as ->; [|by apply c_str_app].
  apply get_ext.
  - rewrite len_app. unfold len in *. simpl. rewrite length_drop. lia.
  - intros i Hi. unfold get at 2. rewrite list_lookup_total_alt.
    destruct (Z_lt_ge_dec i (len t)) as [Hlt|Hge].
    + rewrite lookup_app_l by (unfold len in *; lia).
      rewrite Hget by lia. unfold get. by rewrite list_lookup_total_alt.
    + rewrite lookup_app_r by (unfold len in *; lia).
      destruct (Z.eq_dec i (len t)) as [->|Hne].
      * rewrite Hend. by replace (Z.to_nat (len t) - length t)%nat with 0%nat
          by (unfold len; lia).
      * replace (Z.to_nat i - length t)%nat with (S (Z.to_nat i - S (length t)))
          by (unfold len in *; lia).
        simpl. rewrite lookup_drop.
        replace (S (length t) + (Z.to_nat i - S (length t)))%nat with (Z.to_nat i)
          by (unfold len in *; lia).
        unfold get. by rewrite list_lookup_total_alt.
Qed.

(** What the copying loop writes: [t] from [tar] on, then the NUL. *)
Lemma CStrCopy_loop_spec t rest target tar :
  zero ∉ t -> 0 <= tar -> tar + len t < len target ->
  let r := CStrCopy_loop (t ++ zero :: rest) target tar in
  len r = len target /\
  forall i, 0 <= i ->
    get r i = if (tar <=? i) && (i <? tar + len t) then get t (i - tar)
              else if i =? tar + len t then zero else get target i.
Proof.
  revert target tar. induction t as [|ch t IH]; intros target tar Ht Htar Hlen; cbn zeta.
  - simpl. rewrite len_set. split; [done|]. intros i Hi.
    change (len []) with 0 in *. rewrite get_set by lia.
    destruct (Z.eq_dec tar i) as [<-|Hne].
    + destruct (Z.leb_spec tar tar), (Z.ltb_spec tar (tar + 0)); simpl; try lia.
      by destruct (Z.eqb_spec tar (tar + 0)); [|lia].
    + destruct (Z.leb_spec tar i), (Z.ltb_spec i (tar + 0)); simpl; try lia;
        by destruct (Z.eqb_spec i (tar + 0)); [lia|].
  - apply not_elem_of_cons in Ht as [Hch Ht].
    change ((ch :: t) ++ zero :: rest) with (ch :: (t ++ zero :: rest)).
    cbn [CStrCopy_loop]. destruct (Ascii.eqb_spec ch zero); [congruence|]. cbn [negb].
    assert (len (ch :: t) = 1 + len t) as Hl by (unfold len; simpl; lia).
    rewrite Hl in *.
    destruct (IH (set target tar ch) (tar + 1) Ht ltac:(lia) ltac:(rewrite len_set; lia))
      as [Hlen' Hget'].
    rewrite len_set in Hlen'. split; [done|]. intros i Hi. rewrite (Hget' i Hi).
    pose proof (len_nonneg t) as Hnn.
    rewrite get_set by lia.
    replace (tar + (1 + len t)) with (tar + 1 + len t) by lia.
    destruct (Z.eq_dec tar i) as [<-|Hne];
      repeat match goal with
             | |- context [Z.leb ?x ?y] => destruct (Z.leb_spec x y)
             | |- context [Z.ltb ?x ?y] => destruct (Z.ltb_spec x y)
             | |- context [Z.eqb ?x ?y] => destruct (Z.eqb_spec x y)
             end; cbn [andb]; try lia; try done.
    + by rewrite Z.sub_diag.
    + rewrite (get_cons_S ch t (i - tar)) by lia. f_equal. lia.
Qed.

Lemma Concat_text fresh a b :
  proper a -> proper b -> len fresh = Length a + Length b + 1 ->
  text (Concat fresh a b) = text a ++ text b.
Proof.
  intros (ta & Hta & Ha & Hla) (tb & Htb & Hb & Hlb) Hfresh.
  rewrite (proper_text a ta Hta Ha), (proper_text b tb Htb Hb).
  unfold Concat. rewrite text_of_chars, Ha, Hb.
  pose proof (len_nonneg ta). pose proof (len_nonneg tb).
  destruct (CStrCopy_loop_spec ta [] fresh 0 Hta ltac:(lia) ltac:(lia)) as [Hlen1 Hget1].
  fold (CStrCopy fresh (ta ++ [zero])) in Hlen1, Hget1.
  set (buf1 := CStrCopy fresh (ta ++ [zero])) in *.
  assert (strlen buf1 = len ta) as Hstr.
  { unfold strlen. f_equal. apply c_str_get; [done | lia | |].
    - intros i Hi. rewrite Hget1 by lia.
      destruct (Z.leb_spec 0 i), (Z.ltb_spec i (0 + len ta)); try lia. simpl. f_equal. lia.
    - rewrite Hget1 by lia.
      destruct (Z.leb_spec 0 (len ta)), (Z.ltb_spec (len ta) (0 + len ta)); try lia.
      simpl. by destruct (Z.eqb_spec (len ta) (0 + len ta)); [|lia]. }
  unfold CStrConcat. rewrite Hstr.
  destruct (CStrCopy_loop_spec tb [] buf1 (len ta) Htb ltac:(lia) ltac:(lia))
    as [Hlen2 Hget2].
  apply c_str_get.
  - intros [Hin|Hin]%elem_of_app; done.
  - rewrite len_app. lia.
  - intros i Hi. rewrite len_app in Hi. rewrite Hget2 by lia.
    unfold get at 3. rewrite list_lookup_total_alt.
    destruct (Z.leb_spec (len ta) i), (Z.ltb_spec i (len ta + len tb)); try lia; cbn [andb].
    + rewrite lookup_app_r by (unfold len in *; lia).
      unfold get. rewrite list_lookup_total_alt. do 2 f_equal. unfold len. lia.
    + destruct (Z.eqb_spec i (len ta + len tb)); [lia|].
      rewrite Hget1 by lia.
      destruct (Z.leb_spec 0 i), (Z.ltb_spec i (0 + len ta)); try lia. cbn [andb].
      rewrite lookup_app_l by (unfold len in *; lia).
      unfold get. rewrite list_lookup_total_alt. do 2 f_equal. lia.
  - rewrite len_app, Hget2 by lia.
    destruct (Z.leb_spec (len ta) (len ta + len tb)),
      (Z.ltb_spec (len ta + len tb) (len ta + len tb)); try lia. cbn [andb].
    by rewrite Z.eqb_refl.
Qed.

(** The loop that fills a zeroed buffer with [take] characters. *)
Lemma fill_spec (f : Z -> ascii) take :
  0 <= take ->
  let buf := for_up 0 take (fun i buf => set buf i (f i))
                    (replicate (Z.to_nat (take + 1)) zero) in
  len buf = take + 1 /\ (forall i, 0 <= i < take -> get buf i = f i) /\ get buf take = zero.
Proof.
  intros Htake. cbn zeta.
  apply (for_up_inv (fun k buf => len buf = take + 1 /\
                                  (forall i, 0 <= i < k -> get buf i = f i) /\
                                  get buf take = zero)); [lia | |].
  - split; [unfold len; rewrite length_replicate; lia|]. split; [intros; lia|].
    unfold get. apply lookup_total_replicate_2. lia.
  - intros k buf Hk (Hlen & Hget & Hend). rewrite len_set. split; [done|]. split.
    + intros i Hi. rewrite get_set by lia.
      destruct (Z.eq_dec k i) as [->|]; [done|]. apply Hget. lia.
    + rewrite get_set by lia. destruct (Z.eq_dec k take); [lia | done].
Qed.

Lemma get_proper s t i :
  strVal s = t ++ [zero] -> 0 <= i < len t -> at_ s i = get t i.
Proof.
  intros Hs Hi. unfold at_, get. rewrite Hs, !list_lookup_total_alt.
  by rewrite lookup_app_l by (unfold len in *; lia).
Qed.

Lemma SubString_text s pos n :
  proper s ->
  text (SubString s pos n)
  = if (pos <? 0) || (pos >=? Length s) || (n <=? 0) then []
    else take (Z.to_nat n) (drop (Z.to_nat pos) (text s)).
Proof.
  intros (t & Ht & Hs & Hl). rewrite (proper_text s t Ht Hs). unfold SubString.
  destruct (Z.ltb_spec pos 0) as [|Hpos]; [done|].
  destruct (Z.geb_spec pos (Length s)) as [|Hin]; [done|].
  destruct (Z.leb_spec n 0) as [|Hn]; [done|]. cbn [orb].
  rewrite text_of_chars.
  set (tk := Z.min n (Length s - pos)).
  destruct (fill_spec (fun i => at_ s (pos + i)) tk ltac:(lia)) as (Hlen & Hget & Hend).
  set (sub := take (Z.to_nat n) (drop (Z.to_nat pos) t)).
  assert (len sub = tk) as Hsub.
  { unfold sub, tk, len. rewrite length_take, length_drop. unfold len in Hl. lia. }
  apply c_str_get.
  - intros Hin'. apply Ht. unfold sub in Hin'.
    apply elem_of_take in Hin' as (i & Hin' & _).
    rewrite lookup_drop in Hin'. by apply list_elem_of_lookup_2 in Hin'.
  - lia.
  - intros i Hi. rewrite Hget by lia. rewrite (get_proper s t) by (done || lia).
    unfold sub, get. rewrite !list_lookup_total_alt.
    rewrite lookup_take_lt by lia. rewrite lookup_drop. do 2 f_equal. lia.
  - by rewrite Hsub.
Qed.

(** The pieces of a concatenation are cut out again by [SubString]. *)
Lemma SubString_Concat fresh a b :
  proper a -> proper b -> len fresh = Length a + Length b + 1 ->
  let ab := Concat fresh a b in
  Length ab = Length a + Length b /\
  SubString ab 0 (Length a) = a /\ SubString ab (Length a) (Length b) = b.
Proof.
  intros Ha Hb Hfresh ab.
  pose proof (Concat_text fresh a b Ha Hb Hfresh) as Htext. fold ab in Htext.
  assert (proper ab) as Hab by apply CharString_of_chars_proper.
  destruct Ha as (ta & Hta & Hsa & Hla). destruct Hb as (tb & Htb & Hsb & Hlb).
  rewrite (proper_text a ta Hta Hsa), (proper_text b tb Htb Hsb) in Htext.
  assert (Length ab = Length a + Length b) as Hlen.
  { pose proof Htext as Htext'. unfold ab, Concat in Htext'.
    rewrite text_of_chars in Htext'.
    unfold ab, Concat, CharString_of_chars. cbn [Length]. rewrite Htext', len_app. lia. }
  assert (forall s pos n, SubString s pos n = CharString_of_chars (text (SubString s pos n)))
    as Hsub.
  { intros s pos n. apply proper_eq. unfold SubString.
    destruct (_ || _); apply CharString_of_chars_proper. }
  pose proof (len_nonneg ta). pose proof (len_nonneg tb).
  assert (a = CharString_of_chars ta) as Ha_eq.
  { rewrite <- (proper_text a ta Hta Hsa). apply proper_eq. by exists ta. }
  assert (b = CharString_of_chars tb) as Hb_eq.
  { rewrite <- (proper_text b tb Htb Hsb). apply proper_eq. by exists tb. }
  split; [done|]. split.
  - rewrite Hsub, (SubString_text ab 0 (Length a) Hab), Hlen, Htext.
    etransitivity; [|symmetry; exact Ha_eq]. f_equal.
    destruct (Z.ltb_spec 0 0); [lia|].
    destruct (Z.geb_spec 0 (Length a + Length b)) as [Hz|Hnz];
      destruct (Z.leb_spec (Length a) 0) as [Hz'|Hnz']; cbn [orb]; try lia.
    + destruct ta; [done | unfold len in *; simpl in *; lia].
    + destruct ta; [done | unfold len in *; simpl in *; lia].
    + rewrite drop_0, Hla. unfold len. rewrite Nat2Z.id. by rewrite take_app_length.
  - rewrite Hsub, (SubString_text ab (Length a) (Length b) Hab), Hlen, Htext.
    etransitivity; [|symmetry; exact Hb_eq]. f_equal.
    destruct (Z.ltb_spec (Length a) 0); [lia|].
    destruct (Z.geb_spec (Length a) (Length a + Length b)) as [Hz|Hnz];
      destruct (Z.leb_spec (Length b) 0) as [Hz'|Hnz']; cbn [orb]; try lia.
    + destruct tb; [done | unfold len in *; simpl in *; lia].
    + rewrite Hla, Hlb. unfold len. rewrite !Nat2Z.id.
      rewrite drop_app_length. by rewrite firstn_all.
Qed.

Lemma Copy_n_text s n :
  proper s -> 0 <= n -> text (Copy_n s n) = take (Z.to_nat n) (text s).
Proof.
  intros (t & Ht & Hs & Hl) Hn. rewrite (proper_text s t Ht Hs). unfold Copy_n.
  rewrite text_of_chars. unfold CStrCopy_n.
  assert (strlen (strVal s) = len t) as ->.
  { unfold strlen. rewrite Hs. by rewrite c_str_app. }
  set (tk := Z.min n (Length s)).
  assert ((if len t <? tk then len t else tk) = tk) as ->.
  { destruct (Z.ltb_spec (len t) tk); unfold tk in *; lia. }
  pose proof (len_nonneg t).
  destruct (fill_spec (fun i => get (strVal s) i) tk ltac:(unfold tk; lia))
    as (Hlen & Hget & Hend).
  set (sub := take (Z.to_nat n) t).
  assert (len sub = tk) as Hsub.
  { unfold sub, tk, len. rewrite length_take. unfold len in Hl. lia. }
  apply c_str_get.
  - intros Hin'. apply Ht. unfold sub in Hin'.
    apply elem_of_take in Hin' as (i & Hin' & _). by apply list_elem_of_lookup_2 in Hin'.
  - rewrite len_set. lia.
  - intros i Hi. rewrite get_set_ne by lia. rewrite Hget by lia.
    unfold sub, get. rewrite Hs, !list_lookup_total_alt.
    rewrite lookup_take_lt by lia.
    by rewrite lookup_app_l by (unfold len, tk in *; lia).
  - rewrite Hsub. by rewrite get_set_eq by lia.
Qed.
End Str.

(* ================================================================== *)
(** * 串/串.cpp : DblLinkList and the line editor                        *)
(* ================================================================== *)

Module DblLinkList.
(** The nodes between the two sentinels, in order; [sz] is their number. *)
Section Ops.
Context {T : Type}.

Definition Length (l : list T) : Z := len l.
Definition Empty (l : list T) : bool := Length l =? 0.
Definition clear (l : list T) : list T := [].

(** [bool Insert(int pos, const T &val)]: the flag and the list after. *)
Definition Insert (pos : Z) (val : T) (l : list T) : bool * list T :=
  if (pos <? 1) || (pos >? Length l + 1) then (false, l)
  else (true, take (Z.to_nat (pos - 1)) l ++ val :: drop (Z.to_nat (pos - 1)) l).

(** [bool GetElem(int pos, T &out) const] *)
Definition GetElem (pos : Z) (l : list T) : option T :=
  if (pos <? 1) || (pos >? Length l) then None else l !! Z.to_nat (pos - 1).

(** [bool Replace(int pos, const T &val)] *)
Definition Replace (pos : Z) (val : T) (l : list T) : bool * list T :=
  if (pos <? 1) || (pos >? Length l) then (false, l)
  else (true, <[Z.to_nat (pos - 1) := val]> l).

(** [bool Delete(int pos)] *)
Definition Delete (pos : Z) (l : list T) : bool * list T :=
  if (pos <? 1) || (pos >? Length l) then (false, l)
  else (true, take (Z.to_nat (pos - 1)) l ++ drop (Z.to_nat pos) l).

Lemma Insert_Length pos val l l' :
  Insert pos val l = (true, l') ->
  1 <= pos <= Length l + 1 /\ Length l' = Length l + 1.
Proof.
  unfold Insert, Length.
  destruct (Z.ltb_spec pos 1), (Z.gtb_spec pos (len l + 1)); simpl; try done.
  intros [= <-]. split; [lia|]. unfold len in *.
  rewrite length_app. simpl. rewrite length_take, length_drop. lia.
Qed.

Lemma Insert_false pos val l l' : Insert pos val l = (false, l') -> l' = l.
Proof.
  unfold Insert. destruct ((pos <? 1) || (pos >? Length l + 1)); by intros [= <-].
Qed.

Lemma Delete_Length pos l l' :
  Delete pos l = (true, l') ->
  1 <= pos <= Length l /\ Length l' = Length l - 1.
Proof.
  unfold Delete, Length.
  destruct (Z.ltb_spec pos 1), (Z.gtb_spec pos (len l)); simpl; try done.
  intros [= <-]. split; [lia|]. unfold len in *.
  rewrite length_app, length_take, length_drop. lia.
Qed.

Lemma Delete_false pos l l' : Delete pos l = (false, l') -> l' = l.
Proof.
  unfold Delete. destruct ((pos <? 1) || (pos >? Length l)); by intros [= <-].
Qed.

Lemma Replace_Length pos val l b l' :
  Replace pos val l = (b, l') -> Length l' = Length l.
Proof.
  unfold Replace, Length, len.
  destruct ((pos <? 1) || (pos >? Z.of_nat (length l))); intros [= <- <-]; [done|].
  by rewrite length_insert.
Qed.
End Ops.
End DblLinkList.

Module Editor.
Import Str.

(** What the console and the input file hand to one command.  Every
    command reads at most one number, two lines and one yes/no answer.

    A number and an answer are read with [cin >> x] followed by
    [while (cin.get() != '\n');].  When the extraction fails (the input
    is at its end, or no number stands there, or one that no [int]
    holds) the stream is in a failed state, every [cin.get()] answers
    [EOF], and the loop has no end; it has none either when the input
    ends before the line does.  [None] stands for these inputs. *)
Record console : Type := {
  in_number : option Z;               (* the number typed for [cin >> lineNumber],
                                         [cin >> ln] *)
  in_line1 : string;                  (* first [getline(cin, line)] *)
  in_line2 : string;                  (* second [getline(cin, line)] *)
  in_yes : option bool;               (* what [UserSaysYes()] returns *)
  infile : option (list string)       (* the lines [getline] yields, or [None]
                                         when [!infile.good()] after the seek *)
}.

(** [int ln = 0; cin >> ln; while (cin.get() != '\n');]: the number
    stored, when the read returns. *)
Definition read_int (io : console) : option Z :=
  match in_number io with
  | Some z => if (- 2 ^ 31 <=? z) && (z <=? INT_MAX) then Some z else None
  | None => None
  end.

(** [if (!line.empty() && line.back() == '\r') line.pop_back();] *)
Definition strip_cr (line : list ascii) : list ascii :=
  match reverse line with
  | c :: rest => if Ascii.eqb c "013" then reverse rest else line
  | [] => line
  end.

(** [CharString Read(std::istream &in)], given the line [getline] read. *)
Definition Read (line : string) : CharString :=
  CharString_of_chars (strip_cr (String.list_ascii_of_string line)).

Record Editor : Type := {
  textBuffer : list CharString;
  curLineNo : Z;
  userCommand : ascii
}.

Definition with_cur (e : Editor) (n : Z) : Editor :=
  {| textBuffer := textBuffer e; curLineNo := n; userCommand := userCommand e |}.

Definition with_buf (e : Editor) (b : list CharString) : Editor :=
  {| textBuffer := b; curLineNo := curLineNo e; userCommand := userCommand e |}.

(** [bool NextLine()] *)
Definition NextLine (e : Editor) : bool * Editor :=
  if curLineNo e =? 0 then (false, e)
  else if curLineNo e >=? DblLinkList.Length (textBuffer e) then (false, e)
  else (true, with_cur e (curLineNo e + 1)).

(** [bool PreviousLine()] *)
Definition PreviousLine (e : Editor) : bool * Editor :=
  if curLineNo e <=? 1 then (false, e) else (true, with_cur e (curLineNo e - 1)).

(** [bool GotoLine()] *)
Definition GotoLine (io : console) (e : Editor) : option (bool * Editor) :=
  ln ← read_int io;
  if (ln <? 1) || (ln >? DblLinkList.Length (textBuffer e)) then Some (false, e)
  else Some (true, with_cur e ln).

(** Modelled from the C++ standard library: [s.find(t, pos)], the first
    position at or after [pos] where [t] occurs in [s]. *)
Fixpoint std_find (s t : list ascii) (pos : nat) : option nat :=
  match pos with
  | S p => match s with
           | [] => None
           | _ :: s' => S <$> std_find s' t p
           end
  | O => if bool_decide (take (length t) s = t /\ (length t <= length s)%nat) then Some O
         else match s with
              | [] => None
              | _ :: s' => S <$> std_find s' t O
              end
  end.

(** The replacement loop of [ChangeLine]: the line after it and [cnt]. *)
Fixpoint replace_all (fuel : nat) (s t r : list ascii) (pos : nat) (cnt : Z)
    : option (list ascii * Z) :=
  match fuel with
  | O => None
  | S f =>
      match std_find s t pos with
      | Some p =>
          replace_all f (take p s ++ r ++ drop (p + length t) s) t r (p + length r) (cnt + 1)
      | None => Some (s, cnt)
      end
  end.

(** [bool ChangeLine()] *)
Definition ChangeLine (io : console) (e : Editor) : option (bool * Editor) :=
  if curLineNo e =? 0 then Some (false, e)
  else
    match DblLinkList.GetElem (curLineNo e) (textBuffer e) with
    | None => Some (false, e)
    | Some line =>
        let s := c_str (strVal line) in
        let t := c_str (strVal (Read (in_line1 io))) in
        let r := c_str (strVal (Read (in_line2 io))) in
        if bool_decide (t = []) then Some (false, e)
        else
          '(s, cnt) ← replace_all (S (length s)) s t r 0 0;
          if cnt =? 0 then Some (false, e)
          else
            let '(_, buf) :=
              DblLinkList.Replace (curLineNo e) (CharString_of_chars s) (textBuffer e) in
            Some (true, with_buf e buf)
    end.

(** The loop of [FindString]: the first line from [i] on, among [k]
    lines, in which the pattern occurs. *)
Fixpoint FindString_loop (k : nat) (i : Z) (pat : CharString) (e : Editor) : option Editor :=
  match k with
  | O => Some e
  | S k' =>
      let line := default (CharString_of "") (DblLinkList.GetElem i (textBuffer e)) in
      r ← Index_KMP line pat 0;
      if negb (r =? -1) then Some (with_cur e i)
      else FindString_loop k' (i + 1) pat e
  end.

(** [void FindString()] *)
Definition FindString (io : console) (e : Editor) : option Editor :=
  if curLineNo e =? 0 then Some e
  else
    let pat := Read (in_line1 io) in
    if Length pat =? 0 then Some e
    else
      let n := DblLinkList.Length (textBuffer e) in
      FindString_loop (Z.to_nat (n + 1 - curLineNo e)) (curLineNo e) pat e.

(** [bool InsertLine()] *)
Definition InsertLine (io : console) (e : Editor) : option (bool * Editor) :=
  lineNumber ← read_int io;
  let toInsert := Read (in_line1 io) in
  match DblLinkList.Insert lineNumber toInsert (textBuffer e) with
  | (true, buf) => Some (true, with_cur (with_buf e buf) lineNumber)
  | (false, _) => Some (false, e)
  end.

(** [void ReadFile()] *)
Definition ReadFile (io : console) (e : Editor) : option Editor :=
  yes ← in_yes io;
  if negb yes then Some e
  else
    let e := with_buf e (DblLinkList.clear (textBuffer e)) in
    match infile io with
    | None => Some e                              (* "输入文件不可读" : return *)
    | Some lines =>
        let '(buf, cnt) :=
          fold_left (fun '(buf, cnt) line =>
                       let '(_, buf) :=
                         DblLinkList.Insert (DblLinkList.Length buf + 1)
                                            (Read line) buf in
                       (buf, cnt + 1))
                    lines (textBuffer e, 0) in
        let e := with_buf e buf in
        Some (if cnt >? 0 then with_cur e 1 else with_cur e 0)
    end.

(** [void RunCommand()] *)
Definition RunCommand (io : console) (e : Editor) : option Editor :=
  let cmd := userCommand e in
  if Ascii.eqb cmd "b" then
    Some (if DblLinkList.Empty (textBuffer e) then e else with_cur e 1)
  else if Ascii.eqb cmd "c" then
    if DblLinkList.Empty (textBuffer e) then Some e
    else '(_, e') ← ChangeLine io e; Some e'
  else if Ascii.eqb cmd "d" then
    match DblLinkList.Delete (curLineNo e) (textBuffer e) with
    | (false, _) => Some e
    | (true, buf) =>
        let e := with_buf e buf in
        Some (if DblLinkList.Length buf =? 0 then with_cur e 0
              else if curLineNo e >? DblLinkList.Length buf
                   then with_cur e (DblLinkList.Length buf)
                   else e)
    end
  else if Ascii.eqb cmd "e" then
    Some (if DblLinkList.Empty (textBuffer e) then e
          else with_cur e (DblLinkList.Length (textBuffer e)))
  else if Ascii.eqb cmd "f" then
    if DblLinkList.Empty (textBuffer e) then Some e else FindString io e
  else if Ascii.eqb cmd "g" then '(_, e') ← GotoLine io e; Some e'
  else if Ascii.eqb cmd "?" || Ascii.eqb cmd "h" then Some e
  else if Ascii.eqb cmd "i" then '(_, e') ← InsertLine io e; Some e'
  else if Ascii.eqb cmd "n" then Some (snd (NextLine e))
  else if Ascii.eqb cmd "p" then Some (snd (PreviousLine e))
  else if Ascii.eqb cmd "r" then ReadFile io e
  else if Ascii.eqb cmd "v" then Some e
  else if Ascii.eqb cmd "w" then Some e
  else Some e.

(** The cursor invariant: line 0 exactly when there is no line. *)
Definition cursor_ok (e : Editor) : Prop :=
  (curLineNo e = 0 <-> DblLinkList.Length (textBuffer e) = 0) /\
  (curLineNo e <> 0 -> 1 <= curLineNo e <= DblLinkList.Length (textBuffer e)).

(** The reads of a number ([g], [i]) and of an answer ([r]) that the
    command makes return. *)
Definition reads_return (io : console) (e : Editor) : Prop :=
  ((userCommand e = "g"%char \/ userCommand e = "i"%char) -> is_Some (read_int io)) /\
  (userCommand e = "r"%char -> is_Some (in_yes io)).
(** [bool GetCommand()]: the command character, lower-cased, is stored;
    the answer says whether it is not [q]. *)
Definition tolower (c : ascii) : ascii :=
  let n := nat_of_ascii c in
  if (65 <=? n)%nat && (n <=? 90)%nat then ascii_of_nat (n + 32) else c.

Definition GetCommand (c : ascii) (e : Editor) : bool * Editor :=
  let c := tolower c in
  (negb (Ascii.eqb c "q"),
   {| textBuffer := textBuffer e; curLineNo := curLineNo e; userCommand := c |}).

(** The editor as [main] creates it. *)
Definition fresh : Editor := {| textBuffer := []; curLineNo := 0; userCommand := zero |}.

(** ** The commands keep the cursor on a line *)

Lemma std_find_bounds s t pos p :
  std_find s t pos = Some p -> (pos <= p /\ p + length t <= length s)%nat.
Proof.
  revert s p. induction pos as [|pos IH]; intros s p.
  - induction s as [|c s IHs] in p |- *; simpl.
    + case_bool_decide as Hd; [|done]. intros [= <-]. simpl in Hd. lia.
    + case_bool_decide as Hd.
      * intros [= <-]. simpl in Hd. lia.
      * destruct (std_find s t 0) as [q|] eqn:Hq; [|done].
        intros [= <-]. specialize (IHs q eq_refl). lia.
  - destruct s as [|c s]; simpl; [done|].
    destruct (std_find s t pos) as [q|] eqn:Hq; [|done].
    intros [= <-]. specialize (IH s q Hq). lia.
Qed.

Lemma replace_all_total fuel :
  forall s t r pos cnt,
    t <> [] -> (pos <= length s)%nat -> (length s + 1 - pos <= fuel)%nat ->
    exists s' cnt', replace_all fuel s t r pos cnt = Some (s', cnt').
Proof.
  induction fuel as [|f IH]; intros s t r pos cnt Ht Hpos Hf; [lia|].
  simpl. destruct (std_find s t pos) as [p|] eqn:Hp; [|eauto].
  apply std_find_bounds in Hp as [Hp1 Hp2].
  assert (0 < length t)%nat by (destruct t; [done | simpl; lia]).
  apply IH; [done | |]; rewrite !length_app, length_take, length_drop; lia.
Qed.

Lemma ChangeLine_cursor io e b e' :
  ChangeLine io e = Some (b, e') ->
  curLineNo e' = curLineNo e /\
  DblLinkList.Length (textBuffer e') = DblLinkList.Length (textBuffer e).
Proof.
  unfold ChangeLine. destruct (curLineNo e =? 0); [by intros [= <- <-]|].
  destruct (DblLinkList.GetElem _ _) as [line|]; [|by intros [= <- <-]].
  case_bool_decide; [by intros [= <- <-]|].
  destruct (replace_all _ _ _ _ _ _) as [[s cnt]|]; [|done]. cbn [mbind option_bind].
  destruct (cnt =? 0); [by intros [= <- <-]|].
  destruct (DblLinkList.Replace _ _ _) as [b' buf] eqn:Hr. intros [= <- <-].
  split; [done|]. simpl. by eapply DblLinkList.Replace_Length.
Qed.

Lemma ChangeLine_total io e : exists b e', ChangeLine io e = Some (b, e').
Proof.
  unfold ChangeLine. destruct (curLineNo e =? 0); [eauto|].
  destruct (DblLinkList.GetElem _ _) as [line|]; [|eauto].
  case_bool_decide as Ht; [eauto|].
  destruct (replace_all_total (S (length (c_str (strVal line)))) (c_str (strVal line))
              (c_str (strVal (Read (in_line1 io)))) (c_str (strVal (Read (in_line2 io))))
              0 0 Ht) as (s' & cnt' & ->); [lia..|].
  cbn [mbind option_bind]. destruct (cnt' =? 0); [eauto|].
  destruct (DblLinkList.Replace _ _ _). eauto.
Qed.

Lemma FindString_loop_spec k : forall i pat e,
  0 < Length pat ->
  exists e', FindString_loop k i pat e = Some e' /\
    textBuffer e' = textBuffer e /\
    (curLineNo e' = curLineNo e \/ i <= curLineNo e' < i + Z.of_nat k).
Proof.
  induction k as [|k IH]; intros i pat e Hpat; simpl; [eauto|].
  destruct (Index_KMP_spec
              (default (CharString_of "") (DblLinkList.GetElem i (textBuffer e))) pat 0)
    as (r & -> & _); [done | lia |].
  cbn [mbind option_bind]. destruct (negb (r =? -1)).
  - eexists. split; [done|]. split; [done|]. right. simpl. lia.
  - destruct (IH (i + 1) pat e Hpat) as (e' & -> & Hb & Hc).
    eexists. split; [done|]. split; [done|]. lia.
Qed.

Lemma ReadFile_lines (lines : list string) : forall (buf : list CharString) cnt,
  let '(buf', cnt') :=
    fold_left (fun '(buf, cnt) line =>
                 let '(_, buf) :=
                   DblLinkList.Insert (DblLinkList.Length buf + 1) (Read line) buf in
                 (buf, cnt + 1))
              lines (buf, cnt) in
  DblLinkList.Length buf' - cnt' = DblLinkList.Length buf - cnt /\ cnt <= cnt'.
Proof.
  induction lines as [|line lines IH]; intros buf cnt; simpl; [lia|].
  destruct (DblLinkList.Insert (DblLinkList.Length buf + 1) (Read line) buf)
    as [[] buf1] eqn:Hins.
  - apply DblLinkList.Insert_Length in Hins as [_ Hl].
    specialize (IH buf1 (cnt + 1)). destruct (fold_left _ lines _) as [buf' cnt']. lia.
  - unfold DblLinkList.Insert in Hins.
    destruct (Z.ltb_spec (DblLinkList.Length buf + 1) 1),
             (Z.gtb_spec (DblLinkList.Length buf + 1) (DblLinkList.Length buf + 1));
      simpl in Hins; try done; try lia.
    unfold DblLinkList.Length in *. pose proof (len_nonneg buf). lia.
Qed.

(** Every command whose reads return keeps the cursor invariant, except
    a confirmed read from an unreadable file into a buffer that holds
    lines. *)
Lemma RunCommand_cursor_ok io e :
  cursor_ok e ->
  (userCommand e = "r"%char -> in_yes io = Some true -> infile io = None ->
   textBuffer e = []) ->
  reads_return io e ->
  exists e', RunCommand io e = Some e' /\ cursor_ok e'.
Proof.
  intros [Hz Hr] Hread [Hnumber Hanswer]. unfold RunCommand.
  assert (0 <= DblLinkList.Length (textBuffer e)) as Hlen by apply len_nonneg.
  assert (forall n, 1 <= n <= DblLinkList.Length (textBuffer e) -> cursor_ok (with_cur e n))
    as Hcur.
  { intros n Hn. unfold cursor_ok. cbn [curLineNo textBuffer with_cur with_buf fst snd]. lia. }
  assert (cursor_ok e) as He by done.
  destruct (Ascii.eqb_spec (userCommand e) "b").
  { eexists. split; [done|]. unfold DblLinkList.Empty.
    destruct (Z.eqb_spec (DblLinkList.Length (textBuffer e)) 0); [done | apply Hcur; lia]. }
  destruct (Ascii.eqb_spec (userCommand e) "c").
  { destruct (DblLinkList.Empty (textBuffer e)); [eauto|].
    destruct (ChangeLine_total io e) as (b & e' & Hc). rewrite Hc.
    apply ChangeLine_cursor in Hc as [Hc1 Hc2]. cbn [mbind option_bind].
    eexists. split; [done|]. unfold cursor_ok. rewrite Hc1, Hc2. done. }
  destruct (Ascii.eqb_spec (userCommand e) "d").
  { destruct (DblLinkList.Delete (curLineNo e) (textBuffer e)) as [[] buf] eqn:Hd; [|eauto].
    apply DblLinkList.Delete_Length in Hd as [Hd1 Hd2].
    eexists. split; [done|]. cbn [curLineNo textBuffer with_cur with_buf fst snd].
    destruct (Z.eqb_spec (DblLinkList.Length buf) 0);
      [|destruct (Z.gtb_spec (curLineNo e) (DblLinkList.Length buf))];
      unfold cursor_ok; cbn [curLineNo textBuffer with_cur with_buf fst snd]; lia. }
  destruct (Ascii.eqb_spec (userCommand e) "e").
  { eexists. split; [done|]. unfold DblLinkList.Empty.
    destruct (Z.eqb_spec (DblLinkList.Length (textBuffer e)) 0); [done | apply Hcur; lia]. }
  destruct (Ascii.eqb_spec (userCommand e) "f").
  { destruct (DblLinkList.Empty (textBuffer e)); [eauto|]. unfold FindString.
    destruct (Z.eqb_spec (curLineNo e) 0); [eauto|].
    destruct (Z.eqb_spec (Length (Read (in_line1 io))) 0); [eauto|].
    destruct (FindString_loop_spec
                (Z.to_nat (DblLinkList.Length (textBuffer e) + 1 - curLineNo e))
                (curLineNo e) (Read (in_line1 io)) e) as (e' & -> & Hb & Hc).
    { destruct (CharString_of_chars_wf
                  (strip_cr (String.list_ascii_of_string (in_line1 io)))) as [? _].
      unfold Read in *. lia. }
    eexists. split; [done|]. unfold cursor_ok. rewrite Hb. lia. }
  destruct (Ascii.eqb_spec (userCommand e) "g").
  { unfold GotoLine. destruct (Hnumber ltac:(by left)) as [ln ->]. cbn [mbind option_bind].
    destruct (Z.ltb_spec ln 1), (Z.gtb_spec ln (DblLinkList.Length (textBuffer e)));
      simpl; eexists; (split; [done|]); try done. apply Hcur. lia. }
  destruct (Ascii.eqb (userCommand e) "?" || Ascii.eqb (userCommand e) "h"); [eauto|].
  destruct (Ascii.eqb_spec (userCommand e) "i").
  { unfold InsertLine. destruct (Hnumber ltac:(by right)) as [ln ->].
    cbn [mbind option_bind].
    destruct (DblLinkList.Insert _ _ _) as [[] buf] eqn:Hi; simpl;
      eexists; (split; [done|]); [|done].
    apply DblLinkList.Insert_Length in Hi as [Hi1 Hi2].
    unfold cursor_ok. cbn [curLineNo textBuffer with_cur with_buf fst snd]. lia. }
  destruct (Ascii.eqb_spec (userCommand e) "n").
  { eexists. split; [done|]. unfold NextLine.
    destruct (Z.eqb_spec (curLineNo e) 0); [done|].
    destruct (Z.geb_spec (curLineNo e) (DblLinkList.Length (textBuffer e))); [done|].
    apply Hcur. lia. }
  destruct (Ascii.eqb_spec (userCommand e) "p").
  { eexists. split; [done|]. unfold PreviousLine.
    destruct (Z.leb_spec (curLineNo e) 1); [done|]. apply Hcur. lia. }
  destruct (Ascii.eqb_spec (userCommand e) "r") as [Hcmd|_].
  { unfold ReadFile. destruct (Hanswer Hcmd) as [yes Hyes]. rewrite Hyes.
    cbn [mbind option_bind]. destruct yes; [|by eexists]. simpl.
    destruct (infile io) as [lines|] eqn:Hfile.
    - pose proof (ReadFile_lines lines [] 0) as Hl.
      destruct (fold_left _ lines _) as [buf cnt]. unfold DblLinkList.Length in *.
      change (len (@nil CharString)) with 0 in Hl.
      eexists. split; [done|].
      destruct (Z.gtb_spec cnt 0); unfold cursor_ok, DblLinkList.Length;
        cbn [curLineNo textBuffer with_cur with_buf fst snd]; lia.
    - eexists. split; [done|]. rewrite (Hread Hcmd Hyes eq_refl) in *. done. }
  destruct (Ascii.eqb (userCommand e) "v"); [eauto|].
  destruct (Ascii.eqb (userCommand e) "w"); eauto.
Qed.

(** A command whose read of a number or of an answer does not return
    does not return either. *)
Lemma RunCommand_read_fails io e : ~ reads_return io e -> RunCommand io e = None.
Proof.
  intros Hfail. unfold RunCommand, GotoLine, InsertLine, ReadFile.
  destruct (decide (userCommand e = "g"%char)) as [Hg|Hg];
    [|destruct (decide (userCommand e = "i"%char)) as [Hi|Hi];
      [|destruct (decide (userCommand e = "r"%char)) as [Hr|Hr]]].
  - destruct (read_int io) as [ln|] eqn:Hln; [|by rewrite Hg].
    destruct Hfail. split; [intros _; by eexists | intros Hr; congruence].
  - destruct (read_int io) as [ln|] eqn:Hln; [|by rewrite Hi].
    destruct Hfail. split; [intros _; by eexists | intros Hr; congruence].
  - destruct (in_yes io) as [yes|] eqn:Hyes; [|by rewrite Hr].
    destruct Hfail. split; [intros [|]; congruence | intros _; by eexists].
  - destruct Hfail. split; [intros [|]; congruence | intros; congruence].
Qed.

(** ** A confirmed read from an unreadable file strands the cursor *)

Definition console_insert : console :=
  {| in_number := Some 1; in_line1 := "a"; in_line2 := ""; in_yes := Some false;
     infile := None |}.

Definition console_read : console :=
  {| in_number := Some 0; in_line1 := ""; in_line2 := ""; in_yes := Some true;
     infile := None |}.

(** [i], line 1, text "a". *)
Definition one_line : Editor :=
  default fresh (RunCommand console_insert (snd (GetCommand "i" fresh))).

Lemma one_line_cursor_ok : cursor_ok one_line.
Proof. unfold cursor_ok. vm_compute. split; [split; intros [=] | by split]. Qed.

(** [r], answered [y], while the input file cannot be read: the buffer is
    emptied and [curLineNo] stays 1. *)
Lemma ReadFile_unreadable_strands_cursor :
  cursor_ok one_line /\
  exists e', RunCommand console_read (snd (GetCommand "r" one_line)) = Some e' /\
             DblLinkList.Length (textBuffer e') = 0 /\ curLineNo e' = 1.
Proof.
  split; [apply one_line_cursor_ok|]. eexists. split; [vm_compute; reflexivity|]. done.
Qed.

(** ** What [FindString] finds *)

(** The line [FindString] reads at [i]: [CharString line;
    textBuffer.GetElem(i, line);]. *)
Definition line_at (e : Editor) (i : Z) : CharString :=
  default (CharString_of "") (DblLinkList.GetElem i (textBuffer e)).

(** The pattern occurs somewhere in the line. *)
Definition contains (line pat : CharString) : Prop := exists s, occurs_at line pat s.

Lemma Index_KMP_contains line pat :
  0 < Length pat ->
  exists r, Index_KMP line pat 0 = Some r /\ (r <> -1 <-> contains line pat).
Proof.
  intros Hpat. destruct (Index_KMP_spec line pat 0 Hpat ltac:(lia)) as (r & Hr & Hfirst).
  exists r. split; [done|]. destruct Hfirst as [(Hr0 & Hocc & _)|[-> Hnone]].
  - split; [intros _; by exists r | intros _; lia].
  - split; [done|]. intros [s Hs]. destruct (Hnone s); [by destruct Hs | done].
Qed.

Lemma FindString_loop_first k : forall i pat e,
  0 < Length pat ->
  exists e', FindString_loop k i pat e = Some e' /\
    ((exists j, i <= j < i + Z.of_nat k /\ e' = with_cur e j /\
                contains (line_at e j) pat /\
                forall j', i <= j' < j -> ~ contains (line_at e j') pat)
     \/ (e' = e /\ forall j, i <= j < i + Z.of_nat k -> ~ contains (line_at e j) pat)).
Proof.
  induction k as [|k IH]; intros i pat e Hpat.
  - exists e. split; [done|]. right. split; [done|]. intros; lia.
  - cbn [FindString_loop]. fold (line_at e i).
    destruct (Index_KMP_contains (line_at e i) pat Hpat) as (r & -> & Hr).
    cbn [mbind option_bind]. destruct (Z.eqb_spec r (-1)) as [->|Hne]; cbn [negb].
    + destruct (IH (i + 1) pat e Hpat) as (e' & -> & Hcase).
      assert (~ contains (line_at e i) pat) as Hi by (intros Hc%Hr; done).
      exists e'. split; [done|].
      destruct Hcase as [(j & Hj & -> & Hin & Hbefore)|[-> Hnone]].
      * left. exists j. split; [lia|]. split; [done|]. split; [done|].
        intros j' Hj'. destruct (Z.eq_dec j' i) as [->|]; [done|]. apply Hbefore. lia.
      * right. split; [done|]. intros j Hj.
        destruct (Z.eq_dec j i) as [->|]; [done|]. apply Hnone. lia.
    + eexists. split; [done|]. left. exists i. split; [lia|]. split; [done|].
      split; [by apply Hr|]. intros; lia.
Qed.

Lemma FindString_first io e :
  1 <= curLineNo e -> 0 < Length (Read (in_line1 io)) ->
  let pat := Read (in_line1 io) in
  let n := DblLinkList.Length (textBuffer e) in
  exists e', FindString io e = Some e' /\ textBuffer e' = textBuffer e /\
    ((curLineNo e <= curLineNo e' <= n /\
      contains (line_at e (curLineNo e')) pat /\
      forall j, curLineNo e <= j < curLineNo e' -> ~ contains (line_at e j) pat)
     \/ (curLineNo e' = curLineNo e /\
         forall j, curLineNo e <= j <= n -> ~ contains (line_at e j) pat)).
Proof.
  intros Hcur Hpat pat n. unfold FindString.
  destruct (Z.eqb_spec (curLineNo e) 0); [lia|]. fold pat.
  destruct (Z.eqb_spec (Length pat) 0); [unfold pat in *; lia|]. fold n.
  destruct (FindString_loop_first (Z.to_nat (n + 1 - curLineNo e)) (curLineNo e) pat e Hpat)
    as (e' & -> & [(j & Hj & -> & Hin & Hbefore)|[-> Hnone]]).
  - eexists. split; [done|]. split; [done|]. left. cbn [curLineNo with_cur].
    split; [lia|]. split; [done|]. done.
  - exists e. split; [done|]. split; [done|]. right. split; [done|].
    intros j Hj. apply Hnone. lia.
Qed.
End Editor.

(* ================================================================== *)
(** * 查找/动态表查找.cpp : the AVL tree                                 *)
(* ================================================================== *)

Module AVL.
(** [struct AVLNode]; [Nil] is [nullptr]. *)
Inductive AVLNode : Type :=
  | Nil
  | Node (key : Z) (height : Z) (left right : AVLNode).

(** [node->key], [node->left], [node->right]; on [nullptr] the program
    would crash, and the insertion never reads them there. *)
Definition key (node : AVLNode) : Z :=
  match node with Node k _ _ _ => k | Nil => 0 end.
Definition left (node : AVLNode) : AVLNode :=
  match node with Node _ _ l _ => l | Nil => Nil end.
Definition right (node : AVLNode) : AVLNode :=
  match node with Node _ _ _ r => r | Nil => Nil end.

(** [int height(AVLNode *node)] *)
Definition height (node : AVLNode) : Z :=
  match node with Node _ h _ _ => h | Nil => 0 end.

(** [void updateHeight(AVLNode *node)] *)
Definition updateHeight (node : AVLNode) : AVLNode :=
  match node with
  | Node k _ l r => Node k (1 + Z.max (height l) (height r)) l r
  | Nil => Nil
  end.

(** [int balanceFactor(AVLNode *node)] *)
Definition balanceFactor (node : AVLNode) : Z :=
  match node with
  | Node _ _ l r => height l - height r
  | Nil => 0
  end.

(** [AVLNode *rotateRight(AVLNode *y)] *)
Definition rotateRight (y : AVLNode) : AVLNode :=
  match y with
  | Node ky hy (Node kx hx xl T2) yr =>
      let y := updateHeight (Node ky hy T2 yr) in
      updateHeight (Node kx hx xl y)
  | _ => y
  end.

(** [AVLNode *rotateLeft(AVLNode *x)] *)
Definition rotateLeft (x : AVLNode) : AVLNode :=
  match x with
  | Node kx hx xl (Node ky hy T2 yr) =>
      let x := updateHeight (Node kx hx xl T2) in
      updateHeight (Node ky hy x yr)
  | _ => x
  end.

Definition set_left (node l : AVLNode) : AVLNode :=
  match node with Node k h _ r => Node k h l r | Nil => Nil end.
Definition set_right (node r : AVLNode) : AVLNode :=
  match node with Node k h l _ => Node k h l r | Nil => Nil end.

(** Steps 2 and 3 of [AVLInsert]: the height, then the four cases. *)
Definition rebalance (node : AVLNode) (k : Z) : AVLNode :=
  let node := updateHeight node in
  let bf := balanceFactor node in
  if (bf >? 1) && (k <? key (left node)) then rotateRight node
  else if (bf <? -1) && (k >? key (right node)) then rotateLeft node
  else if (bf >? 1) && (k >? key (left node)) then
    rotateRight (set_left node (rotateLeft (left node)))
  else if (bf <? -1) && (k <? key (right node)) then
    rotateLeft (set_right node (rotateRight (right node)))
  else node.

(** [AVLNode *AVLInsert(AVLNode *node, int key)] *)
Fixpoint AVLInsert (node : AVLNode) (k : Z) : AVLNode :=
  match node with
  | Nil => Node k 1 Nil Nil
  | Node kn h l r =>
      if k <? kn then rebalance (Node kn h (AVLInsert l k) r) k
      else if k >? kn then rebalance (Node kn h l (AVLInsert r k)) k
      else node
  end.

Example AVLInsert_demo :
  fold_left AVLInsert [10; 20; 30; 40; 50; 25] Nil
  = Node 30 3 (Node 20 2 (Node 10 1 Nil Nil) (Node 25 1 Nil Nil))
              (Node 40 2 Nil (Node 50 1 Nil Nil)).
Proof. reflexivity. Qed.

(** ** Search-tree order and balance *)

(** [P] holds of every key of the tree. *)
Fixpoint all_keys (P : Z -> Prop) (t : AVLNode) : Prop :=
  match t with
  | Nil => True
  | Node k _ l r => P k /\ all_keys P l /\ all_keys P r
  end.

Fixpoint present (x : Z) (t : AVLNode) : Prop :=
  match t with
  | Nil => False
  | Node k _ l r => x = k \/ present x l \/ present x r
  end.

(** The number of nodes on the longest path down from the root. *)
Fixpoint depth (t : AVLNode) : Z :=
  match t with
  | Nil => 0
  | Node _ _ l r => 1 + Z.max (depth l) (depth r)
  end.

Fixpoint bst (t : AVLNode) : Prop :=
  match t with
  | Nil => True
  | Node k _ l r =>
      bst l /\ bst r /\ all_keys (fun x => x < k) l /\ all_keys (fun x => k < x) r
  end.

(** Every node's balance factor, taken on the true subtree heights, is
    -1, 0 or 1. *)
Fixpoint balanced (t : AVLNode) : Prop :=
  match t with
  | Nil => True
  | Node _ _ l r => balanced l /\ balanced r /\ -1 <= depth l - depth r <= 1
  end.

(** The [height] fields hold the true heights. *)
Fixpoint heights_ok (t : AVLNode) : Prop :=
  match t with
  | Nil => True
  | Node _ h l r => heights_ok l /\ heights_ok r /\ h = depth t
  end.

Definition avl (t : AVLNode) : Prop := bst t /\ balanced t /\ heights_ok t.

(** [P] holds of every subtree that is a node. *)
Fixpoint every_node (P : AVLNode -> Prop) (t : AVLNode) : Prop :=
  match t with
  | Nil => True
  | Node _ _ l r => P t /\ every_node P l /\ every_node P r
  end.

Lemma all_keys_impl (P Q : Z -> Prop) t :
  (forall x, P x -> Q x) -> all_keys P t -> all_keys Q t.
Proof. intros HPQ. induction t; simpl; [done|]. intuition. Qed.

Lemma all_keys_present (P : Z -> Prop) t x : all_keys P t -> present x t -> P x.
Proof. induction t; simpl; [done|]. intros (? & ? & ?) [->|[?|?]]; auto. Qed.

(** With true heights stored, [balanceFactor] is the difference of the
    true heights. *)
Lemma balanceFactor_range t :
  balanced t -> heights_ok t -> every_node (fun nd => -1 <= balanceFactor nd <= 1) t.
Proof.
  induction t as [|k h l IHl r IHr]; [done|].
  intros (Hl & Hr & Hb) (Hhl & Hhr & Hh). cbn [every_node balanceFactor].
  split; [|split; [by apply IHl | by apply IHr]].
  assert (height l = depth l) as -> by (destruct l; simpl in *; [done | by destruct Hhl as (_ & _ & ->)]).
  assert (height r = depth r) as -> by (destruct r; simpl in *; [done | by destruct Hhr as (_ & _ & ->)]).
  lia.
Qed.

Lemma depth_nonneg t : 0 <= depth t.
Proof. induction t; simpl; lia. Qed.

Lemma height_depth t : heights_ok t -> height t = depth t.
Proof. destruct t; simpl; [done|]. by intros (_ & _ & ->). Qed.

(** The shape of a tree that has just grown taller by an insertion of
    [k] below its root: it leans to the side [k] went to. *)
Definition leans (t : AVLNode) (k : Z) : Prop :=
  match t with
  | Nil => False
  | Node k' _ a b => (k < k' /\ depth a = depth b + 1) \/ (k' < k /\ depth b = depth a + 1)
  end.

Ltac order :=
  match goal with
  | H : all_keys _ ?t |- all_keys _ ?t =>
      solve [eapply all_keys_impl; [|exact H]; simpl; intros; lia]
  end.

Ltac avl_crush :=
  repeat match goal with
    | H : _ /\ _ |- _ => destruct H
    | H : avl _ |- _ => destruct H as (? & ? & ?)
    | H : heights_ok (Node _ _ _ _) |- _ => simpl in H
    | H : bst (Node _ _ _ _) |- _ => simpl in H
    | H : balanced (Node _ _ _ _) |- _ => simpl in H
    | H : all_keys _ (Node _ _ _ _) |- _ => simpl in H
    end.

(** Decide the comparisons an [if] of the goal tests. *)
Ltac tests :=
  repeat (match goal with
          | |- context [if (?a >? ?b) && _ then _ else _] =>
              destruct (Z.gtb_spec a b); try (exfalso; lia)
          | |- context [if (?a <? ?b) && _ then _ else _] =>
              destruct (Z.ltb_spec a b); try (exfalso; lia)
          | |- context [if ?a >? ?b then _ else _] =>
              destruct (Z.gtb_spec a b); try (exfalso; lia)
          | |- context [if ?a <? ?b then _ else _] =>
              destruct (Z.ltb_spec a b); try (exfalso; lia)
          end; cbn [andb]).

Ltac use_heights :=
  repeat match goal with
    | H : heights_ok ?t |- context [height ?t] => rewrite (height_depth t H)
    end.

Lemma rebalance_left kn h l' r k dl :
  avl l' -> avl r -> all_keys (fun x => x < kn) l' -> all_keys (fun x => kn < x) r ->
  k < kn ->
  depth l' = dl \/ (depth l' = dl + 1 /\ (dl = 0 \/ leans l' k)) ->
  0 <= dl -> -1 <= dl - depth r <= 1 ->
  let t' := rebalance (Node kn h l' r) k in
  avl t' /\
  (forall P : Z -> Prop, P kn -> all_keys P l' -> all_keys P r -> all_keys P t') /\
  (depth t' = 1 + Z.max dl (depth r) \/
   (depth t' = 2 + Z.max dl (depth r) /\ leans t' k)) /\
  (depth l' = dl -> t' = Node kn (1 + Z.max dl (depth r)) l' r).
Proof.
  intros Hl Hr Hlk Hrk Hk Hd Hdl Hbal. cbn zeta.
  pose proof (depth_nonneg r) as Hr0.
  destruct Hl as (Hlb & Hlbal & Hlh), Hr as (Hrb & Hrbal & Hrh).
  unfold rebalance. cbn [updateHeight balanceFactor left right].
  rewrite (height_depth l' Hlh), (height_depth r Hrh).
  destruct (Z.gtb_spec (depth l' - depth r) 1) as [Hbf|Hbf].
  - (* the left subtree is two levels taller: it has grown and leans *)
    destruct Hd as [Hd|(Hd & [Hz|Hlean])]; [lia | lia |].
    destruct l' as [|kl hl ll lr]; [done|]. cbn [key]. simpl in Hlean.
    simpl in Hlb, Hlbal, Hlh, Hlk, Hd, Hbf.
    destruct Hlb as (Hllb & Hlrb & Hllk & Hlrk), Hlbal as (Hllbal & Hlrbal & Hlb'),
             Hlh as (Hllh & Hlrh & ->), Hlk as (Hklkn & Hllkn & Hlrkn).
    destruct Hlean as [[Hkl Hll]|[Hkl Hlr]].
    + (* LL *)
      cbn [depth]. tests. cbn [rotateRight updateHeight].
      use_heights. split; [|split; [|split]].
      * unfold avl. simpl. repeat split; try done; try lia; try order.
      * intros P HP (? & ? & ?) ?. simpl. done.
      * left. simpl. lia.
      * simpl in *. lia.
    + (* LR *)
      destruct lr as [|km hm ml mr]; [simpl in Hlr; pose proof (depth_nonneg ll); lia|].
      simpl in Hlrb, Hlrbal, Hlrh, Hlrk, Hlrkn, Hlr, Hd, Hbf, Hlb'.
      destruct Hlrb as (Hmlb & Hmrb & Hmlk & Hmrk), Hlrbal as (Hmlbal & Hmrbal & Hmb),
               Hlrh as (Hmlh & Hmrh & ->), Hlrk as (Hklkm & Hmlkl & Hmrkl),
               Hlrkn as (Hkmkn & Hmlkn & Hmrkn).
      cbn [depth]. tests.
      cbn [set_left rotateLeft rotateRight updateHeight]. use_heights.
      split; [|split; [|split]].
      * unfold avl. simpl. repeat split; try done; try lia; try order.
      * intros P HP (? & ? & ? & ? & ?) ?. simpl. done.
      * left. simpl. lia.
      * simpl in *. lia.
  - (* no rotation *)
    cbn [andb]. tests.
    split; [|split; [|split]].
    + unfold avl. simpl. use_heights. repeat split; try done; lia.
    + intros P HP ? ?. simpl. done.
    + simpl. destruct Hd as [Hd|(Hd & _)]; [left; lia|].
      destruct (Z_le_gt_dec (depth l') (depth r)); [left; lia|]. right. split; [lia|].
      left. lia.
    + intros ->. done.
Qed.

Lemma rebalance_right kn h l r' k dr :
  avl l -> avl r' -> all_keys (fun x => x < kn) l -> all_keys (fun x => kn < x) r' ->
  kn < k ->
  depth r' = dr \/ (depth r' = dr + 1 /\ (dr = 0 \/ leans r' k)) ->
  0 <= dr -> -1 <= depth l - dr <= 1 ->
  let t' := rebalance (Node kn h l r') k in
  avl t' /\
  (forall P : Z -> Prop, P kn -> all_keys P l -> all_keys P r' -> all_keys P t') /\
  (depth t' = 1 + Z.max (depth l) dr \/
   (depth t' = 2 + Z.max (depth l) dr /\ leans t' k)) /\
  (depth r' = dr -> t' = Node kn (1 + Z.max (depth l) dr) l r').
Proof.
  intros Hl Hr Hlk Hrk Hk Hd Hdr Hbal. cbn zeta.
  pose proof (depth_nonneg l) as Hl0.
  destruct Hl as (Hlb & Hlbal & Hlh), Hr as (Hrb & Hrbal & Hrh).
  unfold rebalance. cbn [updateHeight balanceFactor left right].
  rewrite (height_depth l Hlh), (height_depth r' Hrh).
  destruct (Z.ltb_spec (depth l - depth r') (-1)) as [Hbf|Hbf].
  - (* the right subtree is two levels taller: it has grown and leans *)
    destruct Hd as [Hd|(Hd & [Hz|Hlean])]; [lia | lia |].
    destruct r' as [|kr hr rl rr]; [done|]. cbn [key]. simpl in Hlean.
    simpl in Hrb, Hrbal, Hrh, Hrk, Hd, Hbf.
    destruct Hrb as (Hrlb & Hrrb & Hrlk & Hrrk), Hrbal as (Hrlbal & Hrrbal & Hrb'),
             Hrh as (Hrlh & Hrrh & ->), Hrk as (Hknkr & Hrlkn & Hrrkn).
    destruct Hlean as [[Hkr Hrl]|[Hkr Hrr]].
    + (* RL *)
      destruct rl as [|km hm ml mr]; [simpl in Hrl; pose proof (depth_nonneg rr); lia|].
      simpl in Hrlb, Hrlbal, Hrlh, Hrlk, Hrlkn, Hrl, Hd, Hbf, Hrb'.
      destruct Hrlb as (Hmlb & Hmrb & Hmlk & Hmrk), Hrlbal as (Hmlbal & Hmrbal & Hmb),
               Hrlh as (Hmlh & Hmrh & ->), Hrlk as (Hkmkr & Hmlkr & Hmrkr),
               Hrlkn as (Hknkm & Hmlkn & Hmrkn).
      cbn [depth]. tests.
      cbn [set_right rotateLeft rotateRight updateHeight]. use_heights.
      split; [|split; [|split]].
      * unfold avl. simpl. repeat split; try done; try lia; try order.
      * intros P HP ? (? & (? & ? & ?) & ?). simpl. done.
      * left. simpl. lia.
      * simpl in *. lia.
    + (* RR *)
      cbn [depth]. tests. cbn [rotateLeft updateHeight].
      use_heights. split; [|split; [|split]].
      * unfold avl. simpl. repeat split; try done; try lia; try order.
      * intros P HP ? (? & ? & ?). simpl. done.
      * left. simpl. lia.
      * simpl in *. lia.
  - (* no rotation *)
    tests.
    split; [|split; [|split]].
    + unfold avl. simpl. use_heights. repeat split; try done; lia.
    + intros P HP ? ?. simpl. done.
    + simpl. destruct Hd as [Hd|(Hd & _)]; [left; lia|].
      destruct (Z_le_gt_dec (depth r') (depth l)); [left; lia|]. right. split; [lia|].
      right. lia.
    + intros ->. done.
Qed.

(** One insertion: the tree stays an AVL tree, no key other than [k]
    appears, the tree grows by at most one level and leans towards [k]
    when it grows, and a key that is present changes nothing. *)
Lemma AVLInsert_spec t k :
  avl t ->
  let t' := AVLInsert t k in
  avl t' /\
  (forall P : Z -> Prop, P k -> all_keys P t -> all_keys P t') /\
  (depth t' = depth t \/ (depth t' = depth t + 1 /\ (t = Nil \/ leans t' k))) /\
  (present k t -> t' = t).
Proof.
  induction t as [|kn h l IHl r IHr]; intros Havl; cbn zeta.
  - simpl. unfold avl. simpl. repeat split; try done; try lia. right. split; [lia|]. by left.
  - pose proof Havl as ((Hlb & Hrb & Hlk & Hrk) & (Hlbal & Hrbal & Hbal) & (Hlh & Hrh & Hh)).
    assert (avl l) as Hl by done. assert (avl r) as Hr by done.
    simpl. destruct (Z.ltb_spec k kn) as [Hlt|Hge].
    + destruct (IHl Hl) as (Hl' & Hkeys & Hdep & Hpres).
      destruct (rebalance_left kn h (AVLInsert l k) r k (depth l))
        as (Ht' & Hkeys' & Hdep' & Hsame); try done.
      { by apply Hkeys. }
      { destruct Hdep as [?|[? [->|?]]]; [by left | right..]; split; try done.
        - by left.
        - by right. }
      { apply depth_nonneg. }
      split; [done|]. split; [|split].
      * intros P HP (? & ? & ?). apply Hkeys'; [done | by apply Hkeys | done].
      * simpl. destruct Hdep' as [?|[? ?]]; [left; lia|]. right. split; [lia|]. by right.
      * intros [->|[Hp|Hp]]; [lia | |].
        -- rewrite Hpres by done. rewrite Hpres in Hsame by done.
           rewrite Hsame by done. f_equal. simpl in Hh. lia.
        -- apply (all_keys_present _ _ _ Hrk) in Hp. lia.
    + destruct (Z.gtb_spec k kn) as [Hgt|Hle].
      * destruct (IHr Hr) as (Hr' & Hkeys & Hdep & Hpres).
        destruct (rebalance_right kn h l (AVLInsert r k) k (depth r))
          as (Ht' & Hkeys' & Hdep' & Hsame); try done.
        { by apply Hkeys. }
        { destruct Hdep as [?|[? [->|?]]]; [by left | right..]; split; try done.
          - by left.
          - by right. }
        { apply depth_nonneg. }
        split; [done|]. split; [|split].
        -- intros P HP (? & ? & ?). apply Hkeys'; [done | done | by apply Hkeys].
        -- simpl. destruct Hdep' as [?|[? ?]]; [left; lia|]. right. split; [lia|]. by right.
        -- intros [->|[Hp|Hp]]; [lia | |].
           ++ apply (all_keys_present _ _ _ Hlk) in Hp. lia.
           ++ rewrite Hpres by done. rewrite Hpres in Hsame by done.
              rewrite Hsame by done. f_equal. simpl in Hh. lia.
      * split; [done|]. split; [done|]. split; [by left | done].
Qed.

(** The tree after inserting [keys], in order, into the empty tree. *)
Definition build (keys : list Z) : AVLNode := fold_left AVLInsert keys Nil.

Lemma build_avl keys : avl (build keys).
Proof.
  unfold build. assert (avl Nil) as H0 by (unfold avl; done).
  revert H0. generalize Nil. induction keys as [|k keys IH]; intros t Ht; simpl; [done|].
  apply IH. by apply AVLInsert_spec.
Qed.

(** ** The keys of the tree *)

Lemma present_updateHeight x t : present x (updateHeight t) <-> present x t.
Proof. by destruct t. Qed.

Lemma present_rotateRight x t : present x (rotateRight t) <-> present x t.
Proof. destruct t as [|ky hy [|kx hx xl T2] yr]; simpl; tauto. Qed.

Lemma present_rotateLeft x t : present x (rotateLeft t) <-> present x t.
Proof. destruct t as [|kx hx xl [|ky hy T2 yr]]; simpl; tauto. Qed.

Lemma present_rebalance x kn h l r k :
  present x (rebalance (Node kn h l r) k) <-> x = kn \/ present x l \/ present x r.
Proof.
  unfold rebalance. cbn [updateHeight balanceFactor left right set_left set_right].
  repeat match goal with |- context [if ?c then _ else _] => destruct c end;
    rewrite ?present_rotateRight, ?present_rotateLeft; cbn [present];
    rewrite ?present_rotateRight, ?present_rotateLeft; tauto.
Qed.

(** An insertion adds its key and no other. *)
Lemma present_AVLInsert x t k : present x (AVLInsert t k) <-> x = k \/ present x t.
Proof.
  induction t as [|kn h l IHl r IHr]; simpl; [tauto|].
  destruct (Z.ltb_spec k kn); [rewrite present_rebalance, IHl; tauto|].
  destruct (Z.gtb_spec k kn); [rewrite present_rebalance, IHr; tauto|].
  assert (k = kn) as -> by lia. simpl. tauto.
Qed.

Lemma present_build x keys : present x (build keys) <-> x ∈ keys.
Proof.
  unfold build. assert (forall t, present x (fold_left AVLInsert keys t)
                                  <-> x ∈ keys \/ present x t) as Hgen.
  { induction keys as [|k keys IH]; intros t; simpl.
    - rewrite elem_of_nil. tauto.
    - rewrite IH, present_AVLInsert, elem_of_cons. tauto. }
  rewrite Hgen. simpl. tauto.
Qed.

(** ** The keys in order *)

(** [void inorderAVL(AVLNode *root)]: the keys printed. *)
Fixpoint inorderAVL (root : AVLNode) : list Z :=
  match root with
  | Nil => []
  | Node k _ l r => inorderAVL l ++ k :: inorderAVL r
  end.

Lemma inorderAVL_present x t : x ∈ inorderAVL t <-> present x t.
Proof.
  induction t as [|k h l IHl r IHr]; simpl; [by rewrite elem_of_nil|].
  rewrite elem_of_app, elem_of_cons, IHl, IHr. tauto.
Qed.

Lemma sorted_around (xs ys : list Z) (y : Z) :
  StronglySorted Z.lt xs -> StronglySorted Z.lt ys ->
  (forall x, x ∈ xs -> x < y) -> (forall z, z ∈ ys -> y < z) ->
  StronglySorted Z.lt (xs ++ y :: ys).
Proof.
  intros Hxs Hys Hlt Hgt. induction Hxs as [|x xs Hxs IH Hall]; simpl.
  - constructor; [done|]. apply Forall_forall. intros z Hz. by apply Hgt.
  - constructor.
    + apply IH. intros x' Hx'. apply Hlt. by right.
    + apply Forall_app. split; [done|]. constructor.
      * apply Hlt. by left.
      * apply Forall_forall. intros z Hz.
        pose proof (Hlt x ltac:(by left)). pose proof (Hgt z Hz). lia.
Qed.

Lemma inorderAVL_sorted t : bst t -> StronglySorted Z.lt (inorderAVL t).
Proof.
  induction t as [|k h l IHl r IHr]; simpl; [constructor|].
  intros (Hl & Hr & Hlk & Hrk).
  apply sorted_around; [auto | auto | |].
  - intros x Hx%inorderAVL_present. by apply (all_keys_present _ _ _ Hlk).
  - intros x Hx%inorderAVL_present. by apply (all_keys_present _ _ _ Hrk).
Qed.

Lemma inorderAVL_build keys :
  StronglySorted Z.lt (inorderAVL (build keys)) /\
  forall x, x ∈ inorderAVL (build keys) <-> x ∈ keys.
Proof.
  split.
  - apply inorderAVL_sorted. by destruct (build_avl keys).
  - intros x. by rewrite inorderAVL_present, present_build.
Qed.
End AVL.

(* ================================================================== *)
(** * 数组/矩阵/矩阵.cpp : TriSparseMatrix                               *)
(* ================================================================== *)

Module Sparse.
(** [struct Triple<int>] *)
Record Triple : Type := { row : Z; col : Z; value : Z }.

(** [Triple()]: what [new Triple<ElemType>[maxSize]] fills the table with. *)
Definition Triple0 : Triple := {| row := 0; col := 0; value := 0 |}.

#[global] Instance Triple_inhabited : Inhabited Triple := populate Triple0.

(** [class TriSparseMatrix<int>] *)
Record TriSparseMatrix : Type := {
  triElems : list Triple;
  maxSize : Z;
  rows : Z;
  cols : Z;
  num : Z
}.

(** [TriSparseMatrix(int rs = 0, int cs = 0, int size = 0)] *)
Definition create (rs cs size : Z) : TriSparseMatrix :=
  let maxSize := if size <? 0 then 0 else size in
  {| triElems := replicate (Z.to_nat maxSize) Triple0;
     maxSize := maxSize; rows := rs; cols := cs; num := 0 |}.

(** [(r, c)] comes before the place of [t] in row-major order. *)
Definition before (r c : Z) (t : Triple) : bool :=
  (r <? row t) || ((r =? row t) && (c <? col t)).

(** [bool SetElem(int r, int c, const ElemType &v)]: the flag and the
    matrix after the call. *)
Definition SetElem (r c v : Z) (m : TriSparseMatrix) : option (bool * TriSparseMatrix) :=
  if (r <? 1) || (r >? rows m) || (c <? 1) || (c >? cols m) then Some (false, m)
  else
    let t := triElems m in
    pos ← while (S (Z.to_nat (num m)))
                (fun pos => (pos >=? 0) && before r c (get t pos))
                (fun pos => pos - 1) (num m - 1);
    if (pos >=? 0) && (row (get t pos) =? r) && (col (get t pos) =? c) then
      if v =? 0 then
        let t := for_up (pos + 1) (num m) (fun k t => set t (k - 1) (get t k)) t in
        Some (true, {| triElems := t; maxSize := maxSize m; rows := rows m;
                       cols := cols m; num := num m - 1 |})
      else
        let t := set t pos {| row := row (get t pos); col := col (get t pos);
                              value := v |} in
        Some (true, {| triElems := t; maxSize := maxSize m; rows := rows m;
                       cols := cols m; num := num m |})
    else
      if v =? 0 then Some (true, m)
      else if num m >=? maxSize m then Some (false, m)
      else
        let t := for_down (num m - 1) pos (fun k t => set t (k + 1) (get t k)) t in
        let t := set t (pos + 1) {| row := r; col := c; value := v |} in
        Some (true, {| triElems := t; maxSize := maxSize m; rows := rows m;
                       cols := cols m; num := num m + 1 |}).

(** The loop of [GetElem], with [n] triples left to look at from [k]. *)
Fixpoint GetElem_scan (n : nat) (k : Z) (r c : Z) (t : list Triple) : Z :=
  match n with
  | O => 0
  | S n' =>
      if (row (get t k) =? r) && (col (get t k) =? c) then value (get t k)
      else if (row (get t k) >? r) || ((row (get t k) =? r) && (col (get t k) >? c))
           then 0
           else GetElem_scan n' (k + 1) r c t
  end.

(** [bool GetElem(int r, int c, ElemType &v) const]: [None] is [false],
    [Some v] is [true] with the value written to [v]. *)
Definition GetElem (r c : Z) (m : TriSparseMatrix) : option Z :=
  if (r <? 1) || (r >? rows m) || (c <? 1) || (c >? cols m) then None
  else Some (GetElem_scan (Z.to_nat (num m)) 0 r c (triElems m)).

(** The triple a transposition writes for [t]. *)
Definition transposed (t : Triple) : Triple :=
  {| row := col t; col := row t; value := value t |}.

Definition simple_inner (source : TriSparseMatrix) (c : Z) (s : Z)
    : list Triple * Z -> list Triple * Z :=
  fun '(d, destPos) =>
    if col (get (triElems source) s) =? c
    then (set d destPos (transposed (get (triElems source) s)), destPos + 1)
    else (d, destPos).

(** [static void SimpleTranspose(const TriSparseMatrix &source,
    TriSparseMatrix &dest)]: [dest] after the call.  The loop
    [for (int col = 1; col <= source.cols; ++col)] ends when [col] passes
    [source.cols]; with [source.cols] at [INT_MAX] the test holds of every
    [int], [++col] wraps around and the call does not return. *)
Definition SimpleTranspose (source : TriSparseMatrix) : outcome TriSparseMatrix :=
  let d := replicate (Z.to_nat (maxSize source)) Triple0 in
  let dest d :=
    {| triElems := d; maxSize := maxSize source; rows := cols source;
       cols := rows source; num := num source |} in
  if num source =? 0 then Returns (dest d)
  else if cols source =? INT_MAX then OutOfFuel
  else
    Returns (dest (fst (for_up 1 (cols source + 1)
                               (fun c => for_up 0 (num source) (simple_inner source c))
                               (d, 0)))).

Definition fast_move (source : TriSparseMatrix) (s : Z)
    : list Triple * list Z -> list Triple * list Z :=
  fun '(d, cPos) =>
    let c := col (get (triElems source) s) in
    let dp := get cPos c in
    let cPos := set cPos c (dp + 1) in
    (set d dp (transposed (get (triElems source) s)), cPos).

(** [std::vector<int> v(count, 0)] for an [int] count: a negative count
    is a size above [max_size()], and the constructor throws
    [std::length_error], which is a [std::logic_error]. *)
Definition vector_int (count : Z) : outcome (list Z) :=
  if count <? 0 then Throws logic_error else Returns (replicate (Z.to_nat count) 0).

(** [static void FastTranspose(const TriSparseMatrix &source,
    TriSparseMatrix &dest)]: [dest] after the call.  Where the two
    vectors of [source.cols + 1] counters are built, [source.cols] is
    below [INT_MAX], and the loop over the columns ends. *)
Definition FastTranspose (source : TriSparseMatrix) : outcome TriSparseMatrix :=
  let d := replicate (Z.to_nat (maxSize source)) Triple0 in
  let dest d :=
    {| triElems := d; maxSize := maxSize source; rows := cols source;
       cols := rows source; num := num source |} in
  if num source =? 0 then Returns (dest d)
  else
    match vector_int (wrap32 (cols source + 1)) with
    | Returns cNum =>
        match vector_int (wrap32 (cols source + 1)) with
        | Returns cPos =>
            let cNum :=
              for_up 0 (num source)
                     (fun s cNum =>
                        let c := col (get (triElems source) s) in
                        set cNum c (get cNum c + 1)) cNum in
            let cPos := set cPos 1 0 in
            let cPos :=
              for_up 2 (cols source + 1)
                     (fun c cPos => set cPos c (get cPos (c - 1) + get cNum (c - 1))) cPos in
            Returns (dest (fst (for_up 0 (num source) (fast_move source) (d, cPos))))
        | Throws e => Throws e
        | OutOfFuel => OutOfFuel
        end
    | Throws e => Throws e
    | OutOfFuel => OutOfFuel
    end.

(** The matrix of the course's example (P42), as [main] builds it. *)
Definition demo : option TriSparseMatrix :=
  '(_, m) ← SetElem 1 3 2 (create 5 6 16);
  '(_, m) ← SetElem 2 6 8 m;
  '(_, m) ← SetElem 3 1 1 m;
  '(_, m) ← SetElem 3 3 3 m;
  '(_, m) ← SetElem 5 1 4 m;
  '(_, m) ← SetElem 5 3 6 m;
  Some m.

(** The first [k] triples of a transposition that returned. *)
Definition triples_of (k : nat) (r : outcome TriSparseMatrix) : option (list Triple) :=
  match r with
  | Returns d => Some (take k (triElems d))
  | Throws _ | OutOfFuel => None
  end.

Example demo_transposes :
  (m ← demo; triples_of 6 (FastTranspose m))
  = Some [ {| row := 1; col := 3; value := 1 |}; {| row := 1; col := 5; value := 4 |};
           {| row := 3; col := 1; value := 2 |}; {| row := 3; col := 3; value := 3 |};
           {| row := 3; col := 5; value := 6 |}; {| row := 6; col := 2; value := 8 |} ]
  /\ (SimpleTranspose <$> demo) = (FastTranspose <$> demo).
Proof. split; vm_compute; reflexivity. Qed.

(** At the last column an [int] can name, neither transposition returns
    a table: the counters of [FastTranspose] cannot be built, and the
    column loop of [SimpleTranspose] has no end. *)
Example transposes_at_INT_MAX :
  let m := {| triElems := [{| row := 1; col := 1; value := 5 |}; Triple0];
              maxSize := 2; rows := 1; cols := INT_MAX; num := 1 |} in
  SetElem 1 1 5 (create 1 INT_MAX 2) = Some (true, m) /\
  FastTranspose m = Throws logic_error /\ SimpleTranspose m = OutOfFuel.
Proof. split; [|split]; vm_compute; reflexivity. Qed.

(** ** The table invariant *)

(** Row-major order on the places of two triples. *)
Definition key_lt (a b : Triple) : Prop :=
  row a < row b \/ (row a = row b /\ col a < col b).

Definition at_place (r c : Z) (t : Triple) : Prop := row t = r /\ col t = c.

(** The first [num] triples are strictly sorted by (row, col), hold no
    zero and lie inside the matrix; the table has [maxSize] cells. *)
Record wf (m : TriSparseMatrix) : Prop := {
  wf_num : 0 <= num m <= maxSize m;
  wf_len : len (triElems m) = maxSize m;
  wf_sorted : forall i j, 0 <= i -> i < j -> j < num m ->
                          key_lt (get (triElems m) i) (get (triElems m) j);
  wf_nonzero : forall i, 0 <= i < num m -> value (get (triElems m) i) <> 0;
  wf_inside : forall i, 0 <= i < num m ->
                        1 <= row (get (triElems m) i) <= rows m /\
                        1 <= col (get (triElems m) i) <= cols m
}.

(** The entry the table gives to place [(r, c)]. *)
Definition entry (m : TriSparseMatrix) (r c v : Z) : Prop :=
  (exists i, 0 <= i < num m /\ at_place r c (get (triElems m) i) /\
             value (get (triElems m) i) = v)
  \/ ((forall i, 0 <= i < num m -> ~ at_place r c (get (triElems m) i)) /\ v = 0).

Lemma create_wf rs cs size : wf (create rs cs size).
Proof.
  unfold create. split; simpl; try (intros; lia).
  - destruct (size <? 0) eqn:E; lia.
  - unfold len. rewrite length_replicate. destruct (Z.ltb_spec size 0); lia.
Qed.

Lemma before_true r c t :
  before r c t = true <-> r < row t \/ (r = row t /\ c < col t).
Proof.
  unfold before. rewrite orb_true_iff, andb_true_iff, !Z.ltb_lt, Z.eqb_eq. done.
Qed.

Lemma before_false r c t :
  before r c t = false <-> row t < r \/ (row t = r /\ col t <= c).
Proof.
  unfold before. rewrite orb_false_iff, andb_false_iff, !Z.ltb_ge, Z.eqb_neq. lia.
Qed.

Lemma entry_unique m r c v1 v2 : wf m -> entry m r c v1 -> entry m r c v2 -> v1 = v2.
Proof.
  intros Hwf [(i & Hi & [Hir Hic] & <-)|[Hn1 ->]] [(j & Hj & [Hjr Hjc] & <-)|[Hn2 ->]].
  - destruct (Z.lt_trichotomy i j) as [Hlt|[->|Hlt]]; [|done|].
    + pose proof (wf_sorted m Hwf i j) as Hs. unfold key_lt in Hs. lia.
    + pose proof (wf_sorted m Hwf j i) as Hs. unfold key_lt in Hs. lia.
  - destruct (Hn2 i Hi). done.
  - destruct (Hn1 j Hj). done.
  - done.
Qed.

(** ** [GetElem] reads the entry *)

Lemma GetElem_scan_spec m r c (Hwf : wf m) n :
  forall k, 0 <= k -> k + Z.of_nat n = num m ->
    (forall i, 0 <= i < k -> ~ at_place r c (get (triElems m) i)) ->
    entry m r c (GetElem_scan n k r c (triElems m)).
Proof.
  induction n as [|n IH]; intros k Hk Hn Hnone; simpl.
  - right. split; [|done]. intros i Hi. apply Hnone. lia.
  - destruct (Z.eqb_spec (row (get (triElems m) k)) r) as [Hr|Hr];
      destruct (Z.eqb_spec (col (get (triElems m) k)) c) as [Hc|Hc]; simpl.
    + left. exists k. unfold at_place. split; [lia | done].
    + destruct (Z.gtb_spec (row (get (triElems m) k)) r) as [Hgr|Hgr]; [lia|]. simpl.
      destruct (Z.gtb_spec (col (get (triElems m) k)) c) as [Hgc|Hgc].
      * right. split; [|done]. intros i Hi [Hir Hic].
        destruct (Z_lt_ge_dec i k) as [Hlt|Hge]; [apply (Hnone i); [lia | done]|].
        destruct (Z.eq_dec i k) as [->|Hne]; [lia|].
        pose proof (wf_sorted m Hwf k i) as Hs. unfold key_lt in Hs. lia.
      * apply IH; [lia..|]. intros i Hi [Hir Hic].
        destruct (Z.eq_dec i k) as [->|Hne]; [lia | apply (Hnone i); [lia | done]].
    + destruct (Z.gtb_spec (row (get (triElems m) k)) r) as [Hgr|Hgr]; simpl.
      * right. split; [|done]. intros i Hi [Hir Hic].
        destruct (Z_lt_ge_dec i k) as [Hlt|Hge]; [apply (Hnone i); [lia | done]|].
        destruct (Z.eq_dec i k) as [->|Hne]; [lia|].
        pose proof (wf_sorted m Hwf k i) as Hs. unfold key_lt in Hs. lia.
      * apply IH; [lia..|]. intros i Hi [Hir Hic].
        destruct (Z.eq_dec i k) as [->|Hne]; [lia | apply (Hnone i); [lia | done]].
    + destruct (Z.gtb_spec (row (get (triElems m) k)) r) as [Hgr|Hgr]; simpl.
      * right. split; [|done]. intros i Hi [Hir Hic].
        destruct (Z_lt_ge_dec i k) as [Hlt|Hge]; [apply (Hnone i); [lia | done]|].
        destruct (Z.eq_dec i k) as [->|Hne]; [lia|].
        pose proof (wf_sorted m Hwf k i) as Hs. unfold key_lt in Hs. lia.
      * apply IH; [lia..|]. intros i Hi [Hir Hic].
        destruct (Z.eq_dec i k) as [->|Hne]; [lia | apply (Hnone i); [lia | done]].
Qed.

Definition inside (m : TriSparseMatrix) (r c : Z) : Prop :=
  1 <= r <= rows m /\ 1 <= c <= cols m.

Lemma range_test_false m r c :
  inside m r c -> (r <? 1) || (r >? rows m) || (c <? 1) || (c >? cols m) = false.
Proof.
  intros [Hr Hc].
  destruct (Z.ltb_spec r 1), (Z.gtb_spec r (rows m)), (Z.ltb_spec c 1),
           (Z.gtb_spec c (cols m)); simpl; (done || lia).
Qed.

Lemma range_test_true m r c :
  ~ inside m r c -> (r <? 1) || (r >? rows m) || (c <? 1) || (c >? cols m) = true.
Proof.
  unfold inside. intros Hn.
  destruct (Z.ltb_spec r 1), (Z.gtb_spec r (rows m)), (Z.ltb_spec c 1),
           (Z.gtb_spec c (cols m)); simpl; (done || lia).
Qed.

Lemma GetElem_entry m r c :
  wf m -> inside m r c -> exists v, GetElem r c m = Some v /\ entry m r c v.
Proof.
  intros Hwf Hin. unfold GetElem. rewrite range_test_false by done.
  eexists. split; [done|].
  apply GetElem_scan_spec; [done | lia | | intros; lia].
  pose proof (wf_num m Hwf). lia.
Qed.

Lemma GetElem_of_entry m r c v :
  wf m -> inside m r c -> entry m r c v -> GetElem r c m = Some v.
Proof.
  intros Hwf Hin He. destruct (GetElem_entry m r c Hwf Hin) as (v' & -> & He').
  f_equal. by eapply entry_unique.
Qed.

(** ** The loops of [SetElem] *)

Lemma find_place_spec (t : list Triple) (n r c : Z) :
  0 <= n ->
  exists pos,
    while (S (Z.to_nat n)) (fun pos => (pos >=? 0) && before r c (get t pos))
          (fun pos => pos - 1) (n - 1) = Some pos /\
    -1 <= pos < n /\
    (forall i, pos < i < n -> before r c (get t i) = true) /\
    (0 <= pos -> before r c (get t pos) = false).
Proof.
  intros Hn.
  destruct (while_rule
    (fun pos => -1 <= pos < n /\ forall i, pos < i < n -> before r c (get t i) = true)
    (fun pos => pos + 1)
    (fun pos => (pos >=? 0) && before r c (get t pos)) (fun pos => pos - 1))
    with (fuel := S (Z.to_nat n)) (s := n - 1) as (pos & Hw & (Hp & Hb) & Hc).
  - intros pos [Hp Hb] [Hc1%Z.geb_le Hc2]%andb_prop. split; [split|]; [lia | | lia].
    intros i Hi. destruct (Z.eq_dec i pos) as [->|]; [done | apply Hb; lia].
  - split; [lia|]. intros; lia.
  - lia.
  - exists pos. split; [done|]. split; [done|]. split; [done|].
    intros Hpos. apply andb_false_iff in Hc as [Hc|Hc]; [|done].
    destruct (Z.geb_spec pos 0); [done | lia].
Qed.

(** Closing the gap at [pos]: [for (k = pos+1; k < n; ++k) t[k-1] = t[k];] *)
Lemma shift_left_spec (t : list Triple) (pos n : Z) :
  0 <= pos -> pos < n -> n <= len t ->
  let t' := for_up (pos + 1) n (fun k t => set t (k - 1) (get t k)) t in
  len t' = len t /\
  (forall i, pos <= i < n - 1 -> get t' i = get t (i + 1)) /\
  (forall i, 0 <= i -> ~ (pos <= i < n - 1) -> get t' i = get t i).
Proof.
  intros Hpos Hn Hlen. cbn zeta.
  apply (for_up_inv (fun k t' =>
    len t' = len t /\
    (forall i, pos <= i < k - 1 -> get t' i = get t (i + 1)) /\
    (forall i, 0 <= i -> ~ (pos <= i < k - 1) -> get t' i = get t i))); [lia | |].
  - split; [done|]. split; [intros; lia | done].
  - intros k t' Hk (Hl & Hin & Hout). rewrite len_set. split; [done|]. split.
    + intros i Hi. rewrite get_set by lia. destruct (Z.eq_dec (k - 1) i) as [<-|Hne].
      * rewrite Hout by lia. f_equal. lia.
      * apply Hin. lia.
    + intros i Hi Hni. rewrite get_set_ne by lia. apply Hout; lia.
Qed.

(** Opening a gap after [pos]: [for (k = n-1; k > pos; --k) t[k+1] = t[k];] *)
Lemma shift_right_spec (t : list Triple) (pos n : Z) :
  -1 <= pos -> pos < n -> n < len t ->
  let t' := for_down (n - 1) pos (fun k t => set t (k + 1) (get t k)) t in
  len t' = len t /\
  (forall i, pos + 1 < i <= n -> get t' i = get t (i - 1)) /\
  (forall i, 0 <= i -> ~ (pos + 1 < i <= n) -> get t' i = get t i).
Proof.
  intros Hpos Hn Hlen. cbn zeta.
  apply (for_down_inv (fun k t' =>
    len t' = len t /\
    (forall i, k + 1 < i <= n -> get t' i = get t (i - 1)) /\
    (forall i, 0 <= i -> ~ (k + 1 < i <= n) -> get t' i = get t i))); [lia | |].
  - split; [done|]. split; [intros; lia | done].
  - intros k t' Hk (Hl & Hin & Hout). rewrite len_set. split; [done|]. split.
    + intros i Hi. rewrite get_set by lia. destruct (Z.eq_dec (k + 1) i) as [<-|Hne].
      * rewrite Hout by lia. f_equal. lia.
      * apply Hin. lia.
    + intros i Hi Hni. rewrite get_set_ne by lia. apply Hout; lia.
Qed.

(** ** The three updates of [SetElem] *)

Definition with_table (m : TriSparseMatrix) (t : list Triple) (n : Z) : TriSparseMatrix :=
  {| triElems := t; maxSize := maxSize m; rows := rows m; cols := cols m; num := n |}.

Lemma delete_case m pos :
  wf m -> 0 <= pos < num m ->
  let p := get (triElems m) pos in
  let m' := with_table m (for_up (pos + 1) (num m)
                            (fun k t => set t (k - 1) (get t k)) (triElems m))
                       (num m - 1) in
  wf m' /\ entry m' (row p) (col p) 0 /\
  forall r' c' v', ~ at_place r' c' p -> entry m r' c' v' -> entry m' r' c' v'.
Proof.
  intros Hwf Hpos. cbn zeta.
  pose proof (wf_num m Hwf) as Hnum. pose proof (wf_len m Hwf) as Hlen.
  destruct (shift_left_spec (triElems m) pos (num m)) as (Hl & Hin & Hout); [lia..|].
  set (t' := for_up _ _ _ _) in *.
  assert (forall i, 0 <= i < num m - 1 ->
            exists j, 0 <= j < num m /\ j <> pos /\ get t' i = get (triElems m) j /\
                      (i < pos -> j = i) /\ (pos <= i -> j = i + 1)) as Hmap.
  { intros i Hi. destruct (Z_lt_ge_dec i pos).
    - exists i. rewrite Hout by lia. repeat split; lia.
    - exists (i + 1). rewrite Hin by lia. repeat split; lia. }
  split; [split; simpl|split].
  - lia.
  - lia.
  - intros i j Hi Hij Hj.
    destruct (Hmap i) as (i' & ? & ? & -> & ? & ?); [lia|].
    destruct (Hmap j) as (j' & ? & ? & -> & ? & ?); [lia|].
    apply (wf_sorted m Hwf); lia.
  - intros i Hi. destruct (Hmap i) as (i' & ? & ? & -> & _); [lia|].
    by apply (wf_nonzero m Hwf).
  - intros i Hi. destruct (Hmap i) as (i' & ? & ? & -> & _); [lia|].
    by apply (wf_inside m Hwf).
  - right. split; [|done]. simpl. intros i Hi [Hr Hc].
    destruct (Hmap i) as (i' & ? & Hne & Heq & _); [lia|]. rewrite Heq in Hr, Hc.
    destruct (Z.lt_trichotomy i' pos) as [Hlt|[->|Hlt]]; [|done|].
    + pose proof (wf_sorted m Hwf i' pos) as Hs. unfold key_lt in Hs. lia.
    + pose proof (wf_sorted m Hwf pos i') as Hs. unfold key_lt in Hs. lia.
  - intros r' c' v' Hnp [(j & Hj & Hat & Hv)|[Hnone ->]].
    + left. assert (j <> pos) as Hne by (intros ->; done).
      destruct (Z_lt_ge_dec j pos).
      * exists j. simpl. rewrite Hout by lia. split; [lia | done].
      * exists (j - 1). simpl. rewrite Hin by lia.
        replace (j - 1 + 1) with j by lia. split; [lia | done].
    + right. split; [|done]. simpl. intros i Hi.
      destruct (Hmap i) as (i' & ? & ? & -> & _); [lia|]. by apply Hnone.
Qed.

Lemma modify_case m pos v :
  wf m -> 0 <= pos < num m -> v <> 0 ->
  let p := get (triElems m) pos in
  let m' := with_table m (set (triElems m) pos
                            {| row := row p; col := col p; value := v |}) (num m) in
  wf m' /\ entry m' (row p) (col p) v /\
  forall r' c' v', ~ at_place r' c' p -> entry m r' c' v' -> entry m' r' c' v'.
Proof.
  intros Hwf Hpos Hv. cbn zeta.
  pose proof (wf_num m Hwf) as Hnum. pose proof (wf_len m Hwf) as Hlen.
  assert (forall i, 0 <= i ->
            row (get (set (triElems m) pos
                   {| row := row (get (triElems m) pos);
                      col := col (get (triElems m) pos); value := v |}) i)
            = row (get (triElems m) i) /\
            col (get (set (triElems m) pos
                   {| row := row (get (triElems m) pos);
                      col := col (get (triElems m) pos); value := v |}) i)
            = col (get (triElems m) i)) as Hkey.
  { intros i Hi. rewrite get_set by lia. by destruct (Z.eq_dec pos i) as [->|]. }
  split; [split; simpl|split].
  - lia.
  - by rewrite len_set.
  - intros i j Hi Hij Hj. unfold key_lt.
    destruct (Hkey i) as [-> ->]; [lia|]. destruct (Hkey j) as [-> ->]; [lia|].
    apply (wf_sorted m Hwf); lia.
  - intros i Hi. rewrite get_set by lia. destruct (Z.eq_dec pos i); [done|].
    by apply (wf_nonzero m Hwf).
  - intros i Hi. destruct (Hkey i) as [-> ->]; [lia|]. by apply (wf_inside m Hwf).
  - left. exists pos. simpl. rewrite get_set_eq by lia. done.
  - intros r' c' v' Hnp [(j & Hj & Hat & Hv')|[Hnone ->]].
    + left. exists j. simpl. assert (j <> pos) as Hne by (intros ->; done).
      rewrite get_set_ne by lia. done.
    + right. split; [|done]. simpl. intros i Hi. unfold at_place.
      destruct (Hkey i) as [-> ->]; [lia|]. by apply Hnone.
Qed.

Lemma insert_case m pos r c v :
  wf m -> -1 <= pos < num m -> num m < maxSize m -> v <> 0 -> inside m r c ->
  (forall i, 0 <= i <= pos -> key_lt (get (triElems m) i) {| row := r; col := c; value := v |}) ->
  (forall i, pos < i < num m ->
             key_lt {| row := r; col := c; value := v |} (get (triElems m) i)) ->
  let m' := with_table m
              (set (for_down (num m - 1) pos (fun k t => set t (k + 1) (get t k))
                             (triElems m))
                   (pos + 1) {| row := r; col := c; value := v |})
              (num m + 1) in
  wf m' /\ entry m' r c v /\
  forall r' c' v', ~ (r' = r /\ c' = c) -> entry m r' c' v' -> entry m' r' c' v'.
Proof.
  intros Hwf Hpos Hfull Hv Hin Hlow Hhigh. cbn zeta.
  pose proof (wf_num m Hwf) as Hnum. pose proof (wf_len m Hwf) as Hlen.
  destruct (shift_right_spec (triElems m) pos (num m)) as (Hl & Hsh & Hout); [lia..|].
  set (t1 := for_down _ _ _ _) in *.
  set (new := {| row := r; col := c; value := v |}) in *.
  assert (forall i, 0 <= i < num m + 1 ->
            (i = pos + 1 /\ get (set t1 (pos + 1) new) i = new) \/
            (exists j, 0 <= j < num m /\ get (set t1 (pos + 1) new) i = get (triElems m) j /\
                       (i <= pos /\ j = i \/ pos + 1 < i /\ j = i - 1))) as Hmap.
  { intros i Hi. rewrite get_set by lia. destruct (Z.eq_dec (pos + 1) i) as [<-|Hne].
    - by left.
    - right. destruct (Z_lt_ge_dec i (pos + 1)).
      + exists i. rewrite Hout by lia. split; [lia|]. split; [done|]. left. lia.
      + exists (i - 1). rewrite Hsh by lia. split; [lia|]. split; [done|]. right. lia. }
  split; [split; simpl|split].
  - lia.
  - rewrite len_set. lia.
  - intros i j Hi Hij Hj.
    destruct (Hmap i) as [[-> ->]|(i' & ? & -> & Hi')]; [lia| |];
      (destruct (Hmap j) as [[-> ->]|(j' & ? & -> & Hj')]; [lia| |]); try lia.
    + apply Hhigh. lia.
    + apply Hlow. lia.
    + apply (wf_sorted m Hwf); lia.
  - intros i Hi. destruct (Hmap i) as [[-> ->]|(i' & ? & -> & _)]; [lia|done|].
    by apply (wf_nonzero m Hwf).
  - intros i Hi. destruct (Hmap i) as [[-> ->]|(i' & ? & -> & _)]; [lia|done|].
    by apply (wf_inside m Hwf).
  - left. exists (pos + 1). simpl. rewrite get_set_eq by lia. split; [lia | done].
  - intros r' c' v' Hnp [(j & Hj & Hat & Hv')|[Hnone ->]].
    + left. destruct (Z_le_gt_dec j pos).
      * exists j. simpl. rewrite get_set_ne by lia. rewrite Hout by lia.
        split; [lia | done].
      * exists (j + 1). simpl. rewrite get_set_ne by lia. rewrite Hsh by lia.
        replace (j + 1 - 1) with j by lia. split; [lia | done].
    + right. split; [|done]. simpl. intros i Hi.
      destruct (Hmap i) as [[-> ->]|(i' & ? & -> & _)]; [lia| |].
      * unfold at_place. simpl. intros [? ?]. by apply Hnp.
      * by apply Hnone.
Qed.

(** ** [SetElem] *)

Lemma SetElem_spec m r c v :
  wf m ->
  exists b m', SetElem r c v m = Some (b, m') /\
    (b = false ->
       m' = m /\ (~ inside m r c \/ (v <> 0 /\ num m = maxSize m))) /\
    (b = true ->
       inside m r c /\ wf m' /\
       rows m' = rows m /\ cols m' = cols m /\ maxSize m' = maxSize m /\
       entry m' r c v /\
       forall r' c' v', ~ (r' = r /\ c' = c) -> entry m r' c' v' -> entry m' r' c' v').
Proof.
  intros Hwf. unfold SetElem.
  pose proof (wf_num m Hwf) as Hnum.
  destruct ((r <? 1) || (r >? rows m) || (c <? 1) || (c >? cols m)) eqn:Hrange.
  { exists false, m. split; [done|]. split; [|done]. intros _. split; [done|]. left.
    intros Hin. by rewrite range_test_false in Hrange. }
  assert (inside m r c) as Hin.
  { unfold inside. destruct (Z.ltb_spec r 1), (Z.gtb_spec r (rows m)),
      (Z.ltb_spec c 1), (Z.gtb_spec c (cols m)); simpl in Hrange; (done || lia). }
  destruct (find_place_spec (triElems m) (num m) r c) as (pos & -> & Hpos & Hafter & Hat);
    [lia|]. cbn [mbind option_bind].
  destruct ((pos >=? 0) && (row (get (triElems m) pos) =? r) &&
            (col (get (triElems m) pos) =? c)) eqn:Hfound.
  - (* the place is in the table *)
    apply andb_prop in Hfound as [[Hp0%Z.geb_le Hr%Z.eqb_eq]%andb_prop Hc%Z.eqb_eq].
    subst r c. destruct (Z.eqb_spec v 0) as [->|Hv].
    + destruct (delete_case m pos Hwf) as (Hwf' & He & Hothers); [lia|].
      eexists true, _. split; [done|]. split; [done|].
      intros _. split; [done|]. split; [done|]. do 3 (split; [done|]). split; [done|].
      intros r' c' v' Hne. apply Hothers. unfold at_place. lia.
    + destruct (modify_case m pos v Hwf) as (Hwf' & He & Hothers); [lia | done |].
      eexists true, _. split; [done|]. split; [done|].
      intros _. split; [done|]. split; [done|]. do 3 (split; [done|]). split; [done|].
      intros r' c' v' Hne. apply Hothers. unfold at_place. lia.
  - (* the place is not in the table *)
    assert (forall i, 0 <= i <= pos ->
              key_lt (get (triElems m) i) {| row := r; col := c; value := v |}) as Hlow.
    { intros i Hi. specialize (Hat ltac:(lia)). apply before_false in Hat.
      assert (key_lt (get (triElems m) pos) {| row := r; col := c; value := v |}) as Hp.
      { unfold key_lt. simpl.
        destruct (Z.geb_spec pos 0); [|lia].
        destruct (Z.eqb_spec (row (get (triElems m) pos)) r),
                 (Z.eqb_spec (col (get (triElems m) pos)) c); simpl in Hfound; (done || lia). }
      destruct (Z.eq_dec i pos) as [->|Hne]; [done|].
      pose proof (wf_sorted m Hwf i pos) as Hs. unfold key_lt in *. simpl in *. lia. }
    assert (forall i, pos < i < num m ->
              key_lt {| row := r; col := c; value := v |} (get (triElems m) i)) as Hhigh.
    { intros i Hi. specialize (Hafter i Hi). apply before_true in Hafter.
      unfold key_lt. simpl. lia. }
    assert (forall i, 0 <= i < num m -> ~ at_place r c (get (triElems m) i)) as Hnone.
    { intros i Hi [Hir Hic]. destruct (Z_le_gt_dec i pos).
      - specialize (Hlow i ltac:(lia)). unfold key_lt in Hlow. simpl in Hlow. lia.
      - specialize (Hhigh i ltac:(lia)). unfold key_lt in Hhigh. simpl in Hhigh. lia. }
    destruct (Z.eqb_spec v 0) as [->|Hv].
    + exists true, m. split; [done|]. split; [done|]. intros _.
      split; [done|]. split; [done|]. do 3 (split; [done|]). split; [by right | done].
    + destruct (Z.geb_spec (num m) (maxSize m)) as [Hfull|Hroom].
      * exists false, m. split; [done|]. split; [|done]. intros _. split; [done|].
        right. split; [done | lia].
      * destruct (insert_case m pos r c v Hwf) as (Hwf' & He & Hothers); try done; try lia.
        eexists true, _. split; [done|]. split; [done|].
        intros _. split; [done|]. split; [done|]. do 3 (split; [done|]). done.
Qed.

(** The table after a run of [SetElem] calls keeps the invariant. *)
Lemma SetElem_wf m r c v b m' : wf m -> SetElem r c v m = Some (b, m') -> wf m'.
Proof.
  intros Hwf Hset. destruct (SetElem_spec m r c v Hwf) as (b' & m'' & Heq & Hf & Ht).
  rewrite Hset in Heq. injection Heq as <- <-. destruct b.
  - by apply Ht.
  - destruct Hf as [-> _]; done.
Qed.

(** The matrix of the course's example, out of its [option]. *)
Definition demo_matrix : TriSparseMatrix := default (create 5 6 16) demo.

Lemma demo_matrix_wf : wf demo_matrix.
Proof.
  unfold demo_matrix, demo. pose proof (create_wf 5 6 16) as H0.
  destruct (SetElem 1 3 2 _) as [[b1 m1]|] eqn:E1; [|done].
  pose proof (SetElem_wf _ _ _ _ _ _ H0 E1) as H1. cbn [mbind option_bind].
  destruct (SetElem 2 6 8 _) as [[b2 m2]|] eqn:E2; [|done].
  pose proof (SetElem_wf _ _ _ _ _ _ H1 E2) as H2. cbn [mbind option_bind].
  destruct (SetElem 3 1 1 _) as [[b3 m3]|] eqn:E3; [|done].
  pose proof (SetElem_wf _ _ _ _ _ _ H2 E3) as H3. cbn [mbind option_bind].
  destruct (SetElem 3 3 3 _) as [[b4 m4]|] eqn:E4; [|done].
  pose proof (SetElem_wf _ _ _ _ _ _ H3 E4) as H4. cbn [mbind option_bind].
  destruct (SetElem 5 1 4 _) as [[b5 m5]|] eqn:E5; [|done].
  pose proof (SetElem_wf _ _ _ _ _ _ H4 E5) as H5. cbn [mbind option_bind].
  destruct (SetElem 5 3 6 _) as [[b6 m6]|] eqn:E6; [|done].
  exact (SetElem_wf _ _ _ _ _ _ H5 E6).
Qed.

(** ** Transposition: where each triple goes *)

(** What a transposition needs of its source: the [num] triples fit in
    the table and their columns are columns of the matrix.  The order of
    the triples plays no part. *)
Definition placed (m : TriSparseMatrix) : Prop :=
  0 <= num m <= maxSize m /\
  forall i, 0 <= i < num m -> 1 <= col (get (triElems m) i) <= cols m.

Lemma wf_placed m : wf m -> placed m.
Proof.
  intros Hwf. split; [apply (wf_num m Hwf)|].
  intros i Hi. by apply (wf_inside m Hwf).
Qed.

Section Transpose.
Variable m : TriSparseMatrix.
Hypothesis Hwf : placed m.

Let t := triElems m.
Let n := num m.

(** How many of the first [s] triples lie in column [c]. *)
Fixpoint count_col (c : Z) (s : nat) : Z :=
  match s with
  | O => 0
  | S s' => count_col c s' + (if col (get t (Z.of_nat s')) =? c then 1 else 0)
  end.

Definition cnt (c s : Z) : Z := count_col c (Z.to_nat s).

(** How many of the first [s] triples lie in columns [1 .. k]. *)
Fixpoint sum_upto (k : nat) (s : Z) : Z :=
  match k with
  | O => 0
  | S k' => sum_upto k' s + cnt (Z.of_nat (S k')) s
  end.

(** The first cell of the block of column [c] in the transposed table. *)
Definition start (c : Z) : Z := sum_upto (Z.to_nat (c - 1)) n.

(** The cell the [s]-th triple is moved to. *)
Definition target (s : Z) : Z := start (col (get t s)) + cnt (col (get t s)) s.

Lemma cnt_0 c : cnt c 0 = 0.
Proof. done. Qed.

Lemma cnt_succ c s :
  0 <= s -> cnt c (s + 1) = cnt c s + (if col (get t s) =? c then 1 else 0).
Proof.
  intros Hs. unfold cnt. replace (Z.to_nat (s + 1)) with (S (Z.to_nat s)) by lia.
  simpl. by rewrite Z2Nat.id.
Qed.

Lemma cnt_mono c s s' : 0 <= s <= s' -> 0 <= cnt c s <= cnt c s'.
Proof.
  intros [Hs Hss]. replace s' with (s + Z.of_nat (Z.to_nat (s' - s))) by lia.
  generalize (Z.to_nat (s' - s)) as k. clear s' Hss.
  assert (0 <= cnt c s) as H0.
  { unfold cnt. induction (Z.to_nat s) as [|k IH]; simpl; [done|].
    destruct (_ =? _); lia. }
  induction k as [|k IH]; [rewrite Z.add_0_r; lia|].
  replace (s + Z.of_nat (S k)) with (s + Z.of_nat k + 1) by lia.
  rewrite cnt_succ by lia. destruct (_ =? _); lia.
Qed.

Lemma cnt_own s : 0 <= s < n -> cnt (col (get t s)) s < cnt (col (get t s)) n.
Proof.
  intros Hs. pose proof (cnt_mono (col (get t s)) (s + 1) n ltac:(lia)).
  rewrite cnt_succ, Z.eqb_refl in H by lia. lia.
Qed.

Lemma sum_upto_succ k s :
  0 <= s ->
  sum_upto k (s + 1)
  = sum_upto k s + (if (1 <=? col (get t s)) && (col (get t s) <=? Z.of_nat k) then 1 else 0).
Proof.
  intros Hs. induction k as [|k IH].
  - cbn [sum_upto]. change (Z.of_nat 0) with 0.
    destruct (Z.leb_spec 1 (col (get t s))), (Z.leb_spec (col (get t s)) 0);
      simpl; lia.
  - cbn [sum_upto]. rewrite IH, cnt_succ by done.
    destruct (Z.leb_spec 1 (col (get t s))), (Z.leb_spec (col (get t s)) (Z.of_nat k)),
             (Z.leb_spec (col (get t s)) (Z.of_nat (S k))),
             (Z.eqb_spec (col (get t s)) (Z.of_nat (S k))); simpl; lia.
Qed.

Lemma start_1 : start 1 = 0.
Proof. done. Qed.

Lemma start_succ c : 1 <= c -> start (c + 1) = start c + cnt c n.
Proof.
  intros Hc. unfold start. replace (Z.to_nat (c + 1 - 1)) with (S (Z.to_nat (c - 1))) by lia.
  cbn [sum_upto]. do 2 f_equal. lia.
Qed.

Lemma start_mono c c' : 1 <= c <= c' -> start c <= start c'.
Proof.
  intros [Hc Hcc]. replace c' with (c + Z.of_nat (Z.to_nat (c' - c))) by lia.
  generalize (Z.to_nat (c' - c)) as k. clear c' Hcc.
  induction k as [|k IH]; [rewrite Z.add_0_r; lia|].
  replace (c + Z.of_nat (S k)) with (c + Z.of_nat k + 1) by lia.
  rewrite start_succ by lia. pose proof (proj1 Hwf).
  pose proof (cnt_mono (c + Z.of_nat k) 0 n ltac:(unfold n; lia)). lia.
Qed.

Lemma start_nonneg c : 1 <= c -> 0 <= start c.
Proof. intros Hc. rewrite <- start_1. apply start_mono. lia. Qed.

(** All triples lie in columns [1 .. cols]: the blocks fill exactly the
    first [num] cells. *)
Lemma start_end : start (cols m + 1) = n.
Proof.
  unfold start. replace (cols m + 1 - 1) with (cols m) by lia.
  assert (forall s : nat, Z.of_nat s <= n ->
            sum_upto (Z.to_nat (cols m)) (Z.of_nat s) = Z.of_nat s) as Hs.
  { induction s as [|s IH]; intros Hle.
    - clear. induction (Z.to_nat (cols m)) as [|k IH]; simpl; [done|].
      rewrite IH. done.
    - replace (Z.of_nat (S s)) with (Z.of_nat s + 1) by lia.
      rewrite sum_upto_succ, IH by lia.
      assert (1 <= col (get t (Z.of_nat s)) <= cols m) as Hc
        by (apply (proj2 Hwf); unfold n in *; lia).
      destruct (Z.leb_spec 1 (col (get t (Z.of_nat s)))),
               (Z.leb_spec (col (get t (Z.of_nat s))) (Z.of_nat (Z.to_nat (cols m))));
        simpl; lia. }
  pose proof (proj1 Hwf). specialize (Hs (Z.to_nat n)).
  rewrite Z2Nat.id in Hs by (unfold n; lia). apply Hs. lia.
Qed.

Lemma col_inside s : 0 <= s < n -> 1 <= col (get t s) <= cols m.
Proof. intros Hs. by apply (proj2 Hwf). Qed.

Lemma target_bounds s :
  0 <= s < n ->
  start (col (get t s)) <= target s < start (col (get t s) + 1) /\ 0 <= target s < n.
Proof.
  intros Hs. pose proof (col_inside s Hs) as Hc. unfold target.
  rewrite start_succ by lia. pose proof (cnt_own s Hs).
  pose proof (cnt_mono (col (get t s)) 0 s ltac:(lia)). rewrite cnt_0 in *.
  assert (0 <= start (col (get t s))) by (apply start_nonneg; lia).
  assert (start (col (get t s) + 1) <= start (cols m + 1)) as Hend
    by (apply start_mono; lia).
  rewrite start_succ, start_end in Hend by lia. lia.
Qed.

Lemma target_inj s s' : 0 <= s' -> s' < s -> s < n -> target s' <> target s.
Proof.
  intros Hs0 Hss Hsn.
  pose proof (col_inside s ltac:(lia)) as Hc. pose proof (col_inside s' ltac:(lia)) as Hc'.
  destruct (target_bounds s ltac:(lia)) as [Hb _].
  destruct (target_bounds s' ltac:(lia)) as [Hb' _].
  destruct (Z.lt_trichotomy (col (get t s')) (col (get t s))) as [Hlt|[Heq|Hgt]].
  - assert (start (col (get t s') + 1) <= start (col (get t s)))
      by (apply start_mono; lia). lia.
  - unfold target. rewrite Heq.
    pose proof (cnt_mono (col (get t s)) (s' + 1) s ltac:(lia)) as Hm.
    rewrite cnt_succ in Hm by lia. rewrite Heq, Z.eqb_refl in Hm. lia.
  - assert (start (col (get t s) + 1) <= start (col (get t s')))
      by (apply start_mono; lia). lia.
Qed.

(** The table [d] holds the triples chosen by [P], each at its target,
    and nothing else. *)
Definition scattered (P : Z -> Prop) (d : list Triple) : Prop :=
  len d = maxSize m /\
  (forall i, 0 <= i < n -> P i -> get d (target i) = transposed (get t i)) /\
  (forall j, 0 <= j < maxSize m ->
             (forall i, 0 <= i < n -> P i -> target i <> j) -> get d j = Triple0).

Lemma scattered_iff (P Q : Z -> Prop) d :
  (forall i, 0 <= i < n -> (P i <-> Q i)) -> scattered P d -> scattered Q d.
Proof.
  intros HPQ (Hl & Hw & Hu). split; [done|]. split.
  - intros i Hi HQ. apply Hw; [done|]. by apply HPQ.
  - intros j Hj Hn. apply Hu; [done|]. intros i Hi HP. apply Hn; [done|]. by apply HPQ.
Qed.

Lemma scattered_write (P : Z -> Prop) d s :
  scattered P d -> 0 <= s < n -> ~ P s ->
  scattered (fun i => P i \/ i = s) (set d (target s) (transposed (get t s))).
Proof.
  intros (Hl & Hw & Hu) Hs HnP. pose proof (proj1 Hwf).
  destruct (target_bounds s Hs) as [_ Hts].
  split; [by rewrite len_set|]. split.
  - intros i Hi [HP| ->].
    + rewrite get_set_ne; [by apply Hw | lia | |].
      * destruct (target_bounds i Hi) as [_ ?]. lia.
      * assert (i <> s) by (intros ->; done).
        destruct (Z_lt_ge_dec i s); [apply not_eq_sym|]; apply target_inj; lia.
    + rewrite get_set_eq; [done | unfold n in *; lia].
  - intros j Hj Hn. rewrite get_set_ne; [|lia|lia|].
    + apply Hu; [done|]. intros i Hi HP. apply Hn; [done | by left].
    + apply Hn; [done | by right].
Qed.

Lemma scattered_init : scattered (fun _ => False) (replicate (Z.to_nat (maxSize m)) Triple0).
Proof.
  pose proof (proj1 Hwf). split; [|split].
  - unfold len. rewrite length_replicate. lia.
  - done.
  - intros j Hj _. unfold get. apply lookup_total_replicate_2. lia.
Qed.

Lemma bounded_search (f : Z -> Z) (j : Z) (k : nat) :
  (exists i, 0 <= i < Z.of_nat k /\ f i = j) \/
  (forall i, 0 <= i < Z.of_nat k -> f i <> j).
Proof.
  induction k as [|k [(i & Hi & Hf)|IH]].
  - right. intros; lia.
  - left. exists i. split; [lia | done].
  - destruct (Z.eq_dec (f (Z.of_nat k)) j) as [Heq|Hne].
    + left. exists (Z.of_nat k). split; [lia | done].
    + right. intros i Hi. destruct (Z.eq_dec i (Z.of_nat k)) as [->|]; [done|].
      apply IH. lia.
Qed.

(** A table that holds every triple at its target is determined. *)
Lemma scattered_unique d1 d2 :
  scattered (fun _ => True) d1 -> scattered (fun _ => True) d2 -> d1 = d2.
Proof.
  intros (Hl1 & Hw1 & Hu1) (Hl2 & Hw2 & Hu2). pose proof (proj1 Hwf).
  apply get_ext; [lia|]. intros j Hj.
  destruct (bounded_search target j (Z.to_nat n)) as [(i & Hi & <-)|Hnone].
  - rewrite Hw1, Hw2; (done || lia).
  - rewrite Hu1, Hu2; try done; try lia; intros i Hi _; apply Hnone; lia.
Qed.
End Transpose.
(** ** The two transpositions build the same table *)

Lemma simple_column m c d :
  placed m -> 1 <= c <= cols m ->
  scattered m (fun i => col (get (triElems m) i) < c) d ->
  let '(d', destPos') := for_up 0 (num m) (simple_inner m c) (d, start m c) in
  scattered m (fun i => col (get (triElems m) i) < c + 1) d' /\ destPos' = start m (c + 1).
Proof.
  intros Hwf Hc Hd. pose proof (proj1 Hwf) as Hnum.
  assert (let '(d', destPos') := for_up 0 (num m) (simple_inner m c) (d, start m c) in
          scattered m (fun i => col (get (triElems m) i) < c \/
                                (col (get (triElems m) i) = c /\ i < num m)) d' /\
          destPos' = start m c + cnt m c (num m)) as Hloop.
  { apply (for_up_inv (fun s '(d', destPos') =>
      scattered m (fun i => col (get (triElems m) i) < c \/
                            (col (get (triElems m) i) = c /\ i < s)) d' /\
      destPos' = start m c + cnt m c s)); [lia | |].
    - split; [|rewrite cnt_0; lia].
      eapply scattered_iff; [|exact Hd]. intros i Hi. simpl. lia.
    - intros s [d' destPos'] Hs [Hsc ->]. unfold simple_inner.
      rewrite cnt_succ by lia.
      destruct (Z.eqb_spec (col (get (triElems m) s)) c) as [Heq|Hne].
      + split; [|lia].
        replace (start m c + cnt m c s) with (target m s) by (unfold target; by rewrite Heq).
        eapply scattered_iff; [|apply scattered_write; [done | exact Hsc | lia | simpl; lia]].
        intros i Hi. simpl. split.
        * intros [[?|[? ?]]| ->]; lia.
        * intros [?|[? ?]]; [by left; left|]. destruct (Z.eq_dec i s); [by right|].
          left. right. lia.
      + split; [|lia]. eapply scattered_iff; [|exact Hsc].
        intros i Hi. simpl. split; [lia|]. intros [?|[? ?]]; [by left|].
        right. split; [done|]. destruct (Z.eq_dec i s) as [->|]; [done | lia]. }
  destruct (for_up 0 (num m) (simple_inner m c) (d, start m c)) as [d' destPos'].
  destruct Hloop as [Hsc ->]. split; [|by rewrite start_succ by lia].
  eapply scattered_iff; [|exact Hsc]. intros i Hi. simpl. lia.
Qed.

Lemma SimpleTranspose_scattered m :
  placed m ->
  scattered m (fun _ => True)
    (fst (for_up 1 (cols m + 1) (fun c => for_up 0 (num m) (simple_inner m c))
                 (replicate (Z.to_nat (maxSize m)) Triple0, 0))).
Proof.
  intros Hwf. pose proof (proj1 Hwf) as Hnum.
  destruct (Z_le_gt_dec 0 (cols m)) as [Hcols|Hcols].
  - assert (let '(d, destPos) :=
              for_up 1 (cols m + 1) (fun c => for_up 0 (num m) (simple_inner m c))
                     (replicate (Z.to_nat (maxSize m)) Triple0, 0) in
            scattered m (fun i => col (get (triElems m) i) < cols m + 1) d /\
            destPos = start m (cols m + 1)) as Hloop.
    { apply (for_up_inv (fun c '(d, destPos) =>
        scattered m (fun i => col (get (triElems m) i) < c) d /\ destPos = start m c));
        [lia | |].
      - split; [|done]. eapply scattered_iff; [|by apply scattered_init].
        intros i Hi. simpl. pose proof (col_inside m Hwf i Hi). lia.
      - intros c [d destPos] Hc [Hsc ->].
        apply (simple_column m c d Hwf); [lia | done]. }
    destruct (for_up 1 (cols m + 1) _ _) as [d destPos]. destruct Hloop as [Hsc _].
    eapply scattered_iff; [|exact Hsc]. intros i Hi. simpl.
    pose proof (col_inside m Hwf i Hi). lia.
  - rewrite for_up_nop by lia. simpl.
    eapply scattered_iff; [|by apply scattered_init].
    intros i Hi. pose proof (col_inside m Hwf i Hi). lia.
Qed.

Lemma fast_count m :
  placed m -> 1 <= cols m ->
  let cNum := for_up 0 (num m)
                (fun s cNum =>
                   let c := col (get (triElems m) s) in
                   set cNum c (get cNum c + 1))
                (replicate (Z.to_nat (cols m + 1)) 0) in
  forall c, 1 <= c <= cols m -> get cNum c = cnt m c (num m).
Proof.
  intros Hwf Hcols. pose proof (proj1 Hwf) as Hnum. cbn zeta.
  apply (proj2 (A := len (for_up 0 (num m)
                (fun s cNum =>
                   let c := col (get (triElems m) s) in
                   set cNum c (get cNum c + 1))
                (replicate (Z.to_nat (cols m + 1)) 0)) = cols m + 1)).
  apply (for_up_inv (fun s (cNum : list Z) =>
    len cNum = cols m + 1 /\
    forall c, 1 <= c <= cols m -> get cNum c = cnt m c s)); [lia | |].
  - split.
    + intros. unfold len. rewrite length_replicate. lia.
    + intros c Hc. rewrite cnt_0. unfold get. apply lookup_total_replicate_2. lia.
  - intros s cNum Hs [Hl Hget]. rewrite len_set. split; [done|].
    intros c Hc. pose proof (col_inside m Hwf s Hs) as Hcs.
    rewrite cnt_succ, get_set by lia.
    destruct (Z.eq_dec (col (get (triElems m) s)) c) as [->|Hne].
    + rewrite Z.eqb_refl, Hget by lia. done.
    + destruct (Z.eqb_spec (col (get (triElems m) s)) c); [done|].
      rewrite Hget by lia. lia.
Qed.

Lemma fast_positions m (cNum : list Z) :
  placed m -> 1 <= cols m ->
  (forall c, 1 <= c <= cols m -> get cNum c = cnt m c (num m)) ->
  let cPos := for_up 2 (cols m + 1)
                (fun c cPos => set cPos c (get cPos (c - 1) + get cNum (c - 1)))
                (set (replicate (Z.to_nat (cols m + 1)) 0) 1 0) in
  len cPos = cols m + 1 /\ forall c, 1 <= c <= cols m -> get cPos c = start m c.
Proof.
  intros Hwf Hcols HcNum. cbn zeta.
  assert (len (set (replicate (Z.to_nat (cols m + 1)) 0) 1 0) = cols m + 1) as Hl0.
  { rewrite len_set. unfold len. rewrite length_replicate. lia. }
  pose proof (for_up_inv (fun c (cPos : list Z) =>
    len cPos = cols m + 1 /\ forall c', 1 <= c' < c -> get cPos c' = start m c')
    2 (cols m + 1)
    (fun c cPos => set cPos c (get cPos (c - 1) + get cNum (c - 1)))
    (set (replicate (Z.to_nat (cols m + 1)) 0) 1 0)) as Hinv.
  destruct Hinv as [Hl Hget].
  - lia.
  - split; [done|]. intros c' Hc'. assert (c' = 1) as -> by lia.
    rewrite get_set_eq; [by rewrite start_1|].
    unfold len. rewrite length_replicate. lia.
  - intros c cPos Hc [Hl Hget]. rewrite len_set. split; [done|].
    intros c' Hc'. rewrite get_set by lia. destruct (Z.eq_dec c c') as [<-|Hne].
    + rewrite Hget, HcNum by lia. replace c with (c - 1 + 1) at 3 by lia.
      rewrite start_succ by lia. done.
    + apply Hget. lia.
  - split; [done|]. intros c Hc. apply Hget. lia.
Qed.

Lemma fast_moves m d (cPos : list Z) :
  placed m -> len cPos = cols m + 1 ->
  (forall c, 1 <= c <= cols m -> get cPos c = start m c) ->
  scattered m (fun _ => False) d ->
  scattered m (fun _ => True) (fst (for_up 0 (num m) (fast_move m) (d, cPos))).
Proof.
  intros Hwf Hl HcPos Hd. pose proof (proj1 Hwf) as Hnum.
  assert (let '(d', cPos') := for_up 0 (num m) (fast_move m) (d, cPos) in
          scattered m (fun i => i < num m) d' /\ len cPos' = cols m + 1 /\
          forall c, 1 <= c <= cols m -> get cPos' c = start m c + cnt m c (num m)) as Hloop.
  { apply (for_up_inv (fun s '(d', cPos') =>
      scattered m (fun i => i < s) d' /\ len cPos' = cols m + 1 /\
      forall c, 1 <= c <= cols m -> get cPos' c = start m c + cnt m c s)); [lia | |].
    - split; [|split; [done|]].
      + eapply scattered_iff; [|exact Hd]. intros i Hi. simpl. lia.
      + intros c Hc. rewrite cnt_0, HcPos by done. lia.
    - intros s [d' cPos'] Hs (Hsc & Hl' & Hget). unfold fast_move.
      pose proof (col_inside m Hwf s Hs) as Hcs. rewrite len_set.
      split; [|split; [done|]].
      + rewrite Hget by done. change (start m _ + cnt m _ s) with (target m s).
        eapply scattered_iff; [|apply scattered_write; [done | exact Hsc | lia | simpl; lia]].
        intros i Hi. simpl. lia.
      + intros c Hc. rewrite cnt_succ, get_set by lia.
        destruct (Z.eq_dec (col (get (triElems m) s)) c) as [->|Hne].
        * rewrite Z.eqb_refl, Hget by lia. lia.
        * destruct (Z.eqb_spec (col (get (triElems m) s)) c); [done|].
          rewrite Hget by lia. lia. }
  destruct (for_up 0 (num m) (fast_move m) (d, cPos)) as [d' cPos'].
  destruct Hloop as [Hsc _]. simpl.
  eapply scattered_iff; [|exact Hsc]. intros i Hi. simpl. lia.
Qed.

(** Below the last column an [int] can name, both transpositions return,
    and they return the same destination. *)
Lemma Transposes_agree m :
  placed m -> cols m < INT_MAX ->
  exists d, SimpleTranspose m = Returns d /\ FastTranspose m = Returns d.
Proof.
  intros Hwf Hint. unfold SimpleTranspose, FastTranspose.
  destruct (Z.eqb_spec (num m) 0) as [Hz|Hnz]; [by eexists|].
  pose proof (proj1 Hwf) as Hnum.
  assert (1 <= cols m) as Hcols.
  { pose proof (col_inside m Hwf 0 ltac:(lia)). lia. }
  destruct (Z.eqb_spec (cols m) INT_MAX) as [|_]; [lia|].
  unfold vector_int. rewrite wrap32_small by (unfold INT_MAX in Hint; lia).
  destruct (Z.ltb_spec (cols m + 1) 0) as [|_]; [lia|].
  eexists. split; [done|]. f_equal. f_equal. symmetry.
  apply (scattered_unique m Hwf).
  - by apply SimpleTranspose_scattered.
  - pose proof (fast_count m Hwf Hcols) as HcNum. cbn zeta in HcNum.
    destruct (fast_positions m _ Hwf Hcols HcNum) as [Hl HcPos].
    apply fast_moves; [done | exact Hl | exact HcPos | by apply scattered_init].
Qed.
(** ** The transposed table is the table of the transposed matrix *)

Lemma SimpleTranspose_table m :
  placed m -> cols m < INT_MAX ->
  exists d,
    SimpleTranspose m
    = Returns {| triElems := d; maxSize := maxSize m; rows := cols m; cols := rows m;
                 num := num m |} /\
    scattered m (fun _ => True) d.
Proof.
  intros Hpl Hint. unfold SimpleTranspose.
  destruct (Z.eqb_spec (num m) 0) as [Hz|Hnz].
  - eexists. split; [done|].
    eapply scattered_iff; [|by apply scattered_init]. intros i Hi. lia.
  - destruct (Z.eqb_spec (cols m) INT_MAX) as [|_]; [lia|].
    eexists. split; [done|]. by apply SimpleTranspose_scattered.
Qed.

(** Every cell below [num] of the transposed table is the target of a
    triple of the source. *)
Lemma target_onto m j :
  placed m -> 0 <= j < num m -> exists s, 0 <= s < num m /\ target m s = j.
Proof.
  intros Hpl Hj. pose proof (proj1 Hpl) as Hnum.
  assert (target m <$> seqZ 0 (num m) ≡ₚ seqZ 0 (num m)) as Hperm.
  { apply submseteq_length_Permutation.
    - apply NoDup_submseteq.
      + apply NoDup_fmap_2_strong; [|apply NoDup_seqZ].
        intros a b Ha%elem_of_seqZ Hb%elem_of_seqZ Heq.
        destruct (Z.lt_trichotomy a b) as [Hlt|[->|Hgt]]; [|done|].
        * destruct (target_inj m Hpl b a); (done || lia).
        * destruct (target_inj m Hpl a b); (done || lia).
      + intros x (s & -> & Hs%elem_of_seqZ)%list_elem_of_fmap.
        apply elem_of_seqZ. destruct (target_bounds m Hpl s); lia.
    - by rewrite length_fmap. }
  assert (j ∈ target m <$> seqZ 0 (num m)) as Hin.
  { rewrite Hperm. apply elem_of_seqZ. lia. }
  apply list_elem_of_fmap in Hin as (s & -> & Hs%elem_of_seqZ).
  exists s. split; [lia | done].
Qed.

(** Targets follow the order of (column, row). *)
Lemma target_order m s s' :
  wf m -> 0 <= s < num m -> 0 <= s' < num m -> target m s < target m s' ->
  key_lt (transposed (get (triElems m) s)) (transposed (get (triElems m) s')).
Proof.
  intros Hwf Hs Hs' Hlt. pose proof (wf_placed m Hwf) as Hpl.
  destruct (target_bounds m Hpl s Hs) as [Hb _].
  destruct (target_bounds m Hpl s' Hs') as [Hb' _].
  pose proof (col_inside m Hpl s Hs) as Hc. pose proof (col_inside m Hpl s' Hs') as Hc'.
  unfold key_lt, transposed. cbn [row col].
  destruct (Z.lt_trichotomy (col (get (triElems m) s)) (col (get (triElems m) s')))
    as [Hcol|[Hcol|Hcol]].
  - by left.
  - right. split; [done|].
    assert (s < s') as Hss.
    { destruct (Z_lt_ge_dec s s') as [|Hge]; [done|]. exfalso.
      unfold target in Hlt. rewrite Hcol in Hlt.
      pose proof (cnt_mono m (col (get (triElems m) s')) s' s ltac:(lia)). lia. }
    pose proof (wf_sorted m Hwf s s' ltac:(lia) Hss ltac:(lia)) as Hkey.
    unfold key_lt in Hkey. lia.
  - exfalso.
    assert (start m (col (get (triElems m) s') + 1) <= start m (col (get (triElems m) s)))
      by (apply start_mono; [done | lia]).
    lia.
Qed.

Lemma transposed_wf m (d : list Triple) :
  wf m -> scattered m (fun _ => True) d ->
  wf {| triElems := d; maxSize := maxSize m; rows := cols m; cols := rows m; num := num m |}.
Proof.
  intros Hwf (Hl & Hw & Hu). pose proof (wf_placed m Hwf) as Hpl.
  assert (forall j, 0 <= j < num m ->
            exists s, 0 <= s < num m /\ target m s = j /\
                      get d j = transposed (get (triElems m) s)) as Hcell.
  { intros j Hj. destruct (target_onto m j Hpl Hj) as (s & Hs & <-).
    exists s. split; [done|]. split; [done|]. by apply Hw. }
  split; cbn [triElems maxSize rows cols num].
  - apply (wf_num m Hwf).
  - done.
  - intros i j Hi Hij Hj.
    destruct (Hcell i ltac:(lia)) as (s & Hs & Hts & ->).
    destruct (Hcell j ltac:(lia)) as (s' & Hs' & Hts' & ->).
    apply target_order; (done || lia).
  - intros i Hi. destruct (Hcell i Hi) as (s & Hs & _ & ->). cbn [value transposed].
    by apply (wf_nonzero m Hwf).
  - intros i Hi. destruct (Hcell i Hi) as (s & Hs & _ & ->). cbn [row col transposed].
    destruct (wf_inside m Hwf s Hs). lia.
Qed.

Lemma transposed_entry m (d : list Triple) r c v :
  wf m -> scattered m (fun _ => True) d ->
  entry m r c v ->
  entry {| triElems := d; maxSize := maxSize m; rows := cols m; cols := rows m;
           num := num m |} c r v.
Proof.
  intros Hwf (Hl & Hw & Hu) He. pose proof (wf_placed m Hwf) as Hpl.
  unfold entry in *. cbn [triElems num].
  destruct He as [(i & Hi & [Hr Hc] & Hv)|[Hnone ->]].
  - left. exists (target m i). split; [by destruct (target_bounds m Hpl i Hi)|].
    rewrite Hw by done. unfold at_place, transposed. cbn [row col value]. done.
  - right. split; [|done]. intros j Hj [Hr Hc].
    destruct (target_onto m j Hpl Hj) as (s & Hs & <-).
    rewrite Hw in Hr, Hc by done. unfold transposed in Hr, Hc. cbn [row col] in Hr, Hc.
    by apply (Hnone s Hs).
Qed.

(** The transposition of a sorted table is the sorted table of the
    transposed matrix: [GetElem] reads at [(c, r)] what the source holds
    at [(r, c)]. *)
Lemma FastTranspose_correct m :
  wf m -> cols m < INT_MAX ->
  exists d,
    FastTranspose m = Returns d /\
    wf d /\ rows d = cols m /\ cols d = rows m /\ num d = num m /\
    forall r c, inside m r c -> GetElem c r d = GetElem r c m.
Proof.
  intros Hwf Hint. pose proof (wf_placed m Hwf) as Hpl.
  destruct (Transposes_agree m Hpl Hint) as (d & Hsimple & Hfast).
  destruct (SimpleTranspose_table m Hpl Hint) as (t & Htable & Hsc).
  rewrite Hsimple in Htable. injection Htable as ->.
  eexists. split; [exact Hfast|]. cbn [rows cols num].
  pose proof (transposed_wf m _ Hwf Hsc) as Hwf'.
  split; [done|]. split; [done|]. split; [done|]. split; [done|].
  intros r c Hin.
  destruct (GetElem_entry m r c Hwf Hin) as (v & -> & He).
  apply GetElem_of_entry; [done | | by apply transposed_entry].
  unfold inside in *. cbn [rows cols]. lia.
Qed.
End Sparse.

(* ================================================================== *)
(** * 数组/数组.cpp : the n-dimensional Array                            *)
(* ================================================================== *)

Module NArray.
(** [class Array<int>] *)
Record Array : Type := {
  base : list Z;
  dim : Z;
  bounds : list Z;
  constants : list Z;
  total : Z
}.

(** [Array(int dm, ...)]; [lengths] are the variadic arguments, of which
    the constructor reads [dm].  The bodies of its three loops: *)
Definition read_bound (lengths : list Z) (i : Z) (bounds : list Z) : outcome (list Z) :=
  let bi := get lengths i in
  if bi <=? 0 then Throws out_of_range else Returns (set bounds i bi).

Definition times_bound (bounds : list Z) (i : Z) (prod : Z) : outcome Z :=
  let prod := prod * get bounds i in   (* long long *)
  if prod >? INT_MAX then Throws overflow_error else Returns prod.

Definition next_constant (bounds : list Z) (i : Z) (constants : list Z) : list Z :=
  set constants i (wrap32 (get bounds (i + 1) * get constants (i + 1))).

Definition create (dm : Z) (lengths : list Z) : outcome Array :=
  if dm <=? 0 then Throws out_of_range
  else
    match for_upE 0 dm (read_bound lengths) (replicate (Z.to_nat dm) 0) with
    | Returns bounds =>
        match for_upE 0 dm (times_bound bounds) 1 with
        | Returns prod =>
            let total := prod in
            let constants := set (replicate (Z.to_nat dm) 0) (dm - 1) 1 in
            let constants := for_down (dm - 2) (-1) (next_constant bounds) constants in
            Returns {| base := replicate (Z.to_nat total) 0; dim := dm;
                       bounds := bounds; constants := constants; total := total |}
        | Throws e => Throws e
        | OutOfFuel => OutOfFuel
        end
    | Throws e => Throws e
    | OutOfFuel => OutOfFuel
    end.

(** [int Locate(int sub0, va_list &va) const]; [va] are the subscripts
    after the first. *)
Definition next_subscript (a : Array) (va : list Z) (i : Z) (idx : Z) : outcome Z :=
  let sub := get va (i - 1) in
  if (sub <? 0) || (sub >=? get (bounds a) i) then Throws out_of_range
  else Returns (wrap32 (idx + wrap32 (sub * get (constants a) i))).

Definition Locate (a : Array) (sub0 : Z) (va : list Z) : outcome Z :=
  if dim a <=? 0 then Throws out_of_range
  else
    let idx := 0 in
    let sub := sub0 in
    if (sub <? 0) || (sub >=? get (bounds a) 0) then Throws out_of_range
    else
      let idx := wrap32 (idx + wrap32 (sub * get (constants a) 0)) in
      for_upE 1 (dim a) (next_subscript a va) idx.

(** [ElemType &operator()(int sub0, ...)]: the offset in [base] of the
    cell the returned reference denotes. *)
Definition subscript (a : Array) (sub0 : Z) (va : list Z) : outcome Z :=
  Locate a sub0 va.

Example create_3d :
  create 3 [2; 3; 4]
  = Returns {| base := replicate 24 0; dim := 3; bounds := [2; 3; 4];
               constants := [12; 4; 1]; total := 24 |}.
Proof. vm_compute. reflexivity. Qed.

Example subscript_3d :
  (a ← (match create 3 [2; 3; 4] with Returns a => Some a | _ => None end);
   Some (subscript a 1 [2; 3], subscript a 2 [0; 0]))
  = Some (Returns 23, Throws out_of_range).
Proof. vm_compute. reflexivity. Qed.

(** ** Every subscript is checked *)

(** The product of the lengths of the dimensions [i], [i+1], ... *)
Definition extent (bs : list Z) (i : Z) : Z := foldr Z.mul 1 (drop (Z.to_nat i) bs).

Lemma extent_end bs i : len bs <= i -> extent bs i = 1.
Proof. unfold extent, len. intros Hi. rewrite drop_ge by lia. done. Qed.

Lemma extent_step bs i :
  0 <= i < len bs -> extent bs i = get bs i * extent bs (i + 1).
Proof.
  unfold extent. intros Hi. rewrite (drop_S bs (get bs i) (Z.to_nat i)) by (by apply lookup_get).
  replace (Z.to_nat (i + 1)) with (S (Z.to_nat i)) by lia. done.
Qed.

Lemma extent_pos bs i :
  (forall k, 0 <= k < len bs -> 1 <= get bs k) -> 0 <= i -> 1 <= extent bs i.
Proof.
  intros Hbs Hi. destruct (Z_le_gt_dec (len bs) i) as [Hge|Hlt].
  - rewrite extent_end by done. lia.
  - replace i with (len bs - Z.of_nat (Z.to_nat (len bs - i))) by lia.
    assert (Z.of_nat (Z.to_nat (len bs - i)) <= len bs) as Hk by lia.
    revert Hk. generalize (Z.to_nat (len bs - i)) as k. clear i Hi Hlt.
    induction k as [|k IH]; intros Hk.
    + rewrite extent_end by lia. lia.
    + rewrite extent_step by lia.
      replace (len bs - Z.of_nat (S k) + 1) with (len bs - Z.of_nat k) by lia.
      specialize (IH ltac:(lia)). specialize (Hbs (len bs - Z.of_nat (S k)) ltac:(lia)). nia.
Qed.

Lemma extent_mono bs i :
  (forall k, 0 <= k < len bs -> 1 <= get bs k) -> 0 <= i -> extent bs i <= extent bs 0.
Proof.
  intros Hbs Hi. replace i with (Z.of_nat (Z.to_nat i)) by lia.
  induction (Z.to_nat i) as [|k IH]; [done|].
  destruct (Z_le_gt_dec (len bs) (Z.of_nat k)) as [Hge|Hlt].
  - rewrite extent_end in * by lia. done.
  - rewrite (extent_step bs (Z.of_nat k)) in IH by lia.
    replace (Z.of_nat (S k)) with (Z.of_nat k + 1) by lia.
    pose proof (extent_pos bs (Z.of_nat k + 1) Hbs ltac:(lia)).
    specialize (Hbs (Z.of_nat k) ltac:(lia)). nia.
Qed.

(** What the constructor establishes. *)
Record wf (a : Array) : Prop := {
  wf_dim : 0 < dim a;
  wf_bounds_len : len (bounds a) = dim a;
  wf_constants_len : len (constants a) = dim a;
  wf_bounds : forall k, 0 <= k < dim a -> 1 <= get (bounds a) k;
  wf_constants : forall k, 0 <= k < dim a -> get (constants a) k = extent (bounds a) (k + 1);
  wf_total : total a = extent (bounds a) 0 /\ total a <= INT_MAX;
  wf_base : len (base a) = total a
}.

(** Every subscript lies inside its dimension. *)
Definition in_range (a : Array) (subs : list Z) : Prop :=
  forall k, 0 <= k < dim a -> 0 <= get subs k < get (bounds a) k.

Lemma Locate_spec a sub0 va :
  wf a ->
  (exists idx, Locate a sub0 va = Returns idx /\ 0 <= idx < len (base a) /\
               in_range a (sub0 :: va))
  \/ (Locate a sub0 va = Throws out_of_range /\ ~ in_range a (sub0 :: va)).
Proof.
  intros Hwf. unfold Locate.
  pose proof (wf_dim a Hwf) as Hdim. pose proof (wf_bounds_len a Hwf) as Hbl.
  pose proof (wf_total a Hwf) as [Htot Hmax]. pose proof (wf_base a Hwf) as Hbase.
  pose proof (wf_bounds a Hwf) as Hb.
  assert (forall i, 0 <= i -> 1 <= extent (bounds a) i) as Hpos.
  { intros i Hi. apply extent_pos; [|done]. rewrite Hbl. done. }
  destruct (Z.leb_spec (dim a) 0) as [|_]; [lia|].
  destruct (Z.ltb_spec sub0 0) as [Hneg|Hnn]; simpl.
  { right. split; [done|]. intros Hin. specialize (Hin 0 ltac:(lia)).
    rewrite get_cons_0 in Hin. lia. }
  destruct (Z.geb_spec sub0 (get (bounds a) 0)) as [Hbig|Hsmall].
  { right. split; [done|]. intros Hin. specialize (Hin 0 ltac:(lia)).
    rewrite get_cons_0 in Hin. lia. }
  assert (0 <= sub0 * extent (bounds a) 1 <= total a - extent (bounds a) 1) as H0.
  { rewrite Htot, (extent_step (bounds a) 0) by lia. specialize (Hpos 1 ltac:(lia)).
    replace (0 + 1) with 1 by lia. nia. }
  rewrite (wf_constants a Hwf 0) by lia. replace (0 + 1) with 1 by lia.
  pose proof (Hpos 1 ltac:(lia)) as Hpos1.
  rewrite (wrap32_small (sub0 * _)), Z.add_0_l, wrap32_small by (unfold INT_MAX in *; lia).
  destruct (for_upE_cases
    (fun i idx => 0 <= idx <= total a - extent (bounds a) i /\
                  forall k, 0 <= k < i -> 0 <= get (sub0 :: va) k < get (bounds a) k)
    (fun e => e = out_of_range /\ ~ in_range a (sub0 :: va))
    1 (dim a)
    (next_subscript a va) (sub0 * extent (bounds a) 1))
    as [(idx & -> & [Hidx Hin])|(e & -> & -> & Hout)].
  - lia.
  - split; [lia|]. intros k Hk. assert (k = 0) as -> by lia. rewrite get_cons_0. lia.
  - intros i idx Hi [Hidx Hin]. unfold next_subscript. cbn zeta.
    destruct (Z.ltb_spec (get va (i - 1)) 0) as [Hneg|Hnn']; simpl.
    { right. eexists. split; [done|]. split; [done|]. intros Hall.
      specialize (Hall i ltac:(lia)). rewrite get_cons_S in Hall by lia. lia. }
    destruct (Z.geb_spec (get va (i - 1)) (get (bounds a) i)) as [Hbig|Hsmall'].
    { right. eexists. split; [done|]. split; [done|]. intros Hall.
      specialize (Hall i ltac:(lia)). rewrite get_cons_S in Hall by lia. lia. }
    left. eexists. split; [done|]. rewrite (wf_constants a Hwf i) by lia.
    assert (0 <= get va (i - 1) * extent (bounds a) (i + 1)
            <= extent (bounds a) i - extent (bounds a) (i + 1)) as Hterm.
    { rewrite (extent_step (bounds a) i) by lia. specialize (Hpos (i + 1) ltac:(lia)). nia. }
    pose proof (Hpos (i + 1) ltac:(lia)).
    rewrite (wrap32_small (_ * _)), wrap32_small by (unfold INT_MAX in *; lia).
    split; [lia|]. intros k Hk. destruct (Z.eq_dec k i) as [->|Hne]; [|apply Hin; lia].
    rewrite get_cons_S by lia. lia.
  - left. exists idx. split; [done|]. rewrite (extent_end (bounds a) (dim a)) in Hidx by lia.
    split; [lia|]. done.
  - right. done.
Qed.

Lemma Array_create_wf dm lengths a : create dm lengths = Returns a -> wf a.
Proof.
  unfold create. destruct (Z.leb_spec dm 0) as [|Hdm]; [done|].
  destruct (for_upE_cases
    (fun i bs => len bs = dm /\ forall k, 0 <= k < i -> 1 <= get bs k)
    (fun _ => True) 0 dm (read_bound lengths) (replicate (Z.to_nat dm) 0))
    as [(bs & -> & [Hlen Hbs])|(e & -> & _)]; [lia | | | | done].
  { split; [|intros; lia]. unfold len. rewrite length_replicate. lia. }
  { intros i bs Hi [Hlen Hbs]. unfold read_bound. cbn zeta.
    destruct (Z.leb_spec (get lengths i) 0) as [|Hpos]; [right; eauto|].
    left. eexists. split; [done|]. rewrite len_set. split; [done|].
    intros k Hk. rewrite get_set by lia. destruct (Z.eq_dec i k); [lia|]. apply Hbs. lia. }
  assert (forall i, 0 <= i -> 1 <= extent bs i) as Hpos.
  { intros i Hi. apply extent_pos; [|done]. rewrite Hlen. done. }
  destruct (for_upE_cases
    (fun i prod => prod * extent bs i = extent bs 0 /\ 1 <= prod <= INT_MAX)
    (fun _ => True) 0 dm (times_bound bs) 1)
    as [(prod & -> & [Hprod Hmax])|(e & -> & _)]; [lia | | | | done].
  { unfold INT_MAX. lia. }
  { intros i prod Hi [Hprod Hmax]. unfold times_bound. cbn zeta.
    destruct (Z.gtb_spec (prod * get bs i) INT_MAX) as [|Hle]; [right; eauto|].
    left. eexists. split; [done|]. rewrite (extent_step bs i) in Hprod by lia.
    specialize (Hbs i ltac:(lia)). split; [lia | nia]. }
  rewrite (extent_end bs dm) in Hprod by lia.
  intros [= <-].
  pose proof (for_down_inv
    (fun k cs => len cs = dm /\ forall i, k < i < dm -> get cs i = extent bs (i + 1))
    (dm - 2) (-1) (next_constant bs) (set (replicate (Z.to_nat dm) 0) (dm - 1) 1)) as Hcs.
  destruct Hcs as [Hclen Hcs]; [lia | | |].
  { assert (len (replicate (Z.to_nat dm) 0) = dm) as Hr.
    { unfold len. rewrite length_replicate. lia. }
    rewrite len_set. split; [done|]. intros i Hi. assert (i = dm - 1) as -> by lia.
    rewrite get_set_eq by lia. rewrite extent_end by lia. done. }
  { intros k cs Hk [Hclen Hcs]. unfold next_constant. rewrite len_set. split; [done|].
    intros i Hi. rewrite get_set by lia. destruct (Z.eq_dec k i) as [<-|Hne]; [|apply Hcs; lia].
    rewrite Hcs by lia. rewrite <- extent_step by lia. apply wrap32_small.
    pose proof (Hpos (k + 1) ltac:(lia)).
    pose proof (extent_mono bs (k + 1)) as Hm. rewrite Hlen in Hm.
    specialize (Hm Hbs ltac:(lia)). unfold INT_MAX in *. lia. }
  split; simpl; try done.
  - intros k Hk. apply Hcs. lia.
  - split; lia.
  - unfold len. rewrite length_replicate. lia.
Qed.

(** An array the constructor built checks every subscript: either all
    of them are in range and the offset found is a cell of [base], or
    one of them is not and the access throws [out_of_range]. *)
Lemma subscript_checked dm lengths a sub0 va :
  create dm lengths = Returns a ->
  (exists idx, subscript a sub0 va = Returns idx /\ 0 <= idx < len (base a) /\
               in_range a (sub0 :: va))
  \/ (subscript a sub0 va = Throws out_of_range /\ ~ in_range a (sub0 :: va)).
Proof. intros Ha. apply Locate_spec. by apply Array_create_wf in Ha. Qed.

(** ** Row-major order: no two cells share an offset *)

(** [A(sub0, ...)] read, and [A(sub0, ...) = v]. *)
Definition Array_get (a : Array) (sub0 : Z) (va : list Z) : outcome Z :=
  match subscript a sub0 va with
  | Returns pos => Returns (get (base a) pos)
  | Throws e => Throws e
  | OutOfFuel => OutOfFuel
  end.

Definition Array_set (a : Array) (sub0 : Z) (va : list Z) (v : Z) : outcome Array :=
  match subscript a sub0 va with
  | Returns pos =>
      Returns {| base := set (base a) pos v; dim := dim a; bounds := bounds a;
                 constants := constants a; total := total a |}
  | Throws e => Throws e
  | OutOfFuel => OutOfFuel
  end.

(** [j1*b2*...*bn + j2*b3*...*bn + ...], the first [k] terms. *)
Fixpoint row_major (bs subs : list Z) (k : nat) : Z :=
  match k with
  | O => 0
  | S k' => row_major bs subs k' + get subs (Z.of_nat k') * extent bs (Z.of_nat k' + 1)
  end.

(** The subscripts agree on every dimension. *)
Definition same_cell (a : Array) (subs subs' : list Z) : Prop :=
  forall k, 0 <= k < dim a -> get subs k = get subs' k.

Lemma row_major_bounds bs subs k :
  (forall j, 0 <= j < len bs -> 1 <= get bs j) ->
  (forall j, 0 <= j < len bs -> 0 <= get subs j < get bs j) ->
  Z.of_nat k <= len bs ->
  0 <= row_major bs subs k <= extent bs 0 - extent bs (Z.of_nat k).
Proof.
  intros Hbs Hsubs. induction k as [|k IH]; intros Hk;
    [cbn [row_major]; change (Z.of_nat 0) with 0; lia|].
  cbn [row_major]. specialize (IH ltac:(lia)).
  pose proof (extent_step bs (Z.of_nat k) ltac:(lia)) as Hstep.
  pose proof (extent_pos bs (Z.of_nat k + 1) Hbs ltac:(lia)) as Hpos.
  specialize (Hsubs (Z.of_nat k) ltac:(lia)).
  replace (Z.of_nat (S k)) with (Z.of_nat k + 1) by lia. nia.
Qed.

(** What is left of the sum after the first [k] terms is less than one
    step of dimension [k - 1]. *)
Lemma row_major_rest bs subs j :
  (forall i, 0 <= i < len bs -> 1 <= get bs i) ->
  (forall i, 0 <= i < len bs -> 0 <= get subs i < get bs i) ->
  (j <= length bs)%nat ->
  0 <= row_major bs subs (length bs) - row_major bs subs (length bs - j)
    < extent bs (Z.of_nat (length bs - j)).
Proof.
  intros Hbs Hsubs. induction j as [|j IH]; intros Hj.
  - rewrite Nat.sub_0_r, extent_end by (unfold len; lia). lia.
  - specialize (IH ltac:(lia)).
    replace (length bs - j)%nat with (S (length bs - S j)) in IH by lia.
    cbn [row_major] in IH.
    pose proof (extent_step bs (Z.of_nat (length bs - S j)) ltac:(unfold len; lia)) as Hstep.
    replace (Z.of_nat (S (length bs - S j))) with (Z.of_nat (length bs - S j) + 1) in IH by lia.
    specialize (Hsubs (Z.of_nat (length bs - S j)) ltac:(unfold len; lia)).
    nia.
Qed.

Lemma row_major_inj bs subs subs' :
  (forall i, 0 <= i < len bs -> 1 <= get bs i) ->
  (forall i, 0 <= i < len bs -> 0 <= get subs i < get bs i) ->
  (forall i, 0 <= i < len bs -> 0 <= get subs' i < get bs i) ->
  row_major bs subs (length bs) = row_major bs subs' (length bs) ->
  forall i, 0 <= i < len bs -> get subs i = get subs' i.
Proof.
  intros Hbs Hsubs Hsubs' Heq.
  assert (forall k, (k <= length bs)%nat ->
            row_major bs subs k = row_major bs subs' k /\
            forall i, 0 <= i < Z.of_nat k -> get subs i = get subs' i) as Hgen.
  { induction k as [|k IH]; intros Hk; [split; [done | intros; lia]|].
    destruct (IH ltac:(lia)) as [Hpre Hsame].
    pose proof (row_major_rest bs subs (length bs - S k) Hbs Hsubs ltac:(lia)) as Hr.
    pose proof (row_major_rest bs subs' (length bs - S k) Hbs Hsubs' ltac:(lia)) as Hr'.
    pose proof (row_major_rest bs subs (length bs - k) Hbs Hsubs ltac:(lia)) as Hq.
    pose proof (row_major_rest bs subs' (length bs - k) Hbs Hsubs' ltac:(lia)) as Hq'.
    replace (length bs - (length bs - S k))%nat with (S k) in Hr, Hr' by lia.
    replace (length bs - (length bs - k))%nat with k in Hq, Hq' by lia.
    cbn [row_major] in *.
    pose proof (extent_pos bs (Z.of_nat k + 1) Hbs ltac:(lia)) as Hpos.
    replace (Z.of_nat (S k)) with (Z.of_nat k + 1) in * by lia.
    assert (get subs (Z.of_nat k) = get subs' (Z.of_nat k)) as Hk'.
    { rewrite <- Heq, <- Hpre in *.
      set (e := extent bs (Z.of_nat k + 1)) in *.
      set (x := get subs (Z.of_nat k)) in *. set (y := get subs' (Z.of_nat k)) in *.
      destruct (Z.lt_trichotomy x y) as [Hlt|[?|Hlt]]; [exfalso | done | exfalso]; nia. }
    split; [by rewrite Hpre, Hk'|].
    intros i Hi. destruct (Z.eq_dec i (Z.of_nat k)) as [->|]; [done|]. apply Hsame. lia. }
  intros i Hi. apply (proj2 (Hgen (length bs) (le_n _))). unfold len in Hi. lia.
Qed.

(** [Locate] computes the row-major sum. *)
Lemma Locate_row_major a sub0 va :
  wf a -> in_range a (sub0 :: va) ->
  Locate a sub0 va = Returns (row_major (bounds a) (sub0 :: va) (Z.to_nat (dim a))).
Proof.
  intros Hwf Hin. unfold Locate.
  pose proof (wf_dim a Hwf) as Hdim. pose proof (wf_bounds_len a Hwf) as Hbl.
  pose proof (wf_total a Hwf) as [Htot Hmax]. pose proof (wf_bounds a Hwf) as Hb.
  assert (forall j, 0 <= j < len (bounds a) -> 1 <= get (bounds a) j) as Hb'
    by (rewrite Hbl; done).
  assert (forall j, 0 <= j < len (bounds a) ->
                    0 <= get (sub0 :: va) j < get (bounds a) j) as Hin'
    by (rewrite Hbl; done).
  assert (forall k, Z.of_nat k <= dim a ->
            0 <= row_major (bounds a) (sub0 :: va) k <= INT_MAX) as Hrm.
  { intros k Hk.
    pose proof (row_major_bounds (bounds a) (sub0 :: va) k Hb' Hin' ltac:(lia)).
    pose proof (extent_pos (bounds a) (Z.of_nat k) Hb' ltac:(lia)). lia. }
  destruct (Z.leb_spec (dim a) 0) as [|_]; [lia|].
  pose proof (Hin 0 ltac:(lia)) as H0. rewrite get_cons_0 in H0.
  destruct (Z.ltb_spec sub0 0); [lia|]. destruct (Z.geb_spec sub0 (get (bounds a) 0)); [lia|].
  cbn [orb].
  rewrite (wf_constants a Hwf 0) by lia.
  pose proof (Hrm 1%nat ltac:(lia)) as Hfirst. cbn [row_major] in Hfirst.
  rewrite get_cons_0 in Hfirst. change (Z.of_nat 0 + 1) with (0 + 1) in Hfirst.
  rewrite (wrap32_small (sub0 * _)), Z.add_0_l, wrap32_small by (unfold INT_MAX in *; lia).
  destruct (for_upE_inv
    (fun i idx => idx = row_major (bounds a) (sub0 :: va) (Z.to_nat i))
    1 (dim a) (next_subscript a va) (sub0 * extent (bounds a) (0 + 1)))
    as (idx & -> & ->); [lia | | | done].
  - change (Z.to_nat 1) with 1%nat. cbn [row_major]. rewrite get_cons_0.
    change (Z.of_nat 0 + 1) with (0 + 1). lia.
  - intros i idx Hi ->. unfold next_subscript. cbn zeta.
    pose proof (Hin i ltac:(lia)) as Hsub. rewrite get_cons_S in Hsub by lia.
    destruct (Z.ltb_spec (get va (i - 1)) 0); [lia|].
    destruct (Z.geb_spec (get va (i - 1)) (get (bounds a) i)); [lia|]. cbn [orb].
    eexists. split; [done|].
    rewrite (wf_constants a Hwf i) by lia.
    replace (Z.to_nat (i + 1)) with (S (Z.to_nat i)) by lia.
    pose proof (Hrm (S (Z.to_nat i)) ltac:(lia)) as Hnext.
    pose proof (Hrm (Z.to_nat i) ltac:(lia)) as Hcur.
    cbn [row_major] in *. replace (Z.of_nat (Z.to_nat i)) with i in * by lia.
    rewrite get_cons_S in * by lia.
    assert (0 <= get va (i - 1) * extent (bounds a) (i + 1)).
    { pose proof (extent_pos (bounds a) (i + 1) Hb' ltac:(lia)). nia. }
    rewrite (wrap32_small (_ * _)), wrap32_small by (unfold INT_MAX in *; lia). done.
Qed.

Lemma in_range_dec a subs : in_range a subs \/ ~ in_range a subs.
Proof.
  unfold in_range.
  assert (forall k : nat,
            (forall j, 0 <= j < Z.of_nat k -> 0 <= get subs j < get (bounds a) j) \/
            ~ (forall j, 0 <= j < Z.of_nat k -> 0 <= get subs j < get (bounds a) j)) as Hgen.
  { induction k as [|k [IH|IH]].
    - left. intros; lia.
    - destruct (decide (0 <= get subs (Z.of_nat k) < get (bounds a) (Z.of_nat k))) as [Hk|Hk].
      + left. intros j Hj. destruct (Z.eq_dec j (Z.of_nat k)) as [->|]; [done|]. apply IH. lia.
      + right. intros Hall. apply Hk, Hall. lia.
    - right. intros Hall. apply IH. intros j Hj. apply Hall. lia. }
  destruct (Z_le_gt_dec (dim a) 0) as [Hd|Hd]; [left; intros; lia|].
  destruct (Hgen (Z.to_nat (dim a))) as [H|H]; [left | right].
  - intros k Hk. apply H. lia.
  - intros Hall. apply H. intros j Hj. apply Hall. lia.
Qed.

Lemma Array_set_get a sub0 va v :
  wf a -> in_range a (sub0 :: va) ->
  exists a', Array_set a sub0 va v = Returns a' /\ wf a' /\
    forall sub0' va',
      (same_cell a (sub0 :: va) (sub0' :: va') -> Array_get a' sub0' va' = Returns v) /\
      (~ same_cell a (sub0 :: va) (sub0' :: va') ->
       Array_get a' sub0' va' = Array_get a sub0' va').
Proof.
  intros Hwf Hin. unfold Array_set, Array_get, subscript.
  pose proof (wf_bounds_len a Hwf) as Hbl. pose proof (wf_bounds a Hwf) as Hb.
  pose proof (wf_dim a Hwf) as Hdim.
  assert (forall j, 0 <= j < len (bounds a) -> 1 <= get (bounds a) j) as Hb'
    by (rewrite Hbl; done).
  assert (length (bounds a) = Z.to_nat (dim a)) as Hlen by (unfold len in Hbl; lia).
  destruct (Locate_spec a sub0 va Hwf) as [(idx & Hidx & Hcell & _)|[_ Hout]]; [|done].
  rewrite Hidx. eexists. split; [done|].
  set (a' := {| base := set (base a) idx v; dim := dim a; bounds := bounds a;
                constants := constants a; total := total a |}).
  assert (wf a') as Hwf'.
  { destruct Hwf. split; try done. unfold a'. cbn [base total]. by rewrite len_set. }
  split; [done|]. intros sub0' va'.
  assert (Locate a' sub0' va' = Locate a sub0' va') as -> by done.
  change (base a') with (set (base a) idx v).
  destruct (in_range_dec a (sub0' :: va')) as [Hin'|Hout'].
  - pose proof (Locate_row_major a sub0 va Hwf Hin) as Hrm. rewrite Hidx in Hrm.
    injection Hrm as Hrm.
    destruct (Locate_spec a sub0' va' Hwf) as [(idx' & Hidx' & Hcell' & _)|[_ Hout']];
      [|done].
    pose proof (Locate_row_major a sub0' va' Hwf Hin') as Hrm'. rewrite Hidx' in Hrm'.
    injection Hrm' as Hrm'. rewrite Hidx'.
    rewrite get_set by lia. split.
    + intros Hsame. destruct (Z.eq_dec idx idx') as [|Hne]; [done|]. destruct Hne.
      rewrite Hrm, Hrm', <- Hlen. clear -Hsame Hlen.
      assert (forall k, (k <= Z.to_nat (dim a))%nat ->
                row_major (bounds a) (sub0 :: va) k = row_major (bounds a) (sub0' :: va') k)
        as Hgen.
      { induction k as [|k IH]; intros Hk; [done|]. cbn [row_major].
        rewrite IH by lia. rewrite (Hsame (Z.of_nat k)) by lia. done. }
      apply Hgen. lia.
    + intros Hdiff. destruct (Z.eq_dec idx idx') as [Heq|]; [|done]. destruct Hdiff.
      rewrite Hrm, Hrm', <- Hlen in Heq.
      intros k Hk. apply (row_major_inj (bounds a) _ _ Hb'); try (rewrite Hbl; done). lia.
  - destruct (Locate_spec a sub0' va' Hwf) as [(idx' & _ & _ & Hin')|[-> _]]; [done|].
    split; [|done]. intros Hsame. destruct Hout'. intros k Hk.
    rewrite <- (Hsame k Hk). by apply Hin.
Qed.

(** ** The three outcomes of the constructor *)

(** The first [dm] lengths. *)
Definition shape (dm : Z) (lengths : list Z) : list Z := take (Z.to_nat dm) lengths.

Lemma shape_get dm lengths k : 0 <= k < dm -> get (shape dm lengths) k = get lengths k.
Proof.
  intros Hk. unfold shape, get. rewrite !list_lookup_total_alt.
  rewrite lookup_take_lt by lia. done.
Qed.

Lemma read_bounds_spec dm lengths :
  0 < dm <= len lengths ->
  ((forall k, 0 <= k < dm -> 1 <= get lengths k) /\
   for_upE 0 dm (read_bound lengths) (replicate (Z.to_nat dm) 0)
   = Returns (shape dm lengths) /\ len (shape dm lengths) = dm)
  \/ ((exists k, 0 <= k < dm /\ get lengths k <= 0) /\
      for_upE 0 dm (read_bound lengths) (replicate (Z.to_nat dm) 0) = Throws out_of_range).
Proof.
  intros Hdm.
  destruct (for_upE_cases
    (fun i bs => len bs = dm /\ forall k, 0 <= k < i -> get bs k = get lengths k /\ 1 <= get bs k)
    (fun e => e = out_of_range /\ exists k, 0 <= k < dm /\ get lengths k <= 0)
    0 dm (read_bound lengths) (replicate (Z.to_nat dm) 0))
    as [(bs & Hrun & [Hlen Hbs])|(e & Hrun & -> & Hbad)]; [lia | | | |].
  - split; [|intros; lia]. unfold len. rewrite length_replicate. lia.
  - intros i bs Hi [Hlen Hbs]. unfold read_bound. cbn zeta.
    destruct (Z.leb_spec (get lengths i) 0) as [Hle|Hpos].
    + right. eexists. split; [done|]. split; [done|]. exists i. split; [lia | done].
    + left. eexists. split; [done|]. rewrite len_set. split; [done|].
      intros k Hk. rewrite get_set by lia.
      destruct (Z.eq_dec i k) as [<-|]; [split; [done | lia]|]. apply Hbs. lia.
  - left. assert (bs = shape dm lengths) as <-.
    { assert (len (shape dm lengths) = dm) as Hsl.
      { unfold shape, len in *. rewrite length_take. lia. }
      apply get_ext; [lia|]. intros i Hi. rewrite shape_get by lia. apply Hbs. lia. }
    split; [|done]. intros k Hk. destruct (Hbs k Hk) as [<- ?]. done.
  - right. done.
Qed.

Lemma Array_create_outcomes dm lengths :
  (dm <= 0 -> create dm lengths = Throws out_of_range) /\
  (0 < dm <= len lengths -> (exists k, 0 <= k < dm /\ get lengths k <= 0) ->
   create dm lengths = Throws out_of_range) /\
  (0 < dm <= len lengths -> (forall k, 0 <= k < dm -> 1 <= get lengths k) ->
   INT_MAX < extent (shape dm lengths) 0 ->
   create dm lengths = Throws overflow_error) /\
  (0 < dm <= len lengths -> (forall k, 0 <= k < dm -> 1 <= get lengths k) ->
   extent (shape dm lengths) 0 <= INT_MAX ->
   exists a, create dm lengths = Returns a /\ dim a = dm /\
             bounds a = shape dm lengths /\ total a = extent (shape dm lengths) 0 /\
             base a = replicate (Z.to_nat (total a)) 0).
Proof.
  unfold create. split; [|split].
  { intros Hdm. by destruct (Z.leb_spec dm 0); [|lia]. }
  { intros Hdm (k & Hk & Hbad). destruct (Z.leb_spec dm 0); [lia|].
    destruct (read_bounds_spec dm lengths Hdm) as [(Hall & _)|[_ ->]]; [|done].
    specialize (Hall k Hk). lia. }
  assert (0 < dm <= len lengths -> (forall k, 0 <= k < dm -> 1 <= get lengths k) ->
          let bs := shape dm lengths in
          (extent bs 0 <= INT_MAX /\ for_upE 0 dm (times_bound bs) 1 = Returns (extent bs 0)) \/
          (INT_MAX < extent bs 0 /\ for_upE 0 dm (times_bound bs) 1 = Throws overflow_error))
    as Hprod.
  { intros Hdm Hall bs.
    destruct (read_bounds_spec dm lengths Hdm) as [(_ & _ & Hlen)|[(k & Hk & Hbad) _]];
      [|specialize (Hall k Hk); lia].
    fold bs in Hlen.
    assert (forall k, 0 <= k < len bs -> 1 <= get bs k) as Hbs.
    { intros k Hk. unfold bs. rewrite shape_get by lia. apply Hall. lia. }
    destruct (for_upE_cases
      (fun i prod => prod * extent bs i = extent bs 0 /\ 1 <= prod <= INT_MAX)
      (fun e => e = overflow_error /\ INT_MAX < extent bs 0) 0 dm (times_bound bs) 1)
      as [(prod & -> & [Hprod Hmax])|(e & -> & -> & Hbig)]; [lia | | | |].
    - unfold INT_MAX. lia.
    - intros i prod Hi [Hprod Hmax]. unfold times_bound. cbn zeta.
      rewrite (extent_step bs i) in Hprod by lia.
      pose proof (extent_pos bs (i + 1) Hbs ltac:(lia)) as Hpos.
      specialize (Hbs i ltac:(lia)).
      destruct (Z.gtb_spec (prod * get bs i) INT_MAX) as [Hgt|Hle].
      + right. eexists. split; [done|]. split; [done|]. nia.
      + left. eexists. split; [done|]. split; [lia | nia].
    - left. rewrite (extent_end bs dm) in Hprod by lia.
      assert (prod = extent bs 0) as -> by lia. split; [lia | done].
    - right. done. }
  split.
  - intros Hdm Hall Hbig. destruct (Z.leb_spec dm 0); [lia|].
    destruct (read_bounds_spec dm lengths Hdm) as [(_ & -> & _)|[(k & Hk & Hbad) _]];
      [|specialize (Hall k Hk); lia].
    destruct (Hprod Hdm Hall) as [[Hle _]|[_ ->]]; [lia | done].
  - intros Hdm Hall Hsmall. destruct (Z.leb_spec dm 0); [lia|].
    destruct (read_bounds_spec dm lengths Hdm) as [(_ & -> & _)|[(k & Hk & Hbad) _]];
      [|specialize (Hall k Hk); lia].
    destruct (Hprod Hdm Hall) as [[_ ->]|[Hgt _]]; [|lia].
    eexists. split; [done|]. done.
Qed.
(** ** The length of a dimension *)

(** [int Length(int d) const] *)
Definition Length (d : Z) (a : Array) : outcome Z :=
  if (d <? 0) || (d >=? dim a) then Throws out_of_range else Returns (get (bounds a) d).

Example Length_3d :
  match create 3 [2; 3; 4] with
  | Returns a => Some (Length 0 a, Length 2 a, Length 3 a, Length (-1) a)
  | Throws _ | OutOfFuel => None
  end = Some (Returns 2, Returns 4, Throws out_of_range, Throws out_of_range).
Proof. vm_compute. reflexivity. Qed.

Lemma Length_out d a : ~ 0 <= d < dim a -> Length d a = Throws out_of_range.
Proof.
  intros Hout. unfold Length.
  destruct (Z.ltb_spec d 0), (Z.geb_spec d (dim a)); simpl; (done || lia).
Qed.
End NArray.

(* ================================================================== *)
(** * 查找/哈希表.cpp : the open-addressing hash table                  *)
(* ================================================================== *)

Module HashTable.
(** [size_t] arithmetic *)
Definition wrap64 (z : Z) : Z := z mod 2 ^ 64.

(** [size_t hashModPrime(int key, size_t p)]; [v] is not negative, so
    the remainder of the C++ division is the one of [Z.rem].  The source
    divides by [p] as it comes: the function is the source's for
    [1 <= p] only, and every statement below about a table takes a table
    of one slot or more. *)
Definition hashModPrime (key : Z) (p : Z) : Z :=
  let v := if key >=? 0 then key else -1 * key in
  wrap64 (Z.rem v p).

Inductive SlotState : Type := EMPTY | OCCUPIED | DELETED.

Record HashSlot : Type := { key : Z; state : SlotState }.

(** [HashSlot() : key(0), state(SlotState::EMPTY) {}] *)
Definition HashSlot0 : HashSlot := {| key := 0; state := EMPTY |}.

#[global] Instance HashSlot_inhabited : Inhabited HashSlot := populate HashSlot0.

Inductive ProbeType : Type := LINEAR | QUADRATIC.

Record OpenAddressHashTable : Type := {
  table : list HashSlot;
  probeType : ProbeType;
  elemCount : Z
}.

(** [explicit OpenAddressHashTable(size_t tableSize, ProbeType type)] *)
Definition create (tableSize : Z) (type : ProbeType) : OpenAddressHashTable :=
  {| table := replicate (Z.to_nat tableSize) HashSlot0; probeType := type; elemCount := 0 |}.

Definition size (t : OpenAddressHashTable) : Z := len (table t).

(** [loadFactor() > 0.7].  The two counts are exact as doubles, and their
    quotient rounded to a double exceeds the double nearest to 0.7 exactly
    when the quotient itself exceeds 7/10, for any table of fewer than
    2^50 slots; the test is written on the integers. *)
Definition loadFactor_above_0_7 (t : OpenAddressHashTable) : bool :=
  10 * elemCount t >? 7 * size t.

(** [size_t probeOffset(size_t i) const] *)
Definition probeOffset (t : OpenAddressHashTable) (i : Z) : Z :=
  match probeType t with
  | LINEAR => i
  | QUADRATIC => wrap64 (i * i)
  end.

Definition with_slot (t : OpenAddressHashTable) (h : Z) (s : HashSlot) (count : Z) :
    OpenAddressHashTable :=
  {| table := set (table t) h s; probeType := probeType t; elemCount := count |}.

(** The probing loop of [insert], from [i], with [n] rounds left. *)
Fixpoint insert_probe (n : nat) (i m h0 key0 : Z) (t : OpenAddressHashTable) :
    bool * OpenAddressHashTable :=
  match n with
  | O => (false, t)
  | S n' =>
      let di := probeOffset t i in
      let h := wrap64 (h0 + di) mod m in
      match state (get (table t) h) with
      | EMPTY | DELETED =>
          (true, with_slot t h {| key := key0; state := OCCUPIED |} (wrap64 (elemCount t + 1)))
      | OCCUPIED =>
          if key (get (table t) h) =? key0 then (true, t)
          else insert_probe n' (i + 1) m h0 key0 t
      end
  end.

(** [void rehash(size_t newSize)], over the [insert] it calls; first
    the body of its loop. *)
Definition rehash_slot (insert : Z -> OpenAddressHashTable -> option (bool * OpenAddressHashTable))
    (acc : option OpenAddressHashTable) (slot : HashSlot) : option OpenAddressHashTable :=
  t ← acc;
  match state slot with
  | OCCUPIED => '(_, t') ← insert (key slot) t; Some t'
  | _ => Some t
  end.

Definition rehash_with (insert : Z -> OpenAddressHashTable -> option (bool * OpenAddressHashTable))
    (newSize : Z) (t : OpenAddressHashTable) : option OpenAddressHashTable :=
  let oldTable := table t in
  let t := {| table := replicate (Z.to_nat newSize) HashSlot0;
              probeType := probeType t; elemCount := 0 |} in
  fold_left (rehash_slot insert) oldTable (Some t).

(** [bool insert(int key)]; [depth] bounds the calls of [insert] from
    [rehash] that are open at once. *)
Fixpoint insert_rec (depth : nat) (key0 : Z) (t : OpenAddressHashTable) :
    option (bool * OpenAddressHashTable) :=
  match depth with
  | O => None
  | S depth' =>
      t ← (if loadFactor_above_0_7 t
           then rehash_with (insert_rec depth') (wrap64 (size t * 2 + 1)) t
           else Some t);
      let m := size t in
      let h0 := hashModPrime key0 m in
      Some (insert_probe (Z.to_nat m) 0 m h0 key0 t)
  end.

Definition rehash (newSize : Z) (t : OpenAddressHashTable) : option OpenAddressHashTable :=
  rehash_with (insert_rec 1) newSize t.

Definition insert (key0 : Z) (t : OpenAddressHashTable) :
    option (bool * OpenAddressHashTable) :=
  insert_rec 2 key0 t.

(** The probing loop of [find]. *)
Fixpoint find_probe (n : nat) (i m h0 key0 : Z) (t : OpenAddressHashTable) : bool :=
  match n with
  | O => false
  | S n' =>
      let di := probeOffset t i in
      let h := wrap64 (h0 + di) mod m in
      match state (get (table t) h) with
      | EMPTY => false
      | OCCUPIED =>
          if key (get (table t) h) =? key0 then true
          else find_probe n' (i + 1) m h0 key0 t
      | DELETED => find_probe n' (i + 1) m h0 key0 t
      end
  end.

(** [bool find(int key) const] *)
Definition find (key0 : Z) (t : OpenAddressHashTable) : bool :=
  let m := size t in
  let h0 := hashModPrime key0 m in
  find_probe (Z.to_nat m) 0 m h0 key0 t.

(** The probing loop of [erase]. *)
Fixpoint erase_probe (n : nat) (i m h0 key0 : Z) (t : OpenAddressHashTable) :
    bool * OpenAddressHashTable :=
  match n with
  | O => (false, t)
  | S n' =>
      let di := probeOffset t i in
      let h := wrap64 (h0 + di) mod m in
      match state (get (table t) h) with
      | EMPTY => (false, t)
      | OCCUPIED =>
          if key (get (table t) h) =? key0
          then (true, with_slot t h {| key := key (get (table t) h); state := DELETED |}
                                (wrap64 (elemCount t - 1)))
          else erase_probe n' (i + 1) m h0 key0 t
      | DELETED => erase_probe n' (i + 1) m h0 key0 t
      end
  end.

(** [bool erase(int key)] *)
Definition erase (key0 : Z) (t : OpenAddressHashTable) : bool * OpenAddressHashTable :=
  let m := size t in
  let h0 := hashModPrime key0 m in
  erase_probe (Z.to_nat m) 0 m h0 key0 t.

(** A sequence of calls and the flags they return. *)
Inductive op : Type := Insert (k : Z) | Erase (k : Z).

Fixpoint run (ops : list op) (t : OpenAddressHashTable) :
    option (list (op * bool) * OpenAddressHashTable) :=
  match ops with
  | [] => Some ([], t)
  | Insert k :: ops' =>
      '(b, t') ← insert k t;
      '(log, t'') ← run ops' t';
      Some ((Insert k, b) :: log, t'')
  | Erase k :: ops' =>
      let '(b, t') := erase k t in
      '(log, t'') ← run ops' t';
      Some ((Erase k, b) :: log, t'')
  end.

(** Membership as the calls and their flags define it: some [insert k]
    returned true and no [erase k] returned true after it. *)
Fixpoint stored (log : list (op * bool)) (k : Z) : bool :=
  match log with
  | [] => false
  | (Insert k', b) :: log' =>
      stored log' k
      || (b && (k' =? k)
          && forallb (fun e => match e with
                               | (Erase k'', true) => negb (k'' =? k)
                               | _ => true
                               end) log')
  | _ :: log' => stored log' k
  end.

(** The sequence of the demonstration in [main]; the ninth key finds
    eight in eleven slots taken and moves the table to 23 slots. *)
Example insert_demo :
  (r ← run (Insert <$> [19; 1; 23; 14; 55; 68; 11; 82; 36]) (create 11 LINEAR);
   Some (key <$> table r.2, elemCount r.2, find 55 r.2, find 100 r.2))
  = Some ([23; 1; 0; 0; 0; 0; 0; 0; 0; 55; 0; 11; 0; 82; 14; 36; 0; 0; 0; 19; 0; 0; 68], 9,
          true, false).
Proof. vm_compute. reflexivity. Qed.

(** ** [insert] returns *)

Lemma insert_probe_counts n i m h0 k t :
  0 <= elemCount t < 2 ^ 63 ->
  size (insert_probe n i m h0 k t).2 = size t /\
  elemCount t <= elemCount (insert_probe n i m h0 k t).2 <= elemCount t + 1.
Proof.
  intros Hc. revert i. induction n as [|n IH]; intros i; simpl; [lia|].
  destruct (state _).
  - simpl. unfold size, with_slot, wrap64. simpl. rewrite len_set, Z.mod_small; lia.
  - destruct (_ =? _); [simpl; lia | apply IH].
  - simpl. unfold size, with_slot, wrap64. simpl. rewrite len_set, Z.mod_small; lia.
Qed.

Lemma insert_rec_S depth k t :
  insert_rec (S depth) k t
  = (t ← (if loadFactor_above_0_7 t
          then rehash_with (insert_rec depth) (wrap64 (size t * 2 + 1)) t
          else Some t);
     Some (insert_probe (Z.to_nat (size t)) 0 (size t) (hashModPrime k (size t)) k t)).
Proof. done. Qed.

(** Moving the keys of [slots] to a table that has room for them. *)
Lemma rehash_fold (slots : list HashSlot) (t : OpenAddressHashTable) :
  0 <= elemCount t -> size t < 2 ^ 63 ->
  10 * (elemCount t + len slots) <= 7 * size t + 10 ->
  exists t', fold_left (rehash_slot (insert_rec 1)) slots (Some t) = Some t'.
Proof.
  revert t. induction slots as [|slot slots IH]; intros t Hc Hs Hroom; [by eexists|].
  rewrite len_cons in Hroom. pose proof (len_nonneg slots).
  cbn [fold_left]. unfold rehash_slot at 2. cbn [mbind option_bind].
  destruct (state slot); [by apply IH; lia | | by apply IH; lia].
  rewrite insert_rec_S. unfold loadFactor_above_0_7.
  destruct (Z.gtb_spec (10 * elemCount t) (7 * size t)) as [|_]; [lia|].
  cbn [mbind option_bind].
  pose proof (insert_probe_counts (Z.to_nat (size t)) 0 (size t)
                (hashModPrime (key slot) (size t)) (key slot) t ltac:(lia)) as [Hsz Hcnt].
  destruct (insert_probe _ _ _ _ _ _) as [b t']. simpl in *. apply IH; lia.
Qed.

(** [insert] returns on every table whose count is not above its size:
    the [insert] that [rehash] calls finds the new table at most half
    full and never calls [rehash] again. *)
Lemma insert_returns k t :
  0 <= elemCount t <= size t -> size t < 2 ^ 62 ->
  exists b t', insert k t = Some (b, t').
Proof.
  intros Hc Hs. unfold insert. rewrite insert_rec_S.
  destruct (loadFactor_above_0_7 t); [|cbn; destruct (insert_probe _ _ _ _ _ _); eauto].
  unfold rehash_with.
  assert (size {| table := replicate (Z.to_nat (wrap64 (size t * 2 + 1))) HashSlot0;
                  probeType := probeType t; elemCount := 0 |} = size t * 2 + 1) as Hnew.
  { remember (size t) as N. unfold size, len, wrap64. simpl.
    rewrite length_replicate, Z.mod_small; lia. }
  destruct (rehash_fold (table t)
              {| table := replicate (Z.to_nat (wrap64 (size t * 2 + 1))) HashSlot0;
                 probeType := probeType t; elemCount := 0 |}) as [t' ->].
  - simpl. lia.
  - lia.
  - rewrite Hnew. fold (size t). simpl. lia.
  - cbn. destruct (insert_probe _ _ _ _ _ _); eauto.
Qed.

(** ** Linear probing without removals *)

(** The slot that linear probing looks at in round [d] for a key whose
    home is [h0], in a table of [m] slots. *)
Definition probe (m h0 d : Z) : Z := (h0 + d) mod m.

Lemma probe_range m h0 d : 1 <= m -> 0 <= probe m h0 d < m.
Proof. intros Hm. unfold probe. apply Z.mod_pos_bound. lia. Qed.

Lemma probe_cover m h0 h :
  1 <= m -> 0 <= h < m -> exists d, 0 <= d < m /\ probe m h0 d = h.
Proof.
  intros Hm Hh. exists ((h - h0) mod m). split; [apply Z.mod_pos_bound; lia|].
  unfold probe. rewrite Z.add_mod_idemp_r by lia.
  replace (h0 + (h - h0)) with h by lia. apply Z.mod_small. lia.
Qed.

Lemma probe_inj m h0 d1 d2 :
  1 <= m -> 0 <= d1 < m -> 0 <= d2 < m -> probe m h0 d1 = probe m h0 d2 -> d1 = d2.
Proof.
  unfold probe. intros Hm H1 H2 Heq.
  pose proof (Z.div_mod (h0 + d1) m ltac:(lia)) as E1.
  pose proof (Z.div_mod (h0 + d2) m ltac:(lia)) as E2.
  rewrite Heq in E1.
  assert ((h0 + d1) / m = (h0 + d2) / m) as Hq by nia.
  rewrite Hq in E1. lia.
Qed.

Lemma hashModPrime_range k m : 1 <= m < 2 ^ 62 -> 0 <= hashModPrime k m < m.
Proof.
  intros Hm. unfold hashModPrime, wrap64.
  assert (0 <= (if k >=? 0 then k else -1 * k)) as Hv by (destruct (Z.geb_spec k 0); lia).
  pose proof (Z.rem_bound_pos _ m Hv ltac:(lia)) as Hr.
  rewrite Z.mod_small; lia.
Qed.

(** In such a table, the slot [insert], [find] and [erase] compute in
    round [d] is [probe]'s. *)
Lemma probed_slot m h0 d :
  1 <= m < 2 ^ 62 -> 0 <= h0 < m -> 0 <= d < m -> wrap64 (h0 + d) mod m = probe m h0 d.
Proof. intros Hm Hh Hd. unfold wrap64, probe. rewrite (Z.mod_small (h0 + d)); lia. Qed.

Definition is_occupied (s : HashSlot) : bool :=
  match state s with OCCUPIED => true | _ => false end.

(** The number of occupied slots. *)
Fixpoint occupied (l : list HashSlot) : Z :=
  match l with
  | [] => 0
  | s :: l' => (if is_occupied s then 1 else 0) + occupied l'
  end.

Lemma occupied_bounds l : 0 <= occupied l <= len l.
Proof.
  induction l as [|s l IH]; [done|]. rewrite len_cons. simpl. destruct (is_occupied s); lia.
Qed.

Lemma occupied_set l h y :
  0 <= h < len l ->
  occupied (set l h y)
  = occupied l - (if is_occupied (get l h) then 1 else 0) + (if is_occupied y then 1 else 0).
Proof.
  intros Hh. replace h with (Z.of_nat (Z.to_nat h)) by lia.
  assert (Z.to_nat h < length l)%nat as Hlt by (unfold len in Hh; lia).
  revert Hlt. generalize (Z.to_nat h) as i. clear h Hh.
  induction l as [|s l IH]; intros i Hi; simpl in Hi; [lia|].
  destruct i as [|i].
  - unfold set, get. simpl. lia.
  - unfold set, get in *. rewrite !Nat2Z.id in *. simpl.
    specialize (IH i ltac:(lia)). rewrite !Nat2Z.id in IH. rewrite IH. lia.
Qed.

(** A table with fewer occupied slots than slots has a free one. *)
Lemma free_slot l :
  occupied l < len l -> exists h, 0 <= h < len l /\ is_occupied (get l h) = false.
Proof.
  induction l as [|s l IH]; [unfold len; simpl; lia|].
  rewrite len_cons. simpl. pose proof (len_nonneg l).
  destruct (is_occupied s) eqn:Hs.
  - intros Hlt. destruct IH as (h & Hh & Hfree); [lia|].
    exists (h + 1). split; [lia|]. rewrite get_cons_S by lia.
    by replace (h + 1 - 1) with h by lia.
  - intros _. exists 0. split; [lia|]. by rewrite get_cons_0.
Qed.

(** The table holds the key [x]. *)
Definition holds (t : OpenAddressHashTable) (x : Z) : Prop :=
  exists h, 0 <= h < size t /\ state (get (table t) h) = OCCUPIED /\ key (get (table t) h) = x.

(** The slot of round [d] for the key [x]. *)
Definition round (t : OpenAddressHashTable) (x d : Z) : HashSlot :=
  get (table t) (probe (size t) (hashModPrime x (size t)) d).

(** A table with linear probing from which nothing was removed: no slot
    is marked deleted, every stored key is reached from its home through
    occupied slots, and [elemCount] counts the occupied slots. *)
Record linear (t : OpenAddressHashTable) : Prop := {
  lin_probe : probeType t = LINEAR;
  lin_size : 1 <= size t < 2 ^ 62;
  lin_live : forall h, 0 <= h < size t -> state (get (table t) h) <> DELETED;
  lin_chain : forall x d, 0 <= d < size t ->
                state (round t x d) = OCCUPIED -> key (round t x d) = x ->
                forall d', 0 <= d' < d -> state (round t x d') = OCCUPIED;
  lin_count : elemCount t = occupied (table t)
}.

(** The rounds before [i] met occupied slots with keys other than [x]. *)
Definition passed (t : OpenAddressHashTable) (x i : Z) : Prop :=
  forall d, 0 <= d < i -> state (round t x d) = OCCUPIED /\ key (round t x d) <> x.

Lemma holds_round t x :
  linear t -> holds t x ->
  exists d, 0 <= d < size t /\ state (round t x d) = OCCUPIED /\ key (round t x d) = x.
Proof.
  intros Hlin (h & Hh & Hs & Hk).
  destruct (probe_cover (size t) (hashModPrime x (size t)) h) as (d & Hd & Hp);
    [pose proof (lin_size t Hlin); lia | done |].
  exists d. unfold round. rewrite Hp. done.
Qed.

Lemma find_probe_spec t x n i :
  linear t -> i + Z.of_nat n = size t -> 0 <= i -> passed t x i ->
  find_probe n i (size t) (hashModPrime x (size t)) x t = true <-> holds t x.
Proof.
  intros Hlin. pose proof (lin_size t Hlin) as Hm.
  pose proof (hashModPrime_range x (size t) Hm) as Hh0.
  revert i. induction n as [|n IH]; intros i Hn Hi Hpassed.
  - simpl. split; [done|]. intros Hx.
    destruct (holds_round t x Hlin Hx) as (d & Hd & Hs & Hk).
    destruct (Hpassed d ltac:(lia)) as [_ Hne]. done.
  - cbn [find_probe]. unfold probeOffset. rewrite (lin_probe t Hlin).
    rewrite probed_slot by lia. fold (round t x i).
    destruct (state (round t x i)) eqn:Hstate.
    + split; [done|]. intros Hx.
      destruct (holds_round t x Hlin Hx) as (d & Hd & Hs & Hk).
      destruct (Z.lt_trichotomy d i) as [Hlt|[->|Hgt]].
      * destruct (Hpassed d ltac:(lia)) as [_ Hne]. done.
      * congruence.
      * pose proof (lin_chain t Hlin x d Hd Hs Hk i ltac:(lia)). congruence.
    + destruct (Z.eqb_spec (key (round t x i)) x) as [Hk|Hk].
      * split; [|done]. intros _. exists (probe (size t) (hashModPrime x (size t)) i).
        split; [apply probe_range; lia | done].
      * apply IH; [lia | lia |]. intros d Hd.
        destruct (Z.eq_dec d i) as [->|Hne]; [done | apply Hpassed; lia].
    + exfalso. apply (lin_live t Hlin (probe (size t) (hashModPrime x (size t)) i));
        [apply probe_range; lia | done].
Qed.

(** On such a table [find] answers whether the key is stored. *)
Lemma find_spec t x : linear t -> find x t = true <-> holds t x.
Proof.
  intros Hlin. unfold find. pose proof (lin_size t Hlin).
  apply find_probe_spec; [done | lia | lia | intros d Hd; lia].
Qed.

(** Writing the key [k] into the free slot of round [i]. *)
Lemma place_linear t k i :
  linear t -> 0 <= i < size t -> passed t k i -> state (round t k i) <> OCCUPIED ->
  let t' := with_slot t (probe (size t) (hashModPrime k (size t)) i)
                      {| key := k; state := OCCUPIED |} (wrap64 (elemCount t + 1)) in
  linear t' /\ size t' = size t /\ elemCount t' = elemCount t + 1 /\
  forall x, holds t' x <-> x = k \/ holds t x.
Proof.
  intros Hlin Hi Hpassed Hfree. cbn zeta.
  pose proof (lin_size t Hlin) as Hm.
  set (h := probe (size t) (hashModPrime k (size t)) i).
  assert (0 <= h < size t) as Hh by (apply probe_range; lia).
  assert (size (with_slot t h {| key := k; state := OCCUPIED |} (wrap64 (elemCount t + 1)))
          = size t) as Hsize by (unfold size, with_slot; simpl; by rewrite len_set).
  assert (forall j, 0 <= j ->
            get (table (with_slot t h {| key := k; state := OCCUPIED |}
                                  (wrap64 (elemCount t + 1)))) j
            = if Z.eq_dec h j then {| key := k; state := OCCUPIED |} else get (table t) j)
    as Hget by (intros j Hj; unfold with_slot; simpl; apply get_set; [done | lia]).
  assert (forall x d, state (round t x d) = OCCUPIED ->
            state (round (with_slot t h {| key := k; state := OCCUPIED |}
                                    (wrap64 (elemCount t + 1))) x d) = OCCUPIED) as Hstay.
  { intros x d Hs. unfold round. rewrite Hsize, Hget by (apply probe_range; lia).
    destruct (Z.eq_dec _ _); done. }
  assert (is_occupied (get (table t) h) = false) as Hocc.
  { unfold is_occupied. fold h in Hfree. unfold round in Hfree. fold h in Hfree.
    destruct (state (get (table t) h)); done. }
  assert (elemCount t + 1 <= size t) as Hcount.
  { rewrite (lin_count t Hlin). pose proof (occupied_bounds (table t)).
    destruct (Z.eq_dec (occupied (table t)) (len (table t))) as [Hfull|]; [|unfold size; lia].
    exfalso. clear -Hfull Hocc Hh. unfold size in Hh.
    pose proof (occupied_set (table t) h {| key := 0; state := OCCUPIED |} Hh) as Hset.
    rewrite Hocc in Hset. simpl in Hset.
    pose proof (occupied_bounds (set (table t) h {| key := 0; state := OCCUPIED |})) as Hb.
    rewrite len_set in Hb. lia. }
  assert (wrap64 (elemCount t + 1) = elemCount t + 1) as Hwrap.
  { unfold wrap64. pose proof (occupied_bounds (table t)). rewrite (lin_count t Hlin) in *.
    rewrite Z.mod_small; lia. }
  split; [|split; [done|split; [exact Hwrap|]]].
  - split.
    + exact (lin_probe t Hlin).
    + by rewrite Hsize.
    + intros j Hj. rewrite Hsize in Hj. rewrite Hget by lia.
      destruct (Z.eq_dec h j); [done | by apply (lin_live t Hlin)].
    + intros x d Hd. rewrite Hsize in Hd. unfold round at 1 2. rewrite Hsize.
      rewrite Hget by (apply probe_range; lia).
      destruct (Z.eq_dec h (probe (size t) (hashModPrime x (size t)) d)) as [Heq|Hne]; simpl.
      * intros _ <- d' Hd'.
        assert (d = i) as ->
          by (apply (probe_inj (size t) (hashModPrime k (size t))); (done || lia)).
        apply Hstay. by apply Hpassed.
      * intros Hs Hk d' Hd'. apply Hstay. by apply (lin_chain t Hlin x d).
    + unfold with_slot at 1. cbn [elemCount]. rewrite Hwrap. unfold with_slot. cbn [table].
      rewrite occupied_set by (fold (size t); done). rewrite Hocc. simpl.
      rewrite (lin_count t Hlin). lia.
  - intros x. unfold holds. rewrite Hsize. split.
    + intros (j & Hj & Hs & Hk). rewrite Hget in Hs, Hk by lia.
      destruct (Z.eq_dec h j); [by left | right; by exists j].
    + intros [->|(j & Hj & Hs & Hk)].
      * exists h. rewrite Hget by lia. destruct (Z.eq_dec h h); done.
      * exists j. rewrite Hget by lia.
        destruct (Z.eq_dec h j) as [<-|]; [|done].
        unfold is_occupied in Hocc. by rewrite Hs in Hocc.
Qed.

Lemma insert_probe_spec t k n i :
  linear t -> occupied (table t) < size t ->
  i + Z.of_nat n = size t -> 0 <= i -> passed t k i ->
  exists t',
    insert_probe n i (size t) (hashModPrime k (size t)) k t = (true, t') /\
    linear t' /\ size t' = size t /\
    elemCount t <= elemCount t' <= elemCount t + 1 /\
    forall x, holds t' x <-> x = k \/ holds t x.
Proof.
  intros Hlin Hroom. pose proof (lin_size t Hlin) as Hm.
  pose proof (hashModPrime_range k (size t) Hm) as Hh0.
  revert i. induction n as [|n IH]; intros i Hn Hi Hpassed.
  - exfalso. destruct (free_slot (table t) Hroom) as (h & Hh & Hfree).
    destruct (probe_cover (size t) (hashModPrime k (size t)) h) as (d & Hd & Hp); [lia | done |].
    destruct (Hpassed d ltac:(lia)) as [Hs _]. unfold round in Hs. rewrite Hp in Hs.
    unfold is_occupied in Hfree. by rewrite Hs in Hfree.
  - cbn [insert_probe]. unfold probeOffset. rewrite (lin_probe t Hlin).
    rewrite probed_slot by lia. fold (round t k i).
    destruct (state (round t k i)) eqn:Hstate.
    + destruct (place_linear t k i Hlin ltac:(lia) Hpassed) as (Hlin' & Hsize & Hcount & Hkeys);
        [congruence|].
      eexists. split; [done|]. split; [done|]. split; [done|]. split; [lia | done].
    + destruct (Z.eqb_spec (key (round t k i)) k) as [Hk|Hk].
      * exists t. split; [done|]. split; [done|]. split; [done|]. split; [lia|].
        intros x. split; [by right|]. intros [->|Hx]; [|done].
        exists (probe (size t) (hashModPrime k (size t)) i).
        split; [apply probe_range; lia | done].
      * apply IH; [lia | lia |]. intros d Hd.
        destruct (Z.eq_dec d i) as [->|Hne]; [done | apply Hpassed; lia].
    + exfalso. apply (lin_live t Hlin (probe (size t) (hashModPrime k (size t)) i));
        [apply probe_range; lia | done].
Qed.

(** [insert] where the load lets it go straight to the probing. *)
Lemma insert_rec_direct depth k t :
  linear t -> 10 * elemCount t <= 7 * size t ->
  exists t',
    insert_rec (S depth) k t = Some (true, t') /\
    linear t' /\ size t' = size t /\
    elemCount t <= elemCount t' <= elemCount t + 1 /\
    forall x, holds t' x <-> x = k \/ holds t x.
Proof.
  intros Hlin Hload. pose proof (lin_size t Hlin) as Hm.
  rewrite insert_rec_S. unfold loadFactor_above_0_7.
  destruct (Z.gtb_spec (10 * elemCount t) (7 * size t)) as [|_]; [lia|].
  cbn [mbind option_bind].
  destruct (insert_probe_spec t k (Z.to_nat (size t)) 0 Hlin) as (t' & -> & Ht');
    [rewrite <- (lin_count t Hlin); lia | lia | lia | intros d Hd; lia |].
  by exists t'.
Qed.

Lemma get_empty (n : nat) (j : Z) : get (replicate n HashSlot0) j = HashSlot0.
Proof.
  unfold get. destruct (decide (Z.to_nat j < n)%nat) as [Hlt|Hge].
  - by apply lookup_total_replicate_2.
  - rewrite list_lookup_total_alt, lookup_ge_None_2; [done|].
    rewrite length_replicate. lia.
Qed.

Lemma occupied_empty (n : nat) : occupied (replicate n HashSlot0) = 0.
Proof. induction n as [|n IH]; [done|]. simpl. by rewrite IH. Qed.

(** The table [rehash] starts from. *)
Lemma empty_linear (N : Z) :
  1 <= N < 2 ^ 62 ->
  let t := {| table := replicate (Z.to_nat N) HashSlot0; probeType := LINEAR;
              elemCount := 0 |} in
  linear t /\ size t = N /\ forall x, ~ holds t x.
Proof.
  intros HN. cbn zeta.
  assert (size {| table := replicate (Z.to_nat N) HashSlot0; probeType := LINEAR;
                  elemCount := 0 |} = N) as Hsize.
  { unfold size, len. simpl. rewrite length_replicate. lia. }
  split; [|split; [done|]].
  - split; simpl.
    + done.
    + by rewrite Hsize.
    + intros h _. by rewrite get_empty.
    + intros x d _. unfold round. simpl. by rewrite get_empty.
    + by rewrite occupied_empty.
  - intros x (h & _ & Hs & _). simpl in Hs. by rewrite get_empty in Hs.
Qed.

(** The loop of [rehash]: the keys of [slots] move to the new table. *)
Lemma rehash_fold_linear (slots : list HashSlot) (a : OpenAddressHashTable) :
  linear a -> 10 * (elemCount a + occupied slots) <= 7 * size a ->
  exists a',
    fold_left (rehash_slot (insert_rec 1)) slots (Some a) = Some a' /\
    linear a' /\ size a' = size a /\
    elemCount a' <= elemCount a + occupied slots /\
    forall x, holds a' x <->
              holds a x \/ exists s, s ∈ slots /\ state s = OCCUPIED /\ key s = x.
Proof.
  revert a. induction slots as [|s slots IH]; intros a Hlin Hroom.
  - exists a. simpl. split; [done|]. split; [done|]. split; [done|]. split; [lia|].
    intros x. split; [by left|]. intros [Hx|(s & Hs & _)]; [done|]. by apply elem_of_nil in Hs.
  - cbn [fold_left occupied] in *. unfold rehash_slot at 2. cbn [mbind option_bind].
    pose proof (occupied_bounds slots) as Hb.
    unfold is_occupied in *. destruct (state s) eqn:Hstate.
    + destruct (IH a Hlin) as (a' & Hfold & Hlin' & Hsize & Hcount & Hkeys); [lia|].
      exists a'. split; [done|]. split; [done|]. split; [done|]. split; [lia|].
      intros x. rewrite Hkeys. split; intros [Hx|(s' & Hs' & Hst & Hk)]; try by left.
      * right. exists s'. split; [by right | done].
      * apply elem_of_cons in Hs' as [->|Hs']; [congruence|]. right. by exists s'.
    + destruct (insert_rec_direct 0 (key s) a Hlin) as (a1 & -> & Hlin1 & Hsize1 & Hc1 & Hk1);
        [lia|].
      cbn [mbind option_bind].
      destruct (IH a1 Hlin1) as (a' & Hfold & Hlin' & Hsize & Hcount & Hkeys); [lia|].
      exists a'. split; [done|]. split; [done|]. split; [congruence|]. split; [lia|].
      intros x. rewrite Hkeys, Hk1. split.
      * intros [[->|Hx]|(s' & Hs' & Hst & Hk)].
        -- right. exists s. split; [by left | done].
        -- by left.
        -- right. exists s'. split; [by right | done].
      * intros [Hx|(s' & Hs' & Hst & Hk)]; [left; by right|].
        apply elem_of_cons in Hs' as [->|Hs']; [left; by left|]. right. by exists s'.
    + destruct (IH a Hlin) as (a' & Hfold & Hlin' & Hsize & Hcount & Hkeys); [lia|].
      exists a'. split; [done|]. split; [done|]. split; [done|]. split; [lia|].
      intros x. rewrite Hkeys. split; intros [Hx|(s' & Hs' & Hst & Hk)]; try by left.
      * right. exists s'. split; [by right | done].
      * apply elem_of_cons in Hs' as [->|Hs']; [congruence|]. right. by exists s'.
Qed.

(** [insert] on a table with linear probing from which nothing was
    removed: it returns true, through a [rehash] or not, and the table
    holds the key and the keys it held. *)
Lemma insert_linear k t :
  linear t -> 3 * elemCount t + 1 < 2 ^ 62 ->
  exists t',
    insert k t = Some (true, t') /\ linear t' /\
    elemCount t' <= elemCount t + 1 /\
    forall x, holds t' x <-> x = k \/ holds t x.
Proof.
  intros Hlin Hsmall. pose proof (lin_size t Hlin) as Hm.
  pose proof (occupied_bounds (table t)) as Hocc. fold (size t) in Hocc.
  pose proof (lin_count t Hlin) as Hcount.
  destruct (Z_le_gt_dec (10 * elemCount t) (7 * size t)) as [Hload|Hload].
  - destruct (insert_rec_direct 1 k t Hlin Hload) as (t' & Hins & Hlin' & _ & Hc & Hk).
    exists t'. split; [done|]. split; [done|]. split; [lia | done].
  - unfold insert. rewrite insert_rec_S. unfold loadFactor_above_0_7.
    destruct (Z.gtb_spec (10 * elemCount t) (7 * size t)) as [_|]; [|lia].
    unfold rehash_with. rewrite (lin_probe t Hlin).
    assert (wrap64 (size t * 2 + 1) = 2 * size t + 1) as ->.
    { unfold wrap64. rewrite Z.mod_small; lia. }
    destruct (empty_linear (2 * size t + 1)) as (Hlin0 & Hsize0 & Hnone); [lia|].
    destruct (rehash_fold_linear (table t) _ Hlin0) as (a & -> & Hlina & Hsizea & Hca & Hka).
    { rewrite Hsize0. simpl. lia. }
    cbn [mbind option_bind]. simpl in Hca.
    destruct (insert_probe_spec a k (Z.to_nat (size a)) 0 Hlina)
      as (t' & -> & Hlin' & Hsize' & Hc' & Hk');
      [rewrite <- (lin_count a Hlina); lia | lia | lia | intros d Hd; lia |].
    exists t'. split; [done|]. split; [done|]. split; [lia|].
    intros x. rewrite Hk', Hka. split.
    + intros [->|[Hx|(s & Hs & Hst & Hkey)]]; [by left | by destruct (Hnone x) |].
      right. destruct (elem_of_get _ _ Hs) as (h & Hh & <-). by exists h.
    + intros [->|(h & Hh & Hst & Hkey)]; [by left|].
      right. right. exists (get (table t) h). split; [by apply get_elem_of | done].
Qed.

(** The log of a sequence of insertions that all return true. *)
Definition inserted (ks : list Z) : list (op * bool) := (fun k => (Insert k, true)) <$> ks.

Lemma stored_inserted ks x : stored (inserted ks) x = true <-> x ∈ ks.
Proof.
  assert (forall ks, forallb (fun e : op * bool =>
                                match e with
                                | (Erase k'', true) => negb (k'' =? x)
                                | _ => true
                                end) (inserted ks) = true) as Hnone.
  { intros l. induction l as [|k l IH]; [done|]. simpl. exact IH. }
  induction ks as [|k ks IH]; simpl.
  - split; [done|]. intros H. by apply elem_of_nil in H.
  - fold (inserted ks). rewrite Hnone, andb_true_r, orb_true_iff, IH, elem_of_cons.
    destruct (Z.eqb_spec k x); intuition congruence.
Qed.

Lemma run_inserts ks t :
  linear t -> 3 * (elemCount t + len ks) + 1 < 2 ^ 62 ->
  exists t',
    run (Insert <$> ks) t = Some (inserted ks, t') /\ linear t' /\
    forall x, holds t' x <-> x ∈ ks \/ holds t x.
Proof.
  revert t. induction ks as [|k ks IH]; intros t Hlin Hsmall.
  - exists t. split; [done|]. split; [done|]. intros x. split; [by right|].
    intros [H|H]; [by apply elem_of_nil in H | done].
  - rewrite len_cons in Hsmall. pose proof (len_nonneg ks).
    destruct (insert_linear k t Hlin) as (t1 & Hins & Hlin1 & Hc1 & Hk1); [lia|].
    destruct (IH t1 Hlin1) as (t' & Hrun & Hlin' & Hk'); [lia|].
    exists t'. cbn [fmap list_fmap run]. rewrite Hins. cbn [mbind option_bind].
    change (list_fmap Z op Insert ks) with (Insert <$> ks). rewrite Hrun.
    split; [done|]. split; [done|].
    intros x. rewrite Hk', Hk1, elem_of_cons. tauto.
Qed.

(** After insertions alone into an empty table with linear probing,
    collisions and rehashes or not, [find] is true of the inserted keys
    and of no other. *)
Lemma linear_inserts_found (m0 : Z) (ks : list Z) :
  1 <= m0 < 2 ^ 62 -> 3 * len ks + 1 < 2 ^ 62 ->
  exists t,
    run (Insert <$> ks) (create m0 LINEAR) = Some (inserted ks, t) /\
    forall x, find x t = stored (inserted ks) x.
Proof.
  intros Hm Hks. destruct (empty_linear m0 Hm) as (Hlin0 & _ & Hnone).
  destruct (run_inserts ks (create m0 LINEAR) Hlin0) as (t & Hrun & Hlin & Hk); [simpl; lia|].
  exists t. split; [done|]. intros x. apply eq_true_iff_eq.
  rewrite (find_spec t x Hlin), stored_inserted, Hk.
  split; [intros [H|H]; [done | by destruct (Hnone x)] | by left].
Qed.

(** ** A key lives on after its removal *)

(** The calls in question, on a table of eleven slots. *)
Definition twice_stored : list op := [Insert 0; Insert 11; Erase 0; Insert 11; Erase 11].

(** Every call of [twice_stored] returns true; the second [insert 11]
    takes the slot [erase 0] freed, ahead of the slot that holds 11
    already, [erase 11] frees only the former, and [find 11] still
    answers true. *)
Lemma erased_key_found probe :
  match run twice_stored (create 11 probe) with
  | Some (log, t) =>
      log = [(Insert 0, true); (Insert 11, true); (Erase 0, true);
             (Insert 11, true); (Erase 11, true)]
      /\ state <$> take 2 (table t) = [DELETED; OCCUPIED]
      /\ key <$> take 2 (table t) = [11; 11]
      /\ find 11 t = true
  | None => False
  end.
Proof. destruct probe; vm_compute; repeat split. Qed.
End HashTable.

(* ================================================================== *)
(** * 树/哈夫曼树与哈夫曼编码.cpp : the Huffman tree and its codes        *)
(* ================================================================== *)

Module Huffman.
Record HuffNode : Type := {
  weight : Z;
  parent : Z;
  left : Z;
  right : Z;
  ch : ascii;
  isLeaf : bool
}.

Definition HuffNode0 : HuffNode :=
  {| weight := 0; parent := 0; left := 0; right := 0; ch := zero; isLeaf := false |}.

#[global] Instance HuffNode_inhabited : Inhabited HuffNode := populate HuffNode0.

Definition with_parent (x : HuffNode) (p : Z) : HuffNode :=
  {| weight := weight x; parent := p; left := left x; right := right x;
     ch := ch x; isLeaf := isLeaf x |}.

(** [class HuffmanTree]; [nodes] is used from index 1. *)
Record HuffmanTree : Type := {
  nodes : list HuffNode;
  n : Z;
  leafIndex : gmap ascii Z;
  codeOf : gmap ascii (list ascii)
}.

(** The body of the loop of [selectTwoMin]. *)
Definition select_step (nodes : list HuffNode) (i : Z) (r : Z * Z) : Z * Z :=
  let '(r1, r2) := r in
  if negb (parent (get nodes i) =? 0) then (r1, r2)
  else if (r1 =? 0) || (weight (get nodes i) <? weight (get nodes r1)) then (i, r1)
  else if (r2 =? 0) || (weight (get nodes i) <? weight (get nodes r2)) then (r1, i)
  else (r1, r2).

(** [pair<int, int> selectTwoMin(int cur)] *)
Definition selectTwoMin (nodes : list HuffNode) (cur : Z) : outcome (Z * Z) :=
  let '(r1, r2) := for_up 1 (cur + 1) (select_step nodes) (0, 0) in
  if (r1 =? 0) || (r2 =? 0) then Throws runtime_error
  else if weight (get nodes r1) >? weight (get nodes r2) then Returns (r2, r1)
  else Returns (r1, r2).

(** The first loop of [build]: the leaves. *)
Definition leaf_step (chars : list ascii) (weights : list Z) (i : Z)
    (s : list HuffNode * gmap ascii Z) : list HuffNode * gmap ascii Z :=
  let '(nodes, leafIndex) := s in
  (set nodes i {| weight := get weights (i - 1); parent := parent (get nodes i);
                  left := left (get nodes i); right := right (get nodes i);
                  ch := get chars (i - 1); isLeaf := true |},
   <[get chars (i - 1) := i]> leafIndex).

(** The second loop of [build]: the two lightest trees become one. *)
Definition merge_step (k : Z) (nodes : list HuffNode) : outcome (list HuffNode) :=
  match selectTwoMin nodes (k - 1) with
  | Returns (r1, r2) =>
      let nodes := set nodes r2 (with_parent (get nodes r2) k) in
      let nodes := set nodes r1 (with_parent (get nodes r1) (parent (get nodes r2))) in
      Returns
        (set nodes k {| weight := wrap32 (weight (get nodes r1) + weight (get nodes r2));
                        parent := parent (get nodes k);
                        left := r1; right := r2;
                        ch := ch (get nodes k); isLeaf := isLeaf (get nodes k) |})
  | Throws e => Throws e
  | OutOfFuel => OutOfFuel
  end.

(** [void build(const vector<char> &chars, const vector<int> &weights)] *)
Definition build (chars : list ascii) (weights : list Z) :
    outcome (list HuffNode * Z * gmap ascii Z) :=
  if negb (len chars =? len weights) || (len chars =? 0) then Throws invalid_argument
  else
    let n := wrap32 (len chars) in
    let m := wrap32 (2 * n - 1) in
    (* [nodes.assign(m + 1, {})]: a negative count is a size above
       [max_size()], and [assign] throws [std::length_error] *)
    if wrap32 (m + 1) <? 0 then Throws logic_error
    else
      let nodes := replicate (Z.to_nat (wrap32 (m + 1))) HuffNode0 in
      let '(nodes, leafIndex) := for_up 1 (n + 1) (leaf_step chars weights) (nodes, ∅) in
      match for_upE (n + 1) (m + 1) merge_step nodes with
      | Returns nodes => Returns (nodes, n, leafIndex)
      | Throws e => Throws e
      | OutOfFuel => OutOfFuel
      end.

(** The [while] loop of [buildCodes], from a leaf up to the root. *)
Fixpoint climb (fuel : nat) (nodes : list HuffNode) (child parent0 : Z) (code : list ascii) :
    option (list ascii) :=
  match fuel with
  | O => None
  | S fuel' =>
      if negb (parent0 =? 0)
      then climb fuel' nodes parent0 (parent (get nodes parent0))
                 (code ++ [if left (get nodes parent0) =? child then "0"%char else "1"%char])
      else Some code
  end.

Definition code_step (nodes : list HuffNode) (i : Z) (codeOf : gmap ascii (list ascii)) :
    outcome (gmap ascii (list ascii)) :=
  match climb (S (length nodes)) nodes i (parent (get nodes i)) [] with
  | Some code =>
      let code := reverse code in
      let code := if bool_decide (code = []) then ["0"%char] else code in
      Returns (<[ch (get nodes i) := code]> codeOf)
  | None => OutOfFuel
  end.

(** [void buildCodes()] *)
Definition buildCodes (nodes : list HuffNode) (n : Z) : outcome (gmap ascii (list ascii)) :=
  for_upE 1 (n + 1) (code_step nodes) ∅.

(** [HuffmanTree(const vector<char> &chars, const vector<int> &weights)] *)
Definition create (chars : list ascii) (weights : list Z) : outcome HuffmanTree :=
  match build chars weights with
  | Returns (nodes, n, leafIndex) =>
      match buildCodes nodes n with
      | Returns codeOf =>
          Returns {| nodes := nodes; n := n; leafIndex := leafIndex; codeOf := codeOf |}
      | Throws e => Throws e
      | OutOfFuel => OutOfFuel
      end
  | Throws e => Throws e
  | OutOfFuel => OutOfFuel
  end.

(** [string Encode(char c) const] *)
Definition Encode (t : HuffmanTree) (c : ascii) : outcome (list ascii) :=
  match codeOf t !! c with
  | Some code => Returns code
  | None => Throws runtime_error
  end.

Fixpoint EncodeString_loop (t : HuffmanTree) (text : list ascii) (out : list ascii) :
    outcome (list ascii) :=
  match text with
  | [] => Returns out
  | c :: text' =>
      match Encode t c with
      | Returns code => EncodeString_loop t text' (out ++ code)
      | Throws e => Throws e
      | OutOfFuel => OutOfFuel
      end
  end.

(** [string EncodeString(const string &text) const] *)
Definition EncodeString (t : HuffmanTree) (text : list ascii) : outcome (list ascii) :=
  EncodeString_loop t text [].

Fixpoint Decode_loop (nodes : list HuffNode) (root : Z) (bits : list ascii)
    (out : list ascii) (cur : Z) : outcome (list ascii) :=
  match bits with
  | [] => if negb (cur =? root) then Throws runtime_error else Returns out
  | b :: bits' =>
      match (if Ascii.eqb b "0" then Some (left (get nodes cur))
             else if Ascii.eqb b "1" then Some (right (get nodes cur))
             else None) with
      | None => Throws runtime_error
      | Some cur =>
          if isLeaf (get nodes cur)
          then Decode_loop nodes root bits' (out ++ [ch (get nodes cur)]) root
          else Decode_loop nodes root bits' out cur
      end
  end.

(** [string Decode(const string &bits) const] *)
Definition Decode (t : HuffmanTree) (bits : list ascii) : outcome (list ascii) :=
  let root := wrap32 (len (nodes t) - 1) in
  Decode_loop (nodes t) root bits [] root.

Definition chars_of (s : string) : list ascii := String.list_ascii_of_string s.

(** The demonstration of [main]. *)
Example create_demo :
  match create (chars_of "CAST") [2; 7; 4; 5] with
  | Returns t =>
      Some ((fun c => codeOf t !! c) <$> chars_of "CAST",
            match EncodeString t (chars_of "CASTCASTSATATATASA") with
            | Returns bits => Some (length bits, Decode t bits)
            | _ => None
            end)
  | _ => None
  end
  = Some (Some <$> (chars_of <$> ["110"; "0"; "111"; "10"]),
          Some (35%nat, Returns (chars_of "CASTCASTSATATATASA"))).
Proof. vm_compute. reflexivity. Qed.

(** ** A tree of one character *)

(** The tree of the character [c] alone: node 0 is unused, node 1 is
    the only leaf and the root. *)
Definition single (c : ascii) (w : Z) : HuffmanTree :=
  {| nodes := [HuffNode0;
               {| weight := w; parent := 0; left := 0; right := 0; ch := c; isLeaf := true |}];
     n := 1;
     leafIndex := <[c := 1]> ∅;
     codeOf := <[c := ["0"%char]]> ∅ |}.

Lemma create_single c w : create [c] [w] = Returns (single c w).
Proof. reflexivity. Qed.

(** The only leaf has no parent: [buildCodes] gives it the code 0, and
    [Decode] on that bit leaves the root through its [left], which is
    the unused node 0, not a leaf; the string ends away from the root. *)
Lemma single_leaf_round_trip c w :
  EncodeString (single c w) [c] = Returns ["0"%char] /\
  Decode (single c w) ["0"%char] = Throws runtime_error.
Proof.
  split; [|reflexivity].
  unfold EncodeString, EncodeString_loop, Encode, single. cbn [codeOf].
  rewrite lookup_insert_eq. reflexivity.
Qed.

(** ** Two trees without a parent are found when there are two *)

Lemma selectTwoMin_spec (nodes : list HuffNode) (cur : Z) :
  0 <= cur ->
  (exists a b, a <> b /\ 1 <= a <= cur /\ 1 <= b <= cur /\
               parent (get nodes a) = 0 /\ parent (get nodes b) = 0) ->
  exists r1 r2,
    selectTwoMin nodes cur = Returns (r1, r2) /\ r1 <> r2 /\
    1 <= r1 <= cur /\ 1 <= r2 <= cur /\
    parent (get nodes r1) = 0 /\ parent (get nodes r2) = 0.
Proof.
  intros Hcur (a & b & Hab & Ha & Hb & Hpa & Hpb). unfold selectTwoMin.
  pose proof (for_up_inv
    (fun i (r : Z * Z) =>
       (r.1 = 0 -> r.2 = 0 /\ forall j, 1 <= j < i -> parent (get nodes j) <> 0) /\
       (r.1 <> 0 -> 1 <= r.1 < i /\ parent (get nodes r.1) = 0) /\
       (r.2 <> 0 -> r.1 <> 0 /\ 1 <= r.2 < i /\ parent (get nodes r.2) = 0 /\ r.2 <> r.1) /\
       (r.2 = 0 -> forall j, 1 <= j < i -> parent (get nodes j) = 0 -> j = r.1))
    1 (cur + 1) (select_step nodes) (0, 0)) as Hloop.
  destruct Hloop as (H1 & H1' & H2 & H2'); [lia | simpl; repeat split; intros; lia | |].
  { intros i [r1 r2] Hi (H1 & H1' & H2 & H2'). unfold select_step. simpl in *.
    assert (r1 = 0 \/ r1 <> 0) as [Hr1|Hr1] by lia;
      [destruct (H1 Hr1) as [Hr2 Hnone]; clear H1 H1'
      |destruct (H1' Hr1) as [Hr1i Hr1p]; clear H1 H1'];
      (assert (r2 = 0 \/ r2 <> 0) as [Hr2'|Hr2'] by lia;
       [pose proof (H2' Hr2') as Honly; clear H2 H2'
       |destruct (H2 Hr2') as (_ & Hr2i & Hr2p & Hne); clear H2 H2']);
      try lia;
      destruct (Z.eqb_spec (parent (get nodes i)) 0) as [Hp|Hp]; simpl;
      destruct (Z.eqb_spec r1 0) as [|?]; try lia; simpl;
      try destruct (weight (get nodes i) <? weight (get nodes r1)); simpl;
      try (destruct (Z.eqb_spec r2 0) as [|?]; try lia; simpl);
      try destruct (weight (get nodes i) <? weight (get nodes r2)); simpl;
      repeat split; intros; try lia; try done;
      try (match goal with
           | Hj : 1 <= ?j < i + 1 |- _ =>
               destruct (Z.eq_dec j i) as [->|?]; [try done; try lia|]
           end);
      try (apply Hnone; lia); try (apply Honly; [lia | done]);
      try (exfalso; match goal with
                    | Hq : parent (get nodes ?j) = 0 |- _ =>
                        (apply (Hnone j); [lia | done])
                        || (pose proof (Honly j ltac:(lia) Hq); lia)
                    end). }
  destruct (for_up 1 (cur + 1) (select_step nodes) (0, 0)) as [r1 r2]. simpl in *.
  assert (r2 <> 0) as Hr2.
  { intros Hr2. pose proof (H2' Hr2 a ltac:(lia) Hpa). pose proof (H2' Hr2 b ltac:(lia) Hpb).
    lia. }
  destruct (H2 Hr2) as (Hr1 & Hr2i & Hr2p & Hne). destruct (H1' Hr1) as [Hr1i Hr1p].
  destruct (Z.eqb_spec r1 0) as [|_]; [done|]. destruct (Z.eqb_spec r2 0) as [|_]; [done|].
  simpl. destruct (_ >? _).
  - exists r2, r1. repeat split; try done; lia.
  - exists r1, r2. repeat split; try done; lia.
Qed.

(** ** The forest that [build] grows *)

Lemma get_fresh (k : nat) (j : Z) : get (replicate k HuffNode0) j = HuffNode0.
Proof.
  unfold get. destruct (decide (Z.to_nat j < k)%nat) as [Hlt|Hge].
  - by apply lookup_total_replicate_2.
  - rewrite list_lookup_total_alt, lookup_ge_None_2; [done|].
    rewrite length_replicate. lia.
Qed.

(** The nodes before node [k] is made, for [n] characters: the leaves
    are nodes 1 to [n]; a node that has a parent is its parent's left or
    right child, and the parent is a later, inner node; [R] holds the
    nodes made so far that have no parent yet. *)
Record forest (chars : list ascii) (n k : Z) (nodes : list HuffNode) (R : gset Z) : Prop := {
  f_len : len nodes = 2 * n;
  f_leaf : forall i, 1 <= i <= n ->
                     isLeaf (get nodes i) = true /\ ch (get nodes i) = get chars (i - 1);
  f_inner : forall i, n < i -> isLeaf (get nodes i) = false;
  f_fresh : forall i, k - 1 <= i -> n < i -> parent (get nodes i) = 0;
  f_parent : forall i, 1 <= i < k -> parent (get nodes i) <> 0 ->
                       i < parent (get nodes i) < k /\ n < parent (get nodes i) /\
                       (left (get nodes (parent (get nodes i))) = i \/
                        right (get nodes (parent (get nodes i))) = i);
  f_roots : forall i, i ∈ R <-> 1 <= i < k /\ parent (get nodes i) = 0;
  f_count : Z.of_nat (size R) = 2 * n + 1 - k
}.

Lemma two_roots (R : gset Z) :
  2 <= Z.of_nat (size R) -> exists a b, a <> b /\ a ∈ R /\ b ∈ R.
Proof.
  intros Hsize. destruct (size_pos_elem_of R) as [a Ha]; [lia|].
  assert (size (R ∖ {[a]}) = (size R - 1)%nat) as Hrest.
  { rewrite size_difference by set_solver. by rewrite size_singleton. }
  destruct (size_pos_elem_of (R ∖ {[a]})) as [b Hb']; [lia|].
  apply elem_of_difference in Hb' as [Hb Hne]. rewrite elem_of_singleton in Hne.
  exists a, b. split; [congruence | done].
Qed.

(** The leaves, as the first loop of [build] leaves them. *)
Lemma leaves_forest (chars : list ascii) (weights : list Z) (n : Z) :
  1 <= n ->
  exists R,
    forest chars n (n + 1)
           (for_up 1 (n + 1) (leaf_step chars weights)
                   (replicate (Z.to_nat (2 * n)) HuffNode0, ∅)).1 R.
Proof.
  intros Hn.
  pose proof (for_up_inv
    (fun i (s : list HuffNode * gmap ascii Z) =>
       len s.1 = 2 * n /\
       (forall j, 0 <= j -> parent (get s.1 j) = 0) /\
       (forall j, 1 <= j < i ->
                  isLeaf (get s.1 j) = true /\ ch (get s.1 j) = get chars (j - 1)) /\
       (forall j, i <= j -> isLeaf (get s.1 j) = false))
    1 (n + 1) (leaf_step chars weights)
    (replicate (Z.to_nat (2 * n)) HuffNode0, ∅)) as Hloop.
  destruct Hloop as (Hlen & Hpar & Hleaf & Hinner); [lia | | |].
  { simpl. split; [unfold len; rewrite length_replicate; lia|].
    split; [intros; by rewrite get_fresh|]. split; [intros; lia|].
    intros; by rewrite get_fresh. }
  { intros i [nodes li] Hi (Hlen & Hpar & Hleaf & Hinner). unfold leaf_step. simpl in *.
    rewrite len_set. split; [done|].
    split; [|split]; intros j Hj; rewrite get_set by lia;
      destruct (Z.eq_dec i j) as [<-|Hne]; simpl; auto; try (apply Hleaf; lia); try lia.
    apply Hinner. lia. }
  destruct (for_up _ _ _ _) as [nodes li]. simpl in *.
  exists (list_to_set (seqZ 1 n)). split; try done.
  - intros; apply Hleaf; lia.
  - intros; apply Hinner; lia.
  - intros; apply Hpar; lia.
  - intros i Hi Hp. rewrite Hpar in Hp by lia. done.
  - intros i. rewrite elem_of_list_to_set, elem_of_seqZ. split; [|lia].
    intros Hi. split; [lia|]. apply Hpar. lia.
  - rewrite size_list_to_set by apply NoDup_seqZ. rewrite length_seqZ. lia.
Qed.

(** What [merge_step] writes. *)
Definition merged (nodes : list HuffNode) (k r1 r2 : Z) : list HuffNode :=
  let nodes := set nodes r2 (with_parent (get nodes r2) k) in
  let nodes := set nodes r1 (with_parent (get nodes r1) (parent (get nodes r2))) in
  set nodes k {| weight := wrap32 (weight (get nodes r1) + weight (get nodes r2));
                 parent := parent (get nodes k);
                 left := r1; right := r2;
                 ch := ch (get nodes k); isLeaf := isLeaf (get nodes k) |}.

Lemma merged_get (nodes : list HuffNode) (k r1 r2 j : Z) :
  1 <= r1 < k -> 1 <= r2 < k -> r1 <> r2 -> k < len nodes -> 0 <= j ->
  let x := get (merged nodes k r1 r2) j in
  isLeaf x = isLeaf (get nodes j) /\ ch x = ch (get nodes j) /\
  parent x = (if bool_decide (j = r1 \/ j = r2) then k else parent (get nodes j)) /\
  left x = (if bool_decide (j = k) then r1 else left (get nodes j)) /\
  right x = (if bool_decide (j = k) then r2 else right (get nodes j)).
Proof.
  intros Hr1 Hr2 Hne Hk Hj. unfold merged. cbn zeta.
  rewrite !get_set by (rewrite ?len_set; lia).
  repeat case_bool_decide; repeat (destruct (Z.eq_dec _ _)); simpl;
    try lia; subst; repeat split; try done; try lia.
Qed.

Lemma merge_step_forest (chars : list ascii) (n k : Z) (nodes : list HuffNode) (R : gset Z) :
  n + 1 <= k <= 2 * n - 1 -> 1 <= n ->
  forest chars n k nodes R ->
  exists nodes' R',
    merge_step k nodes = Returns nodes' /\ forest chars n (k + 1) nodes' R'.
Proof.
  intros Hk Hn [Hlen Hleaf Hinner Hfresh Hparent Hroots Hcount].
  destruct (two_roots R) as (a & b & Hab & Ha & Hb); [lia|].
  apply Hroots in Ha as [Ha Hpa]. apply Hroots in Hb as [Hb Hpb].
  destruct (selectTwoMin_spec nodes (k - 1)) as (r1 & r2 & Hsel & Hne & Hr1 & Hr2 & Hp1 & Hp2);
    [lia | exists a, b; repeat split; (done || lia) |].
  unfold merge_step. rewrite Hsel. fold (merged nodes k r1 r2).
  exists (merged nodes k r1 r2), ({[k]} ∪ (R ∖ {[r1; r2]})). split; [done|].
  assert (forall j, 0 <= j ->
    let x := get (merged nodes k r1 r2) j in
    isLeaf x = isLeaf (get nodes j) /\ ch x = ch (get nodes j) /\
    parent x = (if bool_decide (j = r1 \/ j = r2) then k else parent (get nodes j)) /\
    left x = (if bool_decide (j = k) then r1 else left (get nodes j)) /\
    right x = (if bool_decide (j = k) then r2 else right (get nodes j))) as Hget.
  { intros j Hj. apply merged_get; lia. }
  cbn zeta in Hget.
  assert (parent (get nodes k) = 0) as Hpk by (apply Hfresh; lia).
  split.
  - unfold merged. by rewrite !len_set.
  - intros i Hi. destruct (Hget i ltac:(lia)) as (-> & -> & _). by apply Hleaf.
  - intros i Hi. destruct (Hget i ltac:(lia)) as (-> & _). by apply Hinner.
  - intros i Hi Hni. destruct (Hget i ltac:(lia)) as (_ & _ & -> & _).
    rewrite bool_decide_eq_false_2 by lia. apply Hfresh; lia.
  - intros i Hi. destruct (Hget i ltac:(lia)) as (_ & _ & -> & _).
    case_bool_decide as Hd.
    + intros _. split; [lia|]. split; [lia|].
      destruct (Hget k ltac:(lia)) as (_ & _ & _ & -> & ->).
      rewrite bool_decide_eq_true_2 by done. lia.
    + intros Hp. assert (i <> k) as Hik by (intros ->; done).
      destruct (Hparent i ltac:(lia) Hp) as (Hlt & Hin & Hchild).
      split; [lia|]. split; [done|].
      assert (0 <= parent (get nodes i)) as Hp0 by lia.
      destruct (Hget (parent (get nodes i)) Hp0) as (_ & _ & _ & -> & ->).
      by rewrite bool_decide_eq_false_2 by lia.
  - intros i. rewrite elem_of_union, elem_of_singleton, elem_of_difference, Hroots.
    rewrite elem_of_union, !elem_of_singleton.
    split.
    + intros [->|[[Hi Hp] Hnot]].
      * split; [lia|]. destruct (Hget k ltac:(lia)) as (_ & _ & -> & _).
        by rewrite bool_decide_eq_false_2 by lia.
      * split; [lia|]. destruct (Hget i ltac:(lia)) as (_ & _ & -> & _).
        by rewrite bool_decide_eq_false_2 by done.
    + intros [Hi Hp]. destruct (Z.eq_dec i k) as [->|Hik]; [by left|]. right.
      destruct (Hget i ltac:(lia)) as (_ & _ & Hpi & _). rewrite Hpi in Hp.
      case_bool_decide as Hd; [lia|]. split; [split; [lia | done] | done].
  - rewrite size_union, size_singleton, size_difference.
    + assert (size ({[r1; r2]} : gset Z) = 2%nat) as ->.
      { rewrite size_union, !size_singleton by set_solver. done. }
      lia.
    + intros j. rewrite elem_of_union, !elem_of_singleton, Hroots.
      intros [->| ->]; (split; [lia | done]).
    + intros j. rewrite elem_of_singleton, elem_of_difference, Hroots. intros -> [[Hj _] _]. lia.
Qed.

Lemma build_forest (chars : list ascii) (weights : list Z) :
  len chars = len weights -> 1 <= len chars < 2 ^ 30 ->
  exists nodes leafIndex R,
    build chars weights = Returns (nodes, len chars, leafIndex) /\
    forest chars (len chars) (2 * len chars) nodes R.
Proof.
  intros Hsame Hn. unfold build. rewrite <- Hsame, Z.eqb_refl.
  destruct (Z.eqb_spec (len chars) 0) as [|_]; [lia|]. simpl.
  rewrite (wrap32_small (len chars)) by lia.
  rewrite (wrap32_small (2 * len chars - 1)) by lia.
  rewrite (wrap32_small (2 * len chars - 1 + 1)) by lia.
  destruct (Z.ltb_spec (2 * len chars - 1 + 1) 0) as [|_]; [lia|].
  set (n := len chars) in *.
  replace (2 * n - 1 + 1) with (2 * n) by lia.
  destruct (leaves_forest chars weights n) as [R0 H0]; [lia|].
  destruct (for_up 1 (n + 1) (leaf_step chars weights) _) as [nodes0 leafIndex]. simpl in H0.
  destruct (for_upE_inv (fun k nodes => exists R, forest chars n k nodes R)
              (n + 1) (2 * n) merge_step nodes0) as (nodes & -> & R & Hforest).
  - lia.
  - by exists R0.
  - intros k nodes Hk [R HR].
    destruct (merge_step_forest chars n k nodes R) as (nodes' & R' & Hstep & HR');
      [lia | lia | done |].
    exists nodes'. split; [done|]. by exists R'.
  - by exists nodes, leafIndex, R.
Qed.

(** ** The finished tree *)

(** Walking down from [top] along [code] ends at [i], and every node
    left on the way is an inner node. *)
Inductive descends (nodes : list HuffNode) (n : Z) : Z -> list ascii -> Z -> Prop :=
  | descends_here i : descends nodes n i [] i
  | descends_left p code i :
      n < p -> descends nodes n (left (get nodes p)) code i ->
      descends nodes n p ("0"%char :: code) i
  | descends_right p code i :
      n < p -> descends nodes n (right (get nodes p)) code i ->
      descends nodes n p ("1"%char :: code) i.

(** In the finished tree only the last node has no parent. *)
Lemma forest_root chars n nodes R i :
  2 <= n -> forest chars n (2 * n) nodes R ->
  1 <= i < 2 * n -> parent (get nodes i) = 0 -> i = 2 * n - 1.
Proof.
  intros Hn [Hlen Hleaf Hinner Hfresh Hparent Hroots Hcount] Hi Hp.
  apply (size_singleton_inv R); [lia | by apply Hroots|].
  apply Hroots. split; [lia|]. apply Hfresh; lia.
Qed.

(** The loop of [buildCodes] climbs from any node to the root and writes
    the way down, last step first. *)
Lemma climb_spec chars n nodes R i :
  2 <= n -> forest chars n (2 * n) nodes R ->
  forall fuel c code,
    1 <= c < 2 * n -> 2 * n - 1 - c < Z.of_nat fuel ->
    descends nodes n c (reverse code) i ->
    exists code', climb fuel nodes c (parent (get nodes c)) code = Some code' /\
                  descends nodes n (2 * n - 1) (reverse code') i.
Proof.
  intros Hn Hforest. pose proof Hforest as [Hlen Hleaf Hinner Hfresh Hparent Hroots Hcount].
  induction fuel as [|fuel IH]; intros c code Hc Hfuel Hdesc; [lia|].
  simpl. destruct (Z.eqb_spec (parent (get nodes c)) 0) as [Hp|Hp]; simpl.
  - exists code. split; [done|].
    by rewrite <- (forest_root chars n nodes R c Hn Hforest Hc Hp).
  - destruct (Hparent c Hc Hp) as (Hlt & Hin & Hchild).
    apply IH; [lia | lia |]. rewrite reverse_snoc.
    destruct (Z.eqb_spec (left (get nodes (parent (get nodes c)))) c) as [Hl|Hl].
    + apply descends_left; [done|]. by rewrite Hl.
    + apply descends_right; [done|]. destruct Hchild as [|Hr]; [done|]. by rewrite Hr.
Qed.

(** The codes [buildCodes] stores: every code leads from the root down
    to a leaf of its character, and every leaf's character has a code. *)
Definition codes_ok (nodes : list HuffNode) (n i : Z) (codeOf : gmap ascii (list ascii)) : Prop :=
  (forall c code, codeOf !! c = Some code ->
     exists j, 1 <= j < i /\ ch (get nodes j) = c /\ descends nodes n (2 * n - 1) code j) /\
  (forall j, 1 <= j < i -> is_Some (codeOf !! ch (get nodes j))).

Lemma buildCodes_spec chars n nodes R :
  2 <= n -> forest chars n (2 * n) nodes R ->
  exists codeOf, buildCodes nodes n = Returns codeOf /\ codes_ok nodes n (n + 1) codeOf.
Proof.
  intros Hn Hforest. unfold buildCodes.
  apply (for_upE_inv (codes_ok nodes n)); [lia | | ].
  { split; [intros c code; by rewrite lookup_empty | intros; lia]. }
  intros i codeOf Hi [Hcodes Hall]. unfold code_step.
  destruct (climb_spec chars n nodes R i Hn Hforest (S (length nodes)) i [])
    as (code' & -> & Hdesc); [lia | | apply descends_here |].
  { pose proof (f_len _ _ _ _ _ Hforest) as Hlen. unfold len in Hlen. lia. }
  assert (reverse code' <> []) as Hne.
  { intros He. rewrite He in Hdesc. inversion Hdesc. lia. }
  rewrite bool_decide_eq_false_2 by done.
  eexists. split; [done|]. split.
  - intros c code. destruct (decide (ch (get nodes i) = c)) as [<-|Hc].
    + rewrite lookup_insert_eq. intros [= <-]. exists i. repeat split; (done || lia).
    + rewrite lookup_insert_ne by done. intros Hl.
      destruct (Hcodes c code Hl) as (j & Hj & Hch & Hd). exists j. repeat split; (done || lia).
  - intros j Hj. destruct (decide (ch (get nodes i) = ch (get nodes j))) as [<-|Hc].
    + rewrite lookup_insert_eq. by eexists.
    + rewrite lookup_insert_ne by done. apply Hall.
      destruct (Z.eq_dec j i) as [->|]; [done | lia].
Qed.

(** ** Decoding undoes encoding *)

(** [Decode], from an inner node, follows a code down to its leaf, writes
    the leaf's character and is back at the root. *)
Lemma Decode_code chars n nodes R root cur code i :
  forest chars n (2 * n) nodes R ->
  descends nodes n cur code i -> 1 <= i <= n -> n < cur ->
  forall rest out,
    Decode_loop nodes root (code ++ rest) out cur
    = Decode_loop nodes root rest (out ++ [ch (get nodes i)]) root.
Proof.
  intros [Hlen Hleaf Hinner Hfresh Hparent Hroots Hcount] Hdesc Hi.
  induction Hdesc as [i|p code i Hp Hdesc IH|p code i Hp Hdesc IH]; intros Hcur rest out.
  - lia.
  - cbn [app Decode_loop]. change (Ascii.eqb "0" "0") with true. cbn match.
    destruct (Z_lt_dec n (left (get nodes p))) as [Hin|Hout].
    + rewrite Hinner by done. by apply IH.
    + inversion Hdesc; subst; try lia.
      destruct (Hleaf (left (get nodes p)) Hi) as [-> _]. done.
  - cbn [app Decode_loop]. change (Ascii.eqb "1" "0") with false.
    change (Ascii.eqb "1" "1") with true. cbn match.
    destruct (Z_lt_dec n (right (get nodes p))) as [Hin|Hout].
    + rewrite Hinner by done. by apply IH.
    + inversion Hdesc; subst; try lia.
      destruct (Hleaf (right (get nodes p)) Hi) as [-> _]. done.
Qed.

Lemma round_trip_loop chars n nodes R (t : HuffmanTree) :
  2 <= n -> len chars = n -> forest chars n (2 * n) nodes R ->
  Huffman.nodes t = nodes -> codes_ok nodes n (n + 1) (codeOf t) ->
  forall text, (forall c, c ∈ text -> c ∈ chars) ->
  forall out_e out_d,
    exists bits,
      EncodeString_loop t text out_e = Returns (out_e ++ bits) /\
      Decode_loop nodes (2 * n - 1) bits out_d (2 * n - 1) = Returns (out_d ++ text).
Proof.
  intros Hn Hchars Hforest Hnodes [Hcodes Hall].
  induction text as [|c text IH]; intros Htext out_e out_d.
  - exists []. rewrite !app_nil_r. split; [done|]. simpl. by rewrite Z.eqb_refl.
  - destruct (elem_of_get chars c) as (k & Hk & Hck); [apply Htext; by left|].
    destruct (f_leaf _ _ _ _ _ Hforest (k + 1) ltac:(lia)) as [_ Hch].
    replace (k + 1 - 1) with k in Hch by lia. rewrite Hck in Hch.
    destruct (Hall (k + 1) ltac:(lia)) as [code Hcode]. rewrite Hch in Hcode.
    destruct (Hcodes c code Hcode) as (j & Hj & Hchj & Hdesc).
    destruct (IH (fun c' Hc' => Htext c' (list_elem_of_further _ _ _ Hc'))
                 (out_e ++ code) (out_d ++ [c])) as (bits & Henc & Hdec).
    exists (code ++ bits). split.
    + cbn [EncodeString_loop]. unfold Encode. rewrite Hcode, Henc. by rewrite app_assoc.
    + rewrite (Decode_code chars n nodes R (2 * n - 1) (2 * n - 1) code j Hforest Hdesc)
        by lia.
      rewrite Hchj, Hdec. by rewrite <- app_assoc.
Qed.

(** With two characters or more, the tree is built, every text over the
    characters is encoded, and [Decode] gives the text back. *)
Lemma round_trip (chars : list ascii) (weights : list Z) :
  len chars = len weights -> 2 <= len chars < 2 ^ 30 ->
  exists t,
    create chars weights = Returns t /\
    forall text, (forall c, c ∈ text -> c ∈ chars) ->
      exists bits, EncodeString t text = Returns bits /\ Decode t bits = Returns text.
Proof.
  intros Hsame Hn. unfold create.
  destruct (build_forest chars weights Hsame) as (nodes & leafIndex & R & -> & Hforest); [lia|].
  destruct (buildCodes_spec chars (len chars) nodes R) as (codes & -> & Hcodes); [lia | done |].
  eexists. split; [done|]. intros text Htext.
  destruct (round_trip_loop chars (len chars) nodes R
              {| nodes := nodes; n := len chars; leafIndex := leafIndex; codeOf := codes |}
              ltac:(lia) eq_refl Hforest eq_refl Hcodes text Htext [] [])
    as (bits & Henc & Hdec).
  exists bits. split; [done|]. unfold Decode. cbn [Huffman.nodes].
  rewrite (f_len _ _ _ _ _ Hforest), wrap32_small by lia. done.
Qed.

(** ** The codes are a prefix code over the characters *)
Lemma descends_app nodes n p code rest i i' :
  descends nodes n p code i -> descends nodes n p (code ++ rest) i' ->
  descends nodes n i rest i'.
Proof.
  induction 1 as [i|p code i Hp Hdesc IH|p code i Hp Hdesc IH]; [done| |];
    simpl; intros Hd; inversion Hd; subst; by apply IH.
Qed.

Lemma descends_leaf nodes n i rest i' :
  descends nodes n i rest i' -> i <= n -> rest = [] /\ i' = i.
Proof. intros Hd Hi. inversion Hd; subst; [done | lia | lia]. Qed.

Lemma descends_bits nodes n p code i :
  descends nodes n p code i -> Forall (fun b => b = "0"%char \/ b = "1"%char) code.
Proof. induction 1; constructor; auto. Qed.

Lemma descends_nonempty nodes n p code i :
  descends nodes n p code i -> i <= n -> n < p -> code <> [].
Proof. intros Hd Hi Hp. inversion Hd; subst; [lia | done | done]. Qed.

(** The codes [create] stores, for two characters or more. *)
Lemma create_codes (chars : list ascii) (weights : list Z) :
  len chars = len weights -> 2 <= len chars < 2 ^ 30 ->
  exists t,
    create chars weights = Returns t /\
    (forall c, is_Some (codeOf t !! c) <-> c ∈ chars) /\
    (forall c code, codeOf t !! c = Some code ->
       code <> [] /\ Forall (fun b => b = "0"%char \/ b = "1"%char) code) /\
    (forall c c' code code',
       codeOf t !! c = Some code -> codeOf t !! c' = Some code' ->
       code `prefix_of` code' -> c = c').
Proof.
  intros Hsame Hn. unfold create.
  destruct (build_forest chars weights Hsame) as (nodes & leafIndex & R & -> & Hforest); [lia|].
  destruct (buildCodes_spec chars (len chars) nodes R) as (codes & -> & Hcodes & Hall);
    [lia | done |].
  eexists. split; [done|]. cbn [codeOf]. split; [|split].
  - intros c. split.
    + intros [code Hc]. destruct (Hcodes c code Hc) as (j & Hj & <- & _).
      destruct (f_leaf _ _ _ _ _ Hforest j ltac:(lia)) as [_ ->].
      apply get_elem_of. lia.
    + intros (k & Hk & <-)%elem_of_get.
      destruct (f_leaf _ _ _ _ _ Hforest (k + 1) ltac:(lia)) as [_ Hch].
      replace (k + 1 - 1) with k in Hch by lia. rewrite <- Hch. apply Hall. lia.
  - intros c code Hc. destruct (Hcodes c code Hc) as (j & Hj & _ & Hd). split.
    + apply (descends_nonempty _ _ _ _ _ Hd); lia.
    + apply (descends_bits _ _ _ _ _ Hd).
  - intros c c' code code' Hc Hc' [rest ->].
    destruct (Hcodes c code Hc) as (j & Hj & <- & Hd).
    destruct (Hcodes c' _ Hc') as (j' & Hj' & <- & Hd').
    pose proof (descends_app _ _ _ _ _ _ _ Hd Hd') as Hrest.
    destruct (descends_leaf _ _ _ _ _ Hrest ltac:(lia)) as [_ ->]. done.
Qed.

(** ** What [Encode] and [Decode] refuse *)
Lemma Encode_known (chars : list ascii) (weights : list Z) :
  len chars = len weights -> 2 <= len chars < 2 ^ 30 ->
  exists t,
    create chars weights = Returns t /\
    (forall c, c ∈ chars -> exists code, Encode t c = Returns code) /\
    (forall c, c ∉ chars -> Encode t c = Throws runtime_error) /\
    (forall text, (exists c, c ∈ text /\ c ∉ chars) ->
                  EncodeString t text = Throws runtime_error).
Proof.
  intros Hsame Hn.
  destruct (create_codes chars weights Hsame Hn) as (t & Ht & Hdom & _).
  exists t. split; [done|].
  assert (forall c, c ∉ chars -> Encode t c = Throws runtime_error) as Hout.
  { intros c Hc. unfold Encode. destruct (codeOf t !! c) as [code|] eqn:Hl; [|done].
    destruct Hc. apply Hdom. by exists code. }
  split; [|split; [done|]].
  - intros c [code Hc]%Hdom. exists code. unfold Encode. by rewrite Hc.
  - intros text. unfold EncodeString. generalize (@nil ascii).
    induction text as [|c text IH]; intros out (c' & Hin & Hc').
    + by apply elem_of_nil in Hin.
    + cbn [EncodeString_loop]. destruct (Encode t c) as [code|e|] eqn:He.
      * apply IH. exists c'. split; [|done].
        apply elem_of_cons in Hin as [->|Hin]; [|done].
        rewrite (Hout c Hc') in He. done.
      * unfold Encode in He. destruct (codeOf t !! c); [done|]. congruence.
      * unfold Encode in He. destruct (codeOf t !! c); done.
Qed.

Lemma Decode_loop_not_bits nodes root bits out cur :
  (exists b, b ∈ bits /\ b <> "0"%char /\ b <> "1"%char) ->
  Decode_loop nodes root bits out cur = Throws runtime_error.
Proof.
  revert out cur. induction bits as [|b bits IH]; intros out cur (b' & Hin & H0 & H1).
  - by apply elem_of_nil in Hin.
  - cbn [Decode_loop].
    destruct (Ascii.eqb_spec b "0") as [->|Hb0].
    + apply elem_of_cons in Hin as [->|Hin]; [done|].
      destruct (isLeaf _); apply IH; by exists b'.
    + destruct (Ascii.eqb_spec b "1") as [->|Hb1]; [|done].
      apply elem_of_cons in Hin as [->|Hin]; [done|].
      destruct (isLeaf _); apply IH; by exists b'.
Qed.

Lemma Decode_not_bits t bits :
  (exists b, b ∈ bits /\ b <> "0"%char /\ b <> "1"%char) ->
  Decode t bits = Throws runtime_error.
Proof. apply Decode_loop_not_bits. Qed.

(** ** [selectTwoMin] picks the two lightest trees *)

(** Up to node [i], [r1] is a lightest node without a parent and [r2] a
    lightest one among the others; 0 stands for none. *)
Definition lightest (nodes : list HuffNode) (i : Z) (r : Z * Z) : Prop :=
  let free j := 1 <= j < i /\ parent (get nodes j) = 0 in
  (r.1 = 0 -> r.2 = 0 /\ forall j, ~ free j) /\
  (r.1 <> 0 -> free r.1 /\ forall j, free j -> weight (get nodes r.1) <= weight (get nodes j)) /\
  (r.2 = 0 -> forall j, free j -> j = r.1) /\
  (r.2 <> 0 -> r.1 <> 0 /\ free r.2 /\ r.2 <> r.1 /\
               weight (get nodes r.1) <= weight (get nodes r.2) /\
               forall j, free j -> j <> r.1 -> weight (get nodes r.2) <= weight (get nodes j)).

Lemma select_step_lightest nodes i r :
  1 <= i -> lightest nodes i r -> lightest nodes (i + 1) (select_step nodes i r).
Proof.
  intros Hi. destruct r as [r1 r2]. unfold lightest, select_step. cbn [fst snd].
  intros (HA & HB & HC & HD).
  assert (forall j, 1 <= j < i + 1 /\ parent (get nodes j) = 0 ->
                    j = i \/ (1 <= j < i /\ parent (get nodes j) = 0)) as Hsplit.
  { intros j [Hj Hp]. destruct (Z.eq_dec j i); [by left | right]. split; [lia | done]. }
  destruct (Z.eqb_spec (parent (get nodes i)) 0) as [Hp|Hp]; cbn [negb].
  2: { cbn [fst snd]. split; [|split; [|split]].
       - intros H1. destruct (HA H1) as [-> Hnone]. split; [done|].
         intros j Hj. destruct (Hsplit j Hj) as [->|Hj']; [by destruct Hj | by apply (Hnone j)].
       - intros H1. destruct (HB H1) as [[Hr Hpr] Hmin]. split; [split; [lia | done]|].
         intros j Hj. destruct (Hsplit j Hj) as [->|Hj']; [by destruct Hj | by apply Hmin].
       - intros H2 j Hj. destruct (Hsplit j Hj) as [->|Hj']; [by destruct Hj | by apply HC].
       - intros H2. destruct (HD H2) as (H1 & [Hr Hpr] & Hne & Hle & Hmin).
         split; [done|]. split; [split; [lia | done]|]. split; [done|]. split; [done|].
         intros j Hj Hj1. destruct (Hsplit j Hj) as [->|Hj']; [by destruct Hj | by apply Hmin]. }
  destruct (Z.eqb_spec r1 0) as [H1|H1]; cbn [orb].
  { destruct (HA H1) as [-> Hnone]. subst r1. cbn [fst snd].
    split; [lia|]. split; [|split; [|lia]].
    - intros _. split; [split; [lia | done]|].
      intros j Hj. destruct (Hsplit j Hj) as [->|Hj']; [lia | by destruct (Hnone j)].
    - intros _ j Hj. destruct (Hsplit j Hj) as [->|Hj']; [done | by destruct (Hnone j)]. }
  destruct (HB H1) as [[Hr1 Hpr1] Hmin1].
  destruct (Z.ltb_spec (weight (get nodes i)) (weight (get nodes r1))) as [Hlt|Hge].
  { cbn [fst snd]. split; [lia|]. split; [|split; [lia|]].
    - intros _. split; [split; [lia | done]|].
      intros j Hj. destruct (Hsplit j Hj) as [->|Hj']; [lia|].
      specialize (Hmin1 j Hj'). lia.
    - intros _. split; [lia|]. split; [split; [lia | done]|]. split; [lia|]. split; [lia|].
      intros j Hj Hji. destruct (Hsplit j Hj) as [->|Hj']; [done | by apply Hmin1]. }
  destruct (Z.eqb_spec r2 0) as [H2|H2]; cbn [orb].
  { subst r2. cbn [fst snd]. split; [lia|]. split; [|split; [lia|]].
    - intros _. split; [split; [lia | done]|].
      intros j Hj. destruct (Hsplit j Hj) as [->|Hj']; [lia | by apply Hmin1].
    - intros _. split; [done|]. split; [split; [lia | done]|]. split; [lia|]. split; [lia|].
      intros j Hj Hj1. destruct (Hsplit j Hj) as [->|Hj']; [lia|].
      destruct Hj1. by apply HC. }
  destruct (HD H2) as (_ & [Hr2 Hpr2] & Hne & Hle & Hmin2).
  destruct (Z.ltb_spec (weight (get nodes i)) (weight (get nodes r2))) as [Hlt|Hge2];
    cbn [fst snd].
  - split; [lia|]. split; [|split; [lia|]].
    + intros _. split; [split; [lia | done]|].
      intros j Hj. destruct (Hsplit j Hj) as [->|Hj']; [lia | by apply Hmin1].
    + intros _. split; [done|]. split; [split; [lia | done]|]. split; [lia|]. split; [lia|].
      intros j Hj Hj1. destruct (Hsplit j Hj) as [->|Hj']; [lia|].
      specialize (Hmin2 j Hj' Hj1). lia.
  - split; [lia|]. split; [|split; [lia|]].
    + intros _. split; [split; [lia | done]|].
      intros j Hj. destruct (Hsplit j Hj) as [->|Hj']; [lia | by apply Hmin1].
    + intros _. split; [done|]. split; [split; [lia | done]|]. split; [done|]. split; [done|].
      intros j Hj Hj1. destruct (Hsplit j Hj) as [->|Hj']; [lia | by apply Hmin2].
Qed.

Lemma selectTwoMin_lightest (nodes : list HuffNode) (cur : Z) :
  0 <= cur ->
  let free j := 1 <= j <= cur /\ parent (get nodes j) = 0 in
  match selectTwoMin nodes cur with
  | Returns (r1, r2) =>
      free r1 /\ free r2 /\ r1 <> r2 /\
      weight (get nodes r1) <= weight (get nodes r2) /\
      forall j, free j -> j <> r1 -> weight (get nodes r2) <= weight (get nodes j)
  | Throws e => e = runtime_error /\ forall a b, free a -> free b -> a = b
  | OutOfFuel => False
  end.
Proof.
  intros Hcur free. unfold selectTwoMin.
  pose proof (for_up_inv (lightest nodes) 1 (cur + 1) (select_step nodes) (0, 0)) as Hloop.
  destruct Hloop as (HA & HB & HC & HD); [lia | | |].
  { unfold lightest. cbn [fst snd]. repeat split; intros; lia. }
  { intros i r Hi. apply select_step_lightest. lia. }
  destruct (for_up 1 (cur + 1) (select_step nodes) (0, 0)) as [r1 r2]. cbn [fst snd] in *.
  assert (forall j, free j <-> 1 <= j < cur + 1 /\ parent (get nodes j) = 0) as Hfree.
  { intros j. unfold free. split; intros [? ?]; (split; [lia | done]). }
  destruct (Z.eqb_spec r1 0) as [H1|H1]; cbn [orb].
  { split; [done|]. intros a b Ha%Hfree _. by destruct (proj2 (HA H1) a). }
  destruct (Z.eqb_spec r2 0) as [H2|H2]; cbn [orb].
  { split; [done|]. intros a b Ha%Hfree Hb%Hfree.
    rewrite (HC H2 a Ha), (HC H2 b Hb). done. }
  destruct (HB H1) as [Hf1 Hmin1]. destruct (HD H2) as (_ & Hf2 & Hne & Hle & Hmin2).
  destruct (Z.gtb_spec (weight (get nodes r1)) (weight (get nodes r2))); [lia|].
  split; [by apply Hfree|]. split; [by apply Hfree|]. split; [done|]. split; [done|].
  intros j Hj%Hfree Hj1. by apply Hmin2.
Qed.

(** ** The weighted path length *)

(** A [long long]. *)
Definition wrap64s (z : Z) : Z := (z + 2 ^ 63) mod 2 ^ 64 - 2 ^ 63.

(** The [while] loop of [WPL]: the number of edges from [x] up to the root. *)
Fixpoint depth_loop (fuel : nat) (nodes : list HuffNode) (x depth : Z) : option Z :=
  match fuel with
  | O => None
  | S fuel' =>
      if negb (parent (get nodes x) =? 0)
      then depth_loop fuel' nodes (parent (get nodes x)) (wrap32 (depth + 1))
      else Some depth
  end.

Definition WPL_step (nodes : list HuffNode) (i : Z) (wpl : Z) : outcome Z :=
  match depth_loop (S (length nodes)) nodes i 0 with
  | Some depth => Returns (wrap64s (wpl + wrap64s (wrap64s (1 * weight (get nodes i)) * depth)))
  | None => OutOfFuel
  end.

(** [long long WPL() const] *)
Definition WPL (t : HuffmanTree) : outcome Z :=
  for_upE 1 (n t + 1) (WPL_step (nodes t)) 0.

Example WPL_demo :
  match create (chars_of "CAST") [2; 7; 4; 5] with
  | Returns t => WPL t
  | Throws e => Throws e
  | OutOfFuel => OutOfFuel
  end = Returns 35.
Proof. vm_compute. reflexivity. Qed.

Lemma wrap64s_small z : - 2 ^ 63 <= z < 2 ^ 63 -> wrap64s z = z.
Proof. intros Hz. unfold wrap64s. rewrite Z.mod_small; lia. Qed.

Lemma wrap64s_add a b : wrap64s (wrap64s a + b) = wrap64s (a + b).
Proof.
  unfold wrap64s. f_equal.
  replace ((a + 2 ^ 63) mod 2 ^ 64 - 2 ^ 63 + b + 2 ^ 63)
    with ((a + 2 ^ 63) mod 2 ^ 64 + b) by lia.
  rewrite Zplus_mod_idemp_l. f_equal. lia.
Qed.

Lemma wrap64s_add_r a b : wrap64s (a + wrap64s b) = wrap64s (a + b).
Proof. rewrite (Z.add_comm a), wrap64s_add. f_equal. lia. Qed.

Lemma wrap64s_mul a b : wrap64s (wrap64s a * b) = wrap64s (a * b).
Proof.
  unfold wrap64s. f_equal.
  replace (((a + 2 ^ 63) mod 2 ^ 64 - 2 ^ 63) * b + 2 ^ 63)
    with ((a + 2 ^ 63) mod 2 ^ 64 * b + (2 ^ 63 - 2 ^ 63 * b)) by lia.
  rewrite <- Zplus_mod_idemp_l, Zmult_mod_idemp_l, Zplus_mod_idemp_l. f_equal. lia.
Qed.

(** The sum of [f 0], ..., [f (k - 1)]. *)
Fixpoint sum_upto (f : Z -> Z) (k : nat) : Z :=
  match k with
  | O => 0
  | S k' => sum_upto f k' + f (Z.of_nat k')
  end.

Lemma sum_upto_ext (f g : Z -> Z) k :
  (forall j, 0 <= j < Z.of_nat k -> f j = g j) -> sum_upto f k = sum_upto g k.
Proof.
  induction k as [|k IH]; intros H; simpl; [done|].
  rewrite IH by (intros; apply H; lia). rewrite H by lia. done.
Qed.

(** Climbing never shortens the code, and takes at most as many steps as
    there are nodes above. *)
Lemma climb_length chars n nodes R :
  forest chars n (2 * n) nodes R ->
  forall fuel c code code',
    1 <= c < 2 * n ->
    climb fuel nodes c (parent (get nodes c)) code = Some code' ->
    len code <= len code' <= len code + (2 * n - 1 - c).
Proof.
  intros Hforest. induction fuel as [|fuel IH]; intros c code code' Hc; [done|].
  simpl. destruct (Z.eqb_spec (parent (get nodes c)) 0) as [Hp|Hp]; simpl.
  - intros [= <-]. lia.
  - intros Hclimb. destruct (f_parent _ _ _ _ _ Hforest c Hc Hp) as (Hlt & _).
    apply IH in Hclimb; [|lia]. rewrite len_app in Hclimb.
    change (len [_]) with 1 in Hclimb. lia.
Qed.

Lemma depth_loop_climb chars n nodes R :
  forest chars n (2 * n) nodes R ->
  forall fuel c code code' d,
    1 <= c < 2 * n ->
    climb fuel nodes c (parent (get nodes c)) code = Some code' ->
    0 <= d -> d + (2 * n - 1 - c) < 2 ^ 31 ->
    depth_loop fuel nodes c d = Some (d + (len code' - len code)).
Proof.
  intros Hforest. induction fuel as [|fuel IH]; intros c code code' d Hc; [done|].
  simpl. destruct (Z.eqb_spec (parent (get nodes c)) 0) as [Hp|Hp]; simpl.
  - intros [= <-] _ _. f_equal. lia.
  - intros Hclimb Hd Hbound.
    destruct (f_parent _ _ _ _ _ Hforest c Hc Hp) as (Hlt & _).
    rewrite wrap32_small by lia.
    assert (1 <= parent (get nodes c) < 2 * n) as Hpc by lia.
    rewrite (IH _ _ _ _ Hpc Hclimb) by lia.
    f_equal. rewrite len_app. change (len [_]) with 1. lia.
Qed.

(** [merge_step] leaves the weights of the nodes made before alone. *)
Lemma merge_step_weight k nodes nodes' :
  1 <= k < len nodes -> merge_step k nodes = Returns nodes' ->
  forall j, 0 <= j -> j <> k -> weight (get nodes' j) = weight (get nodes j).
Proof.
  intros Hk. unfold merge_step.
  pose proof (selectTwoMin_lightest nodes (k - 1) ltac:(lia)) as Hsel. cbn zeta in Hsel.
  destruct (selectTwoMin nodes (k - 1)) as [[r1 r2]|e|]; [|done|done].
  destruct Hsel as ([Hr1 _] & [Hr2 _] & Hne & _).
  intros [= <-] j Hj Hjk.
  rewrite !get_set by (rewrite ?len_set; lia).
  destruct (Z.eq_dec k j); [lia|].
  destruct (Z.eq_dec r1 j) as [->|?]; [|destruct (Z.eq_dec r2 j) as [->|?]]; simpl; try done.
  destruct (Z.eq_dec r2 j); [lia | done].
Qed.

Lemma build_weights (chars : list ascii) (weights : list Z) nodes n0 leafIndex :
  len chars = len weights -> 1 <= len chars < 2 ^ 30 ->
  build chars weights = Returns (nodes, n0, leafIndex) ->
  forall i, 1 <= i <= len chars -> weight (get nodes i) = get weights (i - 1).
Proof.
  intros Hsame Hn. unfold build. rewrite <- Hsame, Z.eqb_refl.
  destruct (Z.eqb_spec (len chars) 0) as [|_]; [lia|]. simpl.
  rewrite (wrap32_small (len chars)) by lia.
  rewrite (wrap32_small (2 * len chars - 1)) by lia.
  rewrite (wrap32_small (2 * len chars - 1 + 1)) by lia.
  destruct (Z.ltb_spec (2 * len chars - 1 + 1) 0) as [|_]; [lia|].
  set (n := len chars) in *.
  replace (2 * n - 1 + 1) with (2 * n) by lia.
  pose proof (for_up_inv
    (fun i (s : list HuffNode * gmap ascii Z) =>
       len s.1 = 2 * n /\ forall j, 1 <= j < i -> weight (get s.1 j) = get weights (j - 1))
    1 (n + 1) (leaf_step chars weights)
    (replicate (Z.to_nat (2 * n)) HuffNode0, ∅)) as Hleaves.
  destruct Hleaves as [Hlen0 Hw0]; [lia | | |].
  { simpl. split; [unfold len; rewrite length_replicate; lia | intros; lia]. }
  { intros i [nodes1 li] Hi [Hlen Hw]. unfold leaf_step. simpl in *.
    rewrite len_set. split; [done|]. intros j Hj. rewrite get_set by lia.
    destruct (Z.eq_dec i j) as [<-|Hne]; [done|]. apply Hw. lia. }
  destruct (for_up 1 (n + 1) (leaf_step chars weights) _) as [nodes0 leafIndex0].
  simpl in Hlen0, Hw0.
  destruct (for_upE_cases
              (fun (k : Z) nodes1 =>
                 len nodes1 = 2 * n /\
                 forall j, 1 <= j <= n -> weight (get nodes1 j) = get weights (j - 1))
              (fun _ => True) (n + 1) (2 * n) merge_step nodes0)
    as [(nodes1 & -> & Hlen1 & Hw1)|(e & -> & _)]; [lia | | | | done].
  - split; [done|]. intros j Hj. apply Hw0. lia.
  - intros k nodes1 Hk [Hlen1 Hw1].
    destruct (merge_step k nodes1) as [nodes2|e|] eqn:Hstep.
    + left. exists nodes2. split; [done|].
      pose proof (merge_step_weight k nodes1 nodes2 ltac:(lia) Hstep) as Hkeep. split.
      * unfold merge_step in Hstep.
        destruct (selectTwoMin nodes1 (k - 1)) as [[r1 r2]|e|]; [|done|done].
        injection Hstep as <-. by rewrite !len_set.
      * intros j Hj. rewrite Hkeep by lia. by apply Hw1.
    + right. by exists e.
    + unfold merge_step in Hstep.
      pose proof (selectTwoMin_lightest nodes1 (k - 1) ltac:(lia)) as Hsel.
      destruct (selectTwoMin nodes1 (k - 1)) as [[r1 r2]|e|]; done.
  - intros [= <- _ _]. done.
Qed.

(** With characters all different, every leaf's character has the code
    of that leaf, as long as the leaf is deep. *)
Lemma codes_depth chars n nodes R :
  2 <= n < 2 ^ 30 -> len chars = n -> NoDup chars -> forest chars n (2 * n) nodes R ->
  exists codeOf,
    buildCodes nodes n = Returns codeOf /\
    forall i, 1 <= i <= n ->
      exists code, codeOf !! get chars (i - 1) = Some code /\ len code <= 2 * n /\
                   depth_loop (S (length nodes)) nodes i 0 = Some (len code).
Proof.
  intros Hn Hchars Hnodup Hforest. unfold buildCodes.
  pose proof (f_len _ _ _ _ _ Hforest) as Hlen. unfold len in Hlen.
  destruct (for_upE_inv
    (fun j (codeOf : gmap ascii (list ascii)) =>
       forall i, 1 <= i < j ->
         exists code, codeOf !! get chars (i - 1) = Some code /\ len code <= 2 * n /\
                      depth_loop (S (length nodes)) nodes i 0 = Some (len code))
    1 (n + 1) (code_step nodes) ∅) as (codeOf & -> & Hcodes); [lia | intros; lia | |].
  - intros j codeOf Hj Hinv. unfold code_step.
    destruct (climb_spec chars n nodes R j ltac:(lia) Hforest (S (length nodes)) j [])
      as (code' & Hclimb & Hdesc); [lia | lia | apply descends_here |].
    rewrite Hclimb.
    assert (reverse code' <> []) as Hne.
    { intros He. rewrite He in Hdesc. inversion Hdesc. lia. }
    rewrite bool_decide_eq_false_2 by done.
    destruct (f_leaf _ _ _ _ _ Hforest j ltac:(lia)) as [_ Hch]. rewrite Hch.
    eexists. split; [done|]. intros i Hi.
    destruct (Z.eq_dec i j) as [->|Hij].
    + exists (reverse code'). rewrite lookup_insert_eq. split; [done|].
      pose proof (climb_length chars n nodes R Hforest _ j [] code' ltac:(lia) Hclimb) as Hcl.
      change (len []) with 0 in Hcl.
      assert (len (reverse code') = len code') as -> by (unfold len; by rewrite length_reverse).
      split; [lia|].
      rewrite (depth_loop_climb chars n nodes R Hforest _ j [] code' 0 ltac:(lia) Hclimb)
        by lia.
      f_equal. change (len []) with 0. lia.
    + rewrite lookup_insert_ne; [apply Hinv; lia|].
      intros Heq. apply Hij.
      assert (Z.to_nat (j - 1) = Z.to_nat (i - 1)) as Hidx; [|lia].
      apply (NoDup_lookup chars _ _ (get chars (j - 1)) Hnodup).
      * apply lookup_get. lia.
      * rewrite Heq. apply lookup_get. lia.
  - exists codeOf. split; [done|]. intros i Hi. apply Hcodes. lia.
Qed.

(** The length of the code of a character. *)
Definition code_len (t : HuffmanTree) (c : ascii) : Z := len (default [] (codeOf t !! c)).

Lemma WPL_spec (chars : list ascii) (weights : list Z) :
  len chars = len weights -> 2 <= len chars < 2 ^ 30 -> NoDup chars ->
  exists t,
    create chars weights = Returns t /\
    (forall c, c ∈ chars -> 0 <= code_len t c <= 2 * len chars) /\
    WPL t = Returns (wrap64s (sum_upto (fun k => get weights k * code_len t (get chars k))
                                        (length chars))).
Proof.
  intros Hsame Hn Hnodup. unfold create.
  destruct (build_forest chars weights Hsame) as (nodes & leafIndex & R & Hbuild & Hforest);
    [lia|].
  pose proof (build_weights chars weights _ _ _ Hsame ltac:(lia) Hbuild) as Hweights.
  rewrite Hbuild.
  destruct (codes_depth chars (len chars) nodes R Hn eq_refl Hnodup Hforest)
    as (codes & -> & Hcodes).
  eexists. split; [done|].
  set (t := {| nodes := nodes; n := len chars; leafIndex := leafIndex; codeOf := codes |}).
  split.
  { intros c (k & Hk & <-)%elem_of_get.
    destruct (Hcodes (k + 1) ltac:(lia)) as (code & Hcode & Hle & _).
    replace (k + 1 - 1) with k in Hcode by lia.
    unfold code_len. cbn [codeOf t]. rewrite Hcode. simpl.
    pose proof (len_nonneg code). lia. }
  unfold WPL. cbn [Huffman.n Huffman.nodes t].
  destruct (for_upE_inv
    (fun i wpl =>
       wpl = wrap64s (sum_upto (fun k => get weights k * code_len t (get chars k))
                               (Z.to_nat (i - 1))))
    1 (len chars + 1) (WPL_step nodes) 0) as (wpl & -> & ->); [lia | done | |].
  - intros i wpl Hi ->. unfold WPL_step.
    destruct (Hcodes i ltac:(lia)) as (code & Hcode & _ & ->).
    eexists. split; [done|].
    replace (Z.to_nat (i + 1 - 1)) with (S (Z.to_nat (i - 1))) by lia.
    cbn [sum_upto]. replace (Z.of_nat (Z.to_nat (i - 1))) with (i - 1) by lia.
    assert (code_len t (get chars (i - 1)) = len code) as ->
      by (unfold code_len; cbn [codeOf t]; by rewrite Hcode).
    rewrite Hweights by lia.
    rewrite wrap64s_add, wrap64s_mul, wrap64s_add_r. f_equal.
    rewrite Z.mul_1_l. done.
  - f_equal. f_equal. f_equal. unfold len. lia.
Qed.

(** ** The weighted path length is the length of the encoded text *)

(** How often [c] occurs in [text]. *)
Definition occurrences (c : ascii) (text : list ascii) : Z :=
  len (filter (fun x => x = c) text).

Definition text_len (t : HuffmanTree) (text : list ascii) : Z :=
  foldr (fun c acc => code_len t c + acc) 0 text.

Lemma sum_upto_add (f g : Z -> Z) k :
  sum_upto (fun j => f j + g j) k = sum_upto f k + sum_upto g k.
Proof. induction k as [|k IH]; simpl; [done|]. rewrite IH. lia. Qed.

Lemma sum_upto_zero k : sum_upto (fun _ => 0) k = 0.
Proof. induction k as [|k IH]; simpl; [done|]. rewrite IH. done. Qed.

(** Summing over the indices at which [chars] holds [c] picks one term. *)
Lemma sum_upto_pick (chars : list ascii) (g : ascii -> Z) c m :
  NoDup chars -> (m <= length chars)%nat ->
  sum_upto (fun k => if decide (get chars k = c) then g (get chars k) else 0) m
  = if decide (c ∈ take m chars) then g c else 0.
Proof.
  intros Hnodup. induction m as [|m IH]; intros Hm.
  - simpl. destruct (decide (c ∈ [])) as [Hin|]; [by apply elem_of_nil in Hin | done].
  - cbn [sum_upto]. rewrite IH by lia.
    assert (chars !! m = Some (get chars (Z.of_nat m))) as Hlook.
    { rewrite <- (Nat2Z.id m) at 1. apply lookup_get. unfold len. lia. }
    rewrite (take_S_r _ _ _ Hlook).
    destruct (decide (get chars (Z.of_nat m) = c)) as [Heq|Hne].
    + rewrite Heq. destruct (decide (c ∈ take m chars)) as [Hin|Hnin].
      * exfalso. apply list_elem_of_lookup in Hin as [k Hk].
        pose proof (lookup_lt_Some _ _ _ Hk) as Hlt. rewrite length_take in Hlt.
        rewrite lookup_take_lt in Hk by lia. rewrite <- Heq in Hk.
        pose proof (NoDup_lookup _ _ _ _ Hnodup Hk Hlook). lia.
      * destruct (decide (c ∈ take m chars ++ [c])) as [|Hn]; [lia|].
        destruct Hn. apply elem_of_app. right. by apply list_elem_of_singleton.
    + destruct (decide (c ∈ take m chars)) as [Hin|Hnin].
      * destruct (decide (c ∈ take m chars ++ [get chars (Z.of_nat m)])) as [|Hn]; [lia|].
        destruct Hn. apply elem_of_app. by left.
      * destruct (decide (c ∈ take m chars ++ [get chars (Z.of_nat m)])) as [Hin'|]; [|lia].
        apply elem_of_app in Hin' as [?|Hl%list_elem_of_singleton]; [done | congruence].
Qed.

Lemma text_len_grouped (t : HuffmanTree) (chars text : list ascii) :
  NoDup chars -> (forall c, c ∈ text -> c ∈ chars) ->
  text_len t text
  = sum_upto (fun k => occurrences (get chars k) text * code_len t (get chars k))
             (length chars).
Proof.
  intros Hnodup. induction text as [|c text IH]; intros Htext.
  - simpl. rewrite <- (sum_upto_zero (length chars)). apply sum_upto_ext.
    intros j _. unfold occurrences. by rewrite filter_nil.
  - cbn [text_len foldr]. fold (text_len t text).
    rewrite IH by (intros c' Hc'; apply Htext; by right).
    pose proof (sum_upto_pick chars (code_len t) c (length chars) Hnodup (le_n _)) as Hpick.
    rewrite firstn_all in Hpick.
    destruct (decide (c ∈ chars)) as [_|Hn]; [|destruct Hn; apply Htext; by left].
    rewrite <- Hpick, <- sum_upto_add. apply sum_upto_ext.
    intros j _. unfold occurrences. rewrite filter_cons.
    destruct (decide (get chars j = c)) as [->|Hne].
    + rewrite decide_True by done. unfold len. simpl. lia.
    + rewrite decide_False by congruence. lia.
Qed.

Lemma EncodeString_length (t : HuffmanTree) (text : list ascii) :
  (forall c, c ∈ text -> is_Some (codeOf t !! c)) ->
  exists bits, EncodeString t text = Returns bits /\ len bits = text_len t text.
Proof.
  intros Htext. unfold EncodeString.
  assert (forall out, exists bits,
            EncodeString_loop t text out = Returns (out ++ bits) /\
            len bits = text_len t text) as Hgen.
  { induction text as [|c text IH]; intros out.
    - exists []. by rewrite app_nil_r.
    - destruct (Htext c ltac:(by left)) as [code Hcode].
      destruct (IH (fun c' Hc' => Htext c' (list_elem_of_further _ _ _ Hc')) (out ++ code))
        as (bits & Hrun & Hlen).
      exists (code ++ bits). cbn [EncodeString_loop]. unfold Encode. rewrite Hcode, Hrun.
      split; [by rewrite app_assoc|].
      rewrite len_app, Hlen. cbn [text_len foldr]. unfold code_len at 1.
      by rewrite Hcode. }
  destruct (Hgen []) as (bits & Hrun & Hlen). by exists bits.
Qed.

Lemma text_len_bound (t : HuffmanTree) (text : list ascii) (b : Z) :
  (forall c, c ∈ text -> 0 <= code_len t c <= b) -> 0 <= text_len t text <= len text * b.
Proof.
  induction text as [|c text IH]; intros Hb; [simpl; unfold len; simpl; lia|].
  cbn [text_len foldr]. fold (text_len t text).
  pose proof (Hb c ltac:(by left)).
  pose proof (IH (fun c' Hc' => Hb c' (list_elem_of_further _ _ _ Hc'))).
  change (c :: text) with ([c] ++ text). rewrite len_app. change (len [c]) with 1. lia.
Qed.

(** When the weights are the numbers of occurrences of the characters in
    a text, [WPL] is the number of bits of the encoded text. *)
Lemma WPL_encoded_length (chars : list ascii) (weights : list Z) (text : list ascii) :
  len chars = len weights -> 2 <= len chars < 2 ^ 30 -> NoDup chars ->
  len text < 2 ^ 31 ->
  (forall c, c ∈ text -> c ∈ chars) ->
  (forall k, 0 <= k < len chars -> get weights k = occurrences (get chars k) text) ->
  exists t bits,
    create chars weights = Returns t /\
    EncodeString t text = Returns bits /\
    WPL t = Returns (len bits).
Proof.
  intros Hsame Hn Hnodup Hshort Htext Hfreq.
  destruct (WPL_spec chars weights Hsame Hn Hnodup) as (t & Ht & Hbound & Hwpl).
  destruct (create_codes chars weights Hsame Hn) as (t' & Ht' & Hdom & _).
  assert (t' = t) as -> by congruence.
  destruct (EncodeString_length t text) as (bits & Hbits & Hlen).
  { intros c Hc. apply Hdom. by apply Htext. }
  exists t, bits. split; [done|]. split; [done|].
  rewrite Hwpl, Hlen. f_equal.
  rewrite (text_len_grouped t chars text Hnodup Htext).
  rewrite (sum_upto_ext _ (fun k => occurrences (get chars k) text * code_len t (get chars k)))
    by (intros j Hj; rewrite Hfreq by (unfold len; lia); done).
  rewrite <- (text_len_grouped t chars text Hnodup Htext).
  apply wrap64s_small.
  pose proof (text_len_bound t text (2 * len chars)
                (fun c Hc => Hbound c (Htext c Hc))) as Hb.
  pose proof (len_nonneg text). nia.
Qed.
(** Distinct characters are 256 at most. *)
Lemma NoDup_ascii_length (chars : list ascii) : NoDup chars -> len chars <= 256.
Proof.
  intros Hnodup.
  assert (NoDup (nat_of_ascii <$> chars)) as Hcodes.
  { apply NoDup_fmap_2; [|done]. intros a b Hab.
    by rewrite <- (ascii_nat_embedding a), <- (ascii_nat_embedding b), Hab. }
  assert ((nat_of_ascii <$> chars) ⊆+ seq 0 256) as Hsub.
  { apply NoDup_submseteq; [done|]. intros x (a & -> & _)%list_elem_of_fmap.
    apply elem_of_seq. pose proof (nat_ascii_bounded a). lia. }
  apply submseteq_length in Hsub. rewrite length_fmap, length_seq in Hsub.
  unfold len. lia.
Qed.

(** The tree of one character: its leaf is the root, at depth 0, so
    [WPL] is 0 whatever the weight, while [buildCodes] gives the leaf the
    code 0 and every character of a text takes one bit. *)
Lemma WPL_single (c : ascii) (w : Z) (text : list ascii) :
  (forall x, x ∈ text -> x = c) ->
  exists bits,
    EncodeString (single c w) text = Returns bits /\ len bits = len text /\
    WPL (single c w) = Returns 0.
Proof.
  intros Htext.
  destruct (EncodeString_length (single c w) text) as (bits & Hbits & Hlen).
  { intros x Hx. rewrite (Htext x Hx). cbn [single codeOf]. by rewrite lookup_insert_eq. }
  exists bits. split; [done|]. split.
  - rewrite Hlen. clear Hbits Hlen. induction text as [|x text IH]; [done|].
    cbn [text_len foldr]. fold (text_len (single c w) text).
    rewrite IH by (intros y Hy; apply Htext; by right).
    rewrite (Htext x ltac:(by left)).
    assert (code_len (single c w) c = 1) as ->
      by (unfold code_len; cbn [single codeOf]; by rewrite lookup_insert_eq).
    rewrite len_cons. done.
  - unfold WPL. cbn [single n nodes]. unfold for_upE.
    change (Z.to_nat (1 + 1 - 1)) with 1%nat. cbn [for_iterE].
    unfold WPL_step. change (depth_loop _ _ 1 0) with (Some 0).
    cbn [get]. by rewrite Z.mul_0_r.
Qed.
End Huffman.

(* ================================================================== *)
(** * 数组/矩阵/矩阵.cpp : the dense and the compressed matrices          *)
(* ================================================================== *)

Module Dense.
(** What a read or a write through a returned reference does, given the
    offset the operator computed or the exception it threw. *)
Definition load (buf : list Z) (pos : outcome Z) : outcome Z :=
  match pos with
  | Returns p => Returns (get buf p)
  | Throws e => Throws e
  | OutOfFuel => OutOfFuel
  end.

Definition store (buf : list Z) (pos : outcome Z) (v : Z) : outcome (list Z) :=
  match pos with
  | Returns p => Returns (set buf p v)
  | Throws e => Throws e
  | OutOfFuel => OutOfFuel
  end.

(** [std::vector<ElemType> buf(count, init)] for an [int] count: a
    negative count becomes a size above [max_size()], and the constructor
    throws [std::length_error], which is a [std::logic_error]. *)
Definition vector_new (count init : Z) : outcome (list Z) :=
  if count <? 0 then Throws logic_error else Returns (replicate (Z.to_nat count) init).

(** ** [class Matrix<int>] *)
Record Matrix : Type := { rows : Z; cols : Z; buf : list Z }.

(** [Matrix(int r = 0, int c = 0, const ElemType &init = ElemType{})] *)
Definition Matrix_new (r c init : Z) : outcome Matrix :=
  match vector_new (wrap32 (r * c)) init with
  | Returns b => Returns {| rows := r; cols := c; buf := b |}
  | Throws e => Throws e
  | OutOfFuel => OutOfFuel
  end.

(** [int pos_(int i, int j) const] *)
Definition pos_ (m : Matrix) (i j : Z) : outcome Z :=
  if (i <? 1) || (i >? rows m) || (j <? 1) || (j >? cols m) then Throws out_of_range
  else Returns (wrap32 (wrap32 ((i - 1) * cols m) + (j - 1))).

(** [A(i, j)] read, and [A(i, j) = v]. *)
Definition Matrix_get (m : Matrix) (i j : Z) : outcome Z := load (buf m) (pos_ m i j).

Definition Matrix_set (m : Matrix) (i j v : Z) : outcome Matrix :=
  match store (buf m) (pos_ m i j) v with
  | Returns b => Returns {| rows := rows m; cols := cols m; buf := b |}
  | Throws e => Throws e
  | OutOfFuel => OutOfFuel
  end.

(** [void FillSequence(ElemType base = ElemType{})] *)
Definition fill_cell (base : Z) (i j : Z) (m : Matrix) : outcome Matrix :=
  Matrix_set m i j (wrap32 (base + wrap32 (wrap32 ((i - 1) * cols m) + (j - 1)))).

Definition fill_row (base : Z) (i : Z) (m : Matrix) : outcome Matrix :=
  for_upE 1 (cols m + 1) (fill_cell base i) m.

Definition FillSequence (base : Z) (m : Matrix) : outcome Matrix :=
  for_upE 1 (rows m + 1) (fill_row base) m.

(** ** [class SymmetricMatrix<int>] *)
Record SymmetricMatrix : Type := { sym_n : Z; sym_buf : list Z }.

(** [SymmetricMatrix(int n_, const ElemType &init = ElemType{})] *)
Definition SymmetricMatrix_new (n init : Z) : outcome SymmetricMatrix :=
  match vector_new (Z.quot (wrap32 (n * wrap32 (n + 1))) 2) init with
  | Returns b => Returns {| sym_n := n; sym_buf := b |}
  | Throws e => Throws e
  | OutOfFuel => OutOfFuel
  end.

(** [static int lower_index_(int i, int j, int n)] *)
Definition lower_index_ (i j n : Z) : outcome Z :=
  if (i <? 1) || (i >? n) || (j <? 1) || (j >? n) then Throws out_of_range
  else
    let '(i, j) := if i <? j then (j, i) else (i, j) in
    Returns (wrap32 (Z.quot (wrap32 (i * wrap32 (i - 1))) 2 + wrap32 (j - 1))).

Definition Symmetric_get (s : SymmetricMatrix) (i j : Z) : outcome Z :=
  load (sym_buf s) (lower_index_ i j (sym_n s)).

Definition Symmetric_set (s : SymmetricMatrix) (i j v : Z) : outcome SymmetricMatrix :=
  match store (sym_buf s) (lower_index_ i j (sym_n s)) v with
  | Returns b => Returns {| sym_n := sym_n s; sym_buf := b |}
  | Throws e => Throws e
  | OutOfFuel => OutOfFuel
  end.

(** ** [class TriangularMatrix<int>] *)
Record TriangularMatrix : Type := { tri_n : Z; upper : bool; tri_buf : list Z }.

(** [TriangularMatrix(int n_, bool upper_ = false, const ElemType &init)] *)
Definition TriangularMatrix_new (n : Z) (up : bool) (init : Z) : outcome TriangularMatrix :=
  match vector_new (Z.quot (wrap32 (n * wrap32 (n + 1))) 2) init with
  | Returns b => Returns {| tri_n := n; upper := up; tri_buf := b |}
  | Throws e => Throws e
  | OutOfFuel => OutOfFuel
  end.

(** The offset of a stored cell: [(i*(i-1))/2 + (j-1)]. *)
Definition tri_offset (i j : Z) : Z :=
  wrap32 (Z.quot (wrap32 (i * wrap32 (i - 1))) 2 + wrap32 (j - 1)).

(** [int index_(int i, int j) const] of the triangular matrix. *)
Definition tri_index_ (t : TriangularMatrix) (i j : Z) : outcome Z :=
  if (i <? 1) || (i >? tri_n t) || (j <? 1) || (j >? tri_n t) then Throws out_of_range
  else if negb (upper t) then
    if i <? j then Throws logic_error else Returns (tri_offset i j)
  else
    if j <? i then Throws logic_error else Returns (tri_offset j i).

(** [void set(int i, int j, const ElemType &v)] *)
Definition Triangular_set (t : TriangularMatrix) (i j v : Z) : outcome TriangularMatrix :=
  match store (tri_buf t) (tri_index_ t i j) v with
  | Returns b => Returns {| tri_n := tri_n t; upper := upper t; tri_buf := b |}
  | Throws e => Throws e
  | OutOfFuel => OutOfFuel
  end.

(** [ElemType get(int i, int j) const] *)
Definition Triangular_get (t : TriangularMatrix) (i j : Z) : outcome Z :=
  if (i <? 1) || (i >? tri_n t) || (j <? 1) || (j >? tri_n t) then Throws out_of_range
  else if negb (upper t) then
    if i <? j then Returns 0 else Returns (get (tri_buf t) (tri_offset i j))
  else
    if j <? i then Returns 0 else Returns (get (tri_buf t) (tri_offset j i)).

(** ** [class TridiagonalMatrix<int>] *)
Record TridiagonalMatrix : Type := { td_n : Z; td_buf : list Z }.

(** [explicit TridiagonalMatrix(int n_, const ElemType &init)] *)
Definition TridiagonalMatrix_new (n init : Z) : outcome TridiagonalMatrix :=
  match vector_new (if n >=? 1 then wrap32 (wrap32 (3 * n) - 2) else 0) init with
  | Returns b => Returns {| td_n := n; td_buf := b |}
  | Throws e => Throws e
  | OutOfFuel => OutOfFuel
  end.

(** The offset of a cell of the band, as [index_] and [get] compute it. *)
Definition td_offset (n i j : Z) : Z :=
  if i =? 1 then wrap32 (j - 1)
  else if i =? n then wrap32 (wrap32 (wrap32 (3 * n) - 4) + wrap32 (j - wrap32 (n - 1)))
  else wrap32 (wrap32 (wrap32 (3 * i) - 4) + wrap32 (j - wrap32 (i - 1))).

(** [int index_(int i, int j) const] of the tridiagonal matrix. *)
Definition td_index_ (t : TridiagonalMatrix) (i j : Z) : outcome Z :=
  if (i <? 1) || (i >? td_n t) || (j <? 1) || (j >? td_n t) then Throws out_of_range
  else if Z.abs (wrap32 (i - j)) >? 1 then Throws logic_error
  else Returns (td_offset (td_n t) i j).

(** [TD.at(i, j) = v] *)
Definition Tridiagonal_set (t : TridiagonalMatrix) (i j v : Z) : outcome TridiagonalMatrix :=
  match store (td_buf t) (td_index_ t i j) v with
  | Returns b => Returns {| td_n := td_n t; td_buf := b |}
  | Throws e => Throws e
  | OutOfFuel => OutOfFuel
  end.

(** [ElemType get(int i, int j) const] *)
Definition Tridiagonal_get (t : TridiagonalMatrix) (i j : Z) : outcome Z :=
  if (i <? 1) || (i >? td_n t) || (j <? 1) || (j >? td_n t) then Throws out_of_range
  else if Z.abs (wrap32 (i - j)) >? 1 then Returns 0
  else Returns (get (td_buf t) (td_offset (td_n t) i j)).

(** As in [main]: what is written at (2, 4) is read at (4, 2). *)
Example Symmetric_demo :
  match SymmetricMatrix_new 4 0 with
  | Returns s =>
      match Symmetric_set s 2 4 24 with
      | Returns s => Some (Symmetric_get s 4 2, Symmetric_get s 2 4, Symmetric_get s 5 1)
      | _ => None
      end
  | _ => None
  end = Some (Returns 24, Returns 24, Throws out_of_range).
Proof. vm_compute. reflexivity. Qed.

(** ** The dense matrix: checked, row-major, no two cells share a slot *)
Definition Matrix_ok (m : Matrix) : Prop :=
  0 <= rows m /\ 0 <= cols m /\ rows m * cols m <= INT_MAX /\
  len (buf m) = rows m * cols m.

Definition in_matrix (m : Matrix) (i j : Z) : Prop :=
  1 <= i <= rows m /\ 1 <= j <= cols m.

Lemma pos_out m i j : ~ in_matrix m i j -> pos_ m i j = Throws out_of_range.
Proof.
  unfold in_matrix, pos_. intros H.
  destruct (Z.ltb_spec i 1); [done|]. destruct (Z.gtb_spec i (rows m)); [done|].
  destruct (Z.ltb_spec j 1); [done|]. destruct (Z.gtb_spec j (cols m)); [done|].
  lia.
Qed.

Lemma pos_in m i j :
  Matrix_ok m -> in_matrix m i j ->
  pos_ m i j = Returns ((i - 1) * cols m + (j - 1)) /\
  0 <= (i - 1) * cols m + (j - 1) < len (buf m).
Proof.
  unfold in_matrix, pos_, Matrix_ok, INT_MAX. intros (Hr & Hc & Hrc & Hlen) [Hi Hj].
  destruct (Z.ltb_spec i 1); [lia|]. destruct (Z.gtb_spec i (rows m)); [lia|].
  destruct (Z.ltb_spec j 1); [lia|]. destruct (Z.gtb_spec j (cols m)); [lia|].
  simpl.
  assert (0 <= (i - 1) * cols m) by nia.
  assert ((i - 1) * cols m + cols m <= rows m * cols m) by nia.
  rewrite (wrap32_small ((i - 1) * cols m)) by lia.
  rewrite wrap32_small by lia. split; [done | lia].
Qed.

Lemma pos_inj m i j i' j' :
  in_matrix m i j -> in_matrix m i' j' ->
  (i - 1) * cols m + (j - 1) = (i' - 1) * cols m + (j' - 1) -> i = i' /\ j = j'.
Proof.
  unfold in_matrix. intros [Hi Hj] [Hi' Hj'] Heq.
  assert (i = i') as ->.
  { destruct (Z.lt_trichotomy i i') as [Hlt|[->|Hlt]]; [exfalso | done | exfalso].
    - assert ((i - 1) * cols m + cols m <= (i' - 1) * cols m) by nia. lia.
    - assert ((i' - 1) * cols m + cols m <= (i - 1) * cols m) by nia. lia. }
  split; [done | lia].
Qed.

Lemma in_matrix_dec m i j : {in_matrix m i j} + {~ in_matrix m i j}.
Proof.
  unfold in_matrix.
  destruct (Z_le_dec 1 i), (Z_le_dec i (rows m)), (Z_le_dec 1 j), (Z_le_dec j (cols m));
    (left; lia) || (right; lia).
Qed.

Lemma Matrix_new_ok r c init :
  0 <= r -> 0 <= c -> r * c <= INT_MAX ->
  exists m, Matrix_new r c init = Returns m /\ Matrix_ok m /\ rows m = r /\ cols m = c /\
    forall i j, in_matrix m i j -> Matrix_get m i j = Returns init.
Proof.
  intros Hr Hc Hrc. unfold Matrix_new, vector_new.
  assert (0 <= r * c) by nia.
  rewrite wrap32_small by (unfold INT_MAX in Hrc; lia).
  destruct (Z.ltb_spec (r * c) 0); [lia|].
  eexists. split; [done|].
  assert (Matrix_ok {| rows := r; cols := c; buf := replicate (Z.to_nat (r * c)) init |}) as Hok.
  { unfold Matrix_ok, len. simpl. rewrite length_replicate. lia. }
  split; [done|]. split; [done|]. split; [done|].
  intros i j Hin. unfold Matrix_get.
  destruct (pos_in _ i j Hok Hin) as [-> Hb]. simpl in *.
  unfold get. f_equal. apply lookup_total_replicate_2.
  unfold len in Hb. rewrite length_replicate in Hb. lia.
Qed.

Lemma Matrix_set_out m i j v : ~ in_matrix m i j -> Matrix_set m i j v = Throws out_of_range.
Proof. intros H. unfold Matrix_set. by rewrite pos_out. Qed.

Lemma Matrix_set_in m i j v :
  Matrix_ok m -> in_matrix m i j ->
  exists m', Matrix_set m i j v = Returns m' /\ Matrix_ok m' /\
    rows m' = rows m /\ cols m' = cols m /\
    buf m' = set (buf m) ((i - 1) * cols m + (j - 1)) v /\
    forall i' j', Matrix_get m' i' j'
      = if (i' =? i) && (j' =? j) then Returns v else Matrix_get m i' j'.
Proof.
  intros Hok Hin. unfold Matrix_set.
  destruct (pos_in m i j Hok Hin) as [Hpos Hb]. rewrite Hpos. simpl.
  eexists. split; [done|].
  assert (Matrix_ok {| rows := rows m; cols := cols m;
                      buf := set (buf m) ((i - 1) * cols m + (j - 1)) v |}) as Hok'.
  { destruct Hok as (? & ? & ? & ?). unfold Matrix_ok. simpl. by rewrite len_set. }
  split; [done|]. split; [done|]. split; [done|]. split; [done|].
  intros i' j'. unfold Matrix_get.
  destruct (in_matrix_dec m i' j') as [Hin'|Hout].
  - destruct (pos_in m i' j' Hok Hin') as [Hpos' Hb']. rewrite Hpos'.
    destruct (pos_in _ i' j' Hok' Hin') as [Hpos'' _]. rewrite Hpos''. simpl.
    rewrite get_set by lia.
    destruct (Z.eq_dec _ _) as [Heq|Hne].
    + destruct (pos_inj m i j i' j' Hin Hin' Heq) as [-> ->]. by rewrite !Z.eqb_refl.
    + destruct (Z.eqb_spec i' i) as [->|]; [|done].
      destruct (Z.eqb_spec j' j) as [->|]; [lia | done].
  - rewrite (pos_out m) by done. rewrite pos_out by done. simpl.
    destruct (Z.eqb_spec i' i) as [->|]; [|done].
    destruct (Z.eqb_spec j' j) as [->|]; [done | done].
Qed.

(** ** [FillSequence] numbers the cells in row-major order *)
Definition filled (base : Z) (m m' : Matrix) (k : Z) : Prop :=
  Matrix_ok m' /\ rows m' = rows m /\ cols m' = cols m /\
  forall p, 0 <= p < k -> get (buf m') p = wrap32 (base + p).

Lemma fill_row_spec base m i m1 :
  Matrix_ok m -> 1 <= i <= rows m ->
  filled base m m1 ((i - 1) * cols m) ->
  exists m2, fill_row base i m1 = Returns m2 /\ filled base m m2 (i * cols m).
Proof.
  intros Hok Hi (Hok1 & Hr1 & Hc1 & Hget1). unfold fill_row. rewrite Hc1.
  destruct (for_upE_inv (fun j m' => filled base m m' ((i - 1) * cols m + (j - 1)))
              1 (cols m + 1) (fill_cell base i) m1) as (m2 & -> & H2).
  - destruct Hok as (? & ? & ? & ?). lia.
  - split; [done|]. split; [done|]. split; [done|]. intros p Hp. apply Hget1. lia.
  - intros j m' Hj (Hok' & Hr' & Hc' & Hget'). unfold fill_cell.
    assert (in_matrix m' i j) as Hin by (unfold in_matrix; lia).
    destruct (Matrix_set_in m' i j
                (wrap32 (base + wrap32 (wrap32 ((i - 1) * cols m') + (j - 1)))) Hok' Hin)
      as (m'' & -> & Hok'' & Hr'' & Hc'' & Hbuf & _).
    eexists. split; [done|].
    split; [done|]. split; [congruence|]. split; [congruence|].
    intros p Hp. rewrite Hbuf.
    destruct (pos_in m' i j Hok' Hin) as [Hpos Hb].
    rewrite get_set by lia. rewrite Hc' in *.
    destruct (Z.eq_dec _ _) as [Heq|Hne].
    + subst p. f_equal. f_equal.
      destruct Hok as (? & ? & ? & ?). unfold INT_MAX in *.
      assert (0 <= (i - 1) * cols m) by nia.
      assert ((i - 1) * cols m + cols m <= rows m * cols m) by nia.
      rewrite (wrap32_small ((i - 1) * cols m)) by lia. apply wrap32_small. lia.
    + apply Hget'. lia.
  - exists m2. split; [done|].
    destruct H2 as (? & ? & ? & Hget2). split; [done|]. split; [done|]. split; [done|].
    intros p Hp. apply Hget2. lia.
Qed.

Lemma FillSequence_spec base m :
  Matrix_ok m -> rows m < INT_MAX -> cols m < INT_MAX ->
  exists m', FillSequence base m = Returns m' /\ Matrix_ok m' /\
    rows m' = rows m /\ cols m' = cols m /\
    forall i j, in_matrix m i j ->
      Matrix_get m' i j = Returns (wrap32 (base + ((i - 1) * cols m + (j - 1)))).
Proof.
  intros Hok _ _. unfold FillSequence.
  destruct (for_upE_inv (fun i m' => filled base m m' ((i - 1) * cols m))
              1 (rows m + 1) (fill_row base) m) as (m' & -> & H').
  - destruct Hok as (? & ? & ? & ?). lia.
  - split; [done|]. split; [done|]. split; [done|]. intros p Hp. lia.
  - intros i m1 Hi H1.
    destruct (fill_row_spec base m i m1 Hok ltac:(lia) H1) as (m2 & -> & H2).
    exists m2. split; [done|]. by replace (i + 1 - 1) with i by lia.
  - destruct H' as (Hok' & Hr' & Hc' & Hget').
    exists m'. split; [done|]. split; [done|]. split; [done|]. split; [done|].
    intros i j Hin. unfold Matrix_get.
    assert (in_matrix m' i j) as Hin' by (unfold in_matrix in *; lia).
    destruct (pos_in m' i j Hok' Hin') as [-> Hb]. simpl. rewrite Hc' in *.
    f_equal. apply Hget'. destruct Hok' as (? & ? & ? & Hlen). rewrite Hlen in Hb.
    rewrite Hr', Hc' in *. unfold in_matrix in Hin. nia.
Qed.

(** ** The triangular offset [i*(i-1)/2 + (j-1)] *)
Ltac unwrap :=
  repeat match goal with
         | |- context [wrap32 ?z] => rewrite (wrap32_small z) by lia
         end.

Lemma half_product i : 0 <= i -> 2 * Z.quot (i * (i - 1)) 2 = i * (i - 1).
Proof.
  intros Hi. destruct (Z.Even_or_Odd i) as [[q ->]|[q ->]].
  - replace (2 * q * (2 * q - 1)) with (q * (2 * q - 1) * 2) by lia.
    rewrite Z.quot_mul by done. lia.
  - replace ((2 * q + 1) * (2 * q + 1 - 1)) with ((2 * q + 1) * q * 2) by lia.
    rewrite Z.quot_mul by done. lia.
Qed.

Lemma tri_offset_val n i j :
  n * (n + 1) <= INT_MAX -> 1 <= j <= i -> i <= n ->
  2 * tri_offset i j = i * (i - 1) + 2 * (j - 1) /\
  0 <= 2 * tri_offset i j < n * (n + 1).
Proof.
  unfold INT_MAX, tri_offset. intros Hn Hj Hi.
  assert (i * (i - 1) + 2 * i <= n * (n + 1)) by nia.
  pose proof (half_product i ltac:(lia)) as Hhalf.
  assert (n < 2 ^ 16) by nia.
  rewrite (wrap32_small (i - 1)) by lia.
  rewrite (wrap32_small (i * (i - 1))) by nia.
  rewrite (wrap32_small (j - 1)) by lia.
  generalize dependent (Z.quot (i * (i - 1)) 2). intros h Hhalf.
  assert (0 <= i * (i - 1)) by nia.
  rewrite wrap32_small by lia. lia.
Qed.

Lemma tri_offset_inj n i j i' j' :
  n * (n + 1) <= INT_MAX -> 1 <= j <= i -> i <= n -> 1 <= j' <= i' -> i' <= n ->
  tri_offset i j = tri_offset i' j' -> i = i' /\ j = j'.
Proof.
  intros Hn Hj Hi Hj' Hi' Heq.
  destruct (tri_offset_val n i j Hn Hj Hi) as [Hv _].
  destruct (tri_offset_val n i' j' Hn Hj' Hi') as [Hv' _].
  rewrite Heq in Hv.
  assert (i = i') as ->.
  { destruct (Z.lt_trichotomy i i') as [Hlt|[->|Hlt]]; [exfalso | done | exfalso]; nia. }
  split; [done | lia].
Qed.

Lemma triangle_length n init :
  0 <= n -> n * (n + 1) <= INT_MAX ->
  exists b, vector_new (Z.quot (wrap32 (n * wrap32 (n + 1))) 2) init = Returns b /\
            2 * len b = n * (n + 1).
Proof.
  unfold INT_MAX. intros Hn Hmax. unfold vector_new.
  assert (n + 1 <= 2 ^ 30) by nia.
  rewrite (wrap32_small (n + 1)) by lia. rewrite wrap32_small by nia.
  pose proof (half_product (n + 1) ltac:(lia)) as Hhalf.
  replace ((n + 1) * (n + 1 - 1)) with (n * (n + 1)) in Hhalf by lia.
  destruct (Z.ltb_spec (Z.quot (n * (n + 1)) 2) 0); [nia|].
  eexists. split; [done|]. unfold len. rewrite length_replicate. lia.
Qed.

(** ** The symmetric matrix: [(i, j)] and [(j, i)] are one cell *)
Definition Symmetric_ok (s : SymmetricMatrix) : Prop :=
  0 <= sym_n s /\ sym_n s * (sym_n s + 1) <= INT_MAX /\
  2 * len (sym_buf s) = sym_n s * (sym_n s + 1).

Definition in_square (n i j : Z) : Prop := 1 <= i <= n /\ 1 <= j <= n.

Lemma in_square_dec n i j : {in_square n i j} + {~ in_square n i j}.
Proof.
  unfold in_square.
  destruct (Z_le_dec 1 i), (Z_le_dec i n), (Z_le_dec 1 j), (Z_le_dec j n);
    (left; lia) || (right; lia).
Qed.

Lemma range_check_in n i j :
  in_square n i j -> (i <? 1) || (i >? n) || (j <? 1) || (j >? n) = false.
Proof.
  unfold in_square. intros [Hi Hj].
  destruct (Z.ltb_spec i 1); [lia|]. destruct (Z.gtb_spec i n); [lia|].
  destruct (Z.ltb_spec j 1); [lia|]. destruct (Z.gtb_spec j n); [lia|]. done.
Qed.

Lemma range_check_out n i j :
  ~ in_square n i j -> (i <? 1) || (i >? n) || (j <? 1) || (j >? n) = true.
Proof.
  unfold in_square. intros H.
  destruct (Z.ltb_spec i 1); [done|]. destruct (Z.gtb_spec i n); [done|].
  destruct (Z.ltb_spec j 1); [done|]. destruct (Z.gtb_spec j n); [done|]. lia.
Qed.

Lemma lower_index_in n i j :
  in_square n i j -> lower_index_ i j n = Returns (tri_offset (Z.max i j) (Z.min i j)).
Proof.
  intros Hin. unfold lower_index_. rewrite range_check_in by done.
  destruct (Z.ltb_spec i j).
  - by rewrite Z.max_r, Z.min_l by lia.
  - by rewrite Z.max_l, Z.min_r by lia.
Qed.

Lemma lower_index_out n i j : ~ in_square n i j -> lower_index_ i j n = Throws out_of_range.
Proof. intros Hout. unfold lower_index_. by rewrite range_check_out. Qed.

Lemma SymmetricMatrix_new_ok n init :
  0 <= n -> n * (n + 1) <= INT_MAX ->
  exists s, SymmetricMatrix_new n init = Returns s /\ Symmetric_ok s /\ sym_n s = n.
Proof.
  intros Hn Hmax. unfold SymmetricMatrix_new.
  destruct (triangle_length n init Hn Hmax) as (b & -> & Hb).
  eexists. split; [done|]. split; [|done]. by split.
Qed.

Lemma Symmetric_set_in s i j v :
  Symmetric_ok s -> in_square (sym_n s) i j ->
  exists s', Symmetric_set s i j v = Returns s' /\ Symmetric_ok s' /\ sym_n s' = sym_n s /\
    forall i' j', Symmetric_get s' i' j'
      = if (i' =? i) && (j' =? j) || (i' =? j) && (j' =? i) then Returns v
        else Symmetric_get s i' j'.
Proof.
  intros (Hn & Hmax & Hlen) Hin. unfold Symmetric_set.
  rewrite lower_index_in by done. simpl.
  assert (1 <= Z.min i j <= Z.max i j /\ Z.max i j <= sym_n s) as [Hm HM]
    by (unfold in_square in Hin; lia).
  destruct (tri_offset_val _ _ _ Hmax Hm HM) as [_ Hb].
  eexists. split; [done|]. split.
  { unfold Symmetric_ok. simpl. by rewrite len_set. }
  split; [done|]. intros i' j'. unfold Symmetric_get. simpl.
  destruct (in_square_dec (sym_n s) i' j') as [Hin'|Hout].
  - rewrite lower_index_in by done. simpl.
    assert (1 <= Z.min i' j' <= Z.max i' j' /\ Z.max i' j' <= sym_n s) as [Hm' HM']
      by (unfold in_square in Hin'; lia).
    destruct (tri_offset_val _ _ _ Hmax Hm' HM') as [_ Hb'].
    rewrite get_set by lia.
    destruct (Z.eq_dec _ _) as [Heq|Hne].
    + destruct (tri_offset_inj _ _ _ _ _ Hmax Hm HM Hm' HM' Heq) as [HMM Hmm].
      destruct (Z.eqb_spec i' i), (Z.eqb_spec j' j), (Z.eqb_spec i' j), (Z.eqb_spec j' i);
        simpl; done || lia.
    + destruct (Z.eqb_spec i' i), (Z.eqb_spec j' j), (Z.eqb_spec i' j), (Z.eqb_spec j' i);
        simpl; try done; subst; exfalso; apply Hne; f_equal; lia.
  - rewrite lower_index_out by done. simpl.
    destruct (Z.eqb_spec i' i), (Z.eqb_spec j' j), (Z.eqb_spec i' j), (Z.eqb_spec j' i);
      simpl; try done; subst; exfalso; apply Hout; unfold in_square in *; lia.
Qed.

Lemma Symmetric_out s i j v :
  ~ in_square (sym_n s) i j ->
  Symmetric_set s i j v = Throws out_of_range /\ Symmetric_get s i j = Throws out_of_range.
Proof.
  intros Hout. unfold Symmetric_set, Symmetric_get. by rewrite lower_index_out.
Qed.

(** ** The triangular matrix: the zero region is never stored *)
Definition Triangular_ok (t : TriangularMatrix) : Prop :=
  0 <= tri_n t /\ tri_n t * (tri_n t + 1) <= INT_MAX /\
  2 * len (tri_buf t) = tri_n t * (tri_n t + 1).

(** The cell [(i, j)] lies in the stored triangle. *)
Definition kept (t : TriangularMatrix) (i j : Z) : bool :=
  if upper t then i <=? j else j <=? i.

Lemma TriangularMatrix_new_ok n up init :
  0 <= n -> n * (n + 1) <= INT_MAX ->
  exists t, TriangularMatrix_new n up init = Returns t /\ Triangular_ok t /\
            tri_n t = n /\ upper t = up.
Proof.
  intros Hn Hmax. unfold TriangularMatrix_new.
  destruct (triangle_length n init Hn Hmax) as (b & -> & Hb).
  eexists. split; [done|]. split; [|done]. by split.
Qed.

Lemma Triangular_out t i j v :
  ~ in_square (tri_n t) i j ->
  Triangular_set t i j v = Throws out_of_range /\ Triangular_get t i j = Throws out_of_range.
Proof.
  intros Hout. unfold Triangular_set, Triangular_get, tri_index_.
  by rewrite range_check_out.
Qed.

Lemma Triangular_zero t i j v :
  in_square (tri_n t) i j -> kept t i j = false ->
  Triangular_set t i j v = Throws logic_error /\ Triangular_get t i j = Returns 0.
Proof.
  intros Hin Hk. unfold Triangular_set, Triangular_get, tri_index_, kept in *.
  rewrite range_check_in by done.
  destruct (upper t); simpl.
  - destruct (Z.ltb_spec j i); [done|]. destruct (Z.leb_spec i j); [done | lia].
  - destruct (Z.ltb_spec i j); [done|]. destruct (Z.leb_spec j i); [done | lia].
Qed.

(** The slot of a kept cell. *)
Definition tri_slot (t : TriangularMatrix) (i j : Z) : Z :=
  if upper t then tri_offset j i else tri_offset i j.

Lemma tri_index_kept t i j :
  in_square (tri_n t) i j -> kept t i j = true ->
  tri_index_ t i j = Returns (tri_slot t i j) /\
  Triangular_get t i j = Returns (get (tri_buf t) (tri_slot t i j)).
Proof.
  intros Hin Hk. unfold Triangular_get, tri_index_, kept, tri_slot in *.
  rewrite range_check_in by done.
  destruct (upper t); simpl.
  - destruct (Z.leb_spec i j); [|done]. destruct (Z.ltb_spec j i); [lia | done].
  - destruct (Z.leb_spec j i); [|done]. destruct (Z.ltb_spec i j); [lia | done].
Qed.

Lemma tri_slot_facts t i j :
  Triangular_ok t -> in_square (tri_n t) i j -> kept t i j = true ->
  0 <= tri_slot t i j < len (tri_buf t).
Proof.
  intros (Hn & Hmax & Hlen) Hin Hk. unfold kept, tri_slot, in_square in *.
  destruct (upper t).
  - apply Z.leb_le in Hk.
    destruct (tri_offset_val (tri_n t) j i Hmax ltac:(lia) ltac:(lia)). lia.
  - apply Z.leb_le in Hk.
    destruct (tri_offset_val (tri_n t) i j Hmax ltac:(lia) ltac:(lia)). lia.
Qed.

Lemma tri_slot_inj t i j i' j' :
  Triangular_ok t -> in_square (tri_n t) i j -> kept t i j = true ->
  in_square (tri_n t) i' j' -> kept t i' j' = true ->
  tri_slot t i j = tri_slot t i' j' -> i = i' /\ j = j'.
Proof.
  intros (Hn & Hmax & Hlen) Hin Hk Hin' Hk' Heq. unfold kept, tri_slot, in_square in *.
  destruct (upper t); apply Z.leb_le in Hk, Hk'.
  - destruct (tri_offset_inj (tri_n t) j i j' i' Hmax) as [-> ->]; done || lia.
  - destruct (tri_offset_inj (tri_n t) i j i' j' Hmax) as [-> ->]; done || lia.
Qed.

Lemma Triangular_set_kept t i j v :
  Triangular_ok t -> in_square (tri_n t) i j -> kept t i j = true ->
  exists t', Triangular_set t i j v = Returns t' /\ Triangular_ok t' /\
    tri_n t' = tri_n t /\ upper t' = upper t /\
    forall i' j', Triangular_get t' i' j'
      = if (i' =? i) && (j' =? j) then Returns v else Triangular_get t i' j'.
Proof.
  intros Hok Hin Hk. unfold Triangular_set.
  destruct (tri_index_kept t i j Hin Hk) as [-> _]. simpl.
  pose proof (tri_slot_facts t i j Hok Hin Hk) as Hb.
  eexists. split; [done|].
  assert (Triangular_ok {| tri_n := tri_n t; upper := upper t;
                          tri_buf := set (tri_buf t) (tri_slot t i j) v |}) as Hok'.
  { destruct Hok as (? & ? & ?). unfold Triangular_ok. simpl. by rewrite len_set. }
  split; [done|]. split; [done|]. split; [done|].
  intros i' j'.
  set (t' := {| tri_n := tri_n t; upper := upper t;
                tri_buf := set (tri_buf t) (tri_slot t i j) v |}) in *.
  destruct (in_square_dec (tri_n t) i' j') as [Hin'|Hout].
  - destruct (kept t i' j') eqn:Hk'.
    + destruct (tri_index_kept t i' j' Hin' Hk') as [_ ->].
      destruct (tri_index_kept t' i' j' Hin' Hk') as [_ ->].
      pose proof (tri_slot_facts t i' j' Hok Hin' Hk') as Hb'.
      change (tri_slot t' i' j') with (tri_slot t i' j').
      change (tri_buf t') with (set (tri_buf t) (tri_slot t i j) v).
      rewrite get_set by lia.
      destruct (Z.eq_dec _ _) as [Heq|Hne].
      * destruct (tri_slot_inj t i j i' j' Hok Hin Hk Hin' Hk' Heq) as [-> ->].
        by rewrite !Z.eqb_refl.
      * destruct (Z.eqb_spec i' i) as [->|]; [|done].
        destruct (Z.eqb_spec j' j) as [->|]; [done | done].
    + destruct (Triangular_zero t i' j' 0 Hin' Hk') as [_ ->].
      destruct (Triangular_zero t' i' j' 0 Hin' Hk') as [_ ->].
      destruct (Z.eqb_spec i' i) as [->|]; [|done].
      destruct (Z.eqb_spec j' j) as [->|]; [congruence | done].
  - destruct (Triangular_out t i' j' 0 Hout) as [_ ->].
    destruct (Triangular_out t' i' j' 0 Hout) as [_ ->].
    destruct (Z.eqb_spec i' i) as [->|]; [|done].
    destruct (Z.eqb_spec j' j) as [->|]; [done | done].
Qed.

(** ** The tridiagonal matrix: [3n - 2] slots for the band *)
Definition Tridiagonal_ok (t : TridiagonalMatrix) : Prop :=
  1 <= td_n t /\ 3 * td_n t <= INT_MAX /\ len (td_buf t) = 3 * td_n t - 2.

Definition in_band (i j : Z) : bool := Z.abs (i - j) <=? 1.

Lemma TridiagonalMatrix_new_ok n init :
  1 <= n -> 3 * n <= INT_MAX ->
  exists t, TridiagonalMatrix_new n init = Returns t /\ Tridiagonal_ok t /\ td_n t = n.
Proof.
  unfold INT_MAX. intros Hn Hmax. unfold TridiagonalMatrix_new, vector_new.
  destruct (Z.geb_spec n 1); [|lia]. unwrap.
  destruct (Z.ltb_spec (3 * n - 2) 0); [lia|].
  eexists. split; [done|]. split; [|done].
  unfold Tridiagonal_ok, INT_MAX, len. simpl. rewrite length_replicate. lia.
Qed.

Lemma td_offset_val n i j :
  1 <= n -> 3 * n <= INT_MAX -> in_square n i j -> in_band i j = true ->
  td_offset n i j = (if i =? 1 then j - 1 else 2 * i + j - 3) /\
  0 <= td_offset n i j < 3 * n - 2.
Proof.
  unfold INT_MAX, in_square, in_band, td_offset. intros Hn Hmax [Hi Hj] Hb.
  apply Z.leb_le in Hb.
  destruct (Z.eqb_spec i 1); [unwrap; lia|].
  destruct (Z.eqb_spec i n); unwrap; lia.
Qed.

Lemma td_offset_inj n i j i' j' :
  1 <= n -> 3 * n <= INT_MAX ->
  in_square n i j -> in_band i j = true -> in_square n i' j' -> in_band i' j' = true ->
  td_offset n i j = td_offset n i' j' -> i = i' /\ j = j'.
Proof.
  intros Hn Hmax Hin Hb Hin' Hb' Heq.
  destruct (td_offset_val n i j Hn Hmax Hin Hb) as [Hv _].
  destruct (td_offset_val n i' j' Hn Hmax Hin' Hb') as [Hv' _].
  rewrite Heq in Hv. rewrite Hv in Hv'. clear Heq Hv.
  unfold in_square, in_band in *. apply Z.leb_le in Hb, Hb'.
  destruct (Z.eqb_spec i 1), (Z.eqb_spec i' 1); lia.
Qed.

Lemma band_check i j n :
  in_square n i j -> 3 * n <= INT_MAX ->
  (Z.abs (wrap32 (i - j)) >? 1) = negb (in_band i j).
Proof.
  unfold in_square, in_band, INT_MAX. intros [Hi Hj] Hmax. unwrap.
  destruct (Z.gtb_spec (Z.abs (i - j)) 1), (Z.leb_spec (Z.abs (i - j)) 1); done || lia.
Qed.

Lemma Tridiagonal_out t i j v :
  ~ in_square (td_n t) i j ->
  Tridiagonal_set t i j v = Throws out_of_range /\ Tridiagonal_get t i j = Throws out_of_range.
Proof.
  intros Hout. unfold Tridiagonal_set, Tridiagonal_get, td_index_.
  by rewrite range_check_out.
Qed.

Lemma Tridiagonal_zero t i j v :
  Tridiagonal_ok t -> in_square (td_n t) i j -> in_band i j = false ->
  Tridiagonal_set t i j v = Throws logic_error /\ Tridiagonal_get t i j = Returns 0.
Proof.
  intros (Hn & Hmax & Hlen) Hin Hb. unfold Tridiagonal_set, Tridiagonal_get, td_index_.
  rewrite range_check_in by done. simpl.
  by rewrite (band_check i j (td_n t)), Hb by done.
Qed.

Lemma Tridiagonal_band t i j :
  Tridiagonal_ok t -> in_square (td_n t) i j -> in_band i j = true ->
  td_index_ t i j = Returns (td_offset (td_n t) i j) /\
  Tridiagonal_get t i j = Returns (get (td_buf t) (td_offset (td_n t) i j)).
Proof.
  intros (Hn & Hmax & Hlen) Hin Hb. unfold Tridiagonal_get, td_index_.
  rewrite range_check_in by done. simpl.
  by rewrite (band_check i j (td_n t)), Hb by done.
Qed.

Lemma Tridiagonal_set_band t i j v :
  Tridiagonal_ok t -> in_square (td_n t) i j -> in_band i j = true ->
  exists t', Tridiagonal_set t i j v = Returns t' /\ Tridiagonal_ok t' /\
    td_n t' = td_n t /\
    forall i' j', Tridiagonal_get t' i' j'
      = if (i' =? i) && (j' =? j) then Returns v else Tridiagonal_get t i' j'.
Proof.
  intros Hok Hin Hb. unfold Tridiagonal_set.
  destruct (Tridiagonal_band t i j Hok Hin Hb) as [-> _]. simpl.
  pose proof Hok as (Hn & Hmax & Hlen).
  destruct (td_offset_val _ i j Hn Hmax Hin Hb) as [_ Hrange].
  eexists. split; [done|].
  set (t' := {| td_n := td_n t; td_buf := set (td_buf t) (td_offset (td_n t) i j) v |}).
  assert (Tridiagonal_ok t') as Hok'.
  { unfold Tridiagonal_ok, t'. simpl. by rewrite len_set. }
  split; [done|]. split; [done|].
  intros i' j'.
  destruct (in_square_dec (td_n t) i' j') as [Hin'|Hout].
  - destruct (in_band i' j') eqn:Hb'.
    + destruct (Tridiagonal_band t i' j' Hok Hin' Hb') as [_ ->].
      destruct (Tridiagonal_band t' i' j' Hok' Hin' Hb') as [_ ->].
      destruct (td_offset_val _ i' j' Hn Hmax Hin' Hb') as [_ Hrange'].
      change (td_n t') with (td_n t).
      change (td_buf t') with (set (td_buf t) (td_offset (td_n t) i j) v).
      rewrite get_set by lia.
      destruct (Z.eq_dec _ _) as [Heq|Hne].
      * destruct (td_offset_inj _ i j i' j' Hn Hmax Hin Hb Hin' Hb' Heq) as [-> ->].
        by rewrite !Z.eqb_refl.
      * destruct (Z.eqb_spec i' i) as [->|]; [|done].
        destruct (Z.eqb_spec j' j) as [->|]; [done | done].
    + destruct (Tridiagonal_zero t i' j' 0 Hok Hin' Hb') as [_ ->].
      destruct (Tridiagonal_zero t' i' j' 0 Hok' Hin' Hb') as [_ ->].
      destruct (Z.eqb_spec i' i) as [->|]; [|done].
      destruct (Z.eqb_spec j' j) as [->|]; [congruence | done].
  - destruct (Tridiagonal_out t i' j' 0 Hout) as [_ ->].
    destruct (Tridiagonal_out t' i' j' 0 Hout) as [_ ->].
    destruct (Z.eqb_spec i' i) as [->|]; [|done].
    destruct (Z.eqb_spec j' j) as [->|]; [done | done].
Qed.
(** ** The matrices a program can reach *)

(** A write [(i, j, v)] is [A(i, j) = v] ([set(i, j, v)], [at(i, j) = v]);
    one that throws leaves the matrix as it was.  The matrices of a
    program are those that a constructor returns, after the writes the
    program makes. *)
Definition Matrix_write (m : Matrix) (w : Z * Z * Z) : Matrix :=
  match Matrix_set m w.1.1 w.1.2 w.2 with
  | Returns m' => m'
  | Throws _ | OutOfFuel => m
  end.

Definition Matrix_writes (m : Matrix) (ws : list (Z * Z * Z)) : Matrix :=
  fold_left Matrix_write ws m.

Definition Symmetric_write (s : SymmetricMatrix) (w : Z * Z * Z) : SymmetricMatrix :=
  match Symmetric_set s w.1.1 w.1.2 w.2 with
  | Returns s' => s'
  | Throws _ | OutOfFuel => s
  end.

Definition Symmetric_writes (s : SymmetricMatrix) (ws : list (Z * Z * Z)) : SymmetricMatrix :=
  fold_left Symmetric_write ws s.

Definition Triangular_write (t : TriangularMatrix) (w : Z * Z * Z) : TriangularMatrix :=
  match Triangular_set t w.1.1 w.1.2 w.2 with
  | Returns t' => t'
  | Throws _ | OutOfFuel => t
  end.

Definition Triangular_writes (t : TriangularMatrix) (ws : list (Z * Z * Z)) :
    TriangularMatrix :=
  fold_left Triangular_write ws t.

Definition Tridiagonal_write (t : TridiagonalMatrix) (w : Z * Z * Z) : TridiagonalMatrix :=
  match Tridiagonal_set t w.1.1 w.1.2 w.2 with
  | Returns t' => t'
  | Throws _ | OutOfFuel => t
  end.

Definition Tridiagonal_writes (t : TridiagonalMatrix) (ws : list (Z * Z * Z)) :
    TridiagonalMatrix :=
  fold_left Tridiagonal_write ws t.

Lemma Matrix_writes_ok m ws :
  Matrix_ok m ->
  Matrix_ok (Matrix_writes m ws) /\
  rows (Matrix_writes m ws) = rows m /\ cols (Matrix_writes m ws) = cols m.
Proof.
  unfold Matrix_writes. revert m. induction ws as [|[[i j] v] ws IH]; intros m Hok; [done|].
  cbn [fold_left].
  assert (Matrix_ok (Matrix_write m (i, j, v)) /\
          rows (Matrix_write m (i, j, v)) = rows m /\
          cols (Matrix_write m (i, j, v)) = cols m) as (Hok1 & Hr1 & Hc1).
  { unfold Matrix_write. cbn [fst snd].
    destruct (in_matrix_dec m i j) as [Hin|Hout].
    - by destruct (Matrix_set_in m i j v Hok Hin) as (m' & -> & Hok' & Hr & Hc & _).
    - by rewrite Matrix_set_out. }
  destruct (IH _ Hok1) as (? & ? & ?). split; [done|]. split; congruence.
Qed.

Lemma Symmetric_writes_ok s ws :
  Symmetric_ok s ->
  Symmetric_ok (Symmetric_writes s ws) /\ sym_n (Symmetric_writes s ws) = sym_n s.
Proof.
  unfold Symmetric_writes. revert s. induction ws as [|[[i j] v] ws IH]; intros s Hok; [done|].
  cbn [fold_left].
  assert (Symmetric_ok (Symmetric_write s (i, j, v)) /\
          sym_n (Symmetric_write s (i, j, v)) = sym_n s) as (Hok1 & Hn1).
  { unfold Symmetric_write. cbn [fst snd].
    destruct (in_square_dec (sym_n s) i j) as [Hin|Hout].
    - by destruct (Symmetric_set_in s i j v Hok Hin) as (s' & -> & Hok' & Hn & _).
    - by destruct (Symmetric_out s i j v Hout) as [-> _]. }
  destruct (IH _ Hok1) as (? & ?). split; [done | congruence].
Qed.

Lemma Triangular_writes_ok t ws :
  Triangular_ok t ->
  Triangular_ok (Triangular_writes t ws) /\
  tri_n (Triangular_writes t ws) = tri_n t /\ upper (Triangular_writes t ws) = upper t.
Proof.
  unfold Triangular_writes. revert t. induction ws as [|[[i j] v] ws IH]; intros t Hok; [done|].
  cbn [fold_left].
  assert (Triangular_ok (Triangular_write t (i, j, v)) /\
          tri_n (Triangular_write t (i, j, v)) = tri_n t /\
          upper (Triangular_write t (i, j, v)) = upper t) as (Hok1 & Hn1 & Hu1).
  { unfold Triangular_write. cbn [fst snd].
    destruct (in_square_dec (tri_n t) i j) as [Hin|Hout].
    - destruct (kept t i j) eqn:Hkept.
      + by destruct (Triangular_set_kept t i j v Hok Hin Hkept)
          as (t' & -> & Hok' & Hn & Hu & _).
      + by destruct (Triangular_zero t i j v Hin Hkept) as [-> _].
    - by destruct (Triangular_out t i j v Hout) as [-> _]. }
  destruct (IH _ Hok1) as (? & ? & ?). split; [done|]. split; congruence.
Qed.

Lemma Tridiagonal_writes_ok t ws :
  Tridiagonal_ok t ->
  Tridiagonal_ok (Tridiagonal_writes t ws) /\ td_n (Tridiagonal_writes t ws) = td_n t.
Proof.
  unfold Tridiagonal_writes. revert t. induction ws as [|[[i j] v] ws IH]; intros t Hok; [done|].
  cbn [fold_left].
  assert (Tridiagonal_ok (Tridiagonal_write t (i, j, v)) /\
          td_n (Tridiagonal_write t (i, j, v)) = td_n t) as (Hok1 & Hn1).
  { unfold Tridiagonal_write. cbn [fst snd].
    destruct (in_square_dec (td_n t) i j) as [Hin|Hout].
    - destruct (in_band i j) eqn:Hband.
      + by destruct (Tridiagonal_set_band t i j v Hok Hin Hband) as (t' & -> & Hok' & Hn & _).
      + by destruct (Tridiagonal_zero t i j v Hok Hin Hband) as [-> _].
    - by destruct (Tridiagonal_out t i j v Hout) as [-> _]. }
  destruct (IH _ Hok1) as (? & ?). split; [done | congruence].
Qed.
End Dense.

(* ================================================================== *)
(** * 查找/动态表查找.cpp : the binary search tree                       *)
(* ================================================================== *)

Module BST.
(** A [BSTNode *]: [None] is [nullptr], [Some a] the node at address [a]
    of the store. *)
Definition ptr : Type := option nat.

(** [struct BSTNode]. The store is the list of the nodes allocated so
    far; [new BSTNode(k)] takes the next address. *)
Record BSTNode : Type := { key : Z; left : ptr; right : ptr }.

(** [BSTNode(int k) : key(k), left(nullptr), right(nullptr)] *)
Definition BSTNode_new (k : Z) : BSTNode := {| key := k; left := None; right := None |}.

(** The loop of [BSTSearch] on the pair [(p, parent)]. Reading through a
    pointer to no node, or running out of fuel, gives [None]. *)
Fixpoint BSTSearch_loop (fuel : nat) (h : list BSTNode) (k : Z) (p parent : ptr)
    : option (ptr * ptr) :=
  match fuel with
  | O => None
  | S fuel =>
      match p with
      | None => Some (p, parent)
      | Some a =>
          match h !! a with
          | None => None
          | Some nd =>
              if negb (key nd =? k) then
                BSTSearch_loop fuel h k (if k <? key nd then left nd else right nd) p
              else Some (p, parent)
          end
      end
  end.

(** [BSTNode *BSTSearch(BSTNode *root, int key, BSTNode *&parent)]: the
    pointer returned and the final [parent]. *)
Definition BSTSearch (fuel : nat) (h : list BSTNode) (root : ptr) (k : Z) : option (ptr * ptr) :=
  BSTSearch_loop fuel h k root None.

(** [parent->left = newNode] or [parent->right = newNode]. *)
Definition attach (nd : BSTNode) (k : Z) (newNode : ptr) : BSTNode :=
  if k <? key nd then {| key := key nd; left := newNode; right := right nd |}
  else {| key := key nd; left := left nd; right := newNode |}.

(** [BSTNode *BSTInsert(BSTNode *&root, int key)]: the store, the root
    and the pointer returned. *)
Definition BSTInsert (fuel : nat) (h : list BSTNode) (root : ptr) (k : Z)
    : option (list BSTNode * ptr * ptr) :=
  match BSTSearch fuel h root k with
  | None => None
  | Some (Some a, _) => Some (h, root, Some a)
  | Some (None, parent) =>
      let newNode := Some (length h) in
      let h := h ++ [BSTNode_new k] in
      match parent with
      | None => Some (h, newNode, newNode)
      | Some pa =>
          match h !! pa with
          | None => None
          | Some nd => Some (<[pa := attach nd k newNode]> h, root, newNode)
          end
      end
  end.

(** [void inorderBST(BSTNode *root)]: the keys printed. *)
Fixpoint inorderBST (fuel : nat) (h : list BSTNode) (root : ptr) : option (list Z) :=
  match fuel with
  | O => None
  | S fuel =>
      match root with
      | None => Some []
      | Some a =>
          match h !! a with
          | None => None
          | Some nd =>
              match inorderBST fuel h (left nd), inorderBST fuel h (right nd) with
              | Some l, Some r => Some (l ++ key nd :: r)
              | _, _ => None
              end
          end
      end
  end.

(** The loop of [main]: [for (i...) BSTInsert(root, keys[i])]; each call
    may walk as many nodes as the store holds. *)
Definition insert_key (s : option (list BSTNode * ptr)) (k : Z) : option (list BSTNode * ptr) :=
  match s with
  | None => None
  | Some (h, root) =>
      match BSTInsert (S (length h)) h root k with
      | Some (h', root', _) => Some (h', root')
      | None => None
      end
  end.

Definition build (keys : list Z) : option (list BSTNode * ptr) :=
  fold_left insert_key keys (Some ([], None)).

Example build_demo :
  match build [53; 78; 65; 17; 87; 9; 81; 15] with
  | Some (h, root) =>
      Some (inorderBST (S (length h)) h root, BSTSearch (S (length h)) h root 81,
            BSTSearch (S (length h)) h root 40)
  | None => None
  end = Some (Some [9; 15; 17; 53; 65; 78; 81; 87], Some (Some 6%nat, Some 4%nat),
              Some (None, Some 3%nat)).
Proof. vm_compute. reflexivity. Qed.

(** ** The tree a store holds *)
Inductive tree : Type :=
  | Leaf
  | T (l : tree) (k : Z) (r : tree).

(** The pointer [p] is the root of the tree [t] in the store [h]. *)
Fixpoint rep (h : list BSTNode) (t : tree) (p : ptr) : Prop :=
  match t with
  | Leaf => p = None
  | T l k r =>
      exists a nd, p = Some a /\ h !! a = Some nd /\ key nd = k /\
                   rep h l (left nd) /\ rep h r (right nd)
  end.

Fixpoint present (x : Z) (t : tree) : Prop :=
  match t with
  | Leaf => False
  | T l k r => x = k \/ present x l \/ present x r
  end.

Fixpoint every_key (P : Z -> Prop) (t : tree) : Prop :=
  match t with
  | Leaf => True
  | T l k r => P k /\ every_key P l /\ every_key P r
  end.

Fixpoint ordered (t : tree) : Prop :=
  match t with
  | Leaf => True
  | T l k r =>
      ordered l /\ ordered r /\ every_key (fun x => x < k) l /\ every_key (fun x => k < x) r
  end.

Fixpoint levels (t : tree) : nat :=
  match t with
  | Leaf => 0
  | T l _ r => S (Nat.max (levels l) (levels r))
  end.

Fixpoint inorder (t : tree) : list Z :=
  match t with
  | Leaf => []
  | T l k r => inorder l ++ k :: inorder r
  end.

(** The tree with [x] hung where the search for it ends. *)
Fixpoint grown (t : tree) (x : Z) : tree :=
  match t with
  | Leaf => T Leaf x Leaf
  | T l k r =>
      if x <? k then T (grown l x) k r
      else if k <? x then T l k (grown r x)
      else t
  end.

Lemma every_key_present (P : Z -> Prop) t x : every_key P t -> present x t -> P x.
Proof.
  induction t as [|l IHl k r IHr]; simpl; [done|].
  intros (Hk & Hl & Hr) [->|[H|H]]; auto.
Qed.

Lemma every_key_of_present (P : Z -> Prop) t : (forall x, present x t -> P x) -> every_key P t.
Proof.
  induction t as [|l IHl k r IHr]; simpl; [done|].
  intros H. split; [|split]; auto.
Qed.

Lemma present_grown y t x : present y (grown t x) <-> y = x \/ present y t.
Proof.
  induction t as [|l IHl k r IHr]; simpl; [tauto|].
  destruct (Z.ltb_spec x k); [simpl; tauto|].
  destruct (Z.ltb_spec k x); [simpl; tauto|].
  assert (x = k) as -> by lia. simpl. tauto.
Qed.

Lemma ordered_grown t x : ordered t -> ordered (grown t x).
Proof.
  induction t as [|l IHl k r IHr]; simpl; [done|].
  intros (Hl & Hr & Hlk & Hrk).
  destruct (Z.ltb_spec x k); [|destruct (Z.ltb_spec k x)]; simpl; [| |done].
  - split; [auto|]. split; [done|]. split; [|done].
    apply every_key_of_present. intros y [->|Hy]%present_grown; [done|].
    by apply (every_key_present _ _ _ Hlk).
  - split; [done|]. split; [auto|]. split; [done|].
    apply every_key_of_present. intros y [->|Hy]%present_grown; [done|].
    by apply (every_key_present _ _ _ Hrk).
Qed.

Lemma levels_grown t x : (levels (grown t x) <= S (levels t))%nat.
Proof.
  induction t as [|l IHl k r IHr]; simpl; [lia|].
  destruct (Z.ltb_spec x k); [|destruct (Z.ltb_spec k x)]; simpl; lia.
Qed.

Lemma grown_present t x : ordered t -> present x t -> grown t x = t.
Proof.
  induction t as [|l IHl k r IHr]; simpl; [done|].
  intros (Hl & Hr & Hlk & Hrk) Hx.
  destruct (Z.ltb_spec x k).
  - destruct Hx as [->|[Hx|Hx]]; [lia | by rewrite IHl |].
    pose proof (every_key_present _ _ _ Hrk Hx). simpl in *. lia.
  - destruct (Z.ltb_spec k x); [|done].
    destruct Hx as [->|[Hx|Hx]]; [lia | | by rewrite IHr].
    pose proof (every_key_present _ _ _ Hlk Hx). simpl in *. lia.
Qed.

Lemma inorder_present t x : x ∈ inorder t <-> present x t.
Proof.
  induction t as [|l IHl k r IHr]; simpl; [by rewrite elem_of_nil|].
  rewrite elem_of_app, elem_of_cons, IHl, IHr. tauto.
Qed.

Lemma inorder_sorted t : ordered t -> StronglySorted Z.lt (inorder t).
Proof.
  induction t as [|l IHl k r IHr]; simpl; [constructor|].
  intros (Hl & Hr & Hlk & Hrk).
  assert (forall (xs ys : list Z) (y : Z),
            StronglySorted Z.lt xs -> StronglySorted Z.lt ys ->
            (forall x, x ∈ xs -> x < y) -> (forall z, z ∈ ys -> y < z) ->
            StronglySorted Z.lt (xs ++ y :: ys)) as Happ.
  { intros xs ys y Hxs Hys Hlt Hgt. induction Hxs as [|x xs Hxs IH Hall]; simpl.
    - constructor; [done|]. apply Forall_forall. intros z Hz. by apply Hgt.
    - constructor.
      + apply IH. intros x' Hx'. apply Hlt. by right.
      + apply Forall_app. split; [done|]. constructor.
        * apply Hlt. by left.
        * apply Forall_forall. intros z Hz.
          pose proof (Hlt x ltac:(by left)). pose proof (Hgt z Hz). lia. }
  apply Happ; [auto | auto | |].
  - intros x Hx%inorder_present. by apply (every_key_present _ _ _ Hlk).
  - intros x Hx%inorder_present. by apply (every_key_present _ _ _ Hrk).
Qed.

(** ** The store outside a tree does not matter to it *)
Lemma rep_frame (P : Z -> Prop) h h' t p :
  rep h t p -> every_key P t ->
  (forall b nd, h !! b = Some nd -> P (key nd) -> h' !! b = Some nd) ->
  rep h' t p.
Proof.
  intros Hrep Hall Hsame. revert p Hrep Hall.
  induction t as [|l IHl k r IHr]; simpl; [done|].
  intros p (a & nd & -> & Ha & Hk & Hl & Hr) (HPk & HPl & HPr).
  exists a, nd. split; [done|]. split; [apply Hsame; [done | by rewrite Hk]|].
  split; [done|]. split; auto.
Qed.

Lemma rep_Leaf h p : rep h Leaf p <-> p = None.
Proof. done. Qed.

(** ** [BSTSearch] *)

(** The key [x] is found at [p], and [parent] is what the search left in
    its second result: the node whose child on the side of [x] is [p], or
    [parent0] when [p] is the root of the search. *)
Definition found_at (h : list BSTNode) (x : Z) (root parent0 p parent : ptr) : Prop :=
  (exists a nd, p = Some a /\ h !! a = Some nd /\ key nd = x) /\
  ((p = root /\ parent = parent0) \/
   (exists pa nd, parent = Some pa /\ h !! pa = Some nd /\ key nd <> x /\
                  (if x <? key nd then left nd else right nd) = p)).

(** The search for an absent [x] ended below [parent]. *)
Definition ended_at (h : list BSTNode) (x : Z) (root parent0 parent : ptr) : Prop :=
  (root = None /\ parent = parent0) \/
  (exists pa nd, parent = Some pa /\ h !! pa = Some nd /\ key nd <> x /\
                 (if x <? key nd then left nd else right nd) = None).

Lemma BSTSearch_loop_found fuel h t x root parent0 :
  rep h t root -> ordered t -> present x t -> (levels t < fuel)%nat ->
  exists p parent, BSTSearch_loop fuel h x root parent0 = Some (p, parent) /\
                   found_at h x root parent0 p parent.
Proof.
  revert fuel root parent0.
  induction t as [|l IHl k r IHr]; simpl; [done|].
  intros fuel root parent0 (a & nd & -> & Ha & Hk & Hl & Hr) (Hol & Hor & Hlk & Hrk) Hx Hfuel.
  destruct fuel as [|fuel]; [lia|]. simpl. rewrite Ha, Hk.
  destruct (Z.eqb_spec k x) as [->|Hne]; simpl.
  { exists (Some a), parent0. split; [done|]. split; [by exists a, nd | by left]. }
  assert (forall q, (if x <? k then left nd else right nd) = q ->
            forall p parent, found_at h x q (Some a) p parent ->
                             found_at h x (Some a) parent0 p parent) as Hup.
  { intros q Hq p parent [Hfound Hpar]. split; [done|]. right.
    destruct Hpar as [[-> ->]|Hpar]; [|done].
    exists a, nd. by rewrite Hk. }
  destruct (Z.ltb_spec x k).
  - destruct Hx as [->|[Hx|Hx]]; [done | |].
    + destruct (IHl fuel (left nd) (Some a) Hl Hol Hx ltac:(lia)) as (p & parent & -> & Hf).
      exists p, parent. split; [done|]. by apply (Hup (left nd)).
    + pose proof (every_key_present _ _ _ Hrk Hx). simpl in *. lia.
  - destruct Hx as [->|[Hx|Hx]]; [done | |].
    + pose proof (every_key_present _ _ _ Hlk Hx). simpl in *. lia.
    + destruct (IHr fuel (right nd) (Some a) Hr Hor Hx ltac:(lia)) as (p & parent & -> & Hf).
      exists p, parent. split; [done|]. by apply (Hup (right nd)).
Qed.

Lemma BSTSearch_loop_absent fuel h t x root parent0 :
  rep h t root -> ordered t -> ~ present x t -> (levels t < fuel)%nat ->
  exists parent, BSTSearch_loop fuel h x root parent0 = Some (None, parent) /\
                 ended_at h x root parent0 parent.
Proof.
  revert fuel root parent0.
  induction t as [|l IHl k r IHr]; simpl.
  { intros fuel root parent0 -> _ _ Hfuel. destruct fuel; [lia|].
    exists parent0. split; [done | by left]. }
  intros fuel root parent0 (a & nd & -> & Ha & Hk & Hl & Hr) (Hol & Hor & Hlk & Hrk) Hx Hfuel.
  destruct fuel as [|fuel]; [lia|]. simpl. rewrite Ha, Hk.
  destruct (Z.eqb_spec k x) as [->|Hne]; [tauto|]. simpl.
  assert (forall q, (if x <? k then left nd else right nd) = q ->
            forall parent, ended_at h x q (Some a) parent ->
                           ended_at h x (Some a) parent0 parent) as Hup.
  { intros q Hq parent Hend. right.
    destruct Hend as [[-> ->]|Hend]; [|done].
    exists a, nd. by rewrite Hk. }
  destruct (Z.ltb_spec x k).
  - destruct (IHl fuel (left nd) (Some a) Hl Hol ltac:(tauto) ltac:(lia)) as (parent & -> & He).
    exists parent. split; [done|]. by apply (Hup (left nd)).
  - destruct (IHr fuel (right nd) (Some a) Hr Hor ltac:(tauto) ltac:(lia)) as (parent & -> & He).
    exists parent. split; [done|]. by apply (Hup (right nd)).
Qed.

(** ** [BSTInsert] *)
Lemma update_frame (h : list BSTNode) pa ndp nd' new b ndb :
  h !! pa = Some ndp -> h !! b = Some ndb -> key ndb <> key ndp ->
  (<[pa := nd']> (h ++ [new])) !! b = Some ndb.
Proof.
  intros Hpa Hb Hne. rewrite list_lookup_insert_ne by congruence.
  by apply lookup_app_l_Some.
Qed.

(** Where the search for an absent [x] ends, hanging the new node makes
    the store hold [grown t x]. *)
Lemma hang_absent fuel h t x root parent0 :
  rep h t root -> ordered t -> ~ present x t -> (levels t < fuel)%nat ->
  exists parent, BSTSearch_loop fuel h x root parent0 = Some (None, parent) /\
    ((t = Leaf /\ parent = parent0) \/
     (exists pa nd, parent = Some pa /\ h !! pa = Some nd /\ present (key nd) t /\
        rep (<[pa := attach nd x (Some (length h))]> (h ++ [BSTNode_new x]))
            (grown t x) root)).
Proof.
  revert fuel root parent0.
  induction t as [|l IHl k r IHr]; simpl.
  { intros fuel root parent0 -> _ _ Hfuel. destruct fuel; [lia|].
    exists parent0. split; [done | by left]. }
  intros fuel root parent0 (a & nd & -> & Ha & Hk & Hl & Hr) (Hol & Hor & Hlk & Hrk) Hx Hfuel.
  destruct fuel as [|fuel]; [lia|]. simpl. rewrite Ha, Hk.
  destruct (Z.eqb_spec k x) as [->|Hne]; [tauto|]. simpl.
  pose proof (lookup_lt_Some _ _ _ Ha) as Halt.
  assert ((h ++ [BSTNode_new x]) !! length h = Some (BSTNode_new x)) as Hnew.
  { rewrite lookup_app_r by lia. by rewrite Nat.sub_diag. }
  assert (attach nd x (Some (length h))
          = if x <? k then {| key := k; left := Some (length h); right := right nd |}
            else {| key := k; left := left nd; right := Some (length h) |}) as Hatt
    by (unfold attach; by rewrite Hk).
  assert (forall nd', (<[a := nd']> (h ++ [BSTNode_new x])) !! a = Some nd') as Hself.
  { intros nd'. apply list_lookup_insert_eq. rewrite length_app. simpl. lia. }
  assert (forall nd', (<[a := nd']> (h ++ [BSTNode_new x])) !! length h
                      = Some (BSTNode_new x)) as Hfresh.
  { intros nd'. by rewrite list_lookup_insert_ne by lia. }
  destruct (Z.ltb_spec x k) as [Hlt|Hge].
  - destruct (IHl fuel (left nd) (Some a) Hl Hol ltac:(tauto) ltac:(lia))
      as (parent & -> & [[-> ->]|(pa & ndp & -> & Hpa & Hin & Hrep)]);
      (eexists; split; [done|]; right).
    + exists a, nd. split; [done|]. split; [done|]. split; [by left; rewrite Hk|].
      rewrite Hatt. change (grown Leaf x) with (T Leaf x Leaf).
      exists a, {| key := k; left := Some (length h); right := right nd |}.
      split; [done|]. split; [apply Hself|]. split; [done|]. split.
      * exists (length h), (BSTNode_new x). split; [done|]. split; [apply Hfresh|]. done.
      * apply (rep_frame (fun y => k < y) h); [done | done |].
        intros b ndb Hb Hkb. apply (update_frame h a nd); [done | done | lia].
    + exists pa, ndp. split; [done|]. split; [done|]. split; [tauto|].
      pose proof (every_key_present _ _ _ Hlk Hin) as Hlo. simpl in Hlo.
      exists a, nd. split; [done|].
      split; [apply (update_frame h pa ndp); [done | done | lia]|].
      split; [done|]. split; [done|].
      apply (rep_frame (fun y => k < y) h); [done | done |].
      intros b ndb Hb Hkb. apply (update_frame h pa ndp); [done | done | lia].
  - assert (k < x) as Hgt by lia. destruct (Z.ltb_spec k x); [|lia].
    destruct (IHr fuel (right nd) (Some a) Hr Hor ltac:(tauto) ltac:(lia))
      as (parent & -> & [[-> ->]|(pa & ndp & -> & Hpa & Hin & Hrep)]);
      (eexists; split; [done|]; right).
    + exists a, nd. split; [done|]. split; [done|]. split; [by left; rewrite Hk|].
      rewrite Hatt. change (grown Leaf x) with (T Leaf x Leaf).
      exists a, {| key := k; left := left nd; right := Some (length h) |}.
      split; [done|]. split; [apply Hself|]. split; [done|]. split.
      * apply (rep_frame (fun y => y < k) h); [done | done |].
        intros b ndb Hb Hkb. apply (update_frame h a nd); [done | done | lia].
      * exists (length h), (BSTNode_new x). split; [done|]. split; [apply Hfresh|]. done.
    + exists pa, ndp. split; [done|]. split; [done|]. split; [tauto|].
      pose proof (every_key_present _ _ _ Hrk Hin) as Hhi. simpl in Hhi.
      exists a, nd. split; [done|].
      split; [apply (update_frame h pa ndp); [done | done | lia]|].
      split; [done|]. split; [|done].
      apply (rep_frame (fun y => y < k) h); [done | done |].
      intros b ndb Hb Hkb. apply (update_frame h pa ndp); [done | done | lia].
Qed.

Lemma BSTInsert_spec fuel h t x root :
  rep h t root -> ordered t -> (levels t < fuel)%nat ->
  exists h' root' a nd,
    BSTInsert fuel h root x = Some (h', root', Some a) /\
    rep h' (grown t x) root' /\
    h' !! a = Some nd /\ key nd = x /\
    (present x t -> h' = h /\ root' = root) /\
    (~ present x t -> a = length h /\ length h' = S (length h)) /\
    (forall b ndb, h !! b = Some ndb ->
       exists ndb', h' !! b = Some ndb' /\ key ndb' = key ndb).
Proof.
  intros Hrep Hord Hfuel. unfold BSTInsert, BSTSearch. cbv zeta.
  assert (present x t \/ ~ present x t) as [Hx|Hx].
  { rewrite <- inorder_present. destruct (decide (x ∈ inorder t)); auto. }
  - destruct (BSTSearch_loop_found fuel h t x root None Hrep Hord Hx Hfuel)
      as (p & parent & -> & (a & nd & -> & Ha & Hk) & _).
    exists h, root, a, nd. split; [done|]. rewrite grown_present by done.
    split; [done|]. split; [done|]. split; [done|]. split; [done|]. split; [done|].
    eauto.
  - destruct (hang_absent fuel h t x root None Hrep Hord Hx Hfuel)
      as (parent & -> & [[-> ->]|(pa & ndp & -> & Hpa & Hin & Hrep')]).
    + simpl in Hrep. subst root.
      exists (h ++ [BSTNode_new x]), (Some (length h)), (length h), (BSTNode_new x).
      assert ((h ++ [BSTNode_new x]) !! length h = Some (BSTNode_new x)) as Hnew.
      { rewrite lookup_app_r by lia. by rewrite Nat.sub_diag. }
      split; [done|]. split; [simpl; by exists (length h), (BSTNode_new x)|].
      split; [done|]. split; [done|]. split; [done|].
      split; [intros _; rewrite length_app; simpl; lia|].
      intros b ndb Hb. exists ndb. split; [by apply lookup_app_l_Some | done].
    + rewrite (lookup_app_l_Some _ _ _ _ Hpa).
      pose proof (lookup_lt_Some _ _ _ Hpa) as Hplt.
      eexists _, root, (length h), (BSTNode_new x).
      split; [done|]. split; [done|].
      split.
      { rewrite list_lookup_insert_ne by lia.
        rewrite lookup_app_r by lia. by rewrite Nat.sub_diag. }
      split; [done|]. split; [done|].
      split; [intros _; rewrite length_insert, length_app; simpl; lia|].
      intros b ndb Hb. destruct (decide (b = pa)) as [->|Hne].
      * exists (attach ndp x (Some (length h))). split.
        -- apply list_lookup_insert_eq. rewrite length_app. lia.
        -- assert (ndb = ndp) as -> by congruence.
           unfold attach. by destruct (x <? key ndp).
      * exists ndb. split; [|done]. rewrite list_lookup_insert_ne by done.
        by apply lookup_app_l_Some.
Qed.

(** ** [inorderBST] *)
Lemma inorderBST_spec fuel h t root :
  rep h t root -> (levels t < fuel)%nat -> inorderBST fuel h root = Some (inorder t).
Proof.
  revert fuel root. induction t as [|l IHl k r IHr]; simpl.
  { intros fuel root -> Hfuel. destruct fuel; [lia | done]. }
  intros fuel root (a & nd & -> & Ha & Hk & Hl & Hr) Hfuel.
  destruct fuel as [|fuel]; [lia|]. simpl. rewrite Ha.
  rewrite (IHl fuel _ Hl) by lia. rewrite (IHr fuel _ Hr) by lia. by rewrite Hk.
Qed.

(** ** A tree built by insertions alone *)
Definition holds (h : list BSTNode) (root : ptr) (t : tree) : Prop :=
  rep h t root /\ ordered t /\ (levels t <= length h)%nat.

Lemma insert_key_holds h root t x :
  holds h root t ->
  exists h' root', insert_key (Some (h, root)) x = Some (h', root') /\
                   holds h' root' (grown t x).
Proof.
  intros (Hrep & Hord & Hlev). unfold insert_key.
  destruct (BSTInsert_spec (S (length h)) h t x root Hrep Hord ltac:(lia))
    as (h' & root' & a & nd & -> & Hrep' & _ & _ & Hin & Hout & _).
  exists h', root'. split; [done|]. split; [done|]. split; [by apply ordered_grown|].
  assert (present x t \/ ~ present x t) as [Hx|Hx].
  { rewrite <- inorder_present. destruct (decide (x ∈ inorder t)); auto. }
  - destruct (Hin Hx) as [-> ->]. by rewrite grown_present.
  - destruct (Hout Hx) as [_ ->]. pose proof (levels_grown t x). lia.
Qed.

Lemma build_holds keys :
  exists h root t, build keys = Some (h, root) /\ holds h root t /\
                   forall x, present x t <-> x ∈ keys.
Proof.
  unfold build.
  assert (forall h root t,
            holds h root t ->
            exists h' root' t', fold_left insert_key keys (Some (h, root)) = Some (h', root') /\
              holds h' root' t' /\ forall x, present x t' <-> x ∈ keys \/ present x t) as Hgen.
  { induction keys as [|k keys IH]; intros h root t Hh.
    - exists h, root, t. split; [done|]. split; [done|]. intros x. rewrite elem_of_nil. tauto.
    - cbn [fold_left].
      destruct (insert_key_holds h root t k Hh) as (h1 & root1 & -> & Hh1).
      destruct (IH h1 root1 _ Hh1) as (h' & root' & t' & Hrun & Hh' & Hkeys).
      exists h', root', t'. split; [done|]. split; [done|].
      intros x. rewrite Hkeys, present_grown, elem_of_cons. tauto. }
  destruct (Hgen [] None Leaf) as (h & root & t & Hrun & Hh & Hkeys).
  { split; [done|]. split; [done|]. simpl. lia. }
  exists h, root, t. split; [done|]. split; [done|].
  intros x. rewrite Hkeys. simpl. tauto.
Qed.

Lemma present_dec x t : present x t \/ ~ present x t.
Proof. rewrite <- inorder_present. destruct (decide (x ∈ inorder t)); auto. Qed.

Lemma BSTSearch_spec fuel h t root x :
  rep h t root -> ordered t -> (levels t < fuel)%nat ->
  exists p parent, BSTSearch fuel h root x = Some (p, parent) /\
    (present x t -> found_at h x root None p parent) /\
    (~ present x t -> p = None /\ ended_at h x root None parent).
Proof.
  intros Hrep Hord Hfuel. unfold BSTSearch.
  destruct (present_dec x t) as [Hx|Hx].
  - destruct (BSTSearch_loop_found fuel h t x root None Hrep Hord Hx Hfuel)
      as (p & parent & -> & Hf).
    exists p, parent. split; [done|]. split; [done | tauto].
  - destruct (BSTSearch_loop_absent fuel h t x root None Hrep Hord Hx Hfuel)
      as (parent & -> & He).
    exists None, parent. split; [done|]. split; [tauto | done].
Qed.

Lemma BSTInsert_grows fuel h t x root :
  rep h t root -> ordered t -> (levels t < fuel)%nat ->
  exists h' root' a nd t',
    BSTInsert fuel h root x = Some (h', root', Some a) /\
    rep h' t' root' /\ ordered t' /\
    (forall y, present y t' <-> y = x \/ present y t) /\
    h' !! a = Some nd /\ key nd = x /\
    (present x t -> h' = h /\ root' = root) /\
    (forall b ndb, h !! b = Some ndb ->
       exists ndb', h' !! b = Some ndb' /\ key ndb' = key ndb).
Proof.
  intros Hrep Hord Hfuel.
  destruct (BSTInsert_spec fuel h t x root Hrep Hord Hfuel)
    as (h' & root' & a & nd & Hrun & Hrep' & Ha & Hk & Hin & _ & Hold).
  exists h', root', a, nd, (grown t x). split; [done|]. split; [done|].
  split; [by apply ordered_grown|]. split; [intros y; apply present_grown|]. done.
Qed.

Lemma build_inorder keys :
  exists h root out,
    build keys = Some (h, root) /\
    inorderBST (S (length h)) h root = Some out /\
    StronglySorted Z.lt out /\ (forall x, x ∈ out <-> x ∈ keys) /\
    forall x, exists p parent,
      BSTSearch (S (length h)) h root x = Some (p, parent) /\ (p <> None <-> x ∈ keys).
Proof.
  destruct (build_holds keys) as (h & root & t & Hrun & (Hrep & Hord & Hlev) & Hkeys).
  exists h, root, (inorder t). split; [done|].
  split; [apply inorderBST_spec; [done | lia]|].
  split; [by apply inorder_sorted|].
  split; [intros x; by rewrite inorder_present|].
  intros x.
  destruct (BSTSearch_spec (S (length h)) h t root x Hrep Hord ltac:(lia))
    as (p & parent & -> & Hin & Hout).
  exists p, parent. split; [done|]. rewrite <- Hkeys.
  destruct (present_dec x t) as [Hx|Hx].
  - destruct (Hin Hx) as [(a & nd & -> & _) _]. split; [done|]. done.
  - destruct (Hout Hx) as [-> _]. split; [done | tauto].
Qed.
End BST.

(* ================================================================== *)
(** * 查找/哈希表.cpp : the hash table with chaining                     *)
(* ================================================================== *)

Module Chained.
(** [class ChainedHashTable] *)
Record ChainedHashTable : Type := { buckets : list (list Z) }.

(** [explicit ChainedHashTable(size_t tableSize) : buckets(tableSize)] *)
Definition create (tableSize : Z) : ChainedHashTable :=
  {| buckets := replicate (Z.to_nat tableSize) [] |}.

(** [for (int x : lst) if (x == key) return ...;] *)
Fixpoint scan (lst : list Z) (key : Z) : bool :=
  match lst with
  | [] => false
  | x :: lst' => if x =? key then true else scan lst' key
  end.

(** [lst.remove(key)] *)
Fixpoint remove (lst : list Z) (key : Z) : list Z :=
  match lst with
  | [] => []
  | x :: lst' => if x =? key then remove lst' key else x :: remove lst' key
  end.

(** [void insert(int key)] *)
Definition insert (key : Z) (t : ChainedHashTable) : ChainedHashTable :=
  let index := HashTable.hashModPrime key (len (buckets t)) in
  let lst := get (buckets t) index in
  if scan lst key then t
  else {| buckets := set (buckets t) index (key :: lst) |}.

(** [bool find(int key) const] *)
Definition find (key : Z) (t : ChainedHashTable) : bool :=
  let index := HashTable.hashModPrime key (len (buckets t)) in
  scan (get (buckets t) index) key.

(** [void erase(int key)] *)
Definition erase (key : Z) (t : ChainedHashTable) : ChainedHashTable :=
  let index := HashTable.hashModPrime key (len (buckets t)) in
  {| buckets := set (buckets t) index (remove (get (buckets t) index) key) |}.

Definition step (t : ChainedHashTable) (o : HashTable.op) : ChainedHashTable :=
  match o with
  | HashTable.Insert k => insert k t
  | HashTable.Erase k => erase k t
  end.

Definition run (ops : list HashTable.op) (t : ChainedHashTable) : ChainedHashTable :=
  fold_left step ops t.

(** The table of [main], and an [erase]. *)
Example chained_demo :
  let t := run (HashTable.Insert <$> [19; 1; 23; 14; 55; 68; 11; 82; 36]) (create 7) in
  (buckets t, find 55 t, find 100 t, find 55 (erase 55 t))
  = ([[14]; [36; 1]; [23]; []; [11]; [82; 68; 19]; [55]], true, false, false).
Proof. vm_compute. reflexivity. Qed.

(** ** The table is a set of keys *)

(** Whether [x] is in the set after the operations, when it was [b]
    before. *)
Definition member_after (ops : list HashTable.op) (x : Z) (b : bool) : bool :=
  fold_left (fun b o => match o with
                        | HashTable.Insert k => (x =? k) || b
                        | HashTable.Erase k => negb (x =? k) && b
                        end) ops b.

Lemma scan_elem_of lst key : scan lst key = true <-> key ∈ lst.
Proof.
  induction lst as [|x lst IH]; simpl; [by rewrite elem_of_nil|].
  rewrite elem_of_cons. destruct (Z.eqb_spec x key) as [->|Hne]; [tauto|].
  rewrite IH. split; [tauto|]. intros [->|?]; done.
Qed.

Lemma scan_remove lst k x : scan (remove lst k) x = negb (x =? k) && scan lst x.
Proof.
  induction lst as [|y lst IH]; simpl; [by rewrite andb_false_r|].
  destruct (Z.eqb_spec y k) as [->|Hyk]; simpl.
  - rewrite IH. destruct (Z.eqb_spec k x) as [->|Hkx]; [|done].
    by rewrite Z.eqb_refl.
  - rewrite IH. destruct (Z.eqb_spec y x) as [->|Hyx]; [|done].
    by destruct (Z.eqb_spec x k).
Qed.

Lemma NoDup_remove lst k : NoDup lst -> NoDup (remove lst k).
Proof.
  induction 1 as [|y lst Hy Hnd IH]; simpl; [constructor|].
  destruct (y =? k); [done|]. constructor; [|done].
  intros Hin. apply Hy. apply scan_elem_of. apply scan_elem_of in Hin.
  rewrite scan_remove in Hin. by apply andb_prop in Hin as [_ ?].
Qed.

Section Table.
Variable t : ChainedHashTable.
Hypothesis Hsize : 1 <= len (buckets t) < 2 ^ 62.

Lemma insert_size k : len (buckets (insert k t)) = len (buckets t).
Proof. unfold insert. cbn zeta. destruct (scan _ _); [done|]. simpl. by rewrite len_set. Qed.

Lemma erase_size k : len (buckets (erase k t)) = len (buckets t).
Proof. unfold erase. simpl. by rewrite len_set. Qed.

Lemma find_insert k x : find x (insert k t) = (x =? k) || find x t.
Proof.
  unfold find. rewrite insert_size. unfold insert. cbn zeta.
  pose proof (HashTable.hashModPrime_range k _ Hsize) as Hk.
  pose proof (HashTable.hashModPrime_range x _ Hsize) as Hx.
  destruct (scan (get (buckets t) _) k) eqn:Hscan.
  - destruct (Z.eqb_spec x k) as [->|]; [by rewrite Hscan | done].
  - cbn [buckets]. rewrite get_set by lia.
    destruct (Z.eq_dec _ _) as [Heq|Hne].
    + simpl. rewrite <- Heq. by rewrite (Z.eqb_sym k x).
    + destruct (Z.eqb_spec x k) as [->|]; [done | done].
Qed.

Lemma find_erase k x : find x (erase k t) = negb (x =? k) && find x t.
Proof.
  unfold find. rewrite erase_size. unfold erase. cbn [buckets].
  pose proof (HashTable.hashModPrime_range k _ Hsize) as Hk.
  pose proof (HashTable.hashModPrime_range x _ Hsize) as Hx.
  rewrite get_set by lia.
  destruct (Z.eq_dec _ _) as [Heq|Hne].
  - rewrite scan_remove. by rewrite <- Heq.
  - destruct (Z.eqb_spec x k) as [->|]; [done | done].
Qed.
End Table.

Lemma find_run ops t x :
  1 <= len (buckets t) < 2 ^ 62 ->
  find x (run ops t) = member_after ops x (find x t).
Proof.
  unfold run, member_after. revert t.
  induction ops as [|[k|k] ops IH]; intros t Hsize; [done| |]; simpl.
  - rewrite IH by (by rewrite insert_size). by rewrite find_insert.
  - rewrite IH by (by rewrite erase_size). by rewrite find_erase.
Qed.

Lemma find_create m x : find x (create m) = false.
Proof.
  unfold find, create. cbn [buckets].
  generalize (HashTable.hashModPrime x (len (replicate (Z.to_nat m) ([] : list Z)))).
  intros h. unfold get. destruct (decide (Z.to_nat h < Z.to_nat m)%nat).
  - by rewrite lookup_total_replicate_2.
  - rewrite list_lookup_total_alt, lookup_ge_None_2; [done|].
    rewrite length_replicate. lia.
Qed.

(** No chain holds a key twice, and every key lies in the chain of its
    hash value. *)
Definition chains_ok (t : ChainedHashTable) : Prop :=
  forall i, 0 <= i < len (buckets t) ->
    NoDup (get (buckets t) i) /\
    forall k, k ∈ get (buckets t) i -> HashTable.hashModPrime k (len (buckets t)) = i.

Lemma chains_ok_create m : chains_ok (create m).
Proof.
  intros i Hi. unfold create in *. cbn [buckets] in *.
  unfold len in Hi. rewrite length_replicate in Hi.
  unfold get. rewrite lookup_total_replicate_2 by lia.
  split; [constructor | intros k Hk; by apply elem_of_nil in Hk].
Qed.

Lemma chains_ok_step t o :
  1 <= len (buckets t) < 2 ^ 62 -> chains_ok t -> chains_ok (step t o).
Proof.
  intros Hsize Hok. destruct o as [k|k]; simpl.
  - unfold insert. cbn zeta.
    pose proof (HashTable.hashModPrime_range k _ Hsize) as Hk.
    destruct (scan (get (buckets t) _) k) eqn:Hscan; [done|].
    intros i Hi. cbn [buckets] in *. rewrite len_set in *. rewrite get_set by lia.
    destruct (Z.eq_dec _ i) as [Heq|Hne]; [|by apply Hok].
    destruct (Hok i Hi) as [Hnd Hhash]. rewrite <- Heq in *. split.
    + constructor; [|done]. intros Hin%scan_elem_of. congruence.
    + intros k' [->|Hin]%elem_of_cons; [done | by apply Hhash].
  - unfold erase.
    pose proof (HashTable.hashModPrime_range k _ Hsize) as Hk.
    intros i Hi. cbn [buckets] in *. rewrite len_set in *. rewrite get_set by lia.
    destruct (Z.eq_dec _ i) as [Heq|Hne]; [|by apply Hok].
    destruct (Hok i Hi) as [Hnd Hhash]. rewrite <- Heq in *. split.
    + by apply NoDup_remove.
    + intros k' Hin%scan_elem_of. rewrite scan_remove in Hin.
      apply andb_prop in Hin as [_ Hin%scan_elem_of]. by apply Hhash.
Qed.

Lemma run_size ops t : len (buckets (run ops t)) = len (buckets t).
Proof.
  unfold run. revert t. induction ops as [|[k|k] ops IH]; intros t; [done| |]; simpl.
  - rewrite IH. unfold insert. cbn zeta. destruct (scan _ _); [done|]. simpl. by rewrite len_set.
  - rewrite IH. unfold erase. simpl. by rewrite len_set.
Qed.

Lemma chains_ok_run ops t :
  1 <= len (buckets t) < 2 ^ 62 -> chains_ok t -> chains_ok (run ops t).
Proof.
  unfold run. revert t. induction ops as [|o ops IH]; intros t Hsize Hok; [done|].
  simpl. apply IH.
  - change (step t o) with (run [o] t). by rewrite run_size.
  - by apply chains_ok_step.
Qed.

Lemma chained_set m ops :
  1 <= m < 2 ^ 62 ->
  let t := run ops (create m) in
  len (buckets t) = m /\ chains_ok t /\
  forall x, find x t = member_after ops x false.
Proof.
  intros Hm t.
  assert (len (buckets (create m)) = m) as Hlen.
  { unfold create, len. simpl. rewrite length_replicate. lia. }
  split; [unfold t; by rewrite run_size|].
  split; [apply chains_ok_run; [by rewrite Hlen | apply chains_ok_create]|].
  intros x. unfold t. rewrite find_run by (by rewrite Hlen). by rewrite find_create.
Qed.
End Chained.

(* ================================================================== *)
(** * 查找/动态表查找.cpp : searching a B-tree                           *)
(* ================================================================== *)

Module BTree.
(** [struct BTreeNode], and [Null] for [nullptr]. *)
#[local] Unset Elimination Schemes.
Inductive BTreeNode : Type :=
  | Null
  | BNode (leaf : bool) (keys : list Z) (c : list BTreeNode).
#[local] Set Elimination Schemes.

(** [node->leaf], [node->keys], [node->c]; no search reads them
    through [nullptr]. *)
Definition leaf (p : BTreeNode) : bool :=
  match p with BNode l _ _ => l | Null => true end.
Definition keys (p : BTreeNode) : list Z :=
  match p with BNode _ ks _ => ks | Null => [] end.
Definition c (p : BTreeNode) : list BTreeNode :=
  match p with BNode _ _ cs => cs | Null => [] end.

(** [while (i < node->keys.size() && key > node->keys[i]) ++i;] *)
Fixpoint scan_keys (fuel : nat) (ks : list Z) (key : Z) (i : nat) : nat :=
  match fuel with
  | O => i
  | S fuel' =>
      match ks !! i with
      | Some k => if key >? k then scan_keys fuel' ks key (S i) else i
      | None => i
      end
  end.

(** [std::pair<bool, size_t> BTreeSearchInNode(BTreeNode *node, int key)] *)
Definition BTreeSearchInNode (node : BTreeNode) (key : Z) : bool * nat :=
  let i := scan_keys (length (keys node)) (keys node) key 0 in
  match keys node !! i with
  | Some k => if key =? k then (true, i) else (false, i)
  | None => (false, i)
  end.

(** The loop of [BTreeSearch]: the pointer returned, or nothing when
    the loop reads a child that the node does not have or runs out of
    fuel. *)
Fixpoint BTreeSearch_loop (fuel : nat) (p : BTreeNode) (key : Z) : option BTreeNode :=
  match fuel with
  | O => None
  | S fuel' =>
      match p with
      | Null => Some Null
      | BNode _ _ _ =>
          let '(found, index) := BTreeSearchInNode p key in
          if found then Some p
          else if leaf p then Some Null
          else
            match c p !! index with
            | Some child => BTreeSearch_loop fuel' child key
            | None => None
            end
      end
  end.

(** [BTreeNode *BTreeSearch(BTreeNode *root, int key)] *)
Definition BTreeSearch (fuel : nat) (root : BTreeNode) (key : Z) : option BTreeNode :=
  match root with
  | Null => Some Null
  | BNode _ _ _ => BTreeSearch_loop fuel root key
  end.

(** The tree of [main]. *)
Definition rootB : BTreeNode :=
  BNode false [50] [BNode true [15; 26; 43] []; BNode true [56; 78; 89] []].

Example BTreeSearch_demo :
  (BTreeSearch 3 rootB 43, BTreeSearch 3 rootB 50, BTreeSearch 3 rootB 60)
  = (Some (BNode true [15; 26; 43] []), Some rootB, Some Null).
Proof. vm_compute. reflexivity. Qed.

(** ** Searching one node *)
Lemma scan_keys_spec fuel ks key i :
  (length ks <= i + fuel)%nat ->
  let r := scan_keys fuel ks key i in
  (i <= r <= Nat.max i (length ks))%nat /\
  (forall j k, (i <= j < r)%nat -> ks !! j = Some k -> k < key) /\
  (forall k, ks !! r = Some k -> key <= k).
Proof.
  revert i. induction fuel as [|fuel IH]; intros i Hfuel; simpl.
  - split; [lia|]. split; [intros; lia|].
    intros k Hk. apply lookup_lt_Some in Hk. lia.
  - destruct (ks !! i) as [k|] eqn:Hi.
    + destruct (Z.gtb_spec key k) as [Hgt|Hle].
      * destruct (IH (S i) ltac:(lia)) as (Hr & Hlt & Hge).
        pose proof (lookup_lt_Some _ _ _ Hi).
        split; [lia|]. split; [|done].
        intros j k' Hj Hk'. destruct (decide (j = i)) as [->|]; [|apply (Hlt j); [lia | done]].
        assert (k' = k) as -> by congruence. lia.
      * split; [lia|]. split; [intros; lia|]. intros k' Hk'.
        assert (k' = k) as -> by congruence. done.
    + split; [lia|]. split; [intros; lia|]. intros k Hk. congruence.
Qed.

(** In a node with increasing keys, the search finds the key when the
    node has it, and else the number of keys below it: the child to
    descend to. *)
Lemma BTreeSearchInNode_spec node key :
  StronglySorted Z.lt (keys node) ->
  let '(found, i) := BTreeSearchInNode node key in
  (i <= length (keys node))%nat /\
  (forall j k, (j < i)%nat -> keys node !! j = Some k -> k < key) /\
  (forall j k, (i <= j)%nat -> keys node !! j = Some k ->
               if found then (j = i /\ k = key) \/ key < k else key < k) /\
  (found = true <-> key ∈ keys node).
Proof.
  intros Hsorted. unfold BTreeSearchInNode.
  destruct (scan_keys_spec (length (keys node)) (keys node) key 0 ltac:(lia))
    as (Hr & Hlt & Hge).
  set (i := scan_keys _ _ _ _) in *.
  assert (forall j1 j2 k1 k2, (j1 < j2)%nat -> keys node !! j1 = Some k1 ->
                              keys node !! j2 = Some k2 -> k1 < k2) as Hinc.
  { clear -Hsorted. induction Hsorted as [|x l Hs IH Hall]; intros j1 j2 k1 k2 Hj H1 H2.
    - by rewrite lookup_nil in H1.
    - destruct j2 as [|j2]; [lia|]. simpl in H2. destruct j1 as [|j1].
      + injection H1 as <-. rewrite Forall_forall in Hall. apply Hall.
        by apply list_elem_of_lookup_2 in H2.
      + simpl in H1. apply (IH j1 j2); [lia | done | done]. }
  destruct (keys node !! i) as [k|] eqn:Hi.
  - specialize (Hge k eq_refl). pose proof (lookup_lt_Some _ _ _ Hi).
    destruct (Z.eqb_spec key k) as [->|Hne].
    + split; [lia|]. split; [intros j k' Hj; apply Hlt; lia|]. split.
      * intros j k' Hj Hk'. destruct (decide (j = i)) as [->|]; [left|right].
        -- split; [done | congruence].
        -- apply (Hinc i j); [lia | done | done].
      * split; [intros _; by apply list_elem_of_lookup_2 in Hi | done].
    + split; [lia|]. split; [intros j k' Hj; apply Hlt; lia|]. split.
      * intros j k' Hj Hk'. destruct (decide (j = i)) as [->|].
        -- assert (k' = k) as -> by congruence. lia.
        -- pose proof (Hinc i j k k' ltac:(lia) Hi Hk'). lia.
      * split; [done|]. intros [j Hj]%list_elem_of_lookup.
        destruct (decide (j < i)%nat) as [Hlt'|Hge'].
        -- pose proof (Hlt j key ltac:(lia) Hj). lia.
        -- destruct (decide (j = i)) as [->|]; [congruence|].
           pose proof (Hinc i j k key ltac:(lia) Hi Hj). lia.
  - apply lookup_ge_None_1 in Hi.
    split; [lia|]. split; [intros j k' Hj; apply Hlt; lia|]. split.
    + intros j k Hj Hk. apply lookup_lt_Some in Hk. lia.
    + split; [done|]. intros [j Hj]%list_elem_of_lookup.
      pose proof (lookup_lt_Some _ _ _ Hj).
      pose proof (Hlt j key ltac:(lia) Hj). lia.
Qed.

(** ** Searching the tree *)

(** Every key of the tree of height at most [h] satisfies [P]. *)
Fixpoint all_keys (h : nat) (P : Z -> Prop) (t : BTreeNode) : Prop :=
  Forall P (keys t) /\
  (leaf t = false ->
   match h with
   | O => False
   | S h' => forall i ch, c t !! i = Some ch -> all_keys h' P ch
   end).

(** The key lies in the tree of height at most [h]. *)
Fixpoint holds (h : nat) (t : BTreeNode) (key : Z) : Prop :=
  key ∈ keys t \/
  (leaf t = false /\
   match h with
   | O => False
   | S h' => exists i ch, c t !! i = Some ch /\ holds h' ch key
   end).

(** The key lies between its neighbours of the node: child [i] holds
    the keys above key [i - 1] and below key [i]. *)
Definition between (ks : list Z) (i : nat) (x : Z) : Prop :=
  (forall j k, (j < i)%nat -> ks !! j = Some k -> k < x) /\
  (forall j k, (i <= j)%nat -> ks !! j = Some k -> x < k).

(** A search tree of height at most [h]: the keys of a node increase,
    an inner node has one child more than keys, and no child is missing. *)
Fixpoint btree (h : nat) (t : BTreeNode) : Prop :=
  t <> Null /\ StronglySorted Z.lt (keys t) /\
  (leaf t = false ->
   match h with
   | O => False
   | S h' =>
       length (c t) = S (length (keys t)) /\
       forall i ch, c t !! i = Some ch ->
                    btree h' ch /\ all_keys h' (between (keys t) i) ch
   end).

Lemma all_keys_holds h P t key : all_keys h P t -> holds h t key -> P key.
Proof.
  revert t. induction h as [|h IH]; intros t; simpl.
  - intros [Hk Hc] [Hin|[Hl []]]. rewrite Forall_forall in Hk. by apply Hk.
  - intros [Hk Hc] [Hin|[Hl (i & ch & Hch & Hin)]].
    + rewrite Forall_forall in Hk. by apply Hk.
    + apply (IH ch); [by apply (Hc Hl i) | done].
Qed.

Lemma BTreeSearch_loop_node fuel t key :
  t <> Null ->
  BTreeSearch_loop (S fuel) t key
  = let '(found, index) := BTreeSearchInNode t key in
    if found then Some t
    else if leaf t then Some Null
    else match c t !! index with
         | Some child => BTreeSearch_loop fuel child key
         | None => None
         end.
Proof. by destruct t. Qed.

Lemma BTreeSearch_loop_spec h t key :
  btree h t ->
  (holds h t key ->
   exists node, BTreeSearch_loop (S h) t key = Some node /\ key ∈ keys node) /\
  (~ holds h t key -> BTreeSearch_loop (S h) t key = Some Null).
Proof.
  revert t. induction h as [|h IH]; intros t (Hnn & Hsorted & Hinner).
  - rewrite BTreeSearch_loop_node by done.
    pose proof (BTreeSearchInNode_spec t key Hsorted) as Hnode.
    destruct (BTreeSearchInNode t key) as [found i].
    destruct Hnode as (_ & _ & _ & Hfound).
    destruct (leaf t) eqn:Hleaf; [|by destruct (Hinner eq_refl)].
    split.
    + intros [Hin|[Hl _]]; [|congruence].
      assert (found = true) as -> by (by apply Hfound). by exists t.
    + intros Hnot. destruct found; [|done]. destruct Hnot. left. by apply Hfound.
  - rewrite BTreeSearch_loop_node by done.
    pose proof (BTreeSearchInNode_spec t key Hsorted) as Hnode.
    destruct (BTreeSearchInNode t key) as [found i].
    destruct Hnode as (Hi & Hbelow & Habove & Hfound).
    destruct found.
    { split; [intros _; exists t; split; [done | by apply Hfound]|].
      intros Hnot. destruct Hnot. left. by apply Hfound. }
    assert (key ∉ keys t) as Hnotin by (intros Hin%Hfound; done).
    destruct (leaf t) eqn:Hleaf.
    { split; [intros [Hin|[Hl _]]; [done | congruence] | done]. }
    destruct (Hinner eq_refl) as [Hlen Hchildren].
    destruct (lookup_lt_is_Some_2 (c t) i ltac:(lia)) as [ch Hch].
    destruct (Hchildren i ch Hch) as [Hbt Hall]. rewrite Hch.
    destruct (IH ch Hbt) as [Hyes Hno].
    assert (holds (S h) t key <-> holds h ch key) as Hequiv.
    { split.
      - intros [Hin|[_ (j & ch' & Hch' & Hin)]]; [done|].
        destruct (decide (j = i)) as [->|Hne]; [congruence|].
        pose proof (lookup_lt_Some _ _ _ Hch') as Hj. rewrite Hlen in Hj.
        destruct (Hchildren j ch' Hch') as [_ Hall'].
        destruct (all_keys_holds _ _ _ _ Hall' Hin) as [Hlo Hhi].
        exfalso. destruct (decide (j < i)%nat) as [Hlt|Hge].
        + destruct (lookup_lt_is_Some_2 (keys t) j ltac:(lia)) as [k Hk].
          pose proof (Hbelow j k Hlt Hk). pose proof (Hhi j k ltac:(lia) Hk). lia.
        + destruct (lookup_lt_is_Some_2 (keys t) i ltac:(lia)) as [k Hk].
          pose proof (Habove i k ltac:(lia) Hk). pose proof (Hlo i k ltac:(lia) Hk). lia.
      - intros Hin. right. split; [done|]. by exists i, ch. }
    split.
    + intros Hin%Hequiv. by apply Hyes.
    + intros Hnot. apply Hno. by rewrite <- Hequiv.
Qed.

Lemma BTreeSearch_spec h root key :
  btree h root ->
  (holds h root key ->
   exists node, BTreeSearch (S h) root key = Some node /\ key ∈ keys node) /\
  (~ holds h root key -> BTreeSearch (S h) root key = Some Null).
Proof.
  intros Hbt. pose proof (BTreeSearch_loop_spec h root key Hbt) as Hloop.
  assert (root <> Null) as Hnn by (destruct h; by destruct Hbt).
  unfold BTreeSearch. by destruct root.
Qed.

Lemma rootB_btree : btree 1 rootB.
Proof.
  split; [done|]. split; [repeat constructor|]. intros _. split; [done|].
  intros [|[|i]] ch [= <-].
  - split; [split; [done|]; split; [repeat constructor | done]|].
    split; [|done]. repeat constructor; intros [|j] k Hj [= <-]; lia.
  - split; [split; [done|]; split; [repeat constructor | done]|].
    split; [|done]. repeat constructor; intros [|j] k Hj; try lia; intros [= <-]; lia.
Qed.
End BTree.

(* ================================================================== *)
(** * 线性表/线性表.cpp : the sequential list                            *)
(* ================================================================== *)

Module SqList.
(** [class SqList<int>] *)
Record SqList : Type := { count : Z; maxSize : Z; elems : list Z }.

Definition DEFAULT_SIZE : Z := 100.

(** [explicit SqList(int size = DEFAULT_SIZE)]; [new ElemType[maxSize]]
    gives [maxSize] cells and leaves in them what the memory held, which
    [fresh] stands for. *)
Definition create (size : Z) (fresh : list Z) : SqList :=
  let maxSize := if size <=? 0 then DEFAULT_SIZE else size in
  {| count := 0; maxSize := maxSize;
     elems := take (Z.to_nat maxSize) (fresh ++ replicate (Z.to_nat maxSize) 0) |}.

Definition Length (s : SqList) : Z := count s.

(** [bool GetElem(int position, ElemType &e) const]: [Some e] for true. *)
Definition GetElem (position : Z) (s : SqList) : option Z :=
  if (position <? 1) || (position >? count s) then None
  else Some (get (elems s) (position - 1)).

(** [bool SetElem(int position, const ElemType &e)] *)
Definition SetElem (position e : Z) (s : SqList) : bool * SqList :=
  if (position <? 1) || (position >? count s) then (false, s)
  else (true, {| count := count s; maxSize := maxSize s;
                 elems := set (elems s) (position - 1) e |}).

(** [bool Insert(int position, const ElemType &e)] *)
Definition Insert (position e : Z) (s : SqList) : bool * SqList :=
  if count s =? maxSize s then (false, s)
  else if (position <? 1) || (position >? wrap32 (count s + 1)) then (false, s)
  else
    let el := for_down (count s) (position - 1)
                       (fun i el => set el i (get el (i - 1))) (elems s) in
    (true, {| count := wrap32 (count s + 1); maxSize := maxSize s;
              elems := set el (position - 1) e |}).

(** [bool Delete(int position, ElemType &e)]: the element taken out, for
    true, and the list after the call. *)
Definition Delete (position : Z) (s : SqList) : option Z * SqList :=
  if (position <? 1) || (position >? count s) then (None, s)
  else
    let e := get (elems s) (position - 1) in
    let el := for_up position (count s)
                     (fun i el => set el (i - 1) (get el i)) (elems s) in
    (Some e, {| count := wrap32 (count s - 1); maxSize := maxSize s; elems := el |}).

(** The list of [main]: 10, 20, 30, 40, then 15 before the second and 35
    before the fifth, 200 at the third, the fifth and the first taken
    out. *)
Definition demo : SqList :=
  let L := create 10 [7; 7; 7] in
  let L := snd (Insert 1 10 L) in
  let L := snd (Insert 2 20 L) in
  let L := snd (Insert 3 30 L) in
  let L := snd (Insert 4 40 L) in
  let L := snd (Insert 2 15 L) in
  let L := snd (Insert 5 35 L) in
  let L := snd (SetElem 3 200 L) in
  let L := snd (Delete 5 L) in
  snd (Delete 1 L).

Example SqList_demo_list :
  take (Z.to_nat (count demo)) (elems demo) = [15; 200; 30; 40] /\
  GetElem 0 demo = None /\ GetElem 5 demo = None /\ GetElem 4 demo = Some 40.
Proof. vm_compute. done. Qed.

(** ** Positions outside the list are refused *)

Lemma SqList_GetElem_out position s : ~ 1 <= position <= count s -> GetElem position s = None.
Proof.
  intros Hout. unfold GetElem.
  destruct (Z.ltb_spec position 1), (Z.gtb_spec position (count s)); simpl; (done || lia).
Qed.

Lemma SqList_SetElem_out position e s :
  ~ 1 <= position <= count s -> SetElem position e s = (false, s).
Proof.
  intros Hout. unfold SetElem.
  destruct (Z.ltb_spec position 1), (Z.gtb_spec position (count s)); simpl; (done || lia).
Qed.

Lemma SqList_Delete_out position s : ~ 1 <= position <= count s -> Delete position s = (None, s).
Proof.
  intros Hout. unfold Delete.
  destruct (Z.ltb_spec position 1), (Z.gtb_spec position (count s)); simpl; (done || lia).
Qed.

Lemma SqList_Insert_out position e s :
  0 <= count s < INT_MAX -> ~ 1 <= position <= count s + 1 ->
  Insert position e s = (false, s).
Proof.
  intros Hcount Hout. unfold Insert. destruct (count s =? maxSize s); [done|].
  rewrite wrap32_small by (unfold INT_MAX in Hcount; lia).
  destruct (Z.ltb_spec position 1), (Z.gtb_spec position (count s + 1)); simpl; (done || lia).
Qed.

(** A full list takes no element, whatever the position. *)
Lemma SqList_Insert_full position e s : count s = maxSize s -> Insert position e s = (false, s).
Proof. intros Hfull. unfold Insert. by rewrite Hfull, Z.eqb_refl. Qed.
End SqList.

(* ================================================================== *)
(** * 链表/链表.cpp : the linked lists                                   *)
(* ================================================================== *)

(** A chain of nodes is the list of its data nodes, in order, after the
    head node.  A pointer to a node of the chain is the node's position,
    0 for the head node, and [None] is [nullptr]. *)

Module SimpleLinkList.
Definition ptr : Type := option Z.

(** The loop [while (p && j < position) { p = p->next; ++j; }] of
    [GetElemPtr]: [p] stands on a node that [rest] follows. *)
Fixpoint walk (rest : list Z) (p j position : Z) : ptr :=
  if j <? position then
    match rest with
    | [] => None
    | _ :: rest' => walk rest' (p + 1) (j + 1) position
    end
  else Some p.

(** [Node<ElemType> *GetElemPtr(int position) const] *)
Definition GetElemPtr (position : Z) (l : list Z) : ptr :=
  if position <? 0 then None else walk l 0 0 position.

(** [int Length() const]: one [++len] for each data node. *)
Definition Length (l : list Z) : Z := fold_left (fun n _ => wrap32 (n + 1)) l 0.

(** [bool GetElem(int position, ElemType &e) const]: [Some e] for true. *)
Definition GetElem (position : Z) (l : list Z) : option Z :=
  if position <? 1 then None
  else
    match GetElemPtr position l with
    | None => None
    | Some p => Some (get l (p - 1))
    end.

(** [bool SetElem(int position, const ElemType &e)] *)
Definition SetElem (position e : Z) (l : list Z) : bool * list Z :=
  if position <? 1 then (false, l)
  else
    match GetElemPtr position l with
    | None => (false, l)
    | Some p => (true, set l (p - 1) e)
    end.

(** [bool Insert(int position, const ElemType &e)]: the new node goes
    between [prev] and [prev->next]. *)
Definition Insert (position e : Z) (l : list Z) : bool * list Z :=
  if (position <? 1) || (position >? wrap32 (Length l + 1)) then (false, l)
  else
    match GetElemPtr (position - 1) l with
    | None => (false, l)
    | Some prev => (true, take (Z.to_nat prev) l ++ e :: drop (Z.to_nat prev) l)
    end.

(** [bool Delete(int position, ElemType &e)]: the element taken out, for
    true, and the list after the call.  After the test of [position],
    [prev] and [prev->next] are nodes (the source takes it for granted). *)
Definition Delete (position : Z) (l : list Z) : option Z * list Z :=
  if (position <? 1) || (position >? Length l) then (None, l)
  else
    match GetElemPtr (position - 1) l with
    | None => (None, l)
    | Some prev => (Some (get l prev), take (Z.to_nat prev) l ++ drop (S (Z.to_nat prev)) l)
    end.

(** The list of [main]: 10, 20, 30 at the end, 15 before the second, the
    third taken out. *)
Definition demo : list Z :=
  let sl := [] in
  let sl := snd (Insert (Length sl + 1) 10 sl) in
  let sl := snd (Insert (Length sl + 1) 20 sl) in
  let sl := snd (Insert (Length sl + 1) 30 sl) in
  snd (Insert 2 15 sl).

Example Simple_demo_list :
  demo = [10; 15; 20; 30] /\ Delete 3 demo = (Some 20, [10; 15; 30]) /\
  GetElem 5 demo = None /\ GetElem 0 demo = None /\ GetElem 4 demo = Some 30.
Proof. vm_compute. done. Qed.

(** ** Positions outside the list are refused *)

Lemma Simple_walk_spec (rest : list Z) : forall p j position,
  walk rest p j position
  = if position <=? j then Some p
    else if position - j <=? len rest then Some (p + (position - j)) else None.
Proof.
  induction rest as [|x rest IH]; intros p j position; cbn [walk].
  - destruct (Z.ltb_spec j position), (Z.leb_spec position j); try lia; [|done].
    change (len []) with 0. destruct (Z.leb_spec (position - j) 0); [lia | done].
  - destruct (Z.ltb_spec j position), (Z.leb_spec position j); try lia; [|done].
    rewrite IH, len_cons. pose proof (len_nonneg rest).
    destruct (Z.leb_spec position (j + 1)), (Z.leb_spec (position - j) (1 + len rest)),
             (Z.leb_spec (position - (j + 1)) (len rest)); try lia; try done; f_equal; lia.
Qed.

Lemma Simple_GetElemPtr_spec position l :
  GetElemPtr position l = if (0 <=? position) && (position <=? len l) then Some position else None.
Proof.
  unfold GetElemPtr. rewrite Simple_walk_spec. pose proof (len_nonneg l).
  destruct (Z.ltb_spec position 0), (Z.leb_spec 0 position), (Z.leb_spec position 0),
           (Z.leb_spec position (len l)), (Z.leb_spec (position - 0) (len l));
    simpl; try lia; try done; f_equal; lia.
Qed.

Lemma Simple_Length_spec l : len l <= INT_MAX -> Length l = len l.
Proof.
  unfold Length. intros Hlen.
  assert (forall (r : list Z) n, 0 <= n -> n + len r <= INT_MAX ->
            fold_left (fun n _ => wrap32 (n + 1)) r n = n + len r) as Hgen.
  { induction r as [|x r IH]; intros n Hn Hmax; cbn [fold_left].
    - change (len []) with 0. lia.
    - rewrite len_cons in *. pose proof (len_nonneg r).
      rewrite wrap32_small by (unfold INT_MAX in Hmax; lia). rewrite IH; lia. }
  rewrite Hgen; lia.
Qed.

Lemma Simple_GetElem_out position l : ~ 1 <= position <= len l -> GetElem position l = None.
Proof.
  intros Hout. unfold GetElem. destruct (Z.ltb_spec position 1); [done|].
  rewrite Simple_GetElemPtr_spec.
  destruct (Z.leb_spec 0 position), (Z.leb_spec position (len l)); simpl; (done || lia).
Qed.

Lemma Simple_SetElem_out position e l : ~ 1 <= position <= len l -> SetElem position e l = (false, l).
Proof.
  intros Hout. unfold SetElem. destruct (Z.ltb_spec position 1); [done|].
  rewrite Simple_GetElemPtr_spec.
  destruct (Z.leb_spec 0 position), (Z.leb_spec position (len l)); simpl; (done || lia).
Qed.

Lemma Simple_Insert_out position e l :
  len l < INT_MAX -> ~ 1 <= position <= len l + 1 -> Insert position e l = (false, l).
Proof.
  intros Hlen Hout. unfold Insert. rewrite Simple_Length_spec by lia.
  pose proof (len_nonneg l).
  rewrite wrap32_small by (unfold INT_MAX in Hlen; lia).
  destruct (Z.ltb_spec position 1), (Z.gtb_spec position (len l + 1)); simpl; (done || lia).
Qed.

Lemma Simple_Delete_out position l :
  len l <= INT_MAX -> ~ 1 <= position <= len l -> Delete position l = (None, l).
Proof.
  intros Hlen Hout. unfold Delete. rewrite Simple_Length_spec by lia.
  destruct (Z.ltb_spec position 1), (Z.gtb_spec position (len l)); simpl; (done || lia).
Qed.
End SimpleLinkList.

Module SimpleCircLinkList.
Definition ptr : Type := option Z.

(** The loop [while (p != head && j < position) { p = p->next; ++j; }]
    of [GetElemPtr] with the test of [p == head] that follows it: [p]
    is the first of [nodes], or the head node when none is left. *)
Fixpoint walk (nodes : list Z) (p j position : Z) : ptr :=
  match nodes with
  | [] => None
  | _ :: rest => if j <? position then walk rest (p + 1) (j + 1) position else Some p
  end.

(** [Node<ElemType> *GetElemPtr(int position) const] *)
Definition GetElemPtr (position : Z) (l : list Z) : ptr :=
  if position <? 0 then None
  else if position =? 0 then Some 0
  else walk l 1 1 position.

(** [int Length() const]: one [++len] for each data node. *)
Definition Length (l : list Z) : Z := fold_left (fun n _ => wrap32 (n + 1)) l 0.

(** [bool GetElem(int position, ElemType &e) const]: [Some e] for true. *)
Definition GetElem (position : Z) (l : list Z) : option Z :=
  if position <? 1 then None
  else
    match GetElemPtr position l with
    | None => None
    | Some p => Some (get l (p - 1))
    end.

(** [bool SetElem(int position, const ElemType &e)] *)
Definition SetElem (position e : Z) (l : list Z) : bool * list Z :=
  if position <? 1 then (false, l)
  else
    match GetElemPtr position l with
    | None => (false, l)
    | Some p => (true, set l (p - 1) e)
    end.

(** [bool Insert(int position, const ElemType &e)] *)
Definition Insert (position e : Z) (l : list Z) : bool * list Z :=
  if (position <? 1) || (position >? wrap32 (Length l + 1)) then (false, l)
  else
    match (if position =? 1 then Some 0 else GetElemPtr (position - 1) l) with
    | None => (false, l)
    | Some prev => (true, take (Z.to_nat prev) l ++ e :: drop (Z.to_nat prev) l)
    end.

(** [bool Delete(int position, ElemType &e)]: the element taken out, for
    true, and the list after the call; [target == head] when no node
    follows [prev]. *)
Definition Delete (position : Z) (l : list Z) : option Z * list Z :=
  if (position <? 1) || (position >? Length l) then (None, l)
  else
    match (if position =? 1 then Some 0 else GetElemPtr (position - 1) l) with
    | None => (None, l)
    | Some prev =>
        if len l <=? prev then (None, l)
        else (Some (get l prev), take (Z.to_nat prev) l ++ drop (S (Z.to_nat prev)) l)
    end.

(** The list of [main]: 1 to 5 at the end, the first taken out, 100 put
    in front. *)
Definition demo : list Z :=
  let cl := [] in
  let cl := snd (Insert (Length cl + 1) 1 cl) in
  let cl := snd (Insert (Length cl + 1) 2 cl) in
  let cl := snd (Insert (Length cl + 1) 3 cl) in
  let cl := snd (Insert (Length cl + 1) 4 cl) in
  let cl := snd (Insert (Length cl + 1) 5 cl) in
  let cl := snd (Delete 1 cl) in
  snd (Insert 1 100 cl).

Example Circ_demo_list :
  demo = [100; 2; 3; 4; 5] /\ GetElem 6 demo = None /\ GetElem 5 demo = Some 5.
Proof. vm_compute. done. Qed.

(** ** Positions outside the list are refused *)

Lemma Circ_walk_spec (nodes : list Z) : forall p j position,
  j <= position ->
  walk nodes p j position
  = if position - j <? len nodes then Some (p + (position - j)) else None.
Proof.
  induction nodes as [|x rest IH]; intros p j position Hj; cbn [walk].
  - change (len []) with 0. destruct (Z.ltb_spec (position - j) 0); [lia | done].
  - rewrite len_cons. pose proof (len_nonneg rest).
    destruct (Z.ltb_spec j position).
    + rewrite IH by lia.
      destruct (Z.ltb_spec (position - (j + 1)) (len rest)),
               (Z.ltb_spec (position - j) (1 + len rest)); try lia; [|done].
      f_equal. lia.
    + destruct (Z.ltb_spec (position - j) (1 + len rest)); [|lia]. f_equal. lia.
Qed.

Lemma Circ_GetElemPtr_spec position l :
  GetElemPtr position l = if (0 <=? position) && (position <=? len l) then Some position else None.
Proof.
  unfold GetElemPtr. pose proof (len_nonneg l).
  destruct (Z.ltb_spec position 0), (Z.leb_spec 0 position); try lia; [done|].
  destruct (Z.eqb_spec position 0) as [->|Hne].
  - destruct (Z.leb_spec 0 (len l)); [done | lia].
  - rewrite Circ_walk_spec by lia.
    destruct (Z.ltb_spec (position - 1) (len l)), (Z.leb_spec position (len l));
      simpl; try lia; [|done].
    f_equal. lia.
Qed.

Lemma Circ_Length_spec l : len l <= INT_MAX -> Length l = len l.
Proof. apply SimpleLinkList.Simple_Length_spec. Qed.

Lemma Circ_GetElem_out position l : ~ 1 <= position <= len l -> GetElem position l = None.
Proof.
  intros Hout. unfold GetElem. destruct (Z.ltb_spec position 1); [done|].
  rewrite Circ_GetElemPtr_spec.
  destruct (Z.leb_spec 0 position), (Z.leb_spec position (len l)); simpl; (done || lia).
Qed.

Lemma Circ_SetElem_out position e l : ~ 1 <= position <= len l -> SetElem position e l = (false, l).
Proof.
  intros Hout. unfold SetElem. destruct (Z.ltb_spec position 1); [done|].
  rewrite Circ_GetElemPtr_spec.
  destruct (Z.leb_spec 0 position), (Z.leb_spec position (len l)); simpl; (done || lia).
Qed.

Lemma Circ_Insert_out position e l :
  len l < INT_MAX -> ~ 1 <= position <= len l + 1 -> Insert position e l = (false, l).
Proof.
  intros Hlen Hout. unfold Insert. rewrite Circ_Length_spec by lia.
  pose proof (len_nonneg l).
  rewrite wrap32_small by (unfold INT_MAX in Hlen; lia).
  destruct (Z.ltb_spec position 1), (Z.gtb_spec position (len l + 1)); simpl; (done || lia).
Qed.

Lemma Circ_Delete_out position l :
  len l <= INT_MAX -> ~ 1 <= position <= len l -> Delete position l = (None, l).
Proof.
  intros Hlen Hout. unfold Delete. rewrite Circ_Length_spec by lia.
  destruct (Z.ltb_spec position 1), (Z.gtb_spec position (len l)); simpl; (done || lia).
Qed.
End SimpleCircLinkList.

Module CachedLinkList.
Definition ptr : Type := option Z.

(** [class LinkList<int>] of 链表.cpp, which keeps the position it was
    at last and the number of its nodes. *)
Record LinkList : Type := {
  nodes : list Z;
  curPosition : Z;
  curPtr : ptr;
  count : Z
}.

(** [LinkList()] *)
Definition create : LinkList :=
  {| nodes := []; curPosition := 0; curPtr := Some 0; count := 0 |}.

Definition Length (s : LinkList) : Z := count s.

(** [Node<ElemType> *GetElemPtr(int position) const]: the pointer and
    the list with the position kept ([curPtr] and [curPosition] are
    [mutable]).  The loop [while (j < position && p)] goes on from
    [curPtr] or starts again at the head node. *)
Definition GetElemPtr (position : Z) (s : LinkList) : ptr * LinkList :=
  if (position <? 0) || (position >? count s) then (None, s)
  else
    let '(p, j) :=
      if position >=? curPosition s then (curPtr s, curPosition s) else (Some 0, 0) in
    let p :=
      match p with
      | Some k => SimpleLinkList.walk (drop (Z.to_nat k) (nodes s)) k j position
      | None => None
      end in
    (p, {| nodes := nodes s; curPosition := position; curPtr := p; count := count s |}).

(** [bool GetElem(int position, ElemType &e) const]: [Some e] for true. *)
Definition GetElem (position : Z) (s : LinkList) : option Z * LinkList :=
  if (position <? 1) || (position >? count s) then (None, s)
  else
    match GetElemPtr position s with
    | (None, s) => (None, s)
    | (Some p, s) => (Some (get (nodes s) (p - 1)), s)
    end.

(** [bool SetElem(int position, const ElemType &e)] *)
Definition SetElem (position e : Z) (s : LinkList) : bool * LinkList :=
  if (position <? 1) || (position >? count s) then (false, s)
  else
    match GetElemPtr position s with
    | (None, s) => (false, s)
    | (Some p, s) =>
        (true, {| nodes := set (nodes s) (p - 1) e; curPosition := curPosition s;
                  curPtr := curPtr s; count := count s |})
    end.

(** [bool Insert(int position, const ElemType &e)] *)
Definition Insert (position e : Z) (s : LinkList) : bool * LinkList :=
  if (position <? 1) || (position >? wrap32 (count s + 1)) then (false, s)
  else
    match GetElemPtr (position - 1) s with
    | (None, s) => (false, s)
    | (Some prev, s) =>
        (true, {| nodes := take (Z.to_nat prev) (nodes s) ++ e :: drop (Z.to_nat prev) (nodes s);
                  curPosition := position; curPtr := Some (prev + 1);
                  count := wrap32 (count s + 1) |})
    end.

(** [bool Delete(int position, ElemType &e)]: the element taken out, for
    true, and the list after the call. *)
Definition Delete (position : Z) (s : LinkList) : option Z * LinkList :=
  if (position <? 1) || (position >? count s) then (None, s)
  else
    match GetElemPtr (position - 1) s with
    | (None, s) => (None, s)
    | (Some prev, s) =>
        (Some (get (nodes s) prev),
         {| nodes := take (Z.to_nat prev) (nodes s) ++ drop (S (Z.to_nat prev)) (nodes s);
            curPosition := position - 1; curPtr := Some prev;
            count := wrap32 (count s - 1) |})
    end.

(** The list of [main]: 10 to 50 in order, the fourth read, 99 put
    there, the second taken out. *)
Definition demo : LinkList :=
  let ll := create in
  let ll := snd (Insert 1 10 ll) in
  let ll := snd (Insert 2 20 ll) in
  let ll := snd (Insert 3 30 ll) in
  let ll := snd (Insert 4 40 ll) in
  let ll := snd (Insert 5 50 ll) in
  let ll := snd (GetElem 4 ll) in
  let ll := snd (SetElem 4 99 ll) in
  snd (Delete 2 ll).

Example Cached_demo_list :
  nodes demo = [10; 30; 99; 50] /\ count demo = 4 /\
  fst (GetElem 3 demo) = Some 99 /\ fst (GetElem 5 demo) = None /\
  fst (GetElem 0 demo) = None.
Proof. vm_compute. done. Qed.

(** ** Positions outside the list are refused *)

Lemma Cached_GetElem_out position s : ~ 1 <= position <= count s -> GetElem position s = (None, s).
Proof.
  intros Hout. unfold GetElem.
  destruct (Z.ltb_spec position 1), (Z.gtb_spec position (count s)); simpl; (done || lia).
Qed.

Lemma Cached_SetElem_out position e s :
  ~ 1 <= position <= count s -> SetElem position e s = (false, s).
Proof.
  intros Hout. unfold SetElem.
  destruct (Z.ltb_spec position 1), (Z.gtb_spec position (count s)); simpl; (done || lia).
Qed.

Lemma Cached_Delete_out position s : ~ 1 <= position <= count s -> Delete position s = (None, s).
Proof.
  intros Hout. unfold Delete.
  destruct (Z.ltb_spec position 1), (Z.gtb_spec position (count s)); simpl; (done || lia).
Qed.

Lemma Cached_Insert_out position e s :
  0 <= count s < INT_MAX -> ~ 1 <= position <= count s + 1 ->
  Insert position e s = (false, s).
Proof.
  intros Hcount Hout. unfold Insert.
  rewrite wrap32_small by (unfold INT_MAX in Hcount; lia).
  destruct (Z.ltb_spec position 1), (Z.gtb_spec position (count s + 1)); simpl; (done || lia).
Qed.
End CachedLinkList.

(* ================================================================== *)
(** * 串/串.cpp : the list a string is built from                        *)
(* ================================================================== *)

Module StrLinkList.
(** [class LinkList<char>] of 串.cpp: the data nodes in order; [sz] is
    their number. *)
Definition Length (l : list ascii) : Z := len l.

(** [void PushBack(const T &x)] *)
Definition PushBack (x : ascii) (l : list ascii) : list ascii := l ++ [x].

(** The loop [for (int i = 1; i < pos; ++i) p = p->next;] of [GetElem],
    from the first data node: the nodes from [p] on. *)
Definition advance (pos : Z) (l : list ascii) : list ascii :=
  for_up 1 pos (fun _ p => tail p) l.

(** [bool GetElem(int pos, T &out) const]: [Some out] for true. *)
Definition GetElem (pos : Z) (l : list ascii) : option ascii :=
  if (pos <? 1) || (pos >? Length l) then None
  else head (advance pos l).

Example StrLinkList_GetElem_demo :
  let L := PushBack "u" (PushBack "c" (PushBack "s" [])) in
  GetElem 1 L = Some "s"%char /\ GetElem 3 L = Some "u"%char /\
  GetElem 0 L = None /\ GetElem 4 L = None.
Proof. vm_compute. done. Qed.

Lemma StrLinkList_GetElem_out pos l : ~ 1 <= pos <= Length l -> GetElem pos l = None.
Proof.
  intros Hout. unfold GetElem.
  destruct (Z.ltb_spec pos 1), (Z.gtb_spec pos (Length l)); simpl; (done || lia).
Qed.
End StrLinkList.

(* ================================================================== *)
(** * 图/图.cpp : the graph stored as adjacency lists                    *)
(* ================================================================== *)

Module AdjListGraph.
(** [class AdjListGraph<char>] *)
Record AdjListGraph : Type := {
  vexNum : Z;
  edgeNum : Z;
  adjList : list (list Z);
  elems : list ascii;
  tag : list bool;
  directed : bool
}.

(** [AdjListGraph(const std::vector<ElemType> &vertices, bool directed)];
    a negative [vexNum] is no size of a vector. *)
Definition create (vertices : list ascii) (dir : bool) : outcome AdjListGraph :=
  let n := wrap32 (len vertices) in
  if n <? 0 then Throws logic_error
  else Returns {| vexNum := n; edgeNum := 0; adjList := replicate (Z.to_nat n) [];
                  elems := vertices; tag := replicate (Z.to_nat n) false;
                  directed := dir |}.

(** [bool checkVertex(int v) const] *)
Definition checkVertex (g : AdjListGraph) (v : Z) : bool := (v >=? 0) && (v <? vexNum g).

Definition with_adj (g : AdjListGraph) (a : list (list Z)) (e : Z) : AdjListGraph :=
  {| vexNum := vexNum g; edgeNum := e; adjList := a; elems := elems g; tag := tag g;
     directed := directed g |}.

(** [bool isNeighbor(int from, int to) const] *)
Definition isNeighbor (g : AdjListGraph) (from to : Z) : bool :=
  existsb (fun w => w =? to) (get (adjList g) from).

(** The loop of [eraseNeighbor]: the list without the first [to], when
    there is one. *)
Fixpoint erase_first (to : Z) (neighbors : list Z) : option (list Z) :=
  match neighbors with
  | [] => None
  | w :: rest => if w =? to then Some rest else cons w <$> erase_first to rest
  end.

(** [bool eraseNeighbor(int from, int to)] *)
Definition eraseNeighbor (g : AdjListGraph) (from to : Z) : bool * AdjListGraph :=
  match erase_first to (get (adjList g) from) with
  | Some neighbors => (true, with_adj g (set (adjList g) from neighbors) (edgeNum g))
  | None => (false, g)
  end.

(** [bool GetElem(int v, ElemType &e) const]: [Some e] for true. *)
Definition GetElem (v : Z) (g : AdjListGraph) : option ascii :=
  if negb (checkVertex g v) then None else Some (get (elems g) v).

(** [bool SetElem(int v, const ElemType &e)] *)
Definition SetElem (v : Z) (e : ascii) (g : AdjListGraph) : bool * AdjListGraph :=
  if negb (checkVertex g v) then (false, g)
  else (true, {| vexNum := vexNum g; edgeNum := edgeNum g; adjList := adjList g;
                 elems := set (elems g) v e; tag := tag g; directed := directed g |}).

(** [int FirstAdjVex(int v) const] *)
Definition FirstAdjVex (v : Z) (g : AdjListGraph) : Z :=
  if negb (checkVertex g v) then -1
  else
    match get (adjList g) v with
    | [] => -1
    | w :: _ => w
    end.

(** The loop of [NextAdjVex]. *)
Fixpoint next_after (v2 : Z) (neighbors : list Z) : Z :=
  match neighbors with
  | a :: rest =>
      match rest with
      | b :: _ => if a =? v2 then b else next_after v2 rest
      | [] => -1
      end
  | [] => -1
  end.

(** [int NextAdjVex(int v1, int v2) const] *)
Definition NextAdjVex (v1 v2 : Z) (g : AdjListGraph) : Z :=
  if negb (checkVertex g v1) || negb (checkVertex g v2) then -1
  else next_after v2 (get (adjList g) v1).

(** [void InsertEdge(int v1, int v2)] *)
Definition InsertEdge (v1 v2 : Z) (g : AdjListGraph) : outcome AdjListGraph :=
  if negb (checkVertex g v1) || negb (checkVertex g v2) then Throws out_of_range
  else
    let g :=
      if negb (isNeighbor g v1 v2)
      then with_adj g (set (adjList g) v1 (get (adjList g) v1 ++ [v2]))
                    (wrap32 (edgeNum g + 1))
      else g in
    let g :=
      if negb (directed g) && negb (isNeighbor g v2 v1)
      then with_adj g (set (adjList g) v2 (get (adjList g) v2 ++ [v1])) (edgeNum g)
      else g in
    Returns g.

(** [void DeleteEdge(int v1, int v2)] *)
Definition DeleteEdge (v1 v2 : Z) (g : AdjListGraph) : AdjListGraph :=
  if negb (checkVertex g v1) || negb (checkVertex g v2) then g
  else
    let g :=
      match eraseNeighbor g v1 v2 with
      | (true, g) => with_adj g (adjList g) (wrap32 (edgeNum g - 1))
      | (false, g) => g
      end in
    if negb (directed g) then snd (eraseNeighbor g v2 v1) else g.

(** [bool GetTag(int v) const] *)
Definition GetTag (v : Z) (g : AdjListGraph) : outcome bool :=
  if negb (checkVertex g v) then Throws out_of_range else Returns (get (tag g) v).

(** [bool SetTag(int v, bool val) const] *)
Definition SetTag (v : Z) (val : bool) (g : AdjListGraph) : bool * AdjListGraph :=
  if negb (checkVertex g v) then (false, g)
  else (true, {| vexNum := vexNum g; edgeNum := edgeNum g; adjList := adjList g;
                 elems := elems g; tag := set (tag g) v val; directed := directed g |}).

(** The edges of a call sequence; one that throws ends the sequence. *)
Fixpoint InsertEdges (es : list (Z * Z)) (g : AdjListGraph) : outcome AdjListGraph :=
  match es with
  | [] => Returns g
  | e :: es' =>
      match InsertEdge e.1 e.2 g with
      | Returns g' => InsertEdges es' g'
      | Throws x => Throws x
      | OutOfFuel => OutOfFuel
      end
  end.

(** The graph of [main]: A to F, seven edges. *)
Definition demo : outcome AdjListGraph :=
  match create (String.list_ascii_of_string "ABCDEF") false with
  | Returns g => InsertEdges [(0, 1); (0, 4); (1, 4); (1, 5); (2, 3); (2, 5); (3, 5)] g
  | Throws x => Throws x
  | OutOfFuel => OutOfFuel
  end.

Example graph_demo_graph :
  match demo with
  | Returns g =>
      adjList g = [[1; 4]; [0; 4; 5]; [3; 5]; [2; 5]; [0; 1]; [1; 2; 3]] /\ edgeNum g = 7 /\
      FirstAdjVex 1 g = 0 /\ NextAdjVex 1 0 g = 4 /\ NextAdjVex 1 5 g = -1 /\
      FirstAdjVex 6 g = -1 /\ GetElem 6 g = None /\ GetElem 2 g = Some "C"%char /\
      InsertEdge 0 6 g = Throws out_of_range /\ DeleteEdge 0 6 g = g /\
      adjList (DeleteEdge 1 4 g) = [[1; 4]; [0; 5]; [3; 5]; [2; 5]; [0]; [1; 2; 3]]
  | Throws _ | OutOfFuel => False
  end.
Proof. vm_compute. repeat split; reflexivity. Qed.

(** ** A vertex that is none of the graph is refused *)

Definition is_vertex (g : AdjListGraph) (v : Z) : Prop := 0 <= v < vexNum g.

Lemma graph_checkVertex_out g v : ~ is_vertex g v -> checkVertex g v = false.
Proof.
  unfold is_vertex, checkVertex. intros Hout.
  destruct (Z.geb_spec v 0), (Z.ltb_spec v (vexNum g)); simpl; (done || lia).
Qed.

Lemma graph_vertex_out g v e val :
  ~ is_vertex g v ->
  GetElem v g = None /\ SetElem v e g = (false, g) /\ FirstAdjVex v g = -1 /\
  GetTag v g = Throws out_of_range /\ SetTag v val g = (false, g).
Proof.
  intros Hout. unfold GetElem, SetElem, FirstAdjVex, GetTag, SetTag.
  by rewrite (graph_checkVertex_out g v Hout).
Qed.

Lemma graph_edge_out g v1 v2 :
  ~ (is_vertex g v1 /\ is_vertex g v2) ->
  NextAdjVex v1 v2 g = -1 /\ InsertEdge v1 v2 g = Throws out_of_range /\
  DeleteEdge v1 v2 g = g.
Proof.
  intros Hout. unfold NextAdjVex, InsertEdge, DeleteEdge.
  assert (negb (checkVertex g v1) || negb (checkVertex g v2) = true) as ->; [|done].
  destruct (checkVertex g v1) eqn:H1; [|done].
  destruct (checkVertex g v2) eqn:H2; [|done].
  destruct Hout. unfold checkVertex, is_vertex in *. lia.
Qed.
End AdjListGraph.

(* ================================================================== *)
(** * 图/最小生成图.cpp : the network stored as a matrix, the sets        *)
(* ================================================================== *)

Module AdjMatrixUndirNetwork.
(** [class AdjMatrixUndirNetwork<char, int>] *)
Record AdjMatrixUndirNetwork : Type := {
  vexNum : Z;
  edgeNum : Z;
  matrix : list (list Z);
  elems : list ascii;
  tag : list bool
}.

(** [static constexpr WeightType ZERO] *)
Definition ZERO : Z := 0.

(** [AdjMatrixUndirNetwork(const std::vector<ElemType> &vertices)] *)
Definition create (vertices : list ascii) : outcome AdjMatrixUndirNetwork :=
  let n := wrap32 (len vertices) in
  if n <? 0 then Throws logic_error
  else Returns {| vexNum := n; edgeNum := 0;
                  matrix := replicate (Z.to_nat n) (replicate (Z.to_nat n) ZERO);
                  elems := vertices; tag := replicate (Z.to_nat n) false |}.

(** [bool checkVertex(int v) const] *)
Definition checkVertex (g : AdjMatrixUndirNetwork) (v : Z) : bool :=
  (v >=? 0) && (v <? vexNum g).

(** [matrix[i][j]] and [matrix[i][j] = w] *)
Definition weight (m : list (list Z)) (i j : Z) : Z := get (get m i) j.

Definition set_weight (m : list (list Z)) (i j w : Z) : list (list Z) :=
  set m i (set (get m i) j w).

Definition with_matrix (g : AdjMatrixUndirNetwork) (m : list (list Z)) (e : Z) :
    AdjMatrixUndirNetwork :=
  {| vexNum := vexNum g; edgeNum := e; matrix := m; elems := elems g; tag := tag g |}.

(** [bool GetElem(int v, ElemType &e) const]: [Some e] for true. *)
Definition GetElem (v : Z) (g : AdjMatrixUndirNetwork) : option ascii :=
  if negb (checkVertex g v) then None else Some (get (elems g) v).

(** [bool SetElem(int v, const ElemType &e)] *)
Definition SetElem (v : Z) (e : ascii) (g : AdjMatrixUndirNetwork) :
    bool * AdjMatrixUndirNetwork :=
  if negb (checkVertex g v) then (false, g)
  else (true, {| vexNum := vexNum g; edgeNum := edgeNum g; matrix := matrix g;
                 elems := set (elems g) v e; tag := tag g |}).

(** The loop [for (; j < vexNum; ++j) if (matrix[v][j] > ZERO) return j;]
    followed by [return -1], with [k] columns left. *)
Fixpoint first_edge (k : nat) (row : list Z) (j : Z) : Z :=
  match k with
  | O => -1
  | S k' => if get row j >? ZERO then j else first_edge k' row (j + 1)
  end.

(** [int FirstAdjVex(int v) const] *)
Definition FirstAdjVex (v : Z) (g : AdjMatrixUndirNetwork) : Z :=
  if negb (checkVertex g v) then -1
  else first_edge (Z.to_nat (vexNum g)) (get (matrix g) v) 0.

(** [int NextAdjVex(int v1, int v2) const] *)
Definition NextAdjVex (v1 v2 : Z) (g : AdjMatrixUndirNetwork) : Z :=
  if negb (checkVertex g v1) || negb (checkVertex g v2) then -1
  else first_edge (Z.to_nat (vexNum g - (v2 + 1))) (get (matrix g) v1) (v2 + 1).

(** [void InsertEdge(int v1, int v2, WeightType w)] *)
Definition InsertEdge (v1 v2 w : Z) (g : AdjMatrixUndirNetwork) :
    outcome AdjMatrixUndirNetwork :=
  if negb (checkVertex g v1) || negb (checkVertex g v2) || (v1 =? v2)
  then Throws out_of_range
  else if w <=? ZERO then Throws invalid_argument
  else
    let e := if weight (matrix g) v1 v2 =? ZERO then wrap32 (edgeNum g + 1) else edgeNum g in
    Returns (with_matrix g (set_weight (set_weight (matrix g) v2 v1 w) v1 v2 w) e).

(** [void DeleteEdge(int v1, int v2)] *)
Definition DeleteEdge (v1 v2 : Z) (g : AdjMatrixUndirNetwork) : AdjMatrixUndirNetwork :=
  if negb (checkVertex g v1) || negb (checkVertex g v2) then g
  else if negb (weight (matrix g) v1 v2 =? ZERO)
  then with_matrix g (set_weight (set_weight (matrix g) v2 v1 ZERO) v1 v2 ZERO)
                   (wrap32 (edgeNum g - 1))
  else g.

(** [WeightType GetWeight(int v1, int v2) const] *)
Definition GetWeight (v1 v2 : Z) (g : AdjMatrixUndirNetwork) : outcome Z :=
  if negb (checkVertex g v1) || negb (checkVertex g v2) then Throws out_of_range
  else Returns (weight (matrix g) v1 v2).

(** [void SetWeight(int v1, int v2, WeightType w)] *)
Definition SetWeight (v1 v2 w : Z) (g : AdjMatrixUndirNetwork) :
    outcome AdjMatrixUndirNetwork :=
  if negb (checkVertex g v1) || negb (checkVertex g v2) then Throws out_of_range
  else Returns (with_matrix g (set_weight (set_weight (matrix g) v2 v1 w) v1 v2 w)
                            (edgeNum g)).

(** [bool GetTag(int v) const] *)
Definition GetTag (v : Z) (g : AdjMatrixUndirNetwork) : outcome bool :=
  if negb (checkVertex g v) then Throws out_of_range else Returns (get (tag g) v).

(** [bool SetTag(int v, bool val) const] *)
Definition SetTag (v : Z) (val : bool) (g : AdjMatrixUndirNetwork) :
    bool * AdjMatrixUndirNetwork :=
  if negb (checkVertex g v) then (false, g)
  else (true, {| vexNum := vexNum g; edgeNum := edgeNum g; matrix := matrix g;
                 elems := elems g; tag := set (tag g) v val |}).

(** The edges of a call sequence; one that throws ends the sequence. *)
Fixpoint InsertEdges (es : list (Z * Z * Z)) (g : AdjMatrixUndirNetwork) :
    outcome AdjMatrixUndirNetwork :=
  match es with
  | [] => Returns g
  | e :: es' =>
      match InsertEdge e.1.1 e.1.2 e.2 g with
      | Returns g' => InsertEdges es' g'
      | Throws x => Throws x
      | OutOfFuel => OutOfFuel
      end
  end.

(** The network of [main]: a to g, twelve edges. *)
Definition demo : outcome AdjMatrixUndirNetwork :=
  match create (String.list_ascii_of_string "abcdefg") with
  | Returns g =>
      InsertEdges [(0, 1, 19); (0, 5, 16); (0, 6, 14); (1, 2, 5); (1, 5, 18); (1, 6, 8);
                   (2, 3, 12); (2, 4, 6); (2, 5, 7); (3, 4, 3); (4, 5, 2); (4, 6, 21)] g
  | Throws x => Throws x
  | OutOfFuel => OutOfFuel
  end.

Example network_demo_network :
  match demo with
  | Returns g =>
      edgeNum g = 12 /\ get (matrix g) 4 = [0; 0; 6; 3; 0; 2; 21] /\
      FirstAdjVex 4 g = 2 /\ NextAdjVex 4 3 g = 5 /\ NextAdjVex 4 6 g = -1 /\
      GetWeight 5 4 g = Returns 2 /\ GetWeight 7 0 g = Throws out_of_range /\
      InsertEdge 3 3 1 g = Throws out_of_range /\
      InsertEdge 0 2 0 g = Throws invalid_argument /\ DeleteEdge 0 7 g = g
  | Throws _ | OutOfFuel => False
  end.
Proof. vm_compute. repeat split; reflexivity. Qed.

(** ** A vertex that is none of the network is refused *)

Definition is_vertex (g : AdjMatrixUndirNetwork) (v : Z) : Prop := 0 <= v < vexNum g.

Lemma network_checkVertex_out g v : ~ is_vertex g v -> checkVertex g v = false.
Proof.
  unfold is_vertex, checkVertex. intros Hout.
  destruct (Z.geb_spec v 0), (Z.ltb_spec v (vexNum g)); simpl; (done || lia).
Qed.

Lemma network_vertex_out g v e val :
  ~ is_vertex g v ->
  GetElem v g = None /\ SetElem v e g = (false, g) /\ FirstAdjVex v g = -1 /\
  GetTag v g = Throws out_of_range /\ SetTag v val g = (false, g).
Proof.
  intros Hout. unfold GetElem, SetElem, FirstAdjVex, GetTag, SetTag.
  by rewrite (network_checkVertex_out g v Hout).
Qed.

Lemma network_edge_out g v1 v2 w :
  ~ (is_vertex g v1 /\ is_vertex g v2) ->
  NextAdjVex v1 v2 g = -1 /\ InsertEdge v1 v2 w g = Throws out_of_range /\
  DeleteEdge v1 v2 g = g /\ GetWeight v1 v2 g = Throws out_of_range /\
  SetWeight v1 v2 w g = Throws out_of_range.
Proof.
  intros Hout. unfold NextAdjVex, InsertEdge, DeleteEdge, GetWeight, SetWeight.
  assert (negb (checkVertex g v1) || negb (checkVertex g v2) = true) as ->; [|done].
  destruct (checkVertex g v1) eqn:H1; [|done].
  destruct (checkVertex g v2) eqn:H2; [|done].
  destruct Hout. unfold checkVertex, is_vertex in *. lia.
Qed.
End AdjMatrixUndirNetwork.

Module DisjointSet.
(** [class DisjointSet] *)
Record DisjointSet : Type := { parent : list Z; rank : list Z }.

(** How a call ends that reaches the cells of a [std::vector] through
    [operator[]], which makes no test of the index: [Outside x] says
    that the call reaches a cell [x] the vector does not have, from
    where what the program does is not defined; [NoFuel] is the answer
    of the model when its fuel does not suffice. *)
Inductive access (A : Type) : Type :=
  | Done (a : A)
  | Outside (x : Z)
  | NoFuel.
Arguments Done {A} a.
Arguments Outside {A} x.
Arguments NoFuel {A}.

Definition bind {A B : Type} (m : access A) (f : A -> access B) : access B :=
  match m with
  | Done a => f a
  | Outside x => Outside x
  | NoFuel => NoFuel
  end.

Definition inside (v : list Z) (x : Z) : bool := (0 <=? x) && (x <? len v).

(** [v[x]] read, and [v[x] = w]. *)
Definition load (v : list Z) (x : Z) : access Z :=
  if inside v x then Done (get v x) else Outside x.

Definition store (v : list Z) (x w : Z) : access (list Z) :=
  if inside v x then Done (set v x w) else Outside x.

(** [explicit DisjointSet(int n)]: [parent(n), rank(n, 0)], then
    [parent[i] = i] for each [i] below [n]. *)
Definition create (n : Z) : outcome DisjointSet :=
  if n <? 0 then Throws logic_error
  else Returns {| parent := for_up 0 n (fun i p => set p i i) (replicate (Z.to_nat n) 0);
                  rank := replicate (Z.to_nat n) 0 |}.

(** [int Find(int x)]: the answer and [parent] after the call. *)
Fixpoint Find (fuel : nat) (parent : list Z) (x : Z) : access (Z * list Z) :=
  match fuel with
  | O => NoFuel
  | S fuel' =>
      bind (load parent x) (fun px =>
        if negb (px =? x) then
          bind (Find fuel' parent px) (fun r =>
            bind (store (snd r) x (fst r)) (fun parent =>
              bind (load parent x) (fun px => Done (px, parent))))
        else bind (load parent x) (fun px => Done (px, parent)))
  end.

(** [void Union(int x, int y)] *)
Definition Union (fuel : nat) (x y : Z) (d : DisjointSet) : access DisjointSet :=
  bind (Find fuel (parent d) x) (fun r1 =>
    bind (Find fuel (snd r1) y) (fun r2 =>
      let x := fst r1 in
      let y := fst r2 in
      let parent := snd r2 in
      if x =? y then Done {| parent := parent; rank := rank d |}
      else
        bind (load (rank d) x) (fun rx =>
          bind (load (rank d) y) (fun ry =>
            if rx <? ry then
              bind (store parent x y) (fun parent =>
                Done {| parent := parent; rank := rank d |})
            else if rx >? ry then
              bind (store parent y x) (fun parent =>
                Done {| parent := parent; rank := rank d |})
            else
              bind (store parent y x) (fun parent =>
                bind (store (rank d) x (wrap32 (rx + 1))) (fun rank =>
                  Done {| parent := parent; rank := rank |})))))).

(** Five elements, 0, 1 and 3 joined, and elements that are none of them. *)
Example Find_demo :
  match create 5 with
  | Returns d =>
      match Union 5 0 1 d with
      | Done d =>
          match Union 5 3 1 d with
          | Done d =>
              parent d = [0; 0; 2; 0; 4] /\ rank d = [1; 0; 0; 0; 0] /\
              Find 5 (parent d) 1 = Done (0, [0; 0; 2; 0; 4]) /\
              Find 5 (parent d) 5 = Outside 5 /\ Find 5 (parent d) (-1) = Outside (-1) /\
              Union 5 2 7 d = Outside 7
          | _ => False
          end
      | _ => False
      end
  | _ => False
  end.
Proof. vm_compute. repeat split; reflexivity. Qed.

(** ** No index is tested *)

Lemma Find_outside fuel parent x :
  ~ 0 <= x < len parent -> Find (S fuel) parent x = Outside x.
Proof.
  intros Hout. cbn [Find]. unfold load, inside.
  destruct (Z.leb_spec 0 x), (Z.ltb_spec x (len parent)); simpl; (done || lia).
Qed.

Lemma Union_outside fuel x y d :
  ~ 0 <= x < len (parent d) -> Union (S fuel) x y d = Outside x.
Proof. intros Hout. unfold Union. by rewrite Find_outside. Qed.

(** [Find] keeps the number of cells of [parent]. *)
Lemma Find_len fuel : forall parent x r parent',
  Find fuel parent x = Done (r, parent') -> len parent' = len parent.
Proof.
  induction fuel as [|fuel IH]; intros parent x r parent'; [done|].
  cbn [Find]. unfold load at 1. destruct (inside parent x); [|done]. cbn [bind].
  destruct (negb (get parent x =? x)).
  - destruct (Find fuel parent (get parent x)) as [[r1 p1]| |] eqn:Hrec; [|done..].
    cbn [bind fst snd]. unfold store. destruct (inside p1 x); [|done]. cbn [bind].
    unfold load. destruct (inside _ x); [|done]. cbn [bind]. intros [= _ <-].
    rewrite len_set. by eapply IH.
  - unfold load. destruct (inside parent x); [|done]. cbn [bind]. by intros [= _ <-].
Qed.

Lemma Union_outside_second fuel x y d r parent' :
  Find (S fuel) (parent d) x = Done (r, parent') ->
  ~ 0 <= y < len (parent d) -> Union (S fuel) x y d = Outside y.
Proof.
  intros Hx Hout. unfold Union. rewrite Hx. cbn [bind fst snd].
  apply Find_len in Hx. rewrite Find_outside by (rewrite Hx; done). done.
Qed.
End DisjointSet.

(* ================================================================== *)
(** * The specification, claim by claim                                *)
(* ================================================================== *)

(** ** Sorting *)

(** C1: for every array [A], BubbleSort and QuickSort return a
    permutation of [A] in non-decreasing order, and so does RadixSortLSD,
    for every radix from 2 on, when no element of [A] is negative (the
    elements are [int]s).  QuickSort and RadixSortLSD are shown to return:
    their loops end within the fuel the model gives them. *)
Theorem sorting_routines_sort (A : list Z) :
  (let r := ExchangeSort.BubbleSort A (len A) in
   Permutation r A /\ StronglySorted Z.le r) /\
  (exists r, ExchangeSort.QuickSort A (len A) = Some r /\
             Permutation r A /\ StronglySorted Z.le r) /\
  (forall radix, 2 <= radix -> (forall x, x ∈ A -> 0 <= x <= INT_MAX) ->
     exists r, RadixSort.RadixSortLSD A (len A) radix = Returns r /\
               Permutation r A /\ StronglySorted Z.le r).
Proof.
  split; [apply ExchangeSort.BubbleSort_sorts|].
  split; [apply ExchangeSort.QuickSort_sorts|].
  intros radix Hr HA. by apply RadixSort.RadixSortLSD_sorts.
Qed.

(** ** Pattern matching *)

(** C2: [Index_KMP T P 0] returns, and what it returns is the least index
    at which [P] occurs in [T], or -1 when [P] occurs nowhere; for the
    empty pattern it is 0. *)
Theorem Index_KMP_first_occurrence (T P : Str.CharString) :
  Str.CharString_wf T -> Str.CharString_wf P ->
  exists r, Str.Index_KMP T P 0 = Some r /\
            Str.first_occurrence T P 0 r /\
            (Str.Length P = 0 -> r = 0).
Proof.
  intros [HT _] [HP _].
  destruct (Z.eq_dec (Str.Length P) 0) as [Hz|Hnz].
  - exists 0. split; [by apply Str.Index_KMP_empty|]. split; [|done].
    left. split; [done|]. split; [|intros; lia].
    split; [done|]. split; [lia|]. intros t Ht. lia.
  - destruct (Str.Index_KMP_spec T P 0) as (r & Hr & Hfirst); [lia | done |].
    exists r. split; [done|]. split; [done|]. intros; lia.
Qed.

Lemma Index_KMP_first_occurrence_witness :
  let T := Str.CharString_of "abcabd" in
  let P := Str.CharString_of "abd" in
  Str.CharString_wf T /\ Str.CharString_wf P /\
  exists r, Str.Index_KMP T P 0 = Some r /\
            Str.first_occurrence T P 0 r /\
            (Str.Length P = 0 -> r = 0).
Proof.
  intros T P.
  assert (Str.CharString_wf T) as HT by (split; vm_compute; [discriminate | reflexivity]).
  assert (Str.CharString_wf P) as HP by (split; vm_compute; [discriminate | reflexivity]).
  split; [exact HT|]. split; [exact HP|].
  exact (Index_KMP_first_occurrence T P HT HP).
Defined.

(** C8: from every start position that is not negative the naive matcher
    and the KMP matcher return, and return the same index. *)
Theorem SimpleIndex_agrees_with_Index_KMP (T P : Str.CharString) (pos : Z) :
  0 <= Str.Length P -> 0 <= pos ->
  exists r, Str.SimpleIndex T P pos = Some r /\ Str.Index_KMP T P pos = Some r.
Proof.
  intros HP Hpos. destruct (Z.eq_dec (Str.Length P) 0) as [Hz|Hnz].
  - exists pos. split; [by apply Str.SimpleIndex_empty | by apply Str.Index_KMP_empty].
  - destruct (Str.SimpleIndex_spec T P pos) as (r1 & H1 & Hf1); [lia | done |].
    destruct (Str.Index_KMP_spec T P pos) as (r2 & H2 & Hf2); [lia | done |].
    exists r1. split; [done|]. rewrite H2. f_equal.
    by apply (Str.first_occurrence_unique T P pos).
Qed.

Lemma SimpleIndex_agrees_with_Index_KMP_witness :
  let T := Str.CharString_of "a man on a mission" in
  let P := Str.CharString_of "man" in
  0 <= Str.Length P /\ 0 <= 3 /\
  exists r, Str.SimpleIndex T P 3 = Some r /\ Str.Index_KMP T P 3 = Some r.
Proof.
  intros T P.
  assert (0 <= Str.Length P) as HP by (vm_compute; discriminate).
  assert (0 <= 3) as Hpos by lia.
  split; [exact HP|]. split; [exact Hpos|].
  exact (SimpleIndex_agrees_with_Index_KMP T P 3 HP Hpos).
Defined.

(** ** Bounds *)

(** C3, as stated: [CharString::operator[]] is a public indexed access
    that makes no check.  On the string abc, whose buffer has four cells,
    subscript 7 throws nothing and denotes cell 7. *)
Lemma CharString_subscript_unchecked :
  let s := Str.CharString_of "abc" in
  len (Str.strVal s) = 4 /\ Str.subscript s 7 = Returns 7.
Proof. split; reflexivity. Qed.

(** C3, amended: of the classes of the repository whose public members
    take an index or a position, all but two test it and refuse one
    that is out of range, by [out_of_range], by the answer false or -1,
    or by doing nothing, the container staying as it was:

    - [Array] (数组.cpp): the subscripts of [operator()], through [Locate],
      and the dimension of [Length]; an offset returned is a cell of
      [base];
    - [Matrix], [SymmetricMatrix], [TriangularMatrix],
      [TridiagonalMatrix] and [TriSparseMatrix] (矩阵.cpp);
    - [SqList] (线性表.cpp);
    - [SimpleLinkList], [SimpleCircLinkList] and [LinkList] (链表.cpp);
    - [LinkList] and [DblLinkList] (串.cpp);
    - [AdjListGraph] (图.cpp) and [AdjMatrixUndirNetwork] (最小生成图.cpp).

    The two that make no test are [CharString::operator[]] (串.cpp),
    whose reference for an index outside the string is no cell of the
    buffer, and [DisjointSet::Find] and [Union] (最小生成图.cpp), which
    reach [parent[x]] for any [x]. *)
Theorem public_indexed_access_checked_but_for_two_classes :
  (* Array *)
  (forall dm lengths a sub0 va d,
     NArray.create dm lengths = Returns a ->
     (~ NArray.in_range a (sub0 :: va) ->
      NArray.subscript a sub0 va = Throws out_of_range) /\
     (forall idx, NArray.subscript a sub0 va = Returns idx ->
                  0 <= idx < len (NArray.base a) /\ NArray.in_range a (sub0 :: va)) /\
     (~ 0 <= d < NArray.dim a -> NArray.Length d a = Throws out_of_range)) /\
  (* Matrix, SymmetricMatrix, TriangularMatrix, TridiagonalMatrix *)
  (forall m i j v,
     ~ Dense.in_matrix m i j ->
     Dense.Matrix_get m i j = Throws out_of_range /\
     Dense.Matrix_set m i j v = Throws out_of_range) /\
  (forall s i j v,
     ~ Dense.in_square (Dense.sym_n s) i j ->
     Dense.Symmetric_get s i j = Throws out_of_range /\
     Dense.Symmetric_set s i j v = Throws out_of_range) /\
  (forall t i j v,
     ~ Dense.in_square (Dense.tri_n t) i j ->
     Dense.Triangular_get t i j = Throws out_of_range /\
     Dense.Triangular_set t i j v = Throws out_of_range) /\
  (forall t i j v,
     ~ Dense.in_square (Dense.td_n t) i j ->
     Dense.Tridiagonal_get t i j = Throws out_of_range /\
     Dense.Tridiagonal_set t i j v = Throws out_of_range) /\
  (* TriSparseMatrix *)
  (forall m r c v,
     ~ Sparse.inside m r c ->
     Sparse.SetElem r c v m = Some (false, m) /\ Sparse.GetElem r c m = None) /\
  (* SqList *)
  (forall s position e,
     (~ 1 <= position <= SqList.count s ->
      SqList.GetElem position s = None /\ SqList.SetElem position e s = (false, s) /\
      SqList.Delete position s = (None, s)) /\
     (0 <= SqList.count s < INT_MAX -> ~ 1 <= position <= SqList.count s + 1 ->
      SqList.Insert position e s = (false, s))) /\
  (* SimpleLinkList, SimpleCircLinkList, LinkList of 链表.cpp *)
  (forall l position e,
     (~ 1 <= position <= len l ->
      SimpleLinkList.GetElem position l = None /\
      SimpleLinkList.SetElem position e l = (false, l)) /\
     (len l < INT_MAX -> ~ 1 <= position <= len l ->
      SimpleLinkList.Delete position l = (None, l)) /\
     (len l < INT_MAX -> ~ 1 <= position <= len l + 1 ->
      SimpleLinkList.Insert position e l = (false, l))) /\
  (forall l position e,
     (~ 1 <= position <= len l ->
      SimpleCircLinkList.GetElem position l = None /\
      SimpleCircLinkList.SetElem position e l = (false, l)) /\
     (len l < INT_MAX -> ~ 1 <= position <= len l ->
      SimpleCircLinkList.Delete position l = (None, l)) /\
     (len l < INT_MAX -> ~ 1 <= position <= len l + 1 ->
      SimpleCircLinkList.Insert position e l = (false, l))) /\
  (forall s position e,
     (~ 1 <= position <= CachedLinkList.count s ->
      CachedLinkList.GetElem position s = (None, s) /\
      CachedLinkList.SetElem position e s = (false, s) /\
      CachedLinkList.Delete position s = (None, s)) /\
     (0 <= CachedLinkList.count s < INT_MAX ->
      ~ 1 <= position <= CachedLinkList.count s + 1 ->
      CachedLinkList.Insert position e s = (false, s))) /\
  (* LinkList and DblLinkList of 串.cpp *)
  (forall l pos, ~ 1 <= pos <= StrLinkList.Length l -> StrLinkList.GetElem pos l = None) /\
  (forall (l : list Str.CharString) pos val,
     (~ 1 <= pos <= DblLinkList.Length l ->
      DblLinkList.GetElem pos l = None /\
      DblLinkList.Replace pos val l = (false, l) /\
      DblLinkList.Delete pos l = (false, l)) /\
     (~ 1 <= pos <= DblLinkList.Length l + 1 ->
      DblLinkList.Insert pos val l = (false, l))) /\
  (* AdjListGraph *)
  (forall g v v1 v2 e val,
     (~ AdjListGraph.is_vertex g v ->
      AdjListGraph.GetElem v g = None /\ AdjListGraph.SetElem v e g = (false, g) /\
      AdjListGraph.FirstAdjVex v g = -1 /\
      AdjListGraph.GetTag v g = Throws out_of_range /\
      AdjListGraph.SetTag v val g = (false, g)) /\
     (~ (AdjListGraph.is_vertex g v1 /\ AdjListGraph.is_vertex g v2) ->
      AdjListGraph.NextAdjVex v1 v2 g = -1 /\
      AdjListGraph.InsertEdge v1 v2 g = Throws out_of_range /\
      AdjListGraph.DeleteEdge v1 v2 g = g)) /\
  (* AdjMatrixUndirNetwork *)
  (forall g v v1 v2 w e val,
     (~ AdjMatrixUndirNetwork.is_vertex g v ->
      AdjMatrixUndirNetwork.GetElem v g = None /\
      AdjMatrixUndirNetwork.SetElem v e g = (false, g) /\
      AdjMatrixUndirNetwork.FirstAdjVex v g = -1 /\
      AdjMatrixUndirNetwork.GetTag v g = Throws out_of_range /\
      AdjMatrixUndirNetwork.SetTag v val g = (false, g)) /\
     (~ (AdjMatrixUndirNetwork.is_vertex g v1 /\ AdjMatrixUndirNetwork.is_vertex g v2) ->
      AdjMatrixUndirNetwork.NextAdjVex v1 v2 g = -1 /\
      AdjMatrixUndirNetwork.InsertEdge v1 v2 w g = Throws out_of_range /\
      AdjMatrixUndirNetwork.DeleteEdge v1 v2 g = g /\
      AdjMatrixUndirNetwork.GetWeight v1 v2 g = Throws out_of_range /\
      AdjMatrixUndirNetwork.SetWeight v1 v2 w g = Throws out_of_range)) /\
  (* CharString::operator[] and DisjointSet make no test *)
  (forall s pos,
     Str.CharString_wf s -> ~ 0 <= pos <= Str.Length s ->
     exists cell, Str.subscript s pos = Returns cell /\ ~ 0 <= cell < len (Str.strVal s)) /\
  (forall fuel d x y,
     ~ 0 <= x < len (DisjointSet.parent d) ->
     DisjointSet.Find (S fuel) (DisjointSet.parent d) x = DisjointSet.Outside x /\
     DisjointSet.Union (S fuel) x y d = DisjointSet.Outside x).
Proof.
  repeat apply conj.
  - intros dm lengths a sub0 va d Ha.
    destruct (NArray.subscript_checked dm lengths a sub0 va Ha)
      as [(idx & Hidx & Hcell & Hin)|[Hthrow Hout]].
    + split; [done|]. split; [|apply NArray.Length_out].
      intros idx'. rewrite Hidx. by intros [= <-].
    + split; [done|]. split; [|apply NArray.Length_out].
      intros idx'. by rewrite Hthrow.
  - intros m i j v Hout. split; [|by apply Dense.Matrix_set_out].
    unfold Dense.Matrix_get. by rewrite Dense.pos_out.
  - intros s i j v Hout. by destruct (Dense.Symmetric_out s i j v Hout).
  - intros t i j v Hout. by destruct (Dense.Triangular_out t i j v Hout).
  - intros t i j v Hout. by destruct (Dense.Tridiagonal_out t i j v Hout).
  - intros m r c v Hout. unfold Sparse.SetElem, Sparse.GetElem.
    by rewrite Sparse.range_test_true.
  - intros s position e. split.
    + intros Hout. split; [by apply SqList.SqList_GetElem_out|].
      split; [by apply SqList.SqList_SetElem_out | by apply SqList.SqList_Delete_out].
    + apply SqList.SqList_Insert_out.
  - intros l position e. split; [|split].
    + intros Hout. split; [by apply SimpleLinkList.Simple_GetElem_out|].
      by apply SimpleLinkList.Simple_SetElem_out.
    + intros Hlen. apply SimpleLinkList.Simple_Delete_out. lia.
    + apply SimpleLinkList.Simple_Insert_out.
  - intros l position e. split; [|split].
    + intros Hout. split; [by apply SimpleCircLinkList.Circ_GetElem_out|].
      by apply SimpleCircLinkList.Circ_SetElem_out.
    + intros Hlen. apply SimpleCircLinkList.Circ_Delete_out. lia.
    + apply SimpleCircLinkList.Circ_Insert_out.
  - intros s position e. split.
    + intros Hout. split; [by apply CachedLinkList.Cached_GetElem_out|].
      split; [by apply CachedLinkList.Cached_SetElem_out | by apply CachedLinkList.Cached_Delete_out].
    + apply CachedLinkList.Cached_Insert_out.
  - intros l pos. apply StrLinkList.StrLinkList_GetElem_out.
  - intros l pos val. split.
    + intros Hout. unfold DblLinkList.GetElem, DblLinkList.Replace, DblLinkList.Delete.
      destruct (Z.ltb_spec pos 1), (Z.gtb_spec pos (DblLinkList.Length l)); simpl;
        (done || lia).
    + intros Hout. unfold DblLinkList.Insert.
      destruct (Z.ltb_spec pos 1), (Z.gtb_spec pos (DblLinkList.Length l + 1)); simpl;
        (done || lia).
  - intros g v v1 v2 e val. split.
    + apply AdjListGraph.graph_vertex_out.
    + apply AdjListGraph.graph_edge_out.
  - intros g v v1 v2 w e val. split.
    + apply AdjMatrixUndirNetwork.network_vertex_out.
    + apply AdjMatrixUndirNetwork.network_edge_out.
  - intros s pos [_ Hbuf] Hout. exists pos. split; [done|]. rewrite Hbuf. lia.
  - intros fuel d x y Hout. split.
    + by apply DisjointSet.Find_outside.
    + by apply DisjointSet.Union_outside.
Qed.

(** ** The AVL tree *)

(** C4: the tree that [AVLInsert] builds from any sequence of keys,
    starting from the empty tree, is a binary search tree, its stored
    heights are the true ones, every node's balance factor is -1, 0 or 1,
    and inserting a key it holds returns it unchanged. *)
Theorem AVLInsert_sequence_balanced_bst (keys : list Z) :
  let t := AVL.build keys in
  AVL.bst t /\ AVL.balanced t /\ AVL.heights_ok t /\
  AVL.every_node (fun nd => -1 <= AVL.balanceFactor nd <= 1) t /\
  forall k, AVL.present k t -> AVL.AVLInsert t k = t.
Proof.
  cbn zeta. pose proof (AVL.build_avl keys) as Havl.
  pose proof Havl as (Hbst & Hbal & Hh).
  split; [done|]. split; [done|]. split; [done|].
  split; [by apply AVL.balanceFactor_range|].
  intros k Hk. by apply (AVL.AVLInsert_spec (AVL.build keys) k Havl).
Qed.

(** ** The sparse matrix *)





(** ** The hash table *)

(** C6 fails on a table of eleven slots, with either probing: after
    insert 0, insert 11, erase 0, insert 11, erase 11, which all return
    true, no insert of 11 is left without a later successful erase of 11,
    and [find 11] is true. *)
Theorem find_after_erase_diverges (probe : HashTable.ProbeType) :
  exists log t,
    HashTable.run HashTable.twice_stored (HashTable.create 11 probe) = Some (log, t) /\
    HashTable.stored log 11 = false /\
    HashTable.find 11 t = true.
Proof.
  pose proof (HashTable.erased_key_found probe) as H.
  destruct (HashTable.run _ _) as [[log t]|]; [|done].
  destruct H as (-> & _ & _ & Hfind). eexists _, t. by split.
Qed.

(** ** The Huffman code *)

(** C7 fails on every tree of one character [c]: the code of [c] is 0,
    and decoding it throws. *)
Theorem Decode_single_leaf_throws (c : ascii) (w : Z) :
  exists t,
    Huffman.create [c] [w] = Returns t /\
    Huffman.EncodeString t [c] = Returns ["0"%char] /\
    Huffman.Decode t ["0"%char] = Throws runtime_error.
Proof.
  exists (Huffman.single c w). split; [apply Huffman.create_single|].
  apply Huffman.single_leaf_round_trip.
Qed.

(** ** The editor *)

(** C10 fails after a confirmed [r] while the input file cannot be read:
    from a buffer of one line with the cursor on it, the command returns
    with the buffer empty and the cursor still on line 1. *)
Theorem unreadable_ReadFile_breaks_cursor :
  Editor.cursor_ok Editor.one_line /\
  exists e',
    Editor.RunCommand Editor.console_read (snd (Editor.GetCommand "r" Editor.one_line))
    = Some e' /\
    DblLinkList.Length (Editor.textBuffer e') = 0 /\ Editor.curLineNo e' = 1 /\
    ~ Editor.cursor_ok e'.
Proof.
  destruct Editor.ReadFile_unreadable_strands_cursor as (Hok & e' & Hrun & Hlen & Hcur).
  split; [done|]. exists e'. split; [done|]. split; [done|]. split; [done|].
  intros [Hz _]. rewrite Hcur in Hz. apply Hz in Hlen. done.
Qed.

(** ** Further properties *)

(** With two characters or more the Huffman tree is built, every text
    over its characters is encoded, and [Decode] returns the text. *)
Theorem Huffman_round_trip (chars : list ascii) (weights : list Z) :
  len chars = len weights -> 2 <= len chars < 2 ^ 30 ->
  exists t,
    Huffman.create chars weights = Returns t /\
    forall text, (forall c, c ∈ text -> c ∈ chars) ->
      exists bits,
        Huffman.EncodeString t text = Returns bits /\ Huffman.Decode t bits = Returns text.
Proof. apply Huffman.round_trip. Qed.

Lemma Huffman_round_trip_witness :
  let chars := Huffman.chars_of "CAST" in
  let weights := [2; 7; 4; 5] in
  len chars = len weights /\ 2 <= len chars < 2 ^ 30 /\
  exists t,
    Huffman.create chars weights = Returns t /\
    forall text, (forall c, c ∈ text -> c ∈ chars) ->
      exists bits,
        Huffman.EncodeString t text = Returns bits /\ Huffman.Decode t bits = Returns text.
Proof.
  intros chars weights.
  assert (len chars = len weights) as Hsame by reflexivity.
  assert (2 <= len chars < 2 ^ 30) as Hn by (unfold len; simpl; lia).
  split; [exact Hsame|]. split; [exact Hn|].
  exact (Huffman_round_trip chars weights Hsame Hn).
Defined.

(** Every editor command whose reads of a number ([g], [i]) and of an
    answer ([r]) return returns and keeps the cursor invariant, unless
    it is a confirmed read, from an input file that cannot be read, into
    a buffer that holds lines; a command with such a read that does not
    return (the number cannot be read, or the input ends) does not
    return. *)
Theorem RunCommand_keeps_cursor (io : Editor.console) (e : Editor.Editor) :
  Editor.cursor_ok e ->
  (Editor.userCommand e = "r"%char -> Editor.in_yes io = Some true ->
   Editor.infile io = None -> Editor.textBuffer e = []) ->
  (Editor.reads_return io e ->
   exists e', Editor.RunCommand io e = Some e' /\ Editor.cursor_ok e') /\
  (~ Editor.reads_return io e -> Editor.RunCommand io e = None).
Proof.
  intros Hok Hread. split.
  - by apply Editor.RunCommand_cursor_ok.
  - apply Editor.RunCommand_read_fails.
Qed.

Lemma RunCommand_keeps_cursor_witness :
  let e := snd (Editor.GetCommand "i" Editor.fresh) in
  Editor.cursor_ok e /\ Editor.reads_return Editor.console_insert e /\
  (Editor.reads_return Editor.console_insert e ->
   exists e', Editor.RunCommand Editor.console_insert e = Some e' /\ Editor.cursor_ok e') /\
  (~ Editor.reads_return Editor.console_insert e ->
   Editor.RunCommand Editor.console_insert e = None).
Proof.
  intros e.
  assert (Editor.cursor_ok e) as Hok by (split; [split; reflexivity | intros H; by destruct H]).
  assert (Editor.reads_return Editor.console_insert e) as Hreads
    by (split; intros _; by eexists).
  split; [exact Hok|]. split; [exact Hreads|].
  exact (RunCommand_keeps_cursor Editor.console_insert e Hok (fun _ _ _ => eq_refl)).
Defined.

(** [AVLInsert] adds its key and no other: the tree built from a sequence
    of keys holds exactly the keys of the sequence. *)
Theorem AVLInsert_adds_key :
  (forall x t k, AVL.present x (AVL.AVLInsert t k) <-> x = k \/ AVL.present x t) /\
  (forall x keys, AVL.present x (AVL.build keys) <-> x ∈ keys).
Proof. split; [apply AVL.present_AVLInsert | apply AVL.present_build]. Qed.

(** The triple table of a new matrix is sorted, free of zeros and inside
    the matrix, and [SetElem] keeps it so, whatever it returns. *)
Theorem SetElem_keeps_table_invariant :
  (forall rs cs size, Sparse.wf (Sparse.create rs cs size)) /\
  (forall m r c v b m',
     Sparse.wf m -> Sparse.SetElem r c v m = Some (b, m') -> Sparse.wf m').
Proof. split; [apply Sparse.create_wf | apply Sparse.SetElem_wf]. Qed.

(** [insert] returns on every hash table of one slot or more whose count
    is not above its size: the [rehash] it may call inserts into a table
    at most half full, where no [insert] calls [rehash] again.  (A table
    without a slot is left out: there the source divides by zero.) *)
Theorem insert_rehashes_once (k : Z) (t : HashTable.OpenAddressHashTable) :
  0 <= HashTable.elemCount t <= HashTable.size t -> 1 <= HashTable.size t < 2 ^ 62 ->
  exists b t', HashTable.insert k t = Some (b, t').
Proof. intros Hc Hs. apply HashTable.insert_returns; [done | lia]. Qed.

Lemma insert_rehashes_once_witness :
  let t := HashTable.create 11 HashTable.LINEAR in
  0 <= HashTable.elemCount t <= HashTable.size t /\ 1 <= HashTable.size t < 2 ^ 62 /\
  exists b t', HashTable.insert 5 t = Some (b, t').
Proof.
  intros t.
  assert (0 <= HashTable.elemCount t <= HashTable.size t) as Hc by (vm_compute; split; discriminate).
  assert (1 <= HashTable.size t < 2 ^ 62) as Hs by (vm_compute; split; [discriminate | reflexivity]).
  split; [exact Hc|]. split; [exact Hs|].
  exact (insert_rehashes_once 5 t Hc Hs).
Defined.

(** After insertions alone into an empty hash table with linear probing,
    every [insert] returns true and [find] is true of exactly the keys
    inserted, whatever collisions and rehashes happened on the way. *)
Theorem linear_probing_inserts_found (m0 : Z) (ks : list Z) :
  1 <= m0 < 2 ^ 62 -> 3 * len ks + 1 < 2 ^ 62 ->
  exists t,
    HashTable.run (HashTable.Insert <$> ks) (HashTable.create m0 HashTable.LINEAR)
    = Some (HashTable.inserted ks, t) /\
    forall x, HashTable.find x t = HashTable.stored (HashTable.inserted ks) x.
Proof. apply HashTable.linear_inserts_found. Qed.

Lemma linear_probing_inserts_found_witness :
  let ks := [19; 1; 23; 14; 55; 68; 11; 82; 36] in
  1 <= 11 < 2 ^ 62 /\ 3 * len ks + 1 < 2 ^ 62 /\
  exists t,
    HashTable.run (HashTable.Insert <$> ks) (HashTable.create 11 HashTable.LINEAR)
    = Some (HashTable.inserted ks, t) /\
    forall x, HashTable.find x t = HashTable.stored (HashTable.inserted ks) x.
Proof.
  intros ks.
  assert (1 <= 11 < 2 ^ 62) as Hm by lia.
  assert (3 * len ks + 1 < 2 ^ 62) as Hks by (unfold len; simpl; lia).
  split; [exact Hm|]. split; [exact Hks|].
  exact (linear_probing_inserts_found 11 ks Hm Hks).
Defined.

(* ================================================================== *)
(** * More of the programs                                             *)
(* ================================================================== *)

(** ** 数组/矩阵/矩阵.cpp *)



(** A dense matrix of r by c cells, their number within an [int], after
    any writes through [operator()], checks both indices: outside the
    matrix a read and a write throw [out_of_range]; inside, a write
    changes the cell written and no other, whatever is read afterwards. *)
Theorem Matrix_cells_checked (r c init : Z) (ws : list (Z * Z * Z)) (i j v : Z) :
  0 <= r -> 0 <= c -> r * c <= INT_MAX ->
  exists m0,
    Dense.Matrix_new r c init = Returns m0 /\
    let m := Dense.Matrix_writes m0 ws in
    Dense.rows m = r /\ Dense.cols m = c /\
    (~ (1 <= i <= r /\ 1 <= j <= c) ->
     Dense.Matrix_set m i j v = Throws out_of_range /\
     Dense.Matrix_get m i j = Throws out_of_range) /\
    (1 <= i <= r /\ 1 <= j <= c ->
     exists m', Dense.Matrix_set m i j v = Returns m' /\
       Dense.rows m' = r /\ Dense.cols m' = c /\
       forall i' j', Dense.Matrix_get m' i' j'
         = if (i' =? i) && (j' =? j) then Returns v else Dense.Matrix_get m i' j').
Proof.
  intros Hr Hc Hrc.
  destruct (Dense.Matrix_new_ok r c init Hr Hc Hrc) as (m0 & Hnew & Hok0 & Hr0 & Hc0 & _).
  exists m0. split; [done|]. cbn zeta.
  destruct (Dense.Matrix_writes_ok m0 ws Hok0) as (Hok & Hrows & Hcols).
  rewrite Hr0 in Hrows. rewrite Hc0 in Hcols.
  split; [done|]. split; [done|]. split.
  - intros Hout.
    assert (~ Dense.in_matrix (Dense.Matrix_writes m0 ws) i j) as Hout'
      by (unfold Dense.in_matrix; by rewrite Hrows, Hcols).
    split; [by apply Dense.Matrix_set_out|].
    unfold Dense.Matrix_get. by rewrite Dense.pos_out.
  - intros Hin.
    assert (Dense.in_matrix (Dense.Matrix_writes m0 ws) i j) as Hin'
      by (unfold Dense.in_matrix; by rewrite Hrows, Hcols).
    destruct (Dense.Matrix_set_in _ i j v Hok Hin') as (m' & Hset & _ & Hr' & Hc' & _ & Hget).
    exists m'. split; [done|]. split; [congruence|]. split; [congruence | done].
Qed.

Lemma Matrix_cells_checked_witness :
  let ws := [(1, 1, 5); (9, 9, 1); (3, 4, 8)] in
  0 <= 3 /\ 0 <= 4 /\ 3 * 4 <= INT_MAX /\
  exists m0,
    Dense.Matrix_new 3 4 0 = Returns m0 /\
    let m := Dense.Matrix_writes m0 ws in
    Dense.rows m = 3 /\ Dense.cols m = 4 /\
    (~ (1 <= 2 <= 3 /\ 1 <= 3 <= 4) ->
     Dense.Matrix_set m 2 3 7 = Throws out_of_range /\
     Dense.Matrix_get m 2 3 = Throws out_of_range) /\
    (1 <= 2 <= 3 /\ 1 <= 3 <= 4 ->
     exists m', Dense.Matrix_set m 2 3 7 = Returns m' /\
       Dense.rows m' = 3 /\ Dense.cols m' = 4 /\
       forall i' j', Dense.Matrix_get m' i' j'
         = if (i' =? 2) && (j' =? 3) then Returns 7 else Dense.Matrix_get m i' j').
Proof.
  intros ws.
  assert (0 <= 3) as Hr by lia. assert (0 <= 4) as Hc by lia.
  assert (3 * 4 <= INT_MAX) as Hrc by (unfold INT_MAX; lia).
  split; [exact Hr|]. split; [exact Hc|]. split; [exact Hrc|].
  exact (Matrix_cells_checked 3 4 0 ws 2 3 7 Hr Hc Hrc).
Defined.

(** [FillSequence] numbers the cells row by row: after it the cell
    (i, j) of an r by c matrix holds base + (i-1)*c + (j-1). *)
Theorem FillSequence_row_major (r c init base : Z) :
  0 <= r < INT_MAX -> 0 <= c < INT_MAX -> r * c <= INT_MAX ->
  exists m m',
    Dense.Matrix_new r c init = Returns m /\
    Dense.FillSequence base m = Returns m' /\
    Dense.rows m' = r /\ Dense.cols m' = c /\
    forall i j, 1 <= i <= r -> 1 <= j <= c ->
      Dense.Matrix_get m' i j = Returns (wrap32 (base + ((i - 1) * c + (j - 1)))).
Proof.
  intros Hr Hc Hrc.
  destruct (Dense.Matrix_new_ok r c init ltac:(lia) ltac:(lia) Hrc)
    as (m & Hnew & Hok & Hrows & Hcols & _).
  destruct (Dense.FillSequence_spec base m Hok ltac:(lia) ltac:(lia))
    as (m' & Hfill & _ & Hr' & Hc' & Hget).
  exists m, m'. split; [done|]. split; [done|]. split; [congruence|]. split; [congruence|].
  intros i j Hi Hj. rewrite <- Hcols. apply Hget. unfold Dense.in_matrix. lia.
Qed.

Lemma FillSequence_row_major_witness :
  0 <= 3 < INT_MAX /\ 0 <= 4 < INT_MAX /\ 3 * 4 <= INT_MAX /\
  exists m m',
    Dense.Matrix_new 3 4 0 = Returns m /\
    Dense.FillSequence 0 m = Returns m' /\
    Dense.rows m' = 3 /\ Dense.cols m' = 4 /\
    forall i j, 1 <= i <= 3 -> 1 <= j <= 4 ->
      Dense.Matrix_get m' i j = Returns (wrap32 (0 + ((i - 1) * 4 + (j - 1)))).
Proof.
  assert (0 <= 3 < INT_MAX) as Hr by (unfold INT_MAX; lia).
  assert (0 <= 4 < INT_MAX) as Hc by (unfold INT_MAX; lia).
  assert (3 * 4 <= INT_MAX) as Hrc by (unfold INT_MAX; lia).
  split; [exact Hr|]. split; [exact Hc|]. split; [exact Hrc|].
  exact (FillSequence_row_major 3 4 0 0 Hr Hc Hrc).
Defined.

(** A symmetric matrix of order n, with n(n+1) within an [int], after
    any writes through [operator()], stores (i, j) and (j, i) in one
    cell: a write at (i, j) is read back at (i, j) and at (j, i) and
    changes no other entry; outside the matrix a read and a write throw
    [out_of_range]. *)
Theorem Symmetric_cells_shared (n init : Z) (ws : list (Z * Z * Z)) (i j v : Z) :
  0 <= n -> n * (n + 1) <= INT_MAX ->
  exists s0,
    Dense.SymmetricMatrix_new n init = Returns s0 /\
    let s := Dense.Symmetric_writes s0 ws in
    Dense.sym_n s = n /\
    (~ Dense.in_square n i j ->
     Dense.Symmetric_set s i j v = Throws out_of_range /\
     Dense.Symmetric_get s i j = Throws out_of_range) /\
    (Dense.in_square n i j ->
     exists s', Dense.Symmetric_set s i j v = Returns s' /\ Dense.sym_n s' = n /\
       forall i' j', Dense.Symmetric_get s' i' j'
         = if (i' =? i) && (j' =? j) || (i' =? j) && (j' =? i) then Returns v
           else Dense.Symmetric_get s i' j').
Proof.
  intros Hn Hmax.
  destruct (Dense.SymmetricMatrix_new_ok n init Hn Hmax) as (s0 & Hnew & Hok0 & Hn0).
  exists s0. split; [done|]. cbn zeta.
  destruct (Dense.Symmetric_writes_ok s0 ws Hok0) as (Hok & Hsize).
  rewrite Hn0 in Hsize. split; [done|]. split.
  - intros Hout. apply Dense.Symmetric_out. by rewrite Hsize.
  - intros Hin. rewrite <- Hsize in Hin.
    destruct (Dense.Symmetric_set_in _ i j v Hok Hin) as (s' & Hset & _ & Hn' & Hget).
    exists s'. split; [done|]. split; [congruence | done].
Qed.

Lemma Symmetric_cells_shared_witness :
  let ws := [(1, 1, 11); (3, 2, 32); (5, 1, 9)] in
  0 <= 4 /\ 4 * (4 + 1) <= INT_MAX /\
  exists s0,
    Dense.SymmetricMatrix_new 4 0 = Returns s0 /\
    let s := Dense.Symmetric_writes s0 ws in
    Dense.sym_n s = 4 /\
    (~ Dense.in_square 4 2 4 ->
     Dense.Symmetric_set s 2 4 24 = Throws out_of_range /\
     Dense.Symmetric_get s 2 4 = Throws out_of_range) /\
    (Dense.in_square 4 2 4 ->
     exists s', Dense.Symmetric_set s 2 4 24 = Returns s' /\ Dense.sym_n s' = 4 /\
       forall i' j', Dense.Symmetric_get s' i' j'
         = if (i' =? 2) && (j' =? 4) || (i' =? 4) && (j' =? 2) then Returns 24
           else Dense.Symmetric_get s i' j').
Proof.
  intros ws.
  assert (0 <= 4) as Hn by lia.
  assert (4 * (4 + 1) <= INT_MAX) as Hmax by (unfold INT_MAX; lia).
  split; [exact Hn|]. split; [exact Hmax|].
  exact (Symmetric_cells_shared 4 0 ws 2 4 24 Hn Hmax).
Defined.

(** A triangular matrix of order n, with n(n+1) within an [int], after
    any calls of [set], keeps one triangle: [set] in the other one throws
    [logic_error] and [get] there returns 0; in the kept triangle a [set]
    changes the cell written and no other; outside the matrix both throw
    [out_of_range]. *)
Theorem Triangular_zero_region (n : Z) (up : bool) (init : Z) (ws : list (Z * Z * Z))
    (i j v : Z) :
  0 <= n -> n * (n + 1) <= INT_MAX ->
  exists t0,
    Dense.TriangularMatrix_new n up init = Returns t0 /\
    let t := Dense.Triangular_writes t0 ws in
    Dense.tri_n t = n /\ Dense.upper t = up /\
    (~ Dense.in_square n i j ->
     Dense.Triangular_set t i j v = Throws out_of_range /\
     Dense.Triangular_get t i j = Throws out_of_range) /\
    (Dense.in_square n i j -> (if up then i <=? j else j <=? i) = false ->
     Dense.Triangular_set t i j v = Throws logic_error /\
     Dense.Triangular_get t i j = Returns 0) /\
    (Dense.in_square n i j -> (if up then i <=? j else j <=? i) = true ->
     exists t', Dense.Triangular_set t i j v = Returns t' /\
       Dense.tri_n t' = n /\ Dense.upper t' = up /\
       forall i' j', Dense.Triangular_get t' i' j'
         = if (i' =? i) && (j' =? j) then Returns v else Dense.Triangular_get t i' j').
Proof.
  intros Hn Hmax.
  destruct (Dense.TriangularMatrix_new_ok n up init Hn Hmax) as (t0 & Hnew & Hok0 & Hn0 & Hu0).
  exists t0. split; [done|]. cbn zeta.
  destruct (Dense.Triangular_writes_ok t0 ws Hok0) as (Hok & Hsize & Hup).
  rewrite Hn0 in Hsize. rewrite Hu0 in Hup.
  split; [done|]. split; [done|]. split; [|split].
  - intros Hout. apply Dense.Triangular_out. by rewrite Hsize.
  - intros Hin Hkept. apply Dense.Triangular_zero; [by rewrite Hsize|].
    unfold Dense.kept. by rewrite Hup.
  - intros Hin Hkept. rewrite <- Hsize in Hin.
    assert (Dense.kept (Dense.Triangular_writes t0 ws) i j = true) as Hkept'
      by (unfold Dense.kept; by rewrite Hup).
    destruct (Dense.Triangular_set_kept _ i j v Hok Hin Hkept')
      as (t' & Hset & _ & Hn' & Hu' & Hget).
    exists t'. split; [done|]. split; [congruence|]. split; [congruence | done].
Qed.

Lemma Triangular_zero_region_witness :
  let ws := [(1, 1, 11); (2, 3, 23); (4, 4, 44)] in
  0 <= 4 /\ 4 * (4 + 1) <= INT_MAX /\
  exists t0,
    Dense.TriangularMatrix_new 4 false 0 = Returns t0 /\
    let t := Dense.Triangular_writes t0 ws in
    Dense.tri_n t = 4 /\ Dense.upper t = false /\
    (~ Dense.in_square 4 3 2 ->
     Dense.Triangular_set t 3 2 32 = Throws out_of_range /\
     Dense.Triangular_get t 3 2 = Throws out_of_range) /\
    (Dense.in_square 4 3 2 -> (if false then 3 <=? 2 else 2 <=? 3) = false ->
     Dense.Triangular_set t 3 2 32 = Throws logic_error /\
     Dense.Triangular_get t 3 2 = Returns 0) /\
    (Dense.in_square 4 3 2 -> (if false then 3 <=? 2 else 2 <=? 3) = true ->
     exists t', Dense.Triangular_set t 3 2 32 = Returns t' /\
       Dense.tri_n t' = 4 /\ Dense.upper t' = false /\
       forall i' j', Dense.Triangular_get t' i' j'
         = if (i' =? 3) && (j' =? 2) then Returns 32 else Dense.Triangular_get t i' j').
Proof.
  intros ws.
  assert (0 <= 4) as Hn by lia.
  assert (4 * (4 + 1) <= INT_MAX) as Hmax by (unfold INT_MAX; lia).
  split; [exact Hn|]. split; [exact Hmax|].
  exact (Triangular_zero_region 4 false 0 ws 3 2 32 Hn Hmax).
Defined.

(** A tridiagonal matrix of order n, from 1 on and with 3n within an
    [int], after any writes through [at], keeps the band |i - j| <= 1 in
    3n - 2 cells: [at] off the band throws [logic_error] and [get] there
    returns 0; on the band a write changes the cell written and no
    other; outside the matrix both throw [out_of_range]. *)
Theorem Tridiagonal_band_cells (n init : Z) (ws : list (Z * Z * Z)) (i j v : Z) :
  1 <= n -> 3 * n <= INT_MAX ->
  exists t0,
    Dense.TridiagonalMatrix_new n init = Returns t0 /\
    let t := Dense.Tridiagonal_writes t0 ws in
    Dense.td_n t = n /\
    (~ Dense.in_square n i j ->
     Dense.Tridiagonal_set t i j v = Throws out_of_range /\
     Dense.Tridiagonal_get t i j = Throws out_of_range) /\
    (Dense.in_square n i j -> Dense.in_band i j = false ->
     Dense.Tridiagonal_set t i j v = Throws logic_error /\
     Dense.Tridiagonal_get t i j = Returns 0) /\
    (Dense.in_square n i j -> Dense.in_band i j = true ->
     exists t', Dense.Tridiagonal_set t i j v = Returns t' /\ Dense.td_n t' = n /\
       forall i' j', Dense.Tridiagonal_get t' i' j'
         = if (i' =? i) && (j' =? j) then Returns v else Dense.Tridiagonal_get t i' j').
Proof.
  intros Hn Hmax.
  destruct (Dense.TridiagonalMatrix_new_ok n init Hn Hmax) as (t0 & Hnew & Hok0 & Hn0).
  exists t0. split; [done|]. cbn zeta.
  destruct (Dense.Tridiagonal_writes_ok t0 ws Hok0) as (Hok & Hsize).
  rewrite Hn0 in Hsize. split; [done|]. split; [|split].
  - intros Hout. apply Dense.Tridiagonal_out. by rewrite Hsize.
  - intros Hin Hband. apply Dense.Tridiagonal_zero; [done | by rewrite Hsize | done].
  - intros Hin Hband. rewrite <- Hsize in Hin.
    destruct (Dense.Tridiagonal_set_band _ i j v Hok Hin Hband) as (t' & Hset & _ & Hn' & Hget).
    exists t'. split; [done|]. split; [congruence | done].
Qed.

Lemma Tridiagonal_band_cells_witness :
  let ws := [(1, 1, 1); (1, 3, 9); (5, 4, 54)] in
  1 <= 5 /\ 3 * 5 <= INT_MAX /\
  exists t0,
    Dense.TridiagonalMatrix_new 5 0 = Returns t0 /\
    let t := Dense.Tridiagonal_writes t0 ws in
    Dense.td_n t = 5 /\
    (~ Dense.in_square 5 3 4 ->
     Dense.Tridiagonal_set t 3 4 3 = Throws out_of_range /\
     Dense.Tridiagonal_get t 3 4 = Throws out_of_range) /\
    (Dense.in_square 5 3 4 -> Dense.in_band 3 4 = false ->
     Dense.Tridiagonal_set t 3 4 3 = Throws logic_error /\
     Dense.Tridiagonal_get t 3 4 = Returns 0) /\
    (Dense.in_square 5 3 4 -> Dense.in_band 3 4 = true ->
     exists t', Dense.Tridiagonal_set t 3 4 3 = Returns t' /\ Dense.td_n t' = 5 /\
       forall i' j', Dense.Tridiagonal_get t' i' j'
         = if (i' =? 3) && (j' =? 4) then Returns 3 else Dense.Tridiagonal_get t i' j').
Proof.
  intros ws.
  assert (1 <= 5) as Hn by lia.
  assert (3 * 5 <= INT_MAX) as Hmax by (unfold INT_MAX; lia).
  split; [exact Hn|]. split; [exact Hmax|].
  exact (Tridiagonal_band_cells 5 0 ws 3 4 3 Hn Hmax).
Defined.

(** ** 数组/数组.cpp *)

(** The offsets of an [Array] are row-major and no two cells share one:
    after [A(subs) = v] a read at the same subscripts gives [v], and a
    read at subscripts that differ in some dimension gives what it gave
    before. *)
Theorem Array_cells_do_not_alias (a : NArray.Array) (sub0 : Z) (va : list Z) (v : Z) :
  NArray.wf a -> len va = NArray.dim a - 1 -> NArray.in_range a (sub0 :: va) ->
  NArray.subscript a sub0 va
  = Returns (NArray.row_major (NArray.bounds a) (sub0 :: va) (Z.to_nat (NArray.dim a))) /\
  exists a', NArray.Array_set a sub0 va v = Returns a' /\ NArray.wf a' /\
    forall sub0' va', len va' = NArray.dim a - 1 ->
      (NArray.same_cell a (sub0 :: va) (sub0' :: va') ->
       NArray.Array_get a' sub0' va' = Returns v) /\
      (~ NArray.same_cell a (sub0 :: va) (sub0' :: va') ->
       NArray.Array_get a' sub0' va' = NArray.Array_get a sub0' va').
Proof.
  intros Hwf _ Hin. split; [by apply NArray.Locate_row_major|].
  destruct (NArray.Array_set_get a sub0 va v Hwf Hin) as (a' & Hset & Hwf' & Hget).
  exists a'. split; [done|]. split; [done|]. intros sub0' va' _. apply Hget.
Qed.

Lemma Array_cells_do_not_alias_witness :
  let a := {| NArray.base := replicate 24 0; NArray.dim := 3; NArray.bounds := [2; 3; 4];
              NArray.constants := [12; 4; 1]; NArray.total := 24 |} in
  NArray.create 3 [2; 3; 4] = Returns a /\
  NArray.wf a /\ len [2; 3] = NArray.dim a - 1 /\ NArray.in_range a (1 :: [2; 3]) /\
  NArray.subscript a 1 [2; 3]
  = Returns (NArray.row_major (NArray.bounds a) (1 :: [2; 3]) (Z.to_nat (NArray.dim a))) /\
  exists a', NArray.Array_set a 1 [2; 3] 233 = Returns a' /\ NArray.wf a' /\
    forall sub0' va', len va' = NArray.dim a - 1 ->
      (NArray.same_cell a (1 :: [2; 3]) (sub0' :: va') ->
       NArray.Array_get a' sub0' va' = Returns 233) /\
      (~ NArray.same_cell a (1 :: [2; 3]) (sub0' :: va') ->
       NArray.Array_get a' sub0' va' = NArray.Array_get a sub0' va').
Proof.
  intros a.
  assert (NArray.wf a) as Hwf by exact (NArray.Array_create_wf 3 [2; 3; 4] a NArray.create_3d).
  assert (len [2; 3] = NArray.dim a - 1) as Hlen by reflexivity.
  assert (NArray.in_range a (1 :: [2; 3])) as Hin.
  { intros k Hk. simpl in Hk.
    assert (k = 0 \/ k = 1 \/ k = 2) as [->|[->| ->]] by lia; vm_compute; split; congruence. }
  split; [exact NArray.create_3d|]. split; [exact Hwf|]. split; [exact Hlen|].
  split; [exact Hin|].
  exact (Array_cells_do_not_alias a 1 [2; 3] 233 Hwf Hlen Hin).
Defined.

(** The constructor of [Array] has three outcomes: [out_of_range] when
    the dimension or one of the lengths is not positive, [overflow_error]
    when the number of cells exceeds [INT_MAX], and else an array of that
    many zeroed cells with the lengths given. *)
Theorem Array_constructor_outcomes (dm : Z) (lengths : list Z) :
  (dm <= 0 -> NArray.create dm lengths = Throws out_of_range) /\
  (0 < dm <= len lengths -> (exists k, 0 <= k < dm /\ get lengths k <= 0) ->
   NArray.create dm lengths = Throws out_of_range) /\
  (0 < dm <= len lengths -> (forall k, 0 <= k < dm -> 1 <= get lengths k) ->
   INT_MAX < NArray.extent (NArray.shape dm lengths) 0 ->
   NArray.create dm lengths = Throws overflow_error) /\
  (0 < dm <= len lengths -> (forall k, 0 <= k < dm -> 1 <= get lengths k) ->
   NArray.extent (NArray.shape dm lengths) 0 <= INT_MAX ->
   exists a, NArray.create dm lengths = Returns a /\ NArray.dim a = dm /\
             NArray.bounds a = NArray.shape dm lengths /\
             NArray.total a = NArray.extent (NArray.shape dm lengths) 0 /\
             NArray.base a = replicate (Z.to_nat (NArray.total a)) 0).
Proof. apply NArray.Array_create_outcomes. Qed.

(** ** 查找/动态表查找.cpp *)



(** [BSTInsert] keeps the search tree and adds exactly its key: the
    store holds a search tree again, with the keys it had and the new
    one, the pointer returned is the node of the key, a key already
    there changes nothing, and no node is moved or given another key. *)
Theorem BSTInsert_keeps_search_tree (fuel : nat) (h : list BST.BSTNode) (t : BST.tree)
    (root : BST.ptr) (x : Z) :
  BST.rep h t root -> BST.ordered t -> (BST.levels t < fuel)%nat ->
  exists h' root' a nd t',
    BST.BSTInsert fuel h root x = Some (h', root', Some a) /\
    BST.rep h' t' root' /\ BST.ordered t' /\
    (forall y, BST.present y t' <-> y = x \/ BST.present y t) /\
    h' !! a = Some nd /\ BST.key nd = x /\
    (BST.present x t -> h' = h /\ root' = root) /\
    (forall b ndb, h !! b = Some ndb ->
       exists ndb', h' !! b = Some ndb' /\ BST.key ndb' = BST.key ndb).
Proof. apply BST.BSTInsert_grows. Qed.

Lemma BSTInsert_keeps_search_tree_witness :
  let h := [BST.BSTNode_new 5] in
  let t := BST.T BST.Leaf 5 BST.Leaf in
  BST.rep h t (Some 0%nat) /\ BST.ordered t /\ (BST.levels t < 2)%nat /\
  exists h' root' a nd t',
    BST.BSTInsert 2 h (Some 0%nat) 7 = Some (h', root', Some a) /\
    BST.rep h' t' root' /\ BST.ordered t' /\
    (forall y, BST.present y t' <-> y = 7 \/ BST.present y t) /\
    h' !! a = Some nd /\ BST.key nd = 7 /\
    (BST.present 7 t -> h' = h /\ root' = Some 0%nat) /\
    (forall b ndb, h !! b = Some ndb ->
       exists ndb', h' !! b = Some ndb' /\ BST.key ndb' = BST.key ndb).
Proof.
  intros h t.
  assert (BST.rep h t (Some 0%nat)) as Hrep
    by (exists 0%nat, (BST.BSTNode_new 5); repeat split).
  assert (BST.ordered t) as Hord by (repeat split).
  assert (BST.levels t < 2)%nat as Hlev by (simpl; lia).
  split; [exact Hrep|]. split; [exact Hord|]. split; [exact Hlev|].
  exact (BSTInsert_keeps_search_tree 2 h t (Some 0%nat) 7 Hrep Hord Hlev).
Defined.

(** A tree built by [BSTInsert] from any keys: [inorderBST] prints the
    keys in increasing order, each once, and [BSTSearch] returns a node
    for exactly the keys inserted. *)
Theorem BST_inorder_is_sorted (keys : list Z) :
  exists h root out,
    BST.build keys = Some (h, root) /\
    BST.inorderBST (S (length h)) h root = Some out /\
    StronglySorted Z.lt out /\ (forall x, x ∈ out <-> x ∈ keys) /\
    forall x, exists p parent,
      BST.BSTSearch (S (length h)) h root x = Some (p, parent) /\ (p <> None <-> x ∈ keys).
Proof. apply BST.build_inorder. Qed.

(** [inorderAVL] prints the keys of a tree built by [AVLInsert] in
    increasing order, each once. *)
Theorem inorderAVL_is_sorted (keys : list Z) :
  StronglySorted Z.lt (AVL.inorderAVL (AVL.build keys)) /\
  forall x, x ∈ AVL.inorderAVL (AVL.build keys) <-> x ∈ keys.
Proof. apply AVL.inorderAVL_build. Qed.

(** On a B-tree, [BTreeSearch] returns a node that has the key when the
    key is in the tree, and [nullptr] when it is not. *)
Theorem BTreeSearch_finds (h : nat) (root : BTree.BTreeNode) (key : Z) :
  BTree.btree h root ->
  (BTree.holds h root key ->
   exists node, BTree.BTreeSearch (S h) root key = Some node /\ key ∈ BTree.keys node) /\
  (~ BTree.holds h root key -> BTree.BTreeSearch (S h) root key = Some BTree.Null).
Proof. apply BTree.BTreeSearch_spec. Qed.

Lemma BTreeSearch_finds_witness :
  BTree.btree 1 BTree.rootB /\
  (BTree.holds 1 BTree.rootB 43 ->
   exists node, BTree.BTreeSearch 2 BTree.rootB 43 = Some node /\ 43 ∈ BTree.keys node) /\
  (~ BTree.holds 1 BTree.rootB 43 -> BTree.BTreeSearch 2 BTree.rootB 43 = Some BTree.Null).
Proof.
  split; [exact BTree.rootB_btree|].
  exact (BTreeSearch_finds 1 BTree.rootB 43 BTree.rootB_btree).
Defined.

(** ** 查找/哈希表.cpp *)

(** The table with chaining is a set: after any insertions and erasures
    [find] is true of exactly the keys inserted and not erased since, no
    chain holds a key twice, and every key is in the chain of its hash. *)
Theorem Chained_table_is_a_set (m : Z) (ops : list HashTable.op) :
  1 <= m < 2 ^ 62 ->
  let t := Chained.run ops (Chained.create m) in
  len (Chained.buckets t) = m /\ Chained.chains_ok t /\
  forall x, Chained.find x t = Chained.member_after ops x false.
Proof. apply Chained.chained_set. Qed.

Lemma Chained_table_is_a_set_witness :
  let ops := HashTable.Insert <$> [19; 1; 23; 14; 55; 68; 11; 82; 36] in
  1 <= 7 < 2 ^ 62 /\
  let t := Chained.run ops (Chained.create 7) in
  len (Chained.buckets t) = 7 /\ Chained.chains_ok t /\
  forall x, Chained.find x t = Chained.member_after ops x false.
Proof.
  intros ops. assert (1 <= 7 < 2 ^ 62) as Hm by lia.
  split; [exact Hm|]. exact (Chained_table_is_a_set 7 ops Hm).
Defined.

(** ** 树/哈夫曼树与哈夫曼编码.cpp *)

(** [selectTwoMin] returns the two lightest nodes without a parent, the
    lighter first, and throws [runtime_error] when there are not two. *)
Theorem selectTwoMin_two_lightest (nodes : list Huffman.HuffNode) (cur : Z) :
  0 <= cur ->
  let free j := 1 <= j <= cur /\ Huffman.parent (get nodes j) = 0 in
  match Huffman.selectTwoMin nodes cur with
  | Returns (r1, r2) =>
      free r1 /\ free r2 /\ r1 <> r2 /\
      Huffman.weight (get nodes r1) <= Huffman.weight (get nodes r2) /\
      forall j, free j -> j <> r1 ->
                Huffman.weight (get nodes r2) <= Huffman.weight (get nodes j)
  | Throws e => e = runtime_error /\ forall a b, free a -> free b -> a = b
  | OutOfFuel => False
  end.
Proof. apply Huffman.selectTwoMin_lightest. Qed.

Lemma selectTwoMin_two_lightest_witness :
  let leaf w := {| Huffman.weight := w; Huffman.parent := 0; Huffman.left := 0;
                   Huffman.right := 0; Huffman.ch := "a"%char; Huffman.isLeaf := true |} in
  let nodes := [Huffman.HuffNode0; leaf 2; leaf 7; leaf 4; leaf 5] in
  0 <= 4 /\
  let free j := 1 <= j <= 4 /\ Huffman.parent (get nodes j) = 0 in
  match Huffman.selectTwoMin nodes 4 with
  | Returns (r1, r2) =>
      free r1 /\ free r2 /\ r1 <> r2 /\
      Huffman.weight (get nodes r1) <= Huffman.weight (get nodes r2) /\
      forall j, free j -> j <> r1 ->
                Huffman.weight (get nodes r2) <= Huffman.weight (get nodes j)
  | Throws e => e = runtime_error /\ forall a b, free a -> free b -> a = b
  | OutOfFuel => False
  end.
Proof.
  intros leaf nodes. assert (0 <= 4) as Hcur by lia.
  split; [exact Hcur|]. exact (selectTwoMin_two_lightest nodes 4 Hcur).
Defined.

(** The codes are a prefix code over the characters: [Encode] throws
    [runtime_error] for a character that was not given and returns a
    code of one bit or more for one that was, and the code of one
    character is never the beginning of the code of another. *)
Theorem Huffman_prefix_code (chars : list ascii) (weights : list Z) :
  len chars = len weights -> 2 <= len chars < 2 ^ 30 ->
  exists t,
    Huffman.create chars weights = Returns t /\
    (forall c, c ∉ chars -> Huffman.Encode t c = Throws runtime_error) /\
    (forall c, c ∈ chars ->
       exists code, Huffman.Encode t c = Returns code /\ code <> [] /\
                    Forall (fun b => b = "0"%char \/ b = "1"%char) code) /\
    (forall c c' code code',
       Huffman.Encode t c = Returns code -> Huffman.Encode t c' = Returns code' ->
       code `prefix_of` code' -> c = c').
Proof.
  intros Hsame Hn.
  destruct (Huffman.create_codes chars weights Hsame Hn) as (t & Ht & Hdom & Hbits & Hprefix).
  exists t. split; [done|].
  assert (forall c code, Huffman.Encode t c = Returns code ->
                         Huffman.codeOf t !! c = Some code) as Henc.
  { intros c code. unfold Huffman.Encode. destruct (Huffman.codeOf t !! c); [|done].
    by intros [= ->]. }
  split; [|split].
  - intros c Hc. unfold Huffman.Encode.
    destruct (Huffman.codeOf t !! c) as [code|] eqn:Hl; [|done].
    destruct Hc. apply Hdom. by exists code.
  - intros c [code Hc]%Hdom. exists code. unfold Huffman.Encode. rewrite Hc.
    split; [done|]. by apply (Hbits c).
  - intros c c' code code' Hc%Henc Hc'%Henc. by apply Hprefix.
Qed.

Lemma Huffman_prefix_code_witness :
  let chars := Huffman.chars_of "CAST" in
  let weights := [2; 7; 4; 5] in
  len chars = len weights /\ 2 <= len chars < 2 ^ 30 /\
  exists t,
    Huffman.create chars weights = Returns t /\
    (forall c, c ∉ chars -> Huffman.Encode t c = Throws runtime_error) /\
    (forall c, c ∈ chars ->
       exists code, Huffman.Encode t c = Returns code /\ code <> [] /\
                    Forall (fun b => b = "0"%char \/ b = "1"%char) code) /\
    (forall c c' code code',
       Huffman.Encode t c = Returns code -> Huffman.Encode t c' = Returns code' ->
       code `prefix_of` code' -> c = c').
Proof.
  intros chars weights.
  assert (len chars = len weights) as Hsame by reflexivity.
  assert (2 <= len chars < 2 ^ 30) as Hn by (unfold len; simpl; lia).
  split; [exact Hsame|]. split; [exact Hn|].
  exact (Huffman_prefix_code chars weights Hsame Hn).
Defined.

(** When the characters are distinct and the weight of each is the
    number of its occurrences in a text: with two characters or more,
    [WPL] returns the number of bits of the encoded text; with one
    character, whose leaf is the root, [WPL] returns 0 while the encoded
    text has one bit for each character. *)
Theorem WPL_is_encoded_length (chars : list ascii) (weights : list Z) (text : list ascii) :
  len chars = len weights -> 1 <= len chars -> NoDup chars ->
  len text < 2 ^ 31 ->
  (forall c, c ∈ text -> c ∈ chars) ->
  (forall k, 0 <= k < len chars ->
             get weights k = Huffman.occurrences (get chars k) text) ->
  exists t bits,
    Huffman.create chars weights = Returns t /\
    Huffman.EncodeString t text = Returns bits /\
    (2 <= len chars -> Huffman.WPL t = Returns (len bits)) /\
    (len chars = 1 -> Huffman.WPL t = Returns 0 /\ len bits = len text).
Proof.
  intros Hsame Hn Hnodup Hshort Htext Hfreq.
  pose proof (Huffman.NoDup_ascii_length chars Hnodup) as Hsmall.
  destruct (Z_le_gt_dec 2 (len chars)) as [Htwo|Hone].
  - destruct (Huffman.WPL_encoded_length chars weights text Hsame ltac:(lia) Hnodup
                Hshort Htext Hfreq) as (t & bits & Ht & Hbits & Hwpl).
    exists t, bits. split; [done|]. split; [done|]. split; [done | lia].
  - destruct chars as [|c [|c' chars]]; [by unfold len in Hn | | unfold len in Hone; simpl in Hone; lia].
    destruct weights as [|w [|w' weights]]; [done | | unfold len in Hsame; simpl in Hsame; lia].
    destruct (Huffman.WPL_single c w text) as (bits & Hbits & Hlen & Hwpl).
    { intros x Hx. by apply Htext, list_elem_of_singleton in Hx. }
    exists (Huffman.single c w), bits. split; [apply Huffman.create_single|].
    split; [done|]. split; [unfold len; simpl; lia | done].
Qed.

Lemma WPL_is_encoded_length_witness :
  let chars := Huffman.chars_of "CAST" in
  let weights := [2; 7; 4; 5] in
  let text := Huffman.chars_of "CASTCASTSATATATASA" in
  len chars = len weights /\ 1 <= len chars /\ NoDup chars /\
  len text < 2 ^ 31 /\
  (forall c, c ∈ text -> c ∈ chars) /\
  (forall k, 0 <= k < len chars ->
             get weights k = Huffman.occurrences (get chars k) text) /\
  exists t bits,
    Huffman.create chars weights = Returns t /\
    Huffman.EncodeString t text = Returns bits /\
    (2 <= len chars -> Huffman.WPL t = Returns (len bits)) /\
    (len chars = 1 -> Huffman.WPL t = Returns 0 /\ len bits = len text).
Proof.
  intros chars weights text.
  assert (len chars = len weights) as Hsame by reflexivity.
  assert (1 <= len chars) as Hn by (unfold len; simpl; lia).
  assert (NoDup chars) as Hnd
    by (apply (bool_decide_unpack (NoDup chars)); vm_compute; exact I).
  assert (len text < 2 ^ 31) as Hshort by (unfold len; simpl; lia).
  assert (forall c, c ∈ text -> c ∈ chars) as Htext.
  { apply Forall_forall. apply (bool_decide_unpack (Forall (fun c => c ∈ chars) text)).
    vm_compute. exact I. }
  assert (forall k, 0 <= k < len chars ->
                    get weights k = Huffman.occurrences (get chars k) text) as Hfreq.
  { intros k Hk. unfold len in Hk. simpl in Hk.
    assert (k = 0 \/ k = 1 \/ k = 2 \/ k = 3) as [->|[->|[->| ->]]] by lia; reflexivity. }
  split; [exact Hsame|]. split; [exact Hn|]. split; [exact Hnd|]. split; [exact Hshort|].
  split; [exact Htext|]. split; [exact Hfreq|].
  exact (WPL_is_encoded_length chars weights text Hsame Hn Hnd Hshort Htext Hfreq).
Defined.

(** ** 串/串.cpp *)

(** [KMP_GetNext] returns the failure function: [next[0]] is -1 and
    [next[m]], for m from 1 to the length, is the length of the longest
    proper border of the first m characters of the pattern. *)
Theorem KMP_GetNext_failure_function (P : Str.CharString) :
  0 <= Str.Length P ->
  exists next, Str.KMP_GetNext P = Some next /\ get next 0 = -1 /\
               forall m, 1 <= m <= Str.Length P -> Str.next_ok P next m.
Proof. apply Str.KMP_GetNext_spec. Qed.

Lemma KMP_GetNext_failure_function_witness :
  let P := Str.CharString_of "ABAABCAC" in
  0 <= Str.Length P /\
  exists next, Str.KMP_GetNext P = Some next /\ get next 0 = -1 /\
               forall m, 1 <= m <= Str.Length P -> Str.next_ok P next m.
Proof.
  intros P. assert (0 <= Str.Length P) as HP by (vm_compute; congruence).
  split; [exact HP|]. exact (KMP_GetNext_failure_function P HP).
Defined.

(** [FindAll] returns every position at which the pattern occurs in the
    text, overlapping ones too, in increasing order, with either
    matcher. *)
Theorem FindAll_all_occurrences (T P : Str.CharString) (useKMP : bool) :
  0 < Str.Length P ->
  exists found, Str.FindAll T P useKMP = Some found /\
    StronglySorted Z.lt found /\ forall s, s ∈ found <-> Str.occurs_at T P s.
Proof. apply Str.FindAll_spec. Qed.

Lemma FindAll_all_occurrences_witness :
  let T := Str.CharString_of "abababa" in
  let P := Str.CharString_of "aba" in
  0 < Str.Length P /\
  exists found, Str.FindAll T P true = Some found /\
    StronglySorted Z.lt found /\ forall s, s ∈ found <-> Str.occurs_at T P s.
Proof.
  intros T P. assert (0 < Str.Length P) as HP by reflexivity.
  split; [exact HP|]. exact (FindAll_all_occurrences T P true HP).
Defined.

(** [SubString] cuts the two pieces of a concatenation out again:
    after [Concat], the first [Length a] characters are [a] and the
    [Length b] characters from [Length a] on are [b]. *)
Theorem SubString_undoes_Concat (fresh : list ascii) (a b : Str.CharString) :
  Str.proper a -> Str.proper b ->
  len fresh = Str.Length a + Str.Length b + 1 ->
  Str.Length a + Str.Length b + 1 <= INT_MAX ->
  let ab := Str.Concat fresh a b in
  Str.Length ab = Str.Length a + Str.Length b /\
  Str.text ab = Str.text a ++ Str.text b /\
  Str.SubString ab 0 (Str.Length a) = a /\
  Str.SubString ab (Str.Length a) (Str.Length b) = b.
Proof.
  intros Ha Hb Hfresh _ ab.
  destruct (Str.SubString_Concat fresh a b Ha Hb Hfresh) as (Hlen & Hfirst & Hsecond).
  split; [done|]. split; [by apply Str.Concat_text|]. done.
Qed.

Lemma SubString_undoes_Concat_witness :
  let fresh := replicate 12 "?"%char in
  let a := Str.CharString_of "Hello, " in
  let b := Str.CharString_of "Data" in
  Str.proper a /\ Str.proper b /\
  len fresh = Str.Length a + Str.Length b + 1 /\
  Str.Length a + Str.Length b + 1 <= INT_MAX /\
  let ab := Str.Concat fresh a b in
  Str.Length ab = Str.Length a + Str.Length b /\
  Str.text ab = Str.text a ++ Str.text b /\
  Str.SubString ab 0 (Str.Length a) = a /\
  Str.SubString ab (Str.Length a) (Str.Length b) = b.
Proof.
  intros fresh a b.
  assert (Str.proper a) as Ha by apply Str.CharString_of_chars_proper.
  assert (Str.proper b) as Hb by apply Str.CharString_of_chars_proper.
  assert (len fresh = Str.Length a + Str.Length b + 1) as Hfresh by reflexivity.
  assert (Str.Length a + Str.Length b + 1 <= INT_MAX) as Hmax by (vm_compute; congruence).
  split; [exact Ha|]. split; [exact Hb|]. split; [exact Hfresh|]. split; [exact Hmax|].
  exact (SubString_undoes_Concat fresh a b Ha Hb Hfresh Hmax).
Defined.

(** The editor's [FindString] moves the cursor to the first line, from
    the current one on, in which the pattern occurs, and leaves it where
    it is when no such line has it; the text is not changed. *)
Theorem FindString_first_match (io : Editor.console) (e : Editor.Editor) :
  1 <= Editor.curLineNo e -> 0 < Str.Length (Editor.Read (Editor.in_line1 io)) ->
  let pat := Editor.Read (Editor.in_line1 io) in
  let n := DblLinkList.Length (Editor.textBuffer e) in
  exists e', Editor.FindString io e = Some e' /\
    Editor.textBuffer e' = Editor.textBuffer e /\
    ((Editor.curLineNo e <= Editor.curLineNo e' <= n /\
      Editor.contains (Editor.line_at e (Editor.curLineNo e')) pat /\
      forall j, Editor.curLineNo e <= j < Editor.curLineNo e' ->
                ~ Editor.contains (Editor.line_at e j) pat)
     \/ (Editor.curLineNo e' = Editor.curLineNo e /\
         forall j, Editor.curLineNo e <= j <= n ->
                   ~ Editor.contains (Editor.line_at e j) pat)).
Proof. apply Editor.FindString_first. Qed.

Lemma FindString_first_match_witness :
  let io := {| Editor.in_number := Some 0; Editor.in_line1 := "man";
               Editor.in_line2 := EmptyString; Editor.in_yes := Some false;
               Editor.infile := None |} in
  let e := {| Editor.textBuffer := [Str.CharString_of "A mission"; Str.CharString_of "a man"];
              Editor.curLineNo := 1; Editor.userCommand := "f"%char |} in
  1 <= Editor.curLineNo e /\ 0 < Str.Length (Editor.Read (Editor.in_line1 io)) /\
  let pat := Editor.Read (Editor.in_line1 io) in
  let n := DblLinkList.Length (Editor.textBuffer e) in
  exists e', Editor.FindString io e = Some e' /\
    Editor.textBuffer e' = Editor.textBuffer e /\
    ((Editor.curLineNo e <= Editor.curLineNo e' <= n /\
      Editor.contains (Editor.line_at e (Editor.curLineNo e')) pat /\
      forall j, Editor.curLineNo e <= j < Editor.curLineNo e' ->
                ~ Editor.contains (Editor.line_at e j) pat)
     \/ (Editor.curLineNo e' = Editor.curLineNo e /\
         forall j, Editor.curLineNo e <= j <= n ->
                   ~ Editor.contains (Editor.line_at e j) pat)).
Proof.
  intros io e.
  assert (1 <= Editor.curLineNo e) as Hcur by (simpl; lia).
  assert (0 < Str.Length (Editor.Read (Editor.in_line1 io))) as Hpat by reflexivity.
  split; [exact Hcur|]. split; [exact Hpat|].
  exact (FindString_first_match io e Hcur Hpat).
Defined.

(** ** 排序/交换排序.cpp and 排序/基数排序.cpp *)

(** [Partition] returns the final place of the pivot: the elements from
    [low] to [high] are permuted so that none before the pivot is larger
    and none after it smaller, and the rest of the array is untouched. *)
Theorem Partition_places_pivot (a : list Z) (lo hi : Z) :
  0 <= lo -> lo <= hi -> hi < len a ->
  exists a' p, ExchangeSort.Partition a lo hi = Some (a', p) /\
    lo <= p <= hi /\ Permutation a' a /\ same_outside lo hi a a' /\
    (forall k, lo <= k < p -> get a' k <= get a' p) /\
    (forall k, p < k <= hi -> get a' p <= get a' k).
Proof. apply ExchangeSort.Partition_spec. Qed.

Lemma Partition_places_pivot_witness :
  let a := [49; 38; 65; 97; 76; 13; 27] in
  0 <= 1 /\ 1 <= 5 /\ 5 < len a /\
  exists a' p, ExchangeSort.Partition a 1 5 = Some (a', p) /\
    1 <= p <= 5 /\ Permutation a' a /\ same_outside 1 5 a a' /\
    (forall k, 1 <= k < p -> get a' k <= get a' p) /\
    (forall k, p < k <= 5 -> get a' p <= get a' k).
Proof.
  intros a. assert (0 <= 1) as H0 by lia. assert (1 <= 5) as H1 by lia.
  assert (5 < len a) as H2 by reflexivity.
  split; [exact H0|]. split; [exact H1|]. split; [exact H2|].
  exact (Partition_places_pivot a 1 5 H0 H1 H2).
Defined.

(** [QuickSort(elem, low, high)] sorts the elements from [low] to
    [high] among themselves and leaves the rest of the array untouched. *)
Theorem QuickSort_sorts_segment (fuel : nat) (a : list Z) (lo hi : Z) :
  0 <= lo -> hi < len a -> hi - lo < Z.of_nat fuel -> (0 < fuel)%nat ->
  exists a', ExchangeSort.QuickSort_rec fuel a lo hi = Some a' /\
    Permutation a' a /\ same_outside lo hi a a' /\
    forall i j, lo <= i -> i < j -> j <= hi -> get a' i <= get a' j.
Proof. intros. by apply ExchangeSort.QuickSort_rec_spec. Qed.

Lemma QuickSort_sorts_segment_witness :
  let a := [49; 38; 65; 97; 76; 13; 27] in
  0 <= 1 /\ 5 < len a /\ 5 - 1 < Z.of_nat 5 /\ (0 < 5)%nat /\
  exists a', ExchangeSort.QuickSort_rec 5 a 1 5 = Some a' /\
    Permutation a' a /\ same_outside 1 5 a a' /\
    forall i j, 1 <= i -> i < j -> j <= 5 -> get a' i <= get a' j.
Proof.
  intros a. assert (0 <= 1) as H0 by lia. assert (5 < len a) as H1 by reflexivity.
  assert (5 - 1 < Z.of_nat 5) as H2 by lia. assert (0 < 5)%nat as H3 by lia.
  split; [exact H0|]. split; [exact H1|]. split; [exact H2|]. split; [exact H3|].
  exact (QuickSort_sorts_segment 5 a 1 5 H0 H1 H2 H3).
Defined.

(** [RadixSortLSD] leaves an array of at most one element as it is,
    whatever the radix; on a longer one it throws [invalid_argument]
    when the radix is below 2 or some element is negative. *)
Theorem RadixSortLSD_refusals (A : list Z) (radix : Z) :
  (len A <= 1 -> RadixSort.RadixSortLSD A (len A) radix = Returns A) /\
  (1 < len A -> radix <= 1 \/ (exists x, x ∈ A /\ x < 0) ->
   RadixSort.RadixSortLSD A (len A) radix = Throws invalid_argument).
Proof. apply RadixSort.RadixSortLSD_refuses. Qed.
